(** * The graph optimiser back end (backend/problem.cc)

    A shallow embedding of [myslam::backend::Problem]: the factor graph
    store, the ordering assigner, the Hessian assemblers, the linear
    solvers, the Levenberg-Marquardt and Dog-Leg drivers, the state updater
    and the block moves and the last stage of the marginaliser.

    Modelling conventions.
    - [double] values are idealised as real numbers ([R]); arithmetic is
      exact.  [isfinite] is read as the bound by the largest double.  A
      quotient is the real quotient, so statements that depend on one
      assume its divisor is not zero.
    - Integer counters ([ulong], [int]) are unbounded integers ([Z]); the
      statements hold as long as no counter leaves the machine range.
    - Eigen's [VecX] and [MatXX] are coefficient functions with their sizes.
      Eigen's decompositions ([ldlt().solve], [inverse],
      [SelfAdjointEigenSolver]) are parameters of the development.
    - A [shared_ptr<Vertex>] is the vertex id: the vertex objects live in
      one store keyed by id, and every map of the problem and every edge
      refers to them through that store.
    - A [std::map] is the list of its entries in ascending key order.
    - The functions of the first part are the values the methods compute:
      an [assert] does not change a value, and its condition is stated as a
      predicate where a statement is about it.  The run of a call, which a
      failed [assert] or a call through a null pointer ends, is the module
      [Run]: its functions return [None] when the run is ended, and the
      value of the function of the same name when it goes on.
    - [MakeHessian] calls the thread-pool assembler.  Its value is the
      system of the sequential assembler; [Run.MakeHessian] is the
      thread-pool assembler with its member [edges_idx_] and its
      assertions, the worker threads run one after the other, each to its
      end.
    - Timing and logging are not modelled. *)

From Stdlib Require Import Reals Lra Lia ZArith NArith List String Bool Permutation.
From Stdlib Require Import FunctionalExtensionality.
Import ListNotations.

Local Open Scope Z_scope.
Local Open Scope R_scope.

(** ** Scalars *)

(** [std::min(a, b)] returns [b] when [b < a], otherwise [a]. *)
Definition std_min (a b : R) : R := if Rlt_dec b a then b else a.

(** [std::max(a, b)] returns [b] when [a < b], otherwise [a]. *)
Definition std_max (a b : R) : R := if Rlt_dec a b then b else a.

(** The largest finite double, (2 - 2^-52) * 2^1023. *)
Definition DBL_MAX : R := IZR (2 ^ 1024 - 2 ^ 971).

(** [isfinite(x)] on the real value a double stands for. *)
Definition isfinite (x : R) : bool :=
  if Rle_dec (Rabs x) DBL_MAX then true else false.

Definition Rltb (a b : R) : bool := if Rlt_dec a b then true else false.
Definition Rleb (a b : R) : bool := if Rle_dec a b then true else false.
Definition Reqb (a b : R) : bool := if Req_dec_T a b then true else false.

(** ** Vectors and matrices *)

Record VecX := mkVec { vsize : Z; vcoef : Z -> R }.
Record MatXX := mkMat { rows : Z; cols : Z; coef : Z -> Z -> R }.

(** Sum of [f 0 .. f (n-1)]. *)
Fixpoint sum_upto (n : nat) (f : Z -> R) : R :=
  match n with
  | O => 0
  | S m => sum_upto m f + f (Z.of_nat m)
  end.

Definition sumZ (n : Z) (f : Z -> R) : R := sum_upto (Z.to_nat n) f.

(** [lo <= i < lo + len] *)
Definition in_range (lo len i : Z) : bool := (lo <=? i)%Z && (i <? lo + len)%Z.

Definition vec_zero (n : Z) : VecX := mkVec n (fun _ => 0).
Definition vec_add (u v : VecX) : VecX :=
  mkVec (vsize u) (fun i => vcoef u i + vcoef v i).
Definition vec_sub (u v : VecX) : VecX :=
  mkVec (vsize u) (fun i => vcoef u i - vcoef v i).
Definition vec_scale (a : R) (v : VecX) : VecX :=
  mkVec (vsize v) (fun i => a * vcoef v i).
Definition vec_div (v : VecX) (a : R) : VecX :=
  mkVec (vsize v) (fun i => vcoef v i / a).
Definition vec_neg (v : VecX) : VecX := mkVec (vsize v) (fun i => - vcoef v i).
Definition dot (u v : VecX) : R := sumZ (vsize u) (fun i => vcoef u i * vcoef v i).
Definition squaredNorm (v : VecX) : R := dot v v.
Definition norm (v : VecX) : R := sqrt (squaredNorm v).

(** [v.segment(i, n)], [v.head(n)], [v.tail(n)] *)
Definition segment (v : VecX) (i n : Z) : VecX :=
  mkVec n (fun k => vcoef v (i + k)%Z).
Definition head (v : VecX) (n : Z) : VecX := segment v 0 n.
Definition tail (v : VecX) (n : Z) : VecX := segment v (vsize v - n) n.

(** [v.segment(i, n) = w], [v.segment(i, n) += w], [v.segment(i, n) -= w] *)
Definition segment_set (v : VecX) (i n : Z) (w : VecX) : VecX :=
  mkVec (vsize v) (fun k => if in_range i n k then vcoef w (k - i)%Z else vcoef v k).
Definition segment_add (v : VecX) (i n : Z) (w : VecX) : VecX :=
  mkVec (vsize v)
        (fun k => if in_range i n k then vcoef v k + vcoef w (k - i)%Z else vcoef v k).
Definition segment_sub (v : VecX) (i n : Z) (w : VecX) : VecX :=
  mkVec (vsize v)
        (fun k => if in_range i n k then vcoef v k - vcoef w (k - i)%Z else vcoef v k).
Definition head_set (v : VecX) (n : Z) (w : VecX) : VecX := segment_set v 0 n w.
Definition tail_set (v : VecX) (n : Z) (w : VecX) : VecX :=
  segment_set v (vsize v - n) n w.

(** Coefficient-wise [u == v] of two vectors of the size of [u]. *)
Fixpoint coefs_eqb (n : nat) (u v : Z -> R) : bool :=
  match n with
  | O => true
  | S m => coefs_eqb m u v && Reqb (u (Z.of_nat m)) (v (Z.of_nat m))
  end.
Definition vec_eqb (u v : VecX) : bool := coefs_eqb (Z.to_nat (vsize u)) (vcoef u) (vcoef v).

Definition mat_zero (r c : Z) : MatXX := mkMat r c (fun _ _ => 0).
Definition transpose (A : MatXX) : MatXX :=
  mkMat (cols A) (rows A) (fun i j => coef A j i).
Definition mat_add (A B : MatXX) : MatXX :=
  mkMat (rows A) (cols A) (fun i j => coef A i j + coef B i j).
Definition mat_sub (A B : MatXX) : MatXX :=
  mkMat (rows A) (cols A) (fun i j => coef A i j - coef B i j).
Definition mat_scale (a : R) (A : MatXX) : MatXX :=
  mkMat (rows A) (cols A) (fun i j => a * coef A i j).
Definition mat_neg (A : MatXX) : MatXX :=
  mkMat (rows A) (cols A) (fun i j => - coef A i j).
Definition mat_mul (A B : MatXX) : MatXX :=
  mkMat (rows A) (cols B) (fun i j => sumZ (cols A) (fun k => coef A i k * coef B k j)).
Definition mat_vec (A : MatXX) (v : VecX) : VecX :=
  mkVec (rows A) (fun i => sumZ (cols A) (fun k => coef A i k * vcoef v k)).

(** [v.asDiagonal()] *)
Definition asDiagonal (v : VecX) : MatXX :=
  mkMat (vsize v) (vsize v) (fun i j => if (i =? j)%Z then vcoef v i else 0).

(** [M.block(r, c, h, w)] *)
Definition block (M : MatXX) (r c h w : Z) : MatXX :=
  mkMat h w (fun i j => coef M (r + i)%Z (c + j)%Z).

(** [M.block(r, c, h, w) += B], [... = B], [... .setZero()] *)
Definition block_add (M : MatXX) (r c h w : Z) (B : MatXX) : MatXX :=
  mkMat (rows M) (cols M)
        (fun i j => if in_range r h i && in_range c w j
                    then coef M i j + coef B (i - r)%Z (j - c)%Z
                    else coef M i j).
Definition block_set (M : MatXX) (r c h w : Z) (B : MatXX) : MatXX :=
  mkMat (rows M) (cols M)
        (fun i j => if in_range r h i && in_range c w j
                    then coef B (i - r)%Z (j - c)%Z
                    else coef M i j).
Definition block_setZero (M : MatXX) (r c h w : Z) : MatXX :=
  block_set M r c h w (mat_zero h w).

(** [M(i, i) += a] for [0 <= i < n] *)
Definition diag_add (M : MatXX) (n : Z) (a : R) : MatXX :=
  mkMat (rows M) (cols M)
        (fun i j => if (i =? j)%Z && in_range 0 n i then coef M i j + a else coef M i j).

(** [M] is square and equal to its transpose. *)
Definition symmetric (M : MatXX) : Prop :=
  rows M = cols M
  /\ forall i j, (0 <= i < rows M)%Z -> (0 <= j < rows M)%Z -> coef M i j = coef M j i.

(** ** Vertices *)

(** Modelled from the spec: the Vertex class (backend/vertex.h) is not part
    of the sources.  A vertex is what the problem reads from it: its type
    tag, its local dimension, its fixed flag, its ordering id (-1 when
    unassigned), its parameters with their backup and its retraction; its
    id is its key in the store. *)
Record Vertex := mkVertex {
  v_type : string;                   (* TypeInfo() *)
  v_local_dimension : Z;             (* LocalDimension() *)
  v_fixed : bool;                    (* IsFixed() *)
  v_ordering_id : Z;                 (* OrderingId() *)
  v_parameters : VecX;
  v_parameters_backup : VecX;
  v_plus : VecX -> VecX -> VecX      (* the retraction of the vertex type *)
}.

(** Modelled from the spec: the Vertex class (backend/vertex.h) is not part
    of the sources.  [SetOrderingId] stores the offset. *)
Definition SetOrderingId (id : Z) (v : Vertex) : Vertex :=
  mkVertex (v_type v) (v_local_dimension v) (v_fixed v) id
           (v_parameters v) (v_parameters_backup v) (v_plus v).

(** Modelled from the spec: the Vertex class is not part of the sources.
    [back_up] saves the current parameters. *)
Definition BackUpParameters (v : Vertex) : Vertex :=
  mkVertex (v_type v) (v_local_dimension v) (v_fixed v) (v_ordering_id v)
           (v_parameters v) (v_parameters v) (v_plus v).

(** Modelled from the spec: the Vertex class is not part of the sources.
    [roll_back] restores the parameters from the backup. *)
Definition RollBackParameters (v : Vertex) : Vertex :=
  mkVertex (v_type v) (v_local_dimension v) (v_fixed v) (v_ordering_id v)
           (v_parameters_backup v) (v_parameters_backup v) (v_plus v).

(** Modelled from the spec: the Vertex class is not part of the sources.
    [plus(delta)] applies the retraction of the vertex type. *)
Definition Plus (delta : VecX) (v : Vertex) : Vertex :=
  mkVertex (v_type v) (v_local_dimension v) (v_fixed v) (v_ordering_id v)
           (v_plus v (v_parameters v) delta) (v_parameters_backup v) (v_plus v).

(** The vertex objects, keyed by id ([Id()] of the object at key [k] is [k]). *)
Definition VertexStore := N -> Vertex.

Definition store_update (st : VertexStore) (id : N) (f : Vertex -> Vertex) : VertexStore :=
  fun k => if (k =? id)%N then f (st k) else st k.

(** ** Edges *)

(** Modelled from the spec: the Edge class (backend/edge.h) is not part of
    the sources.  An edge is its id, its vertices, its information matrix
    and what its methods return at the current values of the vertices. *)
Record Edge := mkEdge {
  e_id : N;
  e_verticies : list N;                        (* Verticies() *)
  e_information : MatXX;                       (* Information() *)
  e_residual : VertexStore -> VecX;            (* ComputeResidual(); Residual() *)
  e_jacobians : VertexStore -> list MatXX;     (* ComputeJacobians(); Jacobians() *)
  e_robust_info : VertexStore -> R * MatXX;    (* RobustInfo(drho, info) *)
  e_robust_chi2 : VertexStore -> R             (* RobustChi2() *)
}.

(** ** The problem *)

(** Modelled from the spec: the declaration of the class (backend/problem.h)
    is not part of the sources; the two modes and the members below are
    those problem.cc uses. *)
Inductive ProblemType := SLAM_PROBLEM | GENERIC_PROBLEM.

Definition is_slam (t : ProblemType) : bool :=
  match t with SLAM_PROBLEM => true | GENERIC_PROBLEM => false end.

(** The members of [Problem] that problem.cc reads or writes, with
    [vertex_store] for the vertex objects its shared pointers refer to. *)
Record Problem := mkProblem {
  problemType_ : ProblemType;
  vertex_store : VertexStore;
  verticies_ : list N;
  edges_ : list Edge;
  vertexToEdge_ : list (N * Edge);
  idx_pose_vertices_ : list N;
  idx_landmark_vertices_ : list N;
  ordering_poses_ : Z;
  ordering_landmarks_ : Z;
  ordering_generic_ : Z;
  Hessian_ : MatXX;
  b_ : VecX;
  delta_x_ : VecX;
  H_prior_ : MatXX;
  b_prior_ : VecX;
  b_prior_backup_ : VecX;
  err_prior_ : VecX;
  err_prior_backup_ : VecX;
  Jt_prior_inv_ : MatXX;
  currentLambda_ : R;
  currentChi_ : R;
  stopThresholdLM_ : R;
  ni_ : R;
  currentRadius_ : R;
  stopThresholdDogLeg_ : R;
  alpha_ : R;
  beta_ : R;
  h_gn_ : VecX;
  h_sd_ : VecX;
  h_dl_ : VecX
}.

Definition set_problemType_ (x : ProblemType) (p : Problem) : Problem :=
  mkProblem x (vertex_store p) (verticies_ p) (edges_ p) (vertexToEdge_ p)
    (idx_pose_vertices_ p) (idx_landmark_vertices_ p) (ordering_poses_ p)
    (ordering_landmarks_ p) (ordering_generic_ p) (Hessian_ p) (b_ p)
    (delta_x_ p) (H_prior_ p) (b_prior_ p) (b_prior_backup_ p) (err_prior_ p)
    (err_prior_backup_ p) (Jt_prior_inv_ p) (currentLambda_ p) (currentChi_ p)
    (stopThresholdLM_ p) (ni_ p) (currentRadius_ p) (stopThresholdDogLeg_ p)
    (alpha_ p) (beta_ p) (h_gn_ p) (h_sd_ p) (h_dl_ p).

Definition set_vertex_store (x : VertexStore) (p : Problem) : Problem :=
  mkProblem (problemType_ p) x (verticies_ p) (edges_ p) (vertexToEdge_ p)
    (idx_pose_vertices_ p) (idx_landmark_vertices_ p) (ordering_poses_ p)
    (ordering_landmarks_ p) (ordering_generic_ p) (Hessian_ p) (b_ p)
    (delta_x_ p) (H_prior_ p) (b_prior_ p) (b_prior_backup_ p) (err_prior_ p)
    (err_prior_backup_ p) (Jt_prior_inv_ p) (currentLambda_ p) (currentChi_ p)
    (stopThresholdLM_ p) (ni_ p) (currentRadius_ p) (stopThresholdDogLeg_ p)
    (alpha_ p) (beta_ p) (h_gn_ p) (h_sd_ p) (h_dl_ p).

Definition set_verticies_ (x : list N) (p : Problem) : Problem :=
  mkProblem (problemType_ p) (vertex_store p) x (edges_ p) (vertexToEdge_ p)
    (idx_pose_vertices_ p) (idx_landmark_vertices_ p) (ordering_poses_ p)
    (ordering_landmarks_ p) (ordering_generic_ p) (Hessian_ p) (b_ p)
    (delta_x_ p) (H_prior_ p) (b_prior_ p) (b_prior_backup_ p) (err_prior_ p)
    (err_prior_backup_ p) (Jt_prior_inv_ p) (currentLambda_ p) (currentChi_ p)
    (stopThresholdLM_ p) (ni_ p) (currentRadius_ p) (stopThresholdDogLeg_ p)
    (alpha_ p) (beta_ p) (h_gn_ p) (h_sd_ p) (h_dl_ p).

Definition set_edges_ (x : list Edge) (p : Problem) : Problem :=
  mkProblem (problemType_ p) (vertex_store p) (verticies_ p) x (vertexToEdge_
    p) (idx_pose_vertices_ p) (idx_landmark_vertices_ p) (ordering_poses_ p)
    (ordering_landmarks_ p) (ordering_generic_ p) (Hessian_ p) (b_ p)
    (delta_x_ p) (H_prior_ p) (b_prior_ p) (b_prior_backup_ p) (err_prior_ p)
    (err_prior_backup_ p) (Jt_prior_inv_ p) (currentLambda_ p) (currentChi_ p)
    (stopThresholdLM_ p) (ni_ p) (currentRadius_ p) (stopThresholdDogLeg_ p)
    (alpha_ p) (beta_ p) (h_gn_ p) (h_sd_ p) (h_dl_ p).

Definition set_vertexToEdge_ (x : list (N * Edge)) (p : Problem) : Problem :=
  mkProblem (problemType_ p) (vertex_store p) (verticies_ p) (edges_ p) x
    (idx_pose_vertices_ p) (idx_landmark_vertices_ p) (ordering_poses_ p)
    (ordering_landmarks_ p) (ordering_generic_ p) (Hessian_ p) (b_ p)
    (delta_x_ p) (H_prior_ p) (b_prior_ p) (b_prior_backup_ p) (err_prior_ p)
    (err_prior_backup_ p) (Jt_prior_inv_ p) (currentLambda_ p) (currentChi_ p)
    (stopThresholdLM_ p) (ni_ p) (currentRadius_ p) (stopThresholdDogLeg_ p)
    (alpha_ p) (beta_ p) (h_gn_ p) (h_sd_ p) (h_dl_ p).

Definition set_idx_pose_vertices_ (x : list N) (p : Problem) : Problem :=
  mkProblem (problemType_ p) (vertex_store p) (verticies_ p) (edges_ p)
    (vertexToEdge_ p) x (idx_landmark_vertices_ p) (ordering_poses_ p)
    (ordering_landmarks_ p) (ordering_generic_ p) (Hessian_ p) (b_ p)
    (delta_x_ p) (H_prior_ p) (b_prior_ p) (b_prior_backup_ p) (err_prior_ p)
    (err_prior_backup_ p) (Jt_prior_inv_ p) (currentLambda_ p) (currentChi_ p)
    (stopThresholdLM_ p) (ni_ p) (currentRadius_ p) (stopThresholdDogLeg_ p)
    (alpha_ p) (beta_ p) (h_gn_ p) (h_sd_ p) (h_dl_ p).

Definition set_idx_landmark_vertices_ (x : list N) (p : Problem) : Problem :=
  mkProblem (problemType_ p) (vertex_store p) (verticies_ p) (edges_ p)
    (vertexToEdge_ p) (idx_pose_vertices_ p) x (ordering_poses_ p)
    (ordering_landmarks_ p) (ordering_generic_ p) (Hessian_ p) (b_ p)
    (delta_x_ p) (H_prior_ p) (b_prior_ p) (b_prior_backup_ p) (err_prior_ p)
    (err_prior_backup_ p) (Jt_prior_inv_ p) (currentLambda_ p) (currentChi_ p)
    (stopThresholdLM_ p) (ni_ p) (currentRadius_ p) (stopThresholdDogLeg_ p)
    (alpha_ p) (beta_ p) (h_gn_ p) (h_sd_ p) (h_dl_ p).

Definition set_ordering_poses_ (x : Z) (p : Problem) : Problem :=
  mkProblem (problemType_ p) (vertex_store p) (verticies_ p) (edges_ p)
    (vertexToEdge_ p) (idx_pose_vertices_ p) (idx_landmark_vertices_ p) x
    (ordering_landmarks_ p) (ordering_generic_ p) (Hessian_ p) (b_ p)
    (delta_x_ p) (H_prior_ p) (b_prior_ p) (b_prior_backup_ p) (err_prior_ p)
    (err_prior_backup_ p) (Jt_prior_inv_ p) (currentLambda_ p) (currentChi_ p)
    (stopThresholdLM_ p) (ni_ p) (currentRadius_ p) (stopThresholdDogLeg_ p)
    (alpha_ p) (beta_ p) (h_gn_ p) (h_sd_ p) (h_dl_ p).

Definition set_ordering_landmarks_ (x : Z) (p : Problem) : Problem :=
  mkProblem (problemType_ p) (vertex_store p) (verticies_ p) (edges_ p)
    (vertexToEdge_ p) (idx_pose_vertices_ p) (idx_landmark_vertices_ p)
    (ordering_poses_ p) x (ordering_generic_ p) (Hessian_ p) (b_ p) (delta_x_
    p) (H_prior_ p) (b_prior_ p) (b_prior_backup_ p) (err_prior_ p)
    (err_prior_backup_ p) (Jt_prior_inv_ p) (currentLambda_ p) (currentChi_ p)
    (stopThresholdLM_ p) (ni_ p) (currentRadius_ p) (stopThresholdDogLeg_ p)
    (alpha_ p) (beta_ p) (h_gn_ p) (h_sd_ p) (h_dl_ p).

Definition set_ordering_generic_ (x : Z) (p : Problem) : Problem :=
  mkProblem (problemType_ p) (vertex_store p) (verticies_ p) (edges_ p)
    (vertexToEdge_ p) (idx_pose_vertices_ p) (idx_landmark_vertices_ p)
    (ordering_poses_ p) (ordering_landmarks_ p) x (Hessian_ p) (b_ p)
    (delta_x_ p) (H_prior_ p) (b_prior_ p) (b_prior_backup_ p) (err_prior_ p)
    (err_prior_backup_ p) (Jt_prior_inv_ p) (currentLambda_ p) (currentChi_ p)
    (stopThresholdLM_ p) (ni_ p) (currentRadius_ p) (stopThresholdDogLeg_ p)
    (alpha_ p) (beta_ p) (h_gn_ p) (h_sd_ p) (h_dl_ p).

Definition set_Hessian_ (x : MatXX) (p : Problem) : Problem :=
  mkProblem (problemType_ p) (vertex_store p) (verticies_ p) (edges_ p)
    (vertexToEdge_ p) (idx_pose_vertices_ p) (idx_landmark_vertices_ p)
    (ordering_poses_ p) (ordering_landmarks_ p) (ordering_generic_ p) x (b_ p)
    (delta_x_ p) (H_prior_ p) (b_prior_ p) (b_prior_backup_ p) (err_prior_ p)
    (err_prior_backup_ p) (Jt_prior_inv_ p) (currentLambda_ p) (currentChi_ p)
    (stopThresholdLM_ p) (ni_ p) (currentRadius_ p) (stopThresholdDogLeg_ p)
    (alpha_ p) (beta_ p) (h_gn_ p) (h_sd_ p) (h_dl_ p).

Definition set_b_ (x : VecX) (p : Problem) : Problem :=
  mkProblem (problemType_ p) (vertex_store p) (verticies_ p) (edges_ p)
    (vertexToEdge_ p) (idx_pose_vertices_ p) (idx_landmark_vertices_ p)
    (ordering_poses_ p) (ordering_landmarks_ p) (ordering_generic_ p)
    (Hessian_ p) x (delta_x_ p) (H_prior_ p) (b_prior_ p) (b_prior_backup_ p)
    (err_prior_ p) (err_prior_backup_ p) (Jt_prior_inv_ p) (currentLambda_ p)
    (currentChi_ p) (stopThresholdLM_ p) (ni_ p) (currentRadius_ p)
    (stopThresholdDogLeg_ p) (alpha_ p) (beta_ p) (h_gn_ p) (h_sd_ p) (h_dl_
    p).

Definition set_delta_x_ (x : VecX) (p : Problem) : Problem :=
  mkProblem (problemType_ p) (vertex_store p) (verticies_ p) (edges_ p)
    (vertexToEdge_ p) (idx_pose_vertices_ p) (idx_landmark_vertices_ p)
    (ordering_poses_ p) (ordering_landmarks_ p) (ordering_generic_ p)
    (Hessian_ p) (b_ p) x (H_prior_ p) (b_prior_ p) (b_prior_backup_ p)
    (err_prior_ p) (err_prior_backup_ p) (Jt_prior_inv_ p) (currentLambda_ p)
    (currentChi_ p) (stopThresholdLM_ p) (ni_ p) (currentRadius_ p)
    (stopThresholdDogLeg_ p) (alpha_ p) (beta_ p) (h_gn_ p) (h_sd_ p) (h_dl_
    p).

Definition set_H_prior_ (x : MatXX) (p : Problem) : Problem :=
  mkProblem (problemType_ p) (vertex_store p) (verticies_ p) (edges_ p)
    (vertexToEdge_ p) (idx_pose_vertices_ p) (idx_landmark_vertices_ p)
    (ordering_poses_ p) (ordering_landmarks_ p) (ordering_generic_ p)
    (Hessian_ p) (b_ p) (delta_x_ p) x (b_prior_ p) (b_prior_backup_ p)
    (err_prior_ p) (err_prior_backup_ p) (Jt_prior_inv_ p) (currentLambda_ p)
    (currentChi_ p) (stopThresholdLM_ p) (ni_ p) (currentRadius_ p)
    (stopThresholdDogLeg_ p) (alpha_ p) (beta_ p) (h_gn_ p) (h_sd_ p) (h_dl_
    p).

Definition set_b_prior_ (x : VecX) (p : Problem) : Problem :=
  mkProblem (problemType_ p) (vertex_store p) (verticies_ p) (edges_ p)
    (vertexToEdge_ p) (idx_pose_vertices_ p) (idx_landmark_vertices_ p)
    (ordering_poses_ p) (ordering_landmarks_ p) (ordering_generic_ p)
    (Hessian_ p) (b_ p) (delta_x_ p) (H_prior_ p) x (b_prior_backup_ p)
    (err_prior_ p) (err_prior_backup_ p) (Jt_prior_inv_ p) (currentLambda_ p)
    (currentChi_ p) (stopThresholdLM_ p) (ni_ p) (currentRadius_ p)
    (stopThresholdDogLeg_ p) (alpha_ p) (beta_ p) (h_gn_ p) (h_sd_ p) (h_dl_
    p).

Definition set_b_prior_backup_ (x : VecX) (p : Problem) : Problem :=
  mkProblem (problemType_ p) (vertex_store p) (verticies_ p) (edges_ p)
    (vertexToEdge_ p) (idx_pose_vertices_ p) (idx_landmark_vertices_ p)
    (ordering_poses_ p) (ordering_landmarks_ p) (ordering_generic_ p)
    (Hessian_ p) (b_ p) (delta_x_ p) (H_prior_ p) (b_prior_ p) x (err_prior_
    p) (err_prior_backup_ p) (Jt_prior_inv_ p) (currentLambda_ p) (currentChi_
    p) (stopThresholdLM_ p) (ni_ p) (currentRadius_ p) (stopThresholdDogLeg_
    p) (alpha_ p) (beta_ p) (h_gn_ p) (h_sd_ p) (h_dl_ p).

Definition set_err_prior_ (x : VecX) (p : Problem) : Problem :=
  mkProblem (problemType_ p) (vertex_store p) (verticies_ p) (edges_ p)
    (vertexToEdge_ p) (idx_pose_vertices_ p) (idx_landmark_vertices_ p)
    (ordering_poses_ p) (ordering_landmarks_ p) (ordering_generic_ p)
    (Hessian_ p) (b_ p) (delta_x_ p) (H_prior_ p) (b_prior_ p)
    (b_prior_backup_ p) x (err_prior_backup_ p) (Jt_prior_inv_ p)
    (currentLambda_ p) (currentChi_ p) (stopThresholdLM_ p) (ni_ p)
    (currentRadius_ p) (stopThresholdDogLeg_ p) (alpha_ p) (beta_ p) (h_gn_ p)
    (h_sd_ p) (h_dl_ p).

Definition set_err_prior_backup_ (x : VecX) (p : Problem) : Problem :=
  mkProblem (problemType_ p) (vertex_store p) (verticies_ p) (edges_ p)
    (vertexToEdge_ p) (idx_pose_vertices_ p) (idx_landmark_vertices_ p)
    (ordering_poses_ p) (ordering_landmarks_ p) (ordering_generic_ p)
    (Hessian_ p) (b_ p) (delta_x_ p) (H_prior_ p) (b_prior_ p)
    (b_prior_backup_ p) (err_prior_ p) x (Jt_prior_inv_ p) (currentLambda_ p)
    (currentChi_ p) (stopThresholdLM_ p) (ni_ p) (currentRadius_ p)
    (stopThresholdDogLeg_ p) (alpha_ p) (beta_ p) (h_gn_ p) (h_sd_ p) (h_dl_
    p).

Definition set_Jt_prior_inv_ (x : MatXX) (p : Problem) : Problem :=
  mkProblem (problemType_ p) (vertex_store p) (verticies_ p) (edges_ p)
    (vertexToEdge_ p) (idx_pose_vertices_ p) (idx_landmark_vertices_ p)
    (ordering_poses_ p) (ordering_landmarks_ p) (ordering_generic_ p)
    (Hessian_ p) (b_ p) (delta_x_ p) (H_prior_ p) (b_prior_ p)
    (b_prior_backup_ p) (err_prior_ p) (err_prior_backup_ p) x (currentLambda_
    p) (currentChi_ p) (stopThresholdLM_ p) (ni_ p) (currentRadius_ p)
    (stopThresholdDogLeg_ p) (alpha_ p) (beta_ p) (h_gn_ p) (h_sd_ p) (h_dl_
    p).

Definition set_currentLambda_ (x : R) (p : Problem) : Problem :=
  mkProblem (problemType_ p) (vertex_store p) (verticies_ p) (edges_ p)
    (vertexToEdge_ p) (idx_pose_vertices_ p) (idx_landmark_vertices_ p)
    (ordering_poses_ p) (ordering_landmarks_ p) (ordering_generic_ p)
    (Hessian_ p) (b_ p) (delta_x_ p) (H_prior_ p) (b_prior_ p)
    (b_prior_backup_ p) (err_prior_ p) (err_prior_backup_ p) (Jt_prior_inv_ p)
    x (currentChi_ p) (stopThresholdLM_ p) (ni_ p) (currentRadius_ p)
    (stopThresholdDogLeg_ p) (alpha_ p) (beta_ p) (h_gn_ p) (h_sd_ p) (h_dl_
    p).

Definition set_currentChi_ (x : R) (p : Problem) : Problem :=
  mkProblem (problemType_ p) (vertex_store p) (verticies_ p) (edges_ p)
    (vertexToEdge_ p) (idx_pose_vertices_ p) (idx_landmark_vertices_ p)
    (ordering_poses_ p) (ordering_landmarks_ p) (ordering_generic_ p)
    (Hessian_ p) (b_ p) (delta_x_ p) (H_prior_ p) (b_prior_ p)
    (b_prior_backup_ p) (err_prior_ p) (err_prior_backup_ p) (Jt_prior_inv_ p)
    (currentLambda_ p) x (stopThresholdLM_ p) (ni_ p) (currentRadius_ p)
    (stopThresholdDogLeg_ p) (alpha_ p) (beta_ p) (h_gn_ p) (h_sd_ p) (h_dl_
    p).

Definition set_stopThresholdLM_ (x : R) (p : Problem) : Problem :=
  mkProblem (problemType_ p) (vertex_store p) (verticies_ p) (edges_ p)
    (vertexToEdge_ p) (idx_pose_vertices_ p) (idx_landmark_vertices_ p)
    (ordering_poses_ p) (ordering_landmarks_ p) (ordering_generic_ p)
    (Hessian_ p) (b_ p) (delta_x_ p) (H_prior_ p) (b_prior_ p)
    (b_prior_backup_ p) (err_prior_ p) (err_prior_backup_ p) (Jt_prior_inv_ p)
    (currentLambda_ p) (currentChi_ p) x (ni_ p) (currentRadius_ p)
    (stopThresholdDogLeg_ p) (alpha_ p) (beta_ p) (h_gn_ p) (h_sd_ p) (h_dl_
    p).

Definition set_ni_ (x : R) (p : Problem) : Problem :=
  mkProblem (problemType_ p) (vertex_store p) (verticies_ p) (edges_ p)
    (vertexToEdge_ p) (idx_pose_vertices_ p) (idx_landmark_vertices_ p)
    (ordering_poses_ p) (ordering_landmarks_ p) (ordering_generic_ p)
    (Hessian_ p) (b_ p) (delta_x_ p) (H_prior_ p) (b_prior_ p)
    (b_prior_backup_ p) (err_prior_ p) (err_prior_backup_ p) (Jt_prior_inv_ p)
    (currentLambda_ p) (currentChi_ p) (stopThresholdLM_ p) x (currentRadius_
    p) (stopThresholdDogLeg_ p) (alpha_ p) (beta_ p) (h_gn_ p) (h_sd_ p)
    (h_dl_ p).

Definition set_currentRadius_ (x : R) (p : Problem) : Problem :=
  mkProblem (problemType_ p) (vertex_store p) (verticies_ p) (edges_ p)
    (vertexToEdge_ p) (idx_pose_vertices_ p) (idx_landmark_vertices_ p)
    (ordering_poses_ p) (ordering_landmarks_ p) (ordering_generic_ p)
    (Hessian_ p) (b_ p) (delta_x_ p) (H_prior_ p) (b_prior_ p)
    (b_prior_backup_ p) (err_prior_ p) (err_prior_backup_ p) (Jt_prior_inv_ p)
    (currentLambda_ p) (currentChi_ p) (stopThresholdLM_ p) (ni_ p) x
    (stopThresholdDogLeg_ p) (alpha_ p) (beta_ p) (h_gn_ p) (h_sd_ p) (h_dl_
    p).

Definition set_stopThresholdDogLeg_ (x : R) (p : Problem) : Problem :=
  mkProblem (problemType_ p) (vertex_store p) (verticies_ p) (edges_ p)
    (vertexToEdge_ p) (idx_pose_vertices_ p) (idx_landmark_vertices_ p)
    (ordering_poses_ p) (ordering_landmarks_ p) (ordering_generic_ p)
    (Hessian_ p) (b_ p) (delta_x_ p) (H_prior_ p) (b_prior_ p)
    (b_prior_backup_ p) (err_prior_ p) (err_prior_backup_ p) (Jt_prior_inv_ p)
    (currentLambda_ p) (currentChi_ p) (stopThresholdLM_ p) (ni_ p)
    (currentRadius_ p) x (alpha_ p) (beta_ p) (h_gn_ p) (h_sd_ p) (h_dl_ p).

Definition set_alpha_ (x : R) (p : Problem) : Problem :=
  mkProblem (problemType_ p) (vertex_store p) (verticies_ p) (edges_ p)
    (vertexToEdge_ p) (idx_pose_vertices_ p) (idx_landmark_vertices_ p)
    (ordering_poses_ p) (ordering_landmarks_ p) (ordering_generic_ p)
    (Hessian_ p) (b_ p) (delta_x_ p) (H_prior_ p) (b_prior_ p)
    (b_prior_backup_ p) (err_prior_ p) (err_prior_backup_ p) (Jt_prior_inv_ p)
    (currentLambda_ p) (currentChi_ p) (stopThresholdLM_ p) (ni_ p)
    (currentRadius_ p) (stopThresholdDogLeg_ p) x (beta_ p) (h_gn_ p) (h_sd_
    p) (h_dl_ p).

Definition set_beta_ (x : R) (p : Problem) : Problem :=
  mkProblem (problemType_ p) (vertex_store p) (verticies_ p) (edges_ p)
    (vertexToEdge_ p) (idx_pose_vertices_ p) (idx_landmark_vertices_ p)
    (ordering_poses_ p) (ordering_landmarks_ p) (ordering_generic_ p)
    (Hessian_ p) (b_ p) (delta_x_ p) (H_prior_ p) (b_prior_ p)
    (b_prior_backup_ p) (err_prior_ p) (err_prior_backup_ p) (Jt_prior_inv_ p)
    (currentLambda_ p) (currentChi_ p) (stopThresholdLM_ p) (ni_ p)
    (currentRadius_ p) (stopThresholdDogLeg_ p) (alpha_ p) x (h_gn_ p) (h_sd_
    p) (h_dl_ p).

Definition set_h_gn_ (x : VecX) (p : Problem) : Problem :=
  mkProblem (problemType_ p) (vertex_store p) (verticies_ p) (edges_ p)
    (vertexToEdge_ p) (idx_pose_vertices_ p) (idx_landmark_vertices_ p)
    (ordering_poses_ p) (ordering_landmarks_ p) (ordering_generic_ p)
    (Hessian_ p) (b_ p) (delta_x_ p) (H_prior_ p) (b_prior_ p)
    (b_prior_backup_ p) (err_prior_ p) (err_prior_backup_ p) (Jt_prior_inv_ p)
    (currentLambda_ p) (currentChi_ p) (stopThresholdLM_ p) (ni_ p)
    (currentRadius_ p) (stopThresholdDogLeg_ p) (alpha_ p) (beta_ p) x (h_sd_
    p) (h_dl_ p).

Definition set_h_sd_ (x : VecX) (p : Problem) : Problem :=
  mkProblem (problemType_ p) (vertex_store p) (verticies_ p) (edges_ p)
    (vertexToEdge_ p) (idx_pose_vertices_ p) (idx_landmark_vertices_ p)
    (ordering_poses_ p) (ordering_landmarks_ p) (ordering_generic_ p)
    (Hessian_ p) (b_ p) (delta_x_ p) (H_prior_ p) (b_prior_ p)
    (b_prior_backup_ p) (err_prior_ p) (err_prior_backup_ p) (Jt_prior_inv_ p)
    (currentLambda_ p) (currentChi_ p) (stopThresholdLM_ p) (ni_ p)
    (currentRadius_ p) (stopThresholdDogLeg_ p) (alpha_ p) (beta_ p) (h_gn_ p)
    x (h_dl_ p).

Definition set_h_dl_ (x : VecX) (p : Problem) : Problem :=
  mkProblem (problemType_ p) (vertex_store p) (verticies_ p) (edges_ p)
    (vertexToEdge_ p) (idx_pose_vertices_ p) (idx_landmark_vertices_ p)
    (ordering_poses_ p) (ordering_landmarks_ p) (ordering_generic_ p)
    (Hessian_ p) (b_ p) (delta_x_ p) (H_prior_ p) (b_prior_ p)
    (b_prior_backup_ p) (err_prior_ p) (err_prior_backup_ p) (Jt_prior_inv_ p)
    (currentLambda_ p) (currentChi_ p) (stopThresholdLM_ p) (ni_ p)
    (currentRadius_ p) (stopThresholdDogLeg_ p) (alpha_ p) (beta_ p) (h_gn_ p)
    (h_sd_ p) x.

(** ** Keys of a [std::map] *)

Definition key_mem (k : N) (l : list N) : bool := existsb (N.eqb k) l.

(** [insert] keeps an entry that is already there. *)
Fixpoint key_insert (k : N) (l : list N) : list N :=
  match l with
  | [] => [k]
  | x :: r => if (k <? x)%N then k :: l
              else if (k =? x)%N then l
              else x :: key_insert k r
  end.

Definition key_erase (k : N) (l : list N) : list N :=
  filter (fun x => negb (x =? k)%N) l.

Definition edge_mem (k : N) (l : list Edge) : bool :=
  existsb (fun e => (e_id e =? k)%N) l.

Fixpoint edge_insert (e : Edge) (l : list Edge) : list Edge :=
  match l with
  | [] => [e]
  | x :: r => if (e_id e <? e_id x)%N then e :: l
              else if (e_id e =? e_id x)%N then l
              else x :: edge_insert e r
  end.

Definition edge_erase (k : N) (l : list Edge) : list Edge :=
  filter (fun e => negb (e_id e =? k)%N) l.

(** [std::multimap::insert]: after the entries whose key is not greater. *)
Fixpoint multimap_insert (k : N) (e : Edge) (l : list (N * Edge)) : list (N * Edge) :=
  match l with
  | [] => [(k, e)]
  | x :: r => if (k <? fst x)%N then (k, e) :: l else x :: multimap_insert k e r
  end.

(** ** The factor graph store *)

Definition IsPoseVertex (v : Vertex) : bool :=
  String.eqb (v_type v) "VertexPose" || String.eqb (v_type v) "VertexSpeedBias".

Definition IsLandmarkVertex (v : Vertex) : bool :=
  String.eqb (v_type v) "VertexPointXYZ" || String.eqb (v_type v) "VertexInverseDepth".

(** [conservativeResize] by [dim] rows and columns, the new ones set to zero. *)
Definition grow_square (H : MatXX) (dim : Z) : MatXX :=
  let size := (rows H + dim)%Z in
  mkMat size size
        (fun i j => if (i <? size - dim)%Z && (j <? size - dim)%Z then coef H i j else 0).

Definition grow_vec (b : VecX) (size dim : Z) : VecX :=
  mkVec size (fun k => if (k <? size - dim)%Z then vcoef b k else 0).

Definition ResizePoseHessiansWhenAddingPose (v : N) (p : Problem) : Problem :=
  let dim := v_local_dimension (vertex_store p v) in
  let size := (rows (H_prior_ p) + dim)%Z in
  set_b_prior_ (grow_vec (b_prior_ p) size dim)
    (set_H_prior_ (grow_square (H_prior_ p) dim) p).

Definition AddVertex (v : N) (p : Problem) : bool * Problem :=
  if key_mem v (verticies_ p) then (false, p)
  else
    let p1 := set_verticies_ (key_insert v (verticies_ p)) p in
    let p2 := if is_slam (problemType_ p1) && IsPoseVertex (vertex_store p1 v)
              then ResizePoseHessiansWhenAddingPose v p1 else p1 in
    (true, p2).

Definition AddEdge (e : Edge) (p : Problem) : bool * Problem :=
  if edge_mem (e_id e) (edges_ p) then (false, p)
  else
    let p1 := set_edges_ (edge_insert e (edges_ p)) p in
    (true, fold_left (fun q v => set_vertexToEdge_ (multimap_insert v e (vertexToEdge_ q)) q)
                     (e_verticies e) p1).

Definition GetConnectedEdges (v : N) (p : Problem) : list Edge :=
  map snd (filter (fun x => (fst x =? v)%N && edge_mem (e_id (snd x)) (edges_ p))
                  (vertexToEdge_ p)).

Definition RemoveEdge (e : Edge) (p : Problem) : bool * Problem :=
  if edge_mem (e_id e) (edges_ p)
  then (true, set_edges_ (edge_erase (e_id e) (edges_ p)) p)
  else (false, p).

Definition RemoveVertex (v : N) (p : Problem) : bool * Problem :=
  if key_mem v (verticies_ p) then
    let remove_edges := GetConnectedEdges v p in
    let p1 := fold_left (fun q e => snd (RemoveEdge e q)) remove_edges p in
    let p2 := if IsPoseVertex (vertex_store p1 v)
              then set_idx_pose_vertices_ (key_erase v (idx_pose_vertices_ p1)) p1
              else set_idx_landmark_vertices_ (key_erase v (idx_landmark_vertices_ p1)) p1 in
    let p3 := set_vertex_store (store_update (vertex_store p2) v (SetOrderingId (-1))) p2 in
    let p4 := set_verticies_ (key_erase v (verticies_ p3)) p3 in
    (true, set_vertexToEdge_ (filter (fun x => negb (fst x =? v)%N) (vertexToEdge_ p4)) p4)
  else (false, p).

(** ** The ordering assigner *)

Definition AddOrderingSLAM (v : N) (p : Problem) : Problem :=
  if IsPoseVertex (vertex_store p v) then
    let p1 := set_vertex_store
                (store_update (vertex_store p) v (SetOrderingId (ordering_poses_ p))) p in
    let p2 := set_idx_pose_vertices_ (key_insert v (idx_pose_vertices_ p1)) p1 in
    set_ordering_poses_ (ordering_poses_ p2 + v_local_dimension (vertex_store p2 v)) p2
  else if IsLandmarkVertex (vertex_store p v) then
    let p1 := set_vertex_store
                (store_update (vertex_store p) v (SetOrderingId (ordering_landmarks_ p))) p in
    let p2 := set_ordering_landmarks_
                (ordering_landmarks_ p1 + v_local_dimension (vertex_store p1 v)) p1 in
    set_idx_landmark_vertices_ (key_insert v (idx_landmark_vertices_ p2)) p2
  else p.

(** The body of the walk over [verticies_]. *)
Definition SetOrdering_visit (q : Problem) (v : N) : Problem :=
  let q1 := set_ordering_generic_
              (ordering_generic_ q + v_local_dimension (vertex_store q v)) q in
  if is_slam (problemType_ q1) then AddOrderingSLAM v q1 else q1.

(** The body of the walk over [idx_landmark_vertices_]. *)
Definition SetOrdering_shift (all_pose_dimension : Z) (q : Problem) (lv : N) : Problem :=
  set_vertex_store
    (store_update (vertex_store q) lv
       (fun x => SetOrderingId (v_ordering_id x + all_pose_dimension) x)) q.

Definition SetOrdering (p : Problem) : Problem :=
  let p0 := set_ordering_landmarks_ 0 (set_ordering_generic_ 0 (set_ordering_poses_ 0 p)) in
  let p1 := fold_left SetOrdering_visit (verticies_ p0) p0 in
  if is_slam (problemType_ p1) then
    let all_pose_dimension := ordering_poses_ p1 in
    fold_left (SetOrdering_shift all_pose_dimension) (idx_landmark_vertices_ p1) p1
  else p1.

(** ** The Hessian assembler *)

(** Total robustified cost of the edges at the current vertex values. *)
Definition sum_robust_chi2 (st : VertexStore) (es : list Edge) (acc : R) : R :=
  fold_left (fun a e => a + e_robust_chi2 e st) es acc.

(** Loop over [j] of the assembler: one block of the edge. *)
Definition hessian_block_step (st : VertexStore) (e : Edge) (i : nat) (JtW : MatXX)
           (H : MatXX) (j : nat) : MatXX :=
  let v_i := st (nth i (e_verticies e) 0%N) in
  let v_j := st (nth j (e_verticies e) 0%N) in
  if v_fixed v_j then H
  else
    let jacobian_j := nth j (e_jacobians e st) (mat_zero 0 0) in
    let index_i := v_ordering_id v_i in
    let dim_i := v_local_dimension v_i in
    let index_j := v_ordering_id v_j in
    let dim_j := v_local_dimension v_j in
    let hessian := mat_mul JtW jacobian_j in
    let H1 := block_add H index_i index_j dim_i dim_j hessian in
    if negb (Nat.eqb j i)
    then block_add H1 index_j index_i dim_j dim_i (transpose hessian)
    else H1.

(** Loop over [i] of the assembler: the blocks and the segment of vertex [i]. *)
Definition hessian_vertex_step (st : VertexStore) (e : Edge) (Hb : MatXX * VecX)
           (i : nat) : MatXX * VecX :=
  let v_i := st (nth i (e_verticies e) 0%N) in
  if v_fixed v_i then Hb
  else
    let jacobian_i := nth i (e_jacobians e st) (mat_zero 0 0) in
    let index_i := v_ordering_id v_i in
    let dim_i := v_local_dimension v_i in
    let drho := fst (e_robust_info e st) in
    let robustInfo := snd (e_robust_info e st) in
    let JtW := mat_mul (transpose jacobian_i) robustInfo in
    let n := List.length (e_verticies e) in
    let H1 := fold_left (hessian_block_step st e i JtW) (seq i (n - i)) (fst Hb) in
    let g := mat_vec (mat_mul (mat_scale drho (transpose jacobian_i)) (e_information e))
                     (e_residual e st) in
    (H1, segment_sub (snd Hb) index_i dim_i g).

Definition hessian_edge_step (st : VertexStore) (Hb : MatXX * VecX) (e : Edge)
  : MatXX * VecX :=
  fold_left (hessian_vertex_step st e) (seq 0 (List.length (e_verticies e))) Hb.

(** The prior with the rows and columns of the fixed pose vertices set to zero. *)
Definition mask_fixed_prior (st : VertexStore) (Hb : MatXX * VecX) (v : N)
  : MatXX * VecX :=
  if IsPoseVertex (st v) && v_fixed (st v) then
    let idx := v_ordering_id (st v) in
    let dim := v_local_dimension (st v) in
    let H1 := block_setZero (fst Hb) idx 0 dim (cols (fst Hb)) in
    let H2 := block_setZero H1 0 idx (rows H1) dim in
    (H2, segment_set (snd Hb) idx dim (vec_zero dim))
  else Hb.

Definition MakeHessianSingle (p : Problem) : Problem :=
  let size := ordering_generic_ p in
  let st := vertex_store p in
  let Hb := fold_left (hessian_edge_step st) (edges_ p) (mat_zero size size, vec_zero size) in
  let p1 := set_b_ (snd Hb) (set_Hessian_ (fst Hb) p) in
  let p2 :=
    if (0 <? rows (H_prior_ p1))%Z then
      let prior := fold_left (mask_fixed_prior st) (verticies_ p1)
                             (H_prior_ p1, b_prior_ p1) in
      let n := ordering_poses_ p1 in
      set_b_ (segment_add (b_ p1) 0 n (snd prior))
        (set_Hessian_ (block_add (Hessian_ p1) 0 0 n n (fst prior)) p1)
    else p1 in
  set_delta_x_ (vec_zero size) p2.

(** [MakeHessian] dispatches on the constant [acc_opt = 1] to the thread-pool
    variant.  This is its value: the system of [MakeHessianSingle], which
    the four workers assemble between them when the ids they read are the
    ids of the edges and no assertion fails.  The call as it runs, with the
    workers, the member [edges_idx_] and the assertions, is
    [Run.MakeHessian]. *)
Definition MakeHessian (p : Problem) : Problem := MakeHessianSingle p.

(** ** The state updater *)

Definition UpdateStates_vertex (delta_x : VecX) (st : VertexStore) (v : N) : VertexStore :=
  store_update st v
    (fun x =>
       let x1 := BackUpParameters x in
       let idx := v_ordering_id x1 in
       let dim := v_local_dimension x1 in
       Plus (segment delta_x idx dim) x1).

Definition UpdateStates (p : Problem) : Problem :=
  let p1 := set_vertex_store
              (fold_left (UpdateStates_vertex (delta_x_ p)) (verticies_ p) (vertex_store p)) p in
  if (0 <? vsize (err_prior_ p1))%Z then
    let p2 := set_err_prior_backup_ (err_prior_ p1) (set_b_prior_backup_ (b_prior_ p1) p1) in
    let p3 := set_b_prior_
                (vec_sub (b_prior_ p2)
                         (mat_vec (H_prior_ p2) (head (delta_x_ p2) (ordering_poses_ p2)))) p2 in
    set_err_prior_
      (mat_vec (mat_neg (Jt_prior_inv_ p3)) (head (b_prior_ p3) (ordering_poses_ p3 - 15))) p3
  else p1.

Definition RollbackStates (p : Problem) : Problem :=
  let p1 := set_vertex_store
              (fold_left (fun st v => store_update st v RollBackParameters)
                         (verticies_ p) (vertex_store p)) p in
  if (0 <? vsize (err_prior_ p1))%Z then
    set_err_prior_ (err_prior_backup_ p1) (set_b_prior_ (b_prior_backup_ p1) p1)
  else p1.

(** ** Step acceptance *)

(** [max |H(i,i)|] over [0 <= i < n], starting from [acc]. *)
Fixpoint max_abs_diag (n : nat) (H : MatXX) (acc : R) : R :=
  match n with
  | O => acc
  | S m => let a := max_abs_diag m H acc in
           std_max (Rabs (coef H (Z.of_nat m) (Z.of_nat m))) a
  end.

Definition ComputeLambdaInitLM (p : Problem) : Problem :=
  let p1 := set_currentChi_ 0 (set_currentLambda_ (-1) (set_ni_ 2 p)) in
  let chi := sum_robust_chi2 (vertex_store p1) (edges_ p1) (currentChi_ p1) in
  let chi := if (0 <? vsize (err_prior_ p1))%Z then chi + squaredNorm (err_prior_ p1) else chi in
  let chi := chi * 0.5 in
  let p2 := set_stopThresholdLM_ (1e-10 * chi) (set_currentChi_ chi p1) in
  let maxDiagonal := max_abs_diag (Z.to_nat (cols (Hessian_ p2))) (Hessian_ p2) 0 in
  let maxDiagonal := std_min 5e10 maxDiagonal in
  let tau := 1e-5 in
  set_currentLambda_ (tau * maxDiagonal) p2.

Definition ComputeRadiusInitDogLeg (p : Problem) : Problem :=
  let chi := sum_robust_chi2 (vertex_store p) (edges_ p) 0 in
  let chi := if (0 <? vsize (err_prior_ p))%Z then chi + squaredNorm (err_prior_ p) else chi in
  let chi := chi * 0.5 in
  set_currentRadius_ 1e4 (set_stopThresholdDogLeg_ (1e-15 * chi) (set_currentChi_ chi p)).

(** The cost recomputed after the states were updated. *)
Definition tempChi_of (p : Problem) : R :=
  let chi := sum_robust_chi2 (vertex_store p) (edges_ p) 0 in
  let chi := if (0 <? vsize (err_prior_ p))%Z then chi + squaredNorm (err_prior_ p) else chi in
  chi * 0.5.

(** [scale] of [IsGoodStepInLM]. *)
Definition LM_scale (p : Problem) : R :=
  dot (vec_scale 0.5 (delta_x_ p))
      (vec_add (vec_scale (currentLambda_ p) (delta_x_ p)) (b_ p)) + 1e-6.

(** [rho] of [IsGoodStepInLM]. *)
Definition LM_rho (p : Problem) : R := (currentChi_ p - tempChi_of p) / LM_scale p.

Definition IsGoodStepInLM (p : Problem) : bool * Problem :=
  let tempChi := tempChi_of p in
  let rho := LM_rho p in
  if Rltb 0 rho && isfinite tempChi then
    let alpha := 1 - (2 * rho - 1) ^ 3 in
    let alpha := std_min alpha (2 / 3) in
    let scaleFactor := std_max (1 / 3) alpha in
    (true, set_currentChi_ tempChi
             (set_ni_ 2 (set_currentLambda_ (currentLambda_ p * scaleFactor) p)))
  else
    (false, set_ni_ (ni_ p * 2) (set_currentLambda_ (currentLambda_ p * ni_ p) p)).

(** [scale] of [IsGoodStepInDogLeg] (the strategy selected by the constant
    [option = 0]). *)
Definition DogLeg_scale (p : Problem) : R :=
  if vec_eqb (h_dl_ p) (h_gn_ p) then currentChi_ p
  else if vec_eqb (h_dl_ p) (vec_div (vec_scale (currentRadius_ p) (b_ p)) (norm (b_ p)))
  then currentRadius_ p * (2 * alpha_ p * norm (b_ p) - currentRadius_ p) / (2 * alpha_ p)
  else 0.5 * alpha_ p * (1 - beta_ p) * (1 - beta_ p) * squaredNorm (b_ p)
       + beta_ p * (2 - beta_ p) * currentChi_ p.

Definition IsGoodStepInDogLeg (p : Problem) : bool * Problem :=
  let tempChi := tempChi_of p in
  let scale := DogLeg_scale p in
  let rho := (currentChi_ p - tempChi) / scale in
  let p1 :=
    if Rltb 0.75 rho && isfinite tempChi
    then set_currentRadius_ (std_max (currentRadius_ p) (3 * norm (delta_x_ p))) p
    else if Rltb rho 0.25
         then set_currentRadius_ (std_max (currentRadius_ p * 0.5) 1e-7) p
         else p in
  if Rltb 0 rho && isfinite tempChi
  then (true, set_currentChi_ tempChi p1)
  else (false, p1).

(** The interpolation parameter of the third case of [SolveDogLegStep], from
    [a = alpha * h_sd], [b = h_gn] and the radius. *)
Definition DogLeg_beta (a b : VecX) (radius : R) : R :=
  let c := dot a (vec_sub b a) in
  let sqrt_scale :=
    sqrt (c * c + squaredNorm (vec_sub b a) * (radius * radius - squaredNorm a)) in
  if Rle_dec c 0
  then (- c + sqrt_scale) / squaredNorm (vec_sub b a)
  else (radius * radius - squaredNorm a) / (c + sqrt_scale).

(** The condition of [assert(beta_ > 0.0 && beta_ < 1.0)]. *)
Definition DogLeg_beta_assert (beta : R) : Prop := beta > 0 /\ beta < 1.

Section Eigen.

(** [A.ldlt().solve(b)], [A.inverse()] and the self-adjoint eigen solver
    (eigenvalues, eigenvectors) of the Eigen library. *)
Variable ldlt_solve : MatXX -> VecX -> VecX.
Variable inverse : MatXX -> MatXX.
Variable eigensolver : MatXX -> VecX * MatXX.

(** ** The linear solver *)

(** The matrix and right-hand side handed to [ldlt().solve] by
    [SolveLinearWithSchur], with the block-diagonal inverse it built. *)
Definition Schur_Hss_inv (p : Problem) (Hessian : MatXX) (reserve_size schur_size : Z)
           (schur_vertices : list N) : MatXX :=
  let Hss := block Hessian reserve_size reserve_size schur_size schur_size in
  fold_left
    (fun M sv =>
       let idx := (v_ordering_id (vertex_store p sv) - reserve_size)%Z in
       let size := v_local_dimension (vertex_store p sv) in
       block_set M idx idx size size (inverse (block Hss idx idx size size)))
    schur_vertices (mat_zero schur_size schur_size).

Definition Schur_system (p : Problem) (Hessian : MatXX) (b : VecX)
           (reserve_size schur_size : Z) (schur_vertices : list N) : MatXX * VecX :=
  let Hrr := block Hessian 0 0 reserve_size reserve_size in
  let Hrs := block Hessian 0 reserve_size reserve_size schur_size in
  let Hsr := block Hessian reserve_size 0 schur_size reserve_size in
  let brr := head b reserve_size in
  let bss := tail b schur_size in
  let Hss_inv := Schur_Hss_inv p Hessian reserve_size schur_size schur_vertices in
  let tempH := mat_mul Hrs Hss_inv in
  let Hrr_schur := mat_sub Hrr (mat_mul tempH Hsr) in
  let brr_schur := vec_sub brr (mat_vec tempH bss) in
  (diag_add Hrr_schur reserve_size (currentLambda_ p), brr_schur).

(** The parameter [lambda] is not used by the source: the diagonal is
    damped by the member [currentLambda_]. *)
Definition SolveLinearWithSchur (p : Problem) (Hessian : MatXX) (b delta_x : VecX)
           (reserve_size schur_size : Z) (schur_vertices : list N) (lambda : R) : VecX :=
  let Hsr := block Hessian reserve_size 0 schur_size reserve_size in
  let bss := tail b schur_size in
  let Hss_inv := Schur_Hss_inv p Hessian reserve_size schur_size schur_vertices in
  let sys := Schur_system p Hessian b reserve_size schur_size schur_vertices in
  let x_rr := ldlt_solve (fst sys) (snd sys) in
  let delta_x1 := head_set delta_x reserve_size x_rr in
  let x_ss := mat_vec Hss_inv (vec_sub bss (mat_vec Hsr x_rr)) in
  tail_set delta_x1 schur_size x_ss.

Definition SolveLinearSystem (p : Problem) : Problem :=
  match problemType_ p with
  | GENERIC_PROBLEM =>
      let H := diag_add (Hessian_ p) (cols (Hessian_ p)) (currentLambda_ p) in
      set_delta_x_ (ldlt_solve H (b_ p)) p
  | SLAM_PROBLEM =>
      let reserve_size := ordering_poses_ p in
      let marg_size := ordering_landmarks_ p in
      set_delta_x_
        (SolveLinearWithSchur p (Hessian_ p) (b_ p) (delta_x_ p) reserve_size marg_size
                              (idx_landmark_vertices_ p) (currentLambda_ p)) p
  end.

(** ** The Dog-Leg step *)

(** The value of the step.  The condition of the assertion on [beta_] in
    its third case is [DogLeg_beta_assert]; the step as it runs, which a
    failed assertion ends, is [Run.SolveDogLegStep]. *)
Definition SolveDogLegStep (p : Problem) : Problem :=
  let p1 := set_h_gn_ (vec_zero (vsize (delta_x_ p))) p in
  let p2 :=
    match problemType_ p1 with
    | GENERIC_PROBLEM =>
        let H := Hessian_ p1 in
        set_h_gn_ (ldlt_solve H (b_ p1)) p1
    | SLAM_PROBLEM =>
        let reserve_size := ordering_poses_ p1 in
        let schur_size := ordering_landmarks_ p1 in
        set_h_gn_
          (SolveLinearWithSchur p1 (Hessian_ p1) (b_ p1) (h_gn_ p1) reserve_size schur_size
                                (idx_landmark_vertices_ p1) (currentLambda_ p1)) p1
    end in
  let p3 := set_alpha_ (squaredNorm (b_ p2)
                       / dot (mat_vec (transpose (Hessian_ p2)) (b_ p2)) (b_ p2)) p2 in
  let p4 := set_h_sd_ (b_ p3) p3 in
  let h_gn_norm := norm (h_gn_ p4) in
  let h_sd_norm := norm (h_sd_ p4) in
  let p5 :=
    if Rle_dec h_gn_norm (currentRadius_ p4) then set_h_dl_ (h_gn_ p4) p4
    else if Rge_dec (alpha_ p4 * h_sd_norm) (currentRadius_ p4)
    then set_h_dl_ (vec_scale (currentRadius_ p4 / h_sd_norm) (h_sd_ p4)) p4
    else
      let a := vec_scale (alpha_ p4) (h_sd_ p4) in
      let b := h_gn_ p4 in
      let p' := set_beta_ (DogLeg_beta a b (currentRadius_ p4)) p4 in
      set_h_dl_ (vec_add a (vec_scale (beta_ p') (vec_sub b a))) p' in
  set_delta_x_ (h_dl_ p5) p5.

(** ** The drivers *)

(** State of the outer loop of a driver. *)
Record DriverLoop := mkLoop {
  lp_problem : Problem;
  lp_stop : bool;
  lp_iter : Z;
  lp_last_chi : R
}.

(** State of the inner loop: [oneStepSuccess], [false_cnt], the problem. *)
Record TryLoop := mkTry {
  tr_success : bool;
  tr_false_cnt : Z;
  tr_problem : Problem
}.

Definition LM_try (t : TryLoop) : TryLoop :=
  let p1 := SolveLinearSystem (tr_problem t) in
  let p2 := UpdateStates p1 in
  let r := IsGoodStepInLM p2 in
  if fst r then mkTry true 0 (MakeHessian (snd r))
  else mkTry false (tr_false_cnt t + 1) (RollbackStates (snd r)).

(** [while (!oneStepSuccess && false_cnt < 10)] *)
Fixpoint LM_inner (fuel : nat) (t : TryLoop) : TryLoop :=
  match fuel with
  | O => t
  | S f => if negb (tr_success t) && (tr_false_cnt t <? 10)%Z
           then LM_inner f (LM_try t) else t
  end.

Definition LM_outer_body (l : DriverLoop) : DriverLoop :=
  let t := LM_inner 10 (mkTry false 0 (lp_problem l)) in
  let p := tr_problem t in
  let iter := (lp_iter l + 1)%Z in
  let stop := if Rlt_dec (lp_last_chi l - currentChi_ p) 1e-5 then true else lp_stop l in
  mkLoop p stop iter (currentChi_ p).

(** [while (!stop && (iter < iterations))] *)
Fixpoint LM_outer (fuel : nat) (iterations : Z) (l : DriverLoop) : DriverLoop :=
  match fuel with
  | O => l
  | S f => if negb (lp_stop l) && (lp_iter l <? iterations)%Z
           then LM_outer f iterations (LM_outer_body l) else l
  end.

(** The state in which the outer loop of [SolveLM] starts. *)
Definition SolveLM_init (p : Problem) : DriverLoop :=
  mkLoop (ComputeLambdaInitLM (MakeHessian (SetOrdering p))) false 0 1e20.

Definition SolveLM_loop (iterations : Z) (p : Problem) : DriverLoop :=
  LM_outer (Z.to_nat iterations) iterations (SolveLM_init p).

Definition SolveLM (iterations : Z) (p : Problem) : bool * Problem :=
  if (List.length (edges_ p) =? 0)%nat || (List.length (verticies_ p) =? 0)%nat then (false, p)
  else (true, lp_problem (SolveLM_loop iterations p)).

Definition DogLeg_try (t : TryLoop) : TryLoop :=
  let p1 := SolveDogLegStep (tr_problem t) in
  let p2 := UpdateStates p1 in
  let r := IsGoodStepInDogLeg p2 in
  if fst r then mkTry true 0 (MakeHessian (snd r))
  else mkTry false (tr_false_cnt t + 1) (RollbackStates (snd r)).

Fixpoint DogLeg_inner (fuel : nat) (t : TryLoop) : TryLoop :=
  match fuel with
  | O => t
  | S f => if negb (tr_success t) && (tr_false_cnt t <? 10)%Z
           then DogLeg_inner f (DogLeg_try t) else t
  end.

Definition DogLeg_outer_body (l : DriverLoop) : DriverLoop :=
  let t := DogLeg_inner 10 (mkTry false 0 (lp_problem l)) in
  let p := tr_problem t in
  let iter := (lp_iter l + 1)%Z in
  let stop :=
    if Rlt_dec (lp_last_chi l - currentChi_ p) 1e-5 then true
    else if Rlt_dec (norm (b_ p)) 1e-5 then true
    else lp_stop l in
  mkLoop p stop iter (currentChi_ p).

(** [while ((iter < itertaions) && !stop)] *)
Fixpoint DogLeg_outer (fuel : nat) (itertaions : Z) (l : DriverLoop) : DriverLoop :=
  match fuel with
  | O => l
  | S f => if (lp_iter l <? itertaions)%Z && negb (lp_stop l)
           then DogLeg_outer f itertaions (DogLeg_outer_body l) else l
  end.

Definition SolveDogLeg_init (p : Problem) : DriverLoop :=
  mkLoop (ComputeRadiusInitDogLeg (MakeHessian (SetOrdering p))) false 0 0.

Definition SolveDogLeg_loop (itertaions : Z) (p : Problem) : DriverLoop :=
  DogLeg_outer (Z.to_nat itertaions) itertaions (SolveDogLeg_init p).

Definition SolveDogLeg (itertaions : Z) (p : Problem) : bool * Problem :=
  if (List.length (edges_ p) =? 0)%nat || (List.length (verticies_ p) =? 0)%nat then (false, p)
  else (true, lp_problem (SolveDogLeg_loop itertaions p)).

Definition Solve (type : Z) (iterations : Z) (p : Problem) : bool * Problem :=
  if (type =? 0)%Z then SolveLM iterations p
  else if (type =? 1)%Z then SolveDogLeg iterations p
  else (false, p).

(** ** The marginaliser: the prior left by the marginalised block *)

(** [(c.array() > eps).select(t.array(), 0)] *)
Definition select_gt (c : VecX) (eps : R) (t : VecX) : VecX :=
  mkVec (vsize c) (fun i => if Rgt_dec (vcoef c i) eps then vcoef t i else 0).

(** [(M.array().abs() > eps).select(M.array(), 0)] *)
Definition mat_select_abs_gt (M : MatXX) (eps : R) : MatXX :=
  mkMat (rows M) (cols M)
        (fun i j => if Rgt_dec (Rabs (coef M i j)) eps then coef M i j else 0).

Definition cwiseInverse (v : VecX) : VecX := mkVec (vsize v) (fun i => / vcoef v i).
Definition cwiseSqrt (v : VecX) : VecX := mkVec (vsize v) (fun i => sqrt (vcoef v i)).

(** The end of [Marginalize], from [double eps = 1e-8] to the assignment
    of the thresholded [H_prior_]: [H_marg], [b_marg] are the system with
    the block to marginalise moved to the bottom right, [reserve_size]
    its size and [marg_dim] the size of that block. *)
Definition Marginalize_prior (H_marg : MatXX) (b_marg : VecX)
           (reserve_size marg_dim : Z) (p : Problem) : Problem :=
  let eps := 1e-8 in
  let m2 := marg_dim in
  let n2 := (reserve_size - marg_dim)%Z in
  let Amm := mat_scale 0.5 (mat_add (block H_marg n2 n2 m2 m2)
                                    (transpose (block H_marg n2 n2 m2 m2))) in
  let saes := eigensolver Amm in
  let Amm_inv :=
    mat_mul (mat_mul (snd saes)
                     (asDiagonal (select_gt (fst saes) eps (cwiseInverse (fst saes)))))
            (transpose (snd saes)) in
  let bmm2 := segment b_marg n2 m2 in
  let Arm := block H_marg 0 n2 n2 m2 in
  let Amr := block H_marg n2 0 m2 n2 in
  let Arr := block H_marg 0 0 n2 n2 in
  let brr := segment b_marg 0 n2 in
  let tempB := mat_mul Arm Amm_inv in
  let p1 := set_H_prior_ (mat_sub Arr (mat_mul tempB Amr)) p in
  let p2 := set_b_prior_ (vec_sub brr (mat_vec tempB bmm2)) p1 in
  let saes2 := eigensolver (H_prior_ p2) in
  let S := select_gt (fst saes2) eps (fst saes2) in
  let S_inv := select_gt (fst saes2) eps (cwiseInverse (fst saes2)) in
  let S_sqrt := cwiseSqrt S in
  let S_inv_sqrt := cwiseSqrt S_inv in
  let p3 := set_Jt_prior_inv_
              (mat_mul (asDiagonal S_inv_sqrt) (transpose (snd saes2))) p2 in
  let p4 := set_err_prior_ (mat_vec (mat_neg (Jt_prior_inv_ p3)) (b_prior_ p3)) p3 in
  let J := mat_mul (asDiagonal S_sqrt) (transpose (snd saes2)) in
  let p5 := set_H_prior_ (mat_mul (transpose J) J) p4 in
  let tmp_h := mat_select_abs_gt (H_prior_ p5) 1e-9 in
  set_H_prior_ tmp_h p5.

End Eigen.

(** ** Representation invariants and the offsets the ordering should give *)

(** The keys of a [std::map] are strictly ascending. *)
Fixpoint keys_sorted (l : list N) : bool :=
  match l with
  | [] => true
  | x :: r => match r with
              | [] => true
              | y :: _ => (x <? y)%N && keys_sorted r
              end
  end.

(** Sum of the local dimensions of the vertices of [l] selected by [P]. *)
Fixpoint dims_total (P : Vertex -> bool) (st : VertexStore) (l : list N) : Z :=
  match l with
  | [] => 0%Z
  | x :: r => ((if P (st x) then v_local_dimension (st x) else 0) + dims_total P st r)%Z
  end.

(** Sum of the local dimensions of the selected vertices that precede [v]. *)
Fixpoint dims_before (P : Vertex -> bool) (st : VertexStore) (l : list N) (v : N) : Z :=
  match l with
  | [] => 0%Z
  | x :: r => if (x =? v)%N then 0%Z
              else ((if P (st x) then v_local_dimension (st x) else 0)
                    + dims_before P st r v)%Z
  end.

Definition all_vertices (_ : Vertex) : bool := true.

(** ** Example inputs *)

(** A vertex with the Euclidean retraction [x + delta]. *)
Definition example_vertex (type : string) (dim : Z) (fixed : bool) (ordering : Z) : Vertex :=
  mkVertex type dim fixed ordering (vec_zero dim) (vec_zero dim) vec_add.

(** A problem without vertices, edges or prior. *)
Definition empty_problem (t : ProblemType) (st : VertexStore) : Problem :=
  mkProblem t st [] [] [] [] [] 0 0 0 (mat_zero 0 0) (vec_zero 0) (vec_zero 0)
            (mat_zero 0 0) (vec_zero 0) (vec_zero 0) (vec_zero 0) (vec_zero 0) (mat_zero 0 0)
            0 0 0 0 0 0 0 0 (vec_zero 0) (vec_zero 0) (vec_zero 0).

Definition vec1 (x : R) : VecX := mkVec 1 (fun i => if (i =? 0)%Z then x else 0).
Definition mat1 (x : R) : MatXX :=
  mkMat 1 1 (fun i j => if (i =? 0)%Z && (j =? 0)%Z then x else 0).

(** A state after [UpdateStates] in which the step taken was [delta_x = 1]
    with [lambda = 1], [b = 1 - 2e-6], the cost before the step 0.9 and the
    cost after it 0: the gain ratio is 0.9. *)
Definition lm_step_example : Problem :=
  set_currentChi_ 0.9
    (set_ni_ 2
       (set_currentLambda_ 1
          (set_b_ (vec1 (1 - 2e-6))
             (set_delta_x_ (vec1 1)
                (empty_problem GENERIC_PROBLEM (fun _ => example_vertex "VertexPose" 1 false 0)))))).

Definition vec2 (x y : R) : VecX := mkVec 2 (fun i => if (i =? 0)%Z then x else y).
Definition diag2 (x y : R) : MatXX :=
  mkMat 2 2 (fun i j => if (i =? j)%Z then (if (i =? 0)%Z then x else y) else 0).

(** An exact solver for diagonal systems, to run the drivers on examples. *)
Definition diag_solve (A : MatXX) (b : VecX) : VecX :=
  mkVec (rows A) (fun i => vcoef b i / coef A i i).

Definition diag_inverse (A : MatXX) : MatXX :=
  mkMat (rows A) (cols A) (fun i j => if (i =? j)%Z then / coef A i i else 0).

(** Eigen decomposition of a diagonal matrix: its diagonal and the identity. *)
Definition diag_eigensolver (A : MatXX) : VecX * MatXX :=
  (mkVec (rows A) (fun i => coef A i i),
   mkMat (rows A) (rows A) (fun i j => if (i =? j)%Z then 1 else 0)).

(** A problem with one pose vertex of dimension 1, [H = (2)], [b = (2)] and
    a damping [currentLambda_ = 2] left by an earlier Levenberg-Marquardt
    run on the same object. *)
Definition dogleg_damped_example (t : ProblemType) : Problem :=
  set_currentRadius_ 1e4
    (set_currentLambda_ 2
       (set_ordering_generic_ 1
          (set_ordering_poses_ 1
             (set_delta_x_ (vec_zero 1)
                (set_b_ (vec1 2)
                   (set_Hessian_ (mat1 2)
                      (set_verticies_ [0%N]
                         (empty_problem t
                            (fun _ => example_vertex "VertexPose" 1 false 0))))))))).

(** The edge [x = 0] on vertex 0 with unit weight: residual [x], Jacobian 1
    and cost [x^2]. *)
Definition unary_edge : Edge :=
  mkEdge 0 [0%N] (mat1 1)
         (fun st => vec1 (vcoef (v_parameters (st 0%N)) 0))
         (fun _ => [mat1 1])
         (fun _ => (1, mat1 1))
         (fun st => vcoef (v_parameters (st 0%N)) 0 * vcoef (v_parameters (st 0%N)) 0).

(** A GENERIC problem that is already at its minimum: one vertex [x = 0]
    and the edge [x = 0]. *)
Definition lm_flat_example : Problem :=
  set_edges_ [unary_edge]
    (set_verticies_ [0%N]
       (empty_problem GENERIC_PROBLEM (fun _ => example_vertex "VertexPose" 1 false 0))).

(** A GENERIC problem whose only vertex was added, removed and added
    again. *)
Definition generic_readded_example : Problem :=
  snd (AddVertex 0
         (snd (RemoveVertex 0
                 (snd (AddVertex 0
                         (empty_problem GENERIC_PROBLEM
                            (fun _ => example_vertex "CurveFittingVertex" 1 false 0))))))).

(** The same in SLAM mode: the vertex is neither pose-like nor
    landmark-like. *)
Definition slam_other_example : Problem :=
  snd (AddVertex 0
         (snd (RemoveVertex 0
                 (snd (AddVertex 0
                         (empty_problem SLAM_PROBLEM
                            (fun _ => example_vertex "CurveFittingVertex" 1 false 0))))))).

(** A SLAM problem with a pose, a speed-bias and two inverse-depth
    vertices. *)
Definition slam_store : VertexStore :=
  fun k => if (k =? 0)%N then example_vertex "VertexPose" 6 false 0
           else if (k =? 1)%N then example_vertex "VertexSpeedBias" 9 false 0
                else example_vertex "VertexInverseDepth" 1 false 0.

Definition slam_example : Problem :=
  snd (AddVertex 2
         (snd (AddVertex 1
                 (snd (AddVertex 3
                         (snd (AddVertex 0 (empty_problem SLAM_PROBLEM slam_store)))))))).

(** A problem with a prior on its single pose of dimension 16 (so that the
    prior residual has one row) and a step [delta_x] to apply. *)
Definition prior_example : Problem :=
  set_delta_x_ (vec1 1)
    (set_ordering_poses_ 16
       (set_Jt_prior_inv_ (mat1 1)
          (set_err_prior_ (vec1 1)
             (set_b_prior_ (vec1 1)
                (set_H_prior_ (mat1 1)
                   (set_verticies_ [0%N]
                      (empty_problem SLAM_PROBLEM
                         (fun _ => example_vertex "VertexPose" 16 false 0)))))))).

(** The edge [x0 - x1 = 0] between vertices 0 and 1 with unit weight. *)
Definition binary_edge : Edge :=
  mkEdge 0 [0%N; 1%N] (mat1 1)
         (fun st => vec1 (vcoef (v_parameters (st 0%N)) 0 - vcoef (v_parameters (st 1%N)) 0))
         (fun _ => [mat1 1; mat1 (-1)])
         (fun _ => (1, mat1 1))
         (fun st => (vcoef (v_parameters (st 0%N)) 0 - vcoef (v_parameters (st 1%N)) 0)
                    * (vcoef (v_parameters (st 0%N)) 0 - vcoef (v_parameters (st 1%N)) 0)).

Definition chain_store : VertexStore :=
  fun k => if (k =? 0)%N then example_vertex "VertexPose" 1 false 0
           else example_vertex "VertexPose" 1 false 1.

Definition chain_example : Problem :=
  set_ordering_generic_ 2
    (set_edges_ [binary_edge]
       (set_verticies_ [0%N; 1%N] (empty_problem GENERIC_PROBLEM chain_store))).

(** A GENERIC problem with [H = diag(1, 1/4)], [b = (1, 1)] and radius 3:
    the Gauss-Newton step (1, 4) leaves the trust region and the
    steepest-descent step 1.6 (1, 1) stays inside. *)
Definition dogleg_interior_example : Problem :=
  set_currentRadius_ 3
    (set_delta_x_ (vec_zero 2)
       (set_b_ (vec2 1 1)
          (set_Hessian_ (diag2 1 (1 / 4))
             (empty_problem GENERIC_PROBLEM
                            (fun _ => example_vertex "VertexPose" 2 false 0))))).





(** ** The prior when a pose is added by its dimension *)

(** [M.conservativeResize(r, c)] and [v.conservativeResize(n)]: the
    coefficients that fit are kept and the new storage is not initialised;
    [fresh] stands for what it holds. *)
Definition conservativeResize (M : MatXX) (r c : Z) (fresh : Z -> Z -> R) : MatXX :=
  mkMat r c (fun i j => if (i <? rows M)%Z && (j <? cols M)%Z then coef M i j else fresh i j).

Definition conservativeResize_vec (v : VecX) (n : Z) (fresh : Z -> R) : VecX :=
  mkVec n (fun k => if (k <? vsize v)%Z then vcoef v k else fresh k).

(** [v.tail(n).setZero()], [M.rightCols(n).setZero()] and
    [M.bottomRows(n).setZero()] *)
Definition tail_setZero (v : VecX) (n : Z) : VecX := tail_set v n (vec_zero n).
Definition rightCols_setZero (M : MatXX) (n : Z) : MatXX :=
  block_setZero M 0 (cols M - n) (rows M) n.
Definition bottomRows_setZero (M : MatXX) (n : Z) : MatXX :=
  block_setZero M (rows M - n) 0 n (cols M).

Definition ExtendHessiansPriorSize (dim : Z) (fresh_H : Z -> Z -> R) (fresh_b : Z -> R)
           (p : Problem) : Problem :=
  let size := (rows (H_prior_ p) + dim)%Z in
  let p1 := set_H_prior_ (conservativeResize (H_prior_ p) size size fresh_H) p in
  let p2 := set_b_prior_ (conservativeResize_vec (b_prior_ p1) size fresh_b) p1 in
  let p3 := set_b_prior_ (tail_setZero (b_prior_ p2) dim) p2 in
  let p4 := set_H_prior_ (rightCols_setZero (H_prior_ p3) dim) p3 in
  set_H_prior_ (bottomRows_setZero (H_prior_ p4) dim) p4.

(** ** The check of the ordering *)

(** One step of a walk of [CheckOrdering]: the assertion on the vertex
    joined to the earlier ones, and the new [current_ordering]. *)
Definition CheckOrdering_step (st : VertexStore) (acc : bool * Z) (v : N) : bool * Z :=
  (fst acc && (v_ordering_id (st v) =? snd acc)%Z,
   (snd acc + v_local_dimension (st v))%Z).

(** Whether every assertion of [CheckOrdering] holds. *)
Definition CheckOrdering_asserts (p : Problem) : bool :=
  if is_slam (problemType_ p) then
    let a := fold_left (CheckOrdering_step (vertex_store p)) (idx_pose_vertices_ p)
                       (true, 0%Z) in
    fst (fold_left (CheckOrdering_step (vertex_store p)) (idx_landmark_vertices_ p) a)
  else true.

Definition CheckOrdering (p : Problem) : bool := true.

(** ** The damping written into the Hessian *)




(** ** The preconditioned conjugate gradient solver *)

(** [A.diagonal()] *)
Definition diagonal (A : MatXX) : VecX :=
  mkVec (Z.min (rows A) (cols A)) (fun i => coef A i i).

(** [A.diagonal().asDiagonal().inverse()]: the inverse of a diagonal matrix
    is the diagonal matrix of the inverses. *)
Definition PCG_M_inv (A : MatXX) : MatXX := asDiagonal (cwiseInverse (diagonal A)).

(** The variables of [PCGSolver]. *)
Record PCGState := mkPCG {
  pcg_x : VecX;
  pcg_r0 : VecX;
  pcg_z0 : VecX;
  pcg_p : VecX;
  pcg_w : VecX;
  pcg_r0z0 : R;
  pcg_alpha : R;
  pcg_r1 : VecX;
  pcg_i : Z
}.

(** The state in which the loop of [PCGSolver] starts. *)
Definition PCG_init (A : MatXX) (b : VecX) : PCGState :=
  let rows := vsize b in
  let x := vec_zero rows in
  let M_inv := PCG_M_inv A in
  let r0 := b in
  let z0 := mat_vec M_inv r0 in
  let p := z0 in
  let w := mat_vec A p in
  let r0z0 := dot r0 z0 in
  let alpha := r0z0 / dot p w in
  let r1 := vec_sub r0 (vec_scale alpha w) in
  mkPCG x r0 z0 p w r0z0 alpha r1 0.

(** The body of the loop. *)
Definition PCG_step (A M_inv : MatXX) (s : PCGState) : PCGState :=
  let i := (pcg_i s + 1)%Z in
  let z1 := mat_vec M_inv (pcg_r1 s) in
  let r1z1 := dot (pcg_r1 s) z1 in
  let belta := r1z1 / pcg_r0z0 s in
  let z0 := z1 in
  let r0z0 := r1z1 in
  let r0 := pcg_r1 s in
  let p := vec_add (vec_scale belta (pcg_p s)) z1 in
  let w := mat_vec A p in
  let alpha := r1z1 / dot p w in
  let x := vec_add (pcg_x s) (vec_scale alpha p) in
  let r1 := vec_sub (pcg_r1 s) (vec_scale alpha w) in
  mkPCG x r0 z0 p w r0z0 alpha r1 i.

(** [r1.norm() > threshold && i < n] *)
Definition PCG_test (threshold : R) (n : Z) (s : PCGState) : bool :=
  (if Rgt_dec (norm (pcg_r1 s)) threshold then true else false) && (pcg_i s <? n)%Z.

Fixpoint PCG_loop (fuel : nat) (A M_inv : MatXX) (threshold : R) (n : Z) (s : PCGState)
  : PCGState :=
  match fuel with
  | O => s
  | S f => if PCG_test threshold n s
           then PCG_loop f A M_inv threshold n (PCG_step A M_inv s) else s
  end.

(** The state in which [PCGSolver] returns; the loop makes at most [n]
    rounds. *)
Definition PCG_run (A : MatXX) (b : VecX) (maxIter : Z) : PCGState :=
  let rows := vsize b in
  let n := if (maxIter <? 0)%Z then rows else maxIter in
  let s0 := PCG_init A b in
  let threshold := 1e-6 * norm (pcg_r0 s0) in
  PCG_loop (Z.to_nat n) A (PCG_M_inv A) threshold n s0.

Definition PCGSolver (A : MatXX) (b : VecX) (maxIter : Z) : VecX :=
  pcg_x (PCG_run A b maxIter).

(** ** The workers of the assembler *)

(** The members the thread-pool variant of the assembler adds to the
    problem. *)
Record Workers := mkWorkers {
  edges_idx_ : list N;
  multi_H_ : MatXX;
  multi_b_ : VecX
}.

(** The edge that [edges_[k]] yields, if the map has the key [k]. *)
Definition edge_find (k : N) (l : list Edge) : option Edge :=
  find (fun e => (e_id e =? k)%N) l.

(** The body of the loop of [thdCalcHessian] at index [i]: the accumulation
    of the edge [edges_[edges_idx_[i]]], which is the one of the sequential
    assembler.  When the id is not the id of an edge of the problem the map
    yields a null pointer and the call through it has no result. *)
Definition thdCalcHessian_body (p : Problem) (w : Workers) (i : Z) : option Workers :=
  match nth_error (edges_idx_ w) (Z.to_nat i) with
  | None => None
  | Some id =>
      match edge_find id (edges_ p) with
      | None => None
      | Some e =>
          let Hb := hessian_edge_step (vertex_store p) (multi_H_ w, multi_b_ w) e in
          Some (mkWorkers (edges_idx_ w) (fst Hb) (snd Hb))
      end
  end.

(** [for (int i = thd_id; i < edge_num; i = i + thd_num)]; from
    [thd_id >= 0] and with [thd_num >= 1] it makes at most [edge_num]
    rounds. *)
Fixpoint thdCalcHessian_loop (fuel : nat) (thd_num edge_num : Z) (p : Problem) (i : Z)
         (w : option Workers) : option Workers :=
  match fuel with
  | O => w
  | S f =>
      if (i <? edge_num)%Z
      then thdCalcHessian_loop f thd_num edge_num p (i + thd_num)%Z
             (match w with
              | Some w' => thdCalcHessian_body p w' i
              | None => None
              end)
      else w
  end.

Definition thdCalcHessian (thd_id thd_num : Z) (p : Problem) (w : Workers) : option Workers :=
  let edge_num := Z.of_nat (List.length (edges_ p)) in
  thdCalcHessian_loop (Z.to_nat edge_num) thd_num edge_num p thd_id (Some w).

(** The workers [thd_id], [thd_id + 1], ... below [thd_num], each run to
    its end before the next starts. *)
Fixpoint run_workers (k : nat) (thd_id thd_num : Z) (p : Problem) (w : option Workers)
  : option Workers :=
  match k with
  | O => w
  | S k' =>
      run_workers k' (thd_id + 1)%Z thd_num p
        (match w with
         | Some w' => thdCalcHessian thd_id thd_num p w'
         | None => None
         end)
  end.

(** What the assembler does with the prior once [Hessian_] and [b_] hold
    the sums over the edges. *)
Definition MakeHessian_add_prior (p1 : Problem) : Problem :=
  let st := vertex_store p1 in
  if (0 <? rows (H_prior_ p1))%Z then
    let prior := fold_left (mask_fixed_prior st) (verticies_ p1)
                           (H_prior_ p1, b_prior_ p1) in
    let n := ordering_poses_ p1 in
    set_b_ (segment_add (b_ p1) 0 n (snd prior))
      (set_Hessian_ (block_add (Hessian_ p1) 0 0 n n (fst prior)) p1)
  else p1.

(** [MakeHessianMulti] with its four workers run one after the other. *)
Definition MakeHessianMulti (p : Problem) (w : Workers) : option (Problem * Workers) :=
  let size := ordering_generic_ p in
  let w1 := mkWorkers (edges_idx_ w ++ map e_id (edges_ p))
                      (mat_zero size size) (vec_zero size) in
  let thd_num := 4%Z in
  match run_workers (Z.to_nat thd_num) 0 thd_num p (Some w1) with
  | None => None
  | Some w2 =>
      let p1 := set_b_ (multi_b_ w2) (set_Hessian_ (multi_H_ w2) p) in
      let p2 := MakeHessian_add_prior p1 in
      Some (set_delta_x_ (vec_zero size) p2, w2)
  end.

(** ** The marginaliser: moving a block to the end *)

(** One round of the loop of [Marginalize] that moves the rows and columns
    [idx .. idx + dim) of [H_marg] and the segment of [b_marg] to the
    end. *)
Definition Marginalize_move (reserve_size idx dim : Z) (Hb : MatXX * VecX) : MatXX * VecX :=
  let H_marg := fst Hb in
  let b_marg := snd Hb in
  let temp_rows := block H_marg idx 0 dim reserve_size in
  let temp_botRows :=
    block H_marg (idx + dim) 0 (reserve_size - idx - dim) reserve_size in
  let H1 := block_set H_marg idx 0 (reserve_size - idx - dim) reserve_size temp_botRows in
  let H2 := block_set H1 (reserve_size - dim) 0 dim reserve_size temp_rows in
  let temp_cols := block H2 0 idx reserve_size dim in
  let temp_rightCols :=
    block H2 0 (idx + dim) reserve_size (reserve_size - idx - dim) in
  let H3 := block_set H2 0 idx reserve_size (reserve_size - idx - dim) temp_rightCols in
  let H4 := block_set H3 0 (reserve_size - dim) reserve_size dim temp_cols in
  let temp_b := segment b_marg idx dim in
  let temp_btail := segment b_marg (idx + dim) (reserve_size - idx - dim) in
  let b1 := segment_set b_marg idx (reserve_size - idx - dim) temp_btail in
  let b2 := segment_set b1 (reserve_size - dim) dim temp_b in
  (H4, b2).

(** The loop over [margVertexs] from the last to the first; it returns the
    moved system and [marg_dim]. *)
Definition Marginalize_move_all (st : VertexStore) (reserve_size : Z) (margVertexs : list N)
           (Hb : MatXX * VecX) : MatXX * VecX * Z :=
  fold_left
    (fun acc v =>
       let idx := v_ordering_id (st v) in
       let dim := v_local_dimension (st v) in
       (Marginalize_move reserve_size idx dim (fst acc), (snd acc + dim)%Z))
    (rev margVertexs) (Hb, 0%Z).

(** ** The run of a solve call *)

(** The drivers as they run.  [MakeHessian] is the thread-pool assembler
    (its constant [acc_opt] is 1), with the workers run one after the other,
    each to its end, and with the member [edges_idx_], which it never
    clears.  A failed [assert] and a call through the null pointer that the
    edge map yields for a stale id end the run: the result is [None].  The
    functions of the same names outside this module are the values these
    compute when the run goes on.  The checks Eigen makes on the sizes of
    its operands are not modelled. *)
Module Run.

(** The assertions of the body of [thdCalcHessian] on one edge:
    [assert(jacobians.size() == verticies.size())] and, in the loops over
    the positions [i <= j] of the vertices that are not fixed,
    [assert(v_j->OrderingId() != -1)]. *)
Definition edge_asserts (st : VertexStore) (e : Edge) : bool :=
  let n := List.length (e_verticies e) in
  (List.length (e_jacobians e st) =? n)%nat
  && forallb
       (fun i =>
          v_fixed (st (nth i (e_verticies e) 0%N))
          || forallb
               (fun j =>
                  let v_j := st (nth j (e_verticies e) 0%N) in
                  v_fixed v_j || negb (v_ordering_id v_j =? -1)%Z)
               (seq i (n - i)))
       (seq 0 n).

(** The body of the loop of [thdCalcHessian] at index [i]. *)
Definition thdCalcHessian_body (p : Problem) (w : Workers) (i : Z) : option Workers :=
  match nth_error (edges_idx_ w) (Z.to_nat i) with
  | None => None
  | Some id =>
      match edge_find id (edges_ p) with
      | None => None
      | Some e =>
          if edge_asserts (vertex_store p) e then
            let Hb := hessian_edge_step (vertex_store p) (multi_H_ w, multi_b_ w) e in
            Some (mkWorkers (edges_idx_ w) (fst Hb) (snd Hb))
          else None
      end
  end.

(** [for (int i = thd_id; i < edge_num; i = i + thd_num)] *)
Fixpoint thdCalcHessian_loop (fuel : nat) (thd_num edge_num : Z) (p : Problem) (i : Z)
         (w : option Workers) : option Workers :=
  match fuel with
  | O => w
  | S f =>
      if (i <? edge_num)%Z
      then thdCalcHessian_loop f thd_num edge_num p (i + thd_num)%Z
             (match w with
              | Some w' => thdCalcHessian_body p w' i
              | None => None
              end)
      else w
  end.

Definition thdCalcHessian (thd_id thd_num : Z) (p : Problem) (w : Workers) : option Workers :=
  let edge_num := Z.of_nat (List.length (edges_ p)) in
  thdCalcHessian_loop (Z.to_nat edge_num) thd_num edge_num p thd_id (Some w).

Fixpoint run_workers (k : nat) (thd_id thd_num : Z) (p : Problem) (w : option Workers)
  : option Workers :=
  match k with
  | O => w
  | S k' =>
      run_workers k' (thd_id + 1)%Z thd_num p
        (match w with
         | Some w' => thdCalcHessian thd_id thd_num p w'
         | None => None
         end)
  end.

Definition MakeHessianMulti (p : Problem) (w : Workers) : option (Problem * Workers) :=
  let size := ordering_generic_ p in
  let w1 := mkWorkers (edges_idx_ w ++ map e_id (edges_ p))
                      (mat_zero size size) (vec_zero size) in
  let thd_num := 4%Z in
  match run_workers (Z.to_nat thd_num) 0 thd_num p (Some w1) with
  | None => None
  | Some w2 =>
      let p1 := set_b_ (multi_b_ w2) (set_Hessian_ (multi_H_ w2) p) in
      let p2 := MakeHessian_add_prior p1 in
      Some (set_delta_x_ (vec_zero size) p2, w2)
  end.

(** [switch (acc_opt)] with [acc_opt = 1] *)
Definition MakeHessian (p : Problem) (w : Workers) : option (Problem * Workers) :=
  MakeHessianMulti p w.

(** [assert(Hessian_.rows() == Hessian_.cols())] stands after the cost is
    summed and before the diagonal is read. *)
Definition ComputeLambdaInitLM (p : Problem) : option Problem :=
  let p1 := set_currentChi_ 0 (set_currentLambda_ (-1) (set_ni_ 2 p)) in
  let chi := sum_robust_chi2 (vertex_store p1) (edges_ p1) (currentChi_ p1) in
  let chi := if (0 <? vsize (err_prior_ p1))%Z then chi + squaredNorm (err_prior_ p1) else chi in
  let chi := chi * 0.5 in
  let p2 := set_stopThresholdLM_ (1e-10 * chi) (set_currentChi_ chi p1) in
  if (rows (Hessian_ p2) =? cols (Hessian_ p2))%Z then
    let maxDiagonal := max_abs_diag (Z.to_nat (cols (Hessian_ p2))) (Hessian_ p2) 0 in
    let maxDiagonal := std_min 5e10 maxDiagonal in
    let tau := 1e-5 in
    Some (set_currentLambda_ (tau * maxDiagonal) p2)
  else None.

Section Drive.

Variable ldlt_solve : MatXX -> VecX -> VecX.
Variable inverse : MatXX -> MatXX.

(** [SolveDogLegStep] with [assert(beta_ > 0.0 && beta_ < 1.0)] in its
    third case. *)
Definition SolveDogLegStep (p : Problem) : option Problem :=
  let p1 := set_h_gn_ (vec_zero (vsize (delta_x_ p))) p in
  let p2 :=
    match problemType_ p1 with
    | GENERIC_PROBLEM =>
        let H := Hessian_ p1 in
        set_h_gn_ (ldlt_solve H (b_ p1)) p1
    | SLAM_PROBLEM =>
        let reserve_size := ordering_poses_ p1 in
        let schur_size := ordering_landmarks_ p1 in
        set_h_gn_
          (SolveLinearWithSchur ldlt_solve inverse p1 (Hessian_ p1) (b_ p1) (h_gn_ p1)
                                reserve_size schur_size
                                (idx_landmark_vertices_ p1) (currentLambda_ p1)) p1
    end in
  let p3 := set_alpha_ (squaredNorm (b_ p2)
                       / dot (mat_vec (transpose (Hessian_ p2)) (b_ p2)) (b_ p2)) p2 in
  let p4 := set_h_sd_ (b_ p3) p3 in
  let h_gn_norm := norm (h_gn_ p4) in
  let h_sd_norm := norm (h_sd_ p4) in
  let p5 :=
    if Rle_dec h_gn_norm (currentRadius_ p4) then Some (set_h_dl_ (h_gn_ p4) p4)
    else if Rge_dec (alpha_ p4 * h_sd_norm) (currentRadius_ p4)
    then Some (set_h_dl_ (vec_scale (currentRadius_ p4 / h_sd_norm) (h_sd_ p4)) p4)
    else
      let a := vec_scale (alpha_ p4) (h_sd_ p4) in
      let b := h_gn_ p4 in
      let p' := set_beta_ (DogLeg_beta a b (currentRadius_ p4)) p4 in
      if Rltb 0 (beta_ p') && Rltb (beta_ p') 1
      then Some (set_h_dl_ (vec_add a (vec_scale (beta_ p') (vec_sub b a))) p')
      else None in
  match p5 with
  | Some p6 => Some (set_delta_x_ (h_dl_ p6) p6)
  | None => None
  end.

Definition LM_try (t : TryLoop) (w : Workers) : option (TryLoop * Workers) :=
  let p1 := SolveLinearSystem ldlt_solve inverse (tr_problem t) in
  let p2 := UpdateStates p1 in
  let r := IsGoodStepInLM p2 in
  if fst r then
    match MakeHessian (snd r) w with
    | Some (q, w') => Some (mkTry true 0 q, w')
    | None => None
    end
  else Some (mkTry false (tr_false_cnt t + 1) (RollbackStates (snd r)), w).

(** [while (!oneStepSuccess && false_cnt < 10)] *)
Fixpoint LM_inner (fuel : nat) (t : TryLoop) (w : Workers) : option (TryLoop * Workers) :=
  match fuel with
  | O => Some (t, w)
  | S f => if negb (tr_success t) && (tr_false_cnt t <? 10)%Z
           then match LM_try t w with
                | Some (t', w') => LM_inner f t' w'
                | None => None
                end
           else Some (t, w)
  end.

Definition LM_outer_body (l : DriverLoop) (w : Workers) : option (DriverLoop * Workers) :=
  match LM_inner 10 (mkTry false 0 (lp_problem l)) w with
  | None => None
  | Some (t, w') =>
      let p := tr_problem t in
      let iter := (lp_iter l + 1)%Z in
      let stop := if Rlt_dec (lp_last_chi l - currentChi_ p) 1e-5 then true else lp_stop l in
      Some (mkLoop p stop iter (currentChi_ p), w')
  end.

(** [while (!stop && (iter < iterations))] *)
Fixpoint LM_outer (fuel : nat) (iterations : Z) (l : DriverLoop) (w : Workers)
  : option (DriverLoop * Workers) :=
  match fuel with
  | O => Some (l, w)
  | S f => if negb (lp_stop l) && (lp_iter l <? iterations)%Z
           then match LM_outer_body l w with
                | Some (l', w') => LM_outer f iterations l' w'
                | None => None
                end
           else Some (l, w)
  end.

Definition SolveLM (iterations : Z) (p : Problem) (w : Workers)
  : option (bool * Problem * Workers) :=
  if (List.length (edges_ p) =? 0)%nat || (List.length (verticies_ p) =? 0)%nat
  then Some (false, p, w)
  else
    match MakeHessian (SetOrdering p) w with
    | None => None
    | Some (p1, w1) =>
        match ComputeLambdaInitLM p1 with
        | None => None
        | Some p2 =>
            match LM_outer (Z.to_nat iterations) iterations (mkLoop p2 false 0 1e20) w1 with
            | None => None
            | Some (l, w2) => Some (true, lp_problem l, w2)
            end
        end
    end.

Definition DogLeg_try (t : TryLoop) (w : Workers) : option (TryLoop * Workers) :=
  match SolveDogLegStep (tr_problem t) with
  | None => None
  | Some p1 =>
      let p2 := UpdateStates p1 in
      let r := IsGoodStepInDogLeg p2 in
      if fst r then
        match MakeHessian (snd r) w with
        | Some (q, w') => Some (mkTry true 0 q, w')
        | None => None
        end
      else Some (mkTry false (tr_false_cnt t + 1) (RollbackStates (snd r)), w)
  end.

Fixpoint DogLeg_inner (fuel : nat) (t : TryLoop) (w : Workers) : option (TryLoop * Workers) :=
  match fuel with
  | O => Some (t, w)
  | S f => if negb (tr_success t) && (tr_false_cnt t <? 10)%Z
           then match DogLeg_try t w with
                | Some (t', w') => DogLeg_inner f t' w'
                | None => None
                end
           else Some (t, w)
  end.

Definition DogLeg_outer_body (l : DriverLoop) (w : Workers) : option (DriverLoop * Workers) :=
  match DogLeg_inner 10 (mkTry false 0 (lp_problem l)) w with
  | None => None
  | Some (t, w') =>
      let p := tr_problem t in
      let iter := (lp_iter l + 1)%Z in
      let stop :=
        if Rlt_dec (lp_last_chi l - currentChi_ p) 1e-5 then true
        else if Rlt_dec (norm (b_ p)) 1e-5 then true
        else lp_stop l in
      Some (mkLoop p stop iter (currentChi_ p), w')
  end.

(** [while ((iter < itertaions) && !stop)] *)
Fixpoint DogLeg_outer (fuel : nat) (itertaions : Z) (l : DriverLoop) (w : Workers)
  : option (DriverLoop * Workers) :=
  match fuel with
  | O => Some (l, w)
  | S f => if (lp_iter l <? itertaions)%Z && negb (lp_stop l)
           then match DogLeg_outer_body l w with
                | Some (l', w') => DogLeg_outer f itertaions l' w'
                | None => None
                end
           else Some (l, w)
  end.

Definition SolveDogLeg (itertaions : Z) (p : Problem) (w : Workers)
  : option (bool * Problem * Workers) :=
  if (List.length (edges_ p) =? 0)%nat || (List.length (verticies_ p) =? 0)%nat
  then Some (false, p, w)
  else
    match MakeHessian (SetOrdering p) w with
    | None => None
    | Some (p1, w1) =>
        let p2 := ComputeRadiusInitDogLeg p1 in
        match DogLeg_outer (Z.to_nat itertaions) itertaions (mkLoop p2 false 0 0) w1 with
        | None => None
        | Some (l, w2) => Some (true, lp_problem l, w2)
        end
    end.

Definition Solve (type : Z) (iterations : Z) (p : Problem) (w : Workers)
  : option (bool * Problem * Workers) :=
  if (type =? 0)%Z then SolveLM iterations p w
  else if (type =? 1)%Z then SolveDogLeg iterations p w
  else Some (false, p, w).

End Drive.

End Run.

(** ** Predicates of the statements *)

Local Close Scope R_scope.

(** Two stores whose vertices have the same type tags and dimensions. *)
Definition same_shape (st1 st2 : VertexStore) : Prop :=
  forall k, v_type (st1 k) = v_type (st2 k)
            /\ v_local_dimension (st1 k) = v_local_dimension (st2 k).

(** Selectors that only look at the type tag. *)
Definition by_type (P : Vertex -> bool) : Prop :=
  forall a b, v_type a = v_type b -> P a = P b.

(** The local dimension of a vertex when it is selected, else 0. *)
Definition sel_dim (P : Vertex -> bool) (st : VertexStore) (a : N) : Z :=
  if P (st a) then v_local_dimension (st a) else 0.

(** What one visit of the walk does in SLAM mode. *)
Record visit_post (q q1 : Problem) (a : N) : Prop := {
  vp_type : problemType_ q1 = problemType_ q;
  vp_shape : same_shape (vertex_store q1) (vertex_store q);
  vp_generic : ordering_generic_ q1
               = ordering_generic_ q + v_local_dimension (vertex_store q a);
  vp_poses : ordering_poses_ q1
             = ordering_poses_ q + sel_dim IsPoseVertex (vertex_store q) a;
  vp_landmarks : ordering_landmarks_ q1
                 = ordering_landmarks_ q + sel_dim IsLandmarkVertex (vertex_store q) a;
  vp_other : forall k, k <> a -> vertex_store q1 k = vertex_store q k;
  vp_self : v_ordering_id (vertex_store q1 a)
            = if IsPoseVertex (vertex_store q a) then ordering_poses_ q
              else if IsLandmarkVertex (vertex_store q a) then ordering_landmarks_ q
                   else v_ordering_id (vertex_store q a);
  vp_idx : idx_landmark_vertices_ q1
           = if IsPoseVertex (vertex_store q a) then idx_landmark_vertices_ q
             else if IsLandmarkVertex (vertex_store q a)
                  then key_insert a (idx_landmark_vertices_ q)
                  else idx_landmark_vertices_ q
}.

(** What the walk over a list of distinct vertices does in SLAM mode. *)
Record walk_post (q q' : Problem) (l : list N) : Prop := {
  wp_type : problemType_ q' = problemType_ q;
  wp_shape : same_shape (vertex_store q') (vertex_store q);
  wp_generic : ordering_generic_ q'
               = ordering_generic_ q + dims_total all_vertices (vertex_store q) l;
  wp_poses : ordering_poses_ q'
             = ordering_poses_ q + dims_total IsPoseVertex (vertex_store q) l;
  wp_landmarks : ordering_landmarks_ q'
                 = ordering_landmarks_ q + dims_total IsLandmarkVertex (vertex_store q) l;
  wp_outside : forall k, ~ In k l -> vertex_store q' k = vertex_store q k;
  wp_pose : forall k, In k l -> IsPoseVertex (vertex_store q k) = true ->
            v_ordering_id (vertex_store q' k)
            = ordering_poses_ q + dims_before IsPoseVertex (vertex_store q) l k;
  wp_landmark : forall k, In k l -> IsLandmarkVertex (vertex_store q k) = true ->
            v_ordering_id (vertex_store q' k)
            = ordering_landmarks_ q + dims_before IsLandmarkVertex (vertex_store q) l k;
  wp_neither : forall k, IsPoseVertex (vertex_store q k) = false ->
            IsLandmarkVertex (vertex_store q k) = false ->
            v_ordering_id (vertex_store q' k) = v_ordering_id (vertex_store q k);
  wp_idx : forall k, In k (idx_landmark_vertices_ q')
                     <-> In k (idx_landmark_vertices_ q)
                         \/ (In k l /\ IsLandmarkVertex (vertex_store q k) = true);
  wp_sorted : keys_sorted (idx_landmark_vertices_ q) = true ->
              keys_sorted (idx_landmark_vertices_ q') = true
}.

(** What the second walk (over the landmark map) does. *)
Record shift_post (d : Z) (q q' : Problem) (l : list N) : Prop := {
  sp_type : problemType_ q' = problemType_ q;
  sp_verticies : verticies_ q' = verticies_ q;
  sp_generic : ordering_generic_ q' = ordering_generic_ q;
  sp_poses : ordering_poses_ q' = ordering_poses_ q;
  sp_landmarks : ordering_landmarks_ q' = ordering_landmarks_ q;
  sp_shape : same_shape (vertex_store q') (vertex_store q);
  sp_in : forall k, In k l ->
          v_ordering_id (vertex_store q' k) = v_ordering_id (vertex_store q k) + d;
  sp_out : forall k, ~ In k l -> vertex_store q' k = vertex_store q k
}.

(** What [SetOrdering] relies on: the two maps have strictly ascending
    keys, the landmark map holds no vertex of the problem that is not
    landmark-like, and the local dimensions are positive. *)
Definition ordering_consistent (p : Problem) : Prop :=
  keys_sorted (verticies_ p) = true
  /\ keys_sorted (idx_landmark_vertices_ p) = true
  /\ (forall k, In k (idx_landmark_vertices_ p) -> In k (verticies_ p) ->
                IsLandmarkVertex (vertex_store p k) = true)
  /\ (forall v, In v (verticies_ p) -> 0 < v_local_dimension (vertex_store p v)).

(** The vertex map and the landmark map are [std::map]s, and the landmark
    map holds landmark-like vertices of the problem only. *)
Definition graph_consistent (p : Problem) : Prop :=
  keys_sorted (verticies_ p) = true
  /\ keys_sorted (idx_landmark_vertices_ p) = true
  /\ forall k, In k (idx_landmark_vertices_ p) ->
               In k (verticies_ p) /\ IsLandmarkVertex (vertex_store p k) = true.

(** The prior can be rolled back: [err_prior_] computed by an update still
    has rows when it had rows before. *)
Definition prior_rows_kept (p : Problem) : Prop :=
  0 < vsize (err_prior_ p) -> 0 < rows (Jt_prior_inv_ p).

(** [err_prior_] has as many rows as [Jt_prior_inv_]. *)
Definition prior_rows_agree (p : Problem) : Prop :=
  vsize (err_prior_ p) = rows (Jt_prior_inv_ p).

(** Number of entries of the index under the vertex [v] that hold an edge
    with the id [id]. *)
Definition index_count (v id : N) (l : list (N * Edge)) : nat :=
  List.length (filter (fun x => (fst x =? v)%N && (e_id (snd x) =? id)%N) l).

(** Every edge of the problem is entered in the index under each of its
    vertices (by an entry with its id). *)
Definition edge_index_complete (p : Problem) : Prop :=
  forall e v, In e (edges_ p) -> In v (e_verticies e) ->
    exists e', In (v, e') (vertexToEdge_ p) /\ e_id e' = e_id e.

(** The pose map is a [std::map] and holds pose-like vertices of the
    problem only. *)
Definition pose_index_consistent (p : Problem) : Prop :=
  keys_sorted (idx_pose_vertices_ p) = true
  /\ forall k, In k (idx_pose_vertices_ p) ->
               In k (verticies_ p) /\ IsPoseVertex (vertex_store p k) = true.

Local Open Scope R_scope.

(** Evaluation of the sums of a vector expression of known size. *)
Ltac eval_sums :=
  unfold norm, squaredNorm, dot, sumZ; cbn;
  cbv [Pos.to_nat Pos.iter_op Nat.add sum_upto]; cbn.


(** The robustified information of the edge is symmetric and the Jacobians
    have as many rows as it has. *)
Definition edge_symmetric (st : VertexStore) (e : Edge) : Prop :=
  symmetric (snd (e_robust_info e st))
  /\ forall i, (i < List.length (e_verticies e))%nat ->
               rows (nth i (e_jacobians e st) (mat_zero 0 0)) = rows (snd (e_robust_info e st)).



(** What holds of the flat example throughout the run. *)
Record flat_state (p : Problem) : Prop := {
  fs_type : problemType_ p = GENERIC_PROBLEM;
  fs_verticies : verticies_ p = [0%N];
  fs_edges : edges_ p = [unary_edge];
  fs_x : vcoef (v_parameters (vertex_store p 0%N)) 0 = 0;
  fs_ordering : v_ordering_id (vertex_store p 0%N) = 0%Z;
  fs_dim : v_local_dimension (vertex_store p 0%N) = 1%Z;
  fs_plus : v_plus (vertex_store p 0%N) = vec_add;
  fs_H : coef (Hessian_ p) 0 0 = 1;
  fs_Hrows : rows (Hessian_ p) = 1%Z;
  fs_Hcols : cols (Hessian_ p) = 1%Z;
  fs_b : vcoef (b_ p) 0 = 0;
  fs_bsize : vsize (b_ p) = 1%Z;
  fs_prior : vsize (err_prior_ p) = 0%Z;
  fs_chi : currentChi_ p = 0;
  fs_lambda : 0 < currentLambda_ p;
  fs_ni : 0 < ni_ p
}.

(** Evaluation of the assembled system of the flat example. *)
Ltac flat_eval :=
  cbn; unfold sumZ, sum_robust_chi2;
  cbv [Z.to_nat Pos.to_nat Pos.iter_op Nat.add sum_upto max_abs_diag]; cbn;
  cbv [Z.to_nat Pos.to_nat Pos.iter_op Nat.add sum_upto max_abs_diag]; cbn.

Ltac range_cases :=
  unfold in_range;
  repeat match goal with
         | |- context [(?a <? ?b)%Z] => destruct (Z.ltb_spec a b)
         | |- context [(?a <=? ?b)%Z] => destruct (Z.leb_spec a b)
         end; cbn [andb]; try reflexivity; try lia.

(** What the loop keeps: [A x + r1] is the right-hand side less the first
    step. *)
Definition PCG_invariant (A : MatXX) (b : VecX) (s : PCGState) : Prop :=
  forall i, vcoef (mat_vec A (pcg_x s)) i + vcoef (pcg_r1 s) i
            = vcoef b i - pcg_alpha (PCG_init A b) * vcoef (mat_vec A (pcg_p (PCG_init A b))) i.

(** Where the row (or column) [i] of the moved system comes from. *)
Definition move_index (reserve_size idx dim i : Z) : Z :=
  if (i <? idx)%Z then i
  else if (i <? reserve_size - dim)%Z then (i + dim)%Z
       else (idx + (i - (reserve_size - dim)))%Z.

Ltac decide_ranges :=
  unfold in_range;
  repeat match goal with
         | |- context [(?a <? ?b)%Z] =>
             first [rewrite (proj2 (Z.ltb_lt a b)) by lia
                   |rewrite (proj2 (Z.ltb_ge a b)) by lia]
         | |- context [(?a <=? ?b)%Z] =>
             first [rewrite (proj2 (Z.leb_le a b)) by lia
                   |rewrite (proj2 (Z.leb_gt a b)) by lia]
         end;
  cbn [andb].

(** Where the row [i] comes from after the moves of the vertices of [l], in
    the order in which the loop makes them. *)
Fixpoint move_all_index (st : VertexStore) (reserve_size : Z) (l : list N) (i : Z) : Z :=
  match l with
  | [] => i
  | v :: r =>
      move_index reserve_size (v_ordering_id (st v)) (v_local_dimension (st v))
                 (move_all_index st reserve_size r i)
  end.

(** The accumulators [Hb'] are the accumulators [Hb] plus [DH] and [Db]. *)
Definition acc_shift (DH : Z -> Z -> R) (Db : Z -> R) (Hb Hb' : MatXX * VecX) : Prop :=
  (forall i j, coef (fst Hb') i j = coef (fst Hb) i j + DH i j)
  /\ (forall k, vcoef (snd Hb') k = vcoef (snd Hb) k + Db k).

(** What the edge [e] adds to the coefficient (i, j) of the Hessian and to
    the coefficient [k] of the right-hand side. *)
Definition edge_H (st : VertexStore) (e : Edge) (i j : Z) : R :=
  coef (fst (hessian_edge_step st (mat_zero 0 0, vec_zero 0) e)) i j.

Definition edge_b (st : VertexStore) (e : Edge) (k : Z) : R :=
  vcoef (snd (hessian_edge_step st (mat_zero 0 0, vec_zero 0) e)) k.

(** Sum of [f] over a list. *)
Definition sum_list {A : Type} (f : A -> R) (l : list A) : R :=
  fold_right (fun e a => f e + a) 0 l.

(** Sum of [f] over the positions [i], [i + thd_num], ... below [n]. *)
Fixpoint stride_sum (fuel : nat) (thd_num n i : Z) (f : Z -> R) : R :=
  match fuel with
  | O => 0
  | S fuel' => if (i <? n)%Z then f i + stride_sum fuel' thd_num n (i + thd_num)%Z f else 0
  end.

(** The ids the workers read, the first [edges_.size()] entries of
    [edges_idx_], are the ids of the edges [visited], one for one, and each
    is found in the edge map. *)
Definition ids_resolve (p : Problem) (w : Workers) (visited : list Edge) : Prop :=
  List.length visited = List.length (edges_ p)
  /\ firstn (List.length (edges_ p)) (edges_idx_ w) = map e_id visited
  /\ forall e, In e visited -> edge_find (e_id e) (edges_ p) = Some e.

(** The ids the workers read are the ids of the edges of the problem, in
    the order of the edge map, and no two edges share an id. *)
Definition ids_current (p : Problem) (w : Workers) : Prop :=
  NoDup (map e_id (edges_ p))
  /\ firstn (List.length (edges_ p)) (edges_idx_ w) = map e_id (edges_ p).

(** What a worker state holds more than another. *)
Definition workers_added (w w' : Workers) (DH : Z -> Z -> R) (Db : Z -> R) : Prop :=
  edges_idx_ w' = edges_idx_ w
  /\ rows (multi_H_ w') = rows (multi_H_ w) /\ cols (multi_H_ w') = cols (multi_H_ w)
  /\ vsize (multi_b_ w') = vsize (multi_b_ w)
  /\ (forall i j, coef (multi_H_ w') i j = coef (multi_H_ w) i j + DH i j)
  /\ (forall k, vcoef (multi_b_ w') k = vcoef (multi_b_ w) k + Db k).

(** The share of the worker [thd_id] in a sum over the positions. *)
Definition share (thd_id thd_num : Z) (n : nat) (f : Z -> R) : R :=
  sum_upto n (fun m => if (m mod thd_num =? thd_id)%Z then f m else 0).














(** The vertices keep their fixed flags and their ordering ids. *)
Definition same_ids (st1 st2 : VertexStore) : Prop :=
  forall k, v_fixed (st1 k) = v_fixed (st2 k)
            /\ v_ordering_id (st1 k) = v_ordering_id (st2 k).



(** The same edges, and vertices with the same fixed flags and ordering
    ids. *)
Definition same_graph (p q : Problem) : Prop :=
  edges_ q = edges_ p /\ same_ids (vertex_store q) (vertex_store p).




(** The two vertices of the chain, not yet connected. *)
Definition chain_vertices : Problem :=
  snd (AddVertex 1 (snd (AddVertex 0 (empty_problem GENERIC_PROBLEM chain_store)))).

(** The edge [x1 = 0] on vertex 1 with unit weight, with id 1. *)
Definition second_edge : Edge :=
  mkEdge 1 [1%N] (mat1 1)
         (fun st => vec1 (vcoef (v_parameters (st 1%N)) 0))
         (fun _ => [mat1 1])
         (fun _ => (1, mat1 1))
         (fun st => vcoef (v_parameters (st 1%N)) 0 * vcoef (v_parameters (st 1%N)) 0).

(** A matrix and a vector whose entries tell their positions. *)
Definition numbered_system : MatXX * VecX :=
  (mkMat 3 3 (fun i j => IZR (3 * i + j)), mkVec 3 IZR).

Definition numbered_system4 : MatXX * VecX :=
  (mkMat 4 4 (fun i j => IZR (4 * i + j)), mkVec 4 IZR).

(** Two poses of dimension 1 to marginalise, at the offsets 0 and 2. *)
Definition marg_store : VertexStore :=
  fun k => if (k =? 0)%N then example_vertex "VertexPose" 1 false 0
           else example_vertex "VertexPose" 1 false 2.

(** Workers that have not run yet, and workers left by an assembly of the
    chain. *)
Definition fresh_workers : Workers := mkWorkers [] (mat_zero 0 0) (vec_zero 0).
Definition chain_workers : Workers := mkWorkers [0%N] (mat_zero 2 2) (vec_zero 2).
Definition stale_workers : Workers := mkWorkers [7%N] (mat_zero 2 2) (vec_zero 2).

(** A pose and a landmark of dimension 1 with the Hessian [[2 1] [1 2]],
    the right-hand side [(4, 3)] and damping 1. *)
Definition schur_store : VertexStore :=
  fun k => if (k =? 0)%N then example_vertex "VertexPose" 1 false 0
           else example_vertex "VertexInverseDepth" 1 false 1.

Definition schur_problem : Problem :=
  set_currentLambda_ 1 (empty_problem SLAM_PROBLEM schur_store).

Definition schur_H : MatXX := mkMat 2 2 (fun i j => if (i =? j)%Z then 2 else 1).

(** * Properties *)

Local Close Scope R_scope.

(** A member that no step of a walk writes is left as it was. *)
Lemma fold_left_field {A B : Type} (g : Problem -> B) (step : Problem -> A -> Problem)
      (l : list A) :
  (forall q a, g (step q a) = g q) -> forall q, g (fold_left step l q) = g q.
Proof.
  intros H. induction l as [|a l IH]; intros q; [reflexivity|].
  cbn [fold_left]. rewrite IH. apply H.
Qed.

(** * Keys *)

Lemma key_insert_In (k a : N) (l : list N) :
  In a (key_insert k l) <-> a = k \/ In a l.
Proof.
  induction l as [|x r IH]; simpl.
  - intuition.
  - destruct (N.ltb_spec k x).
    + simpl. intuition.
    + destruct (N.eqb_spec k x).
      * subst. simpl. intuition.
      * simpl. rewrite IH. intuition.
Qed.

Lemma keys_sorted_tail (x : N) (r : list N) :
  keys_sorted (x :: r) = true -> keys_sorted r = true.
Proof.
  simpl. destruct r; [reflexivity|].
  intros H. apply andb_prop in H. apply H.
Qed.

Lemma keys_sorted_lt (x : N) (r : list N) :
  keys_sorted (x :: r) = true -> forall y, In y r -> (x < y)%N.
Proof.
  revert x. induction r as [|z r IH]; intros x H y Hy; [destruct Hy|].
  simpl in H. apply andb_prop in H. destruct H as [Hxz Hr].
  apply N.ltb_lt in Hxz.
  destruct Hy as [->|Hy]; [assumption|].
  specialize (IH z Hr y Hy). lia.
Qed.

Lemma keys_sorted_NoDup (l : list N) : keys_sorted l = true -> NoDup l.
Proof.
  induction l as [|x r IH]; intros H; constructor.
  - intros Hin. pose proof (keys_sorted_lt x r H x Hin). lia.
  - apply IH. eapply keys_sorted_tail; eassumption.
Qed.

Lemma keys_sorted_cons (x : N) (r : list N) :
  (forall y, In y r -> (x < y)%N) -> keys_sorted r = true -> keys_sorted (x :: r) = true.
Proof.
  intros Hlt Hr. simpl. destruct r as [|y r']; [reflexivity|].
  rewrite Hr, andb_true_r. apply N.ltb_lt. apply Hlt. left. reflexivity.
Qed.

Lemma key_insert_sorted (k : N) (l : list N) :
  keys_sorted l = true -> keys_sorted (key_insert k l) = true.
Proof.
  induction l as [|x r IH]; intros H; [reflexivity|].
  cbn [key_insert].
  destruct (N.ltb_spec k x).
  - apply keys_sorted_cons; [|assumption].
    intros y [->|Hy]; [assumption|].
    pose proof (keys_sorted_lt x r H y Hy). lia.
  - destruct (N.eqb_spec k x); [assumption|].
    apply keys_sorted_cons.
    + intros y Hy. apply key_insert_In in Hy. destruct Hy as [->|Hy]; [lia|].
      apply (keys_sorted_lt x r H y Hy).
    + apply IH. eapply keys_sorted_tail; eassumption.
Qed.

(** * Offsets *)

Lemma same_shape_refl st : same_shape st st.
Proof. intros k. split; reflexivity. Qed.

Lemma same_shape_trans st1 st2 st3 :
  same_shape st1 st2 -> same_shape st2 st3 -> same_shape st1 st3.
Proof.
  intros H1 H2 k. destruct (H1 k), (H2 k). split; congruence.
Qed.

Lemma same_shape_pose st1 st2 k :
  same_shape st1 st2 -> IsPoseVertex (st1 k) = IsPoseVertex (st2 k).
Proof. intros H. unfold IsPoseVertex. destruct (H k) as [-> _]. reflexivity. Qed.

Lemma same_shape_landmark st1 st2 k :
  same_shape st1 st2 -> IsLandmarkVertex (st1 k) = IsLandmarkVertex (st2 k).
Proof. intros H. unfold IsLandmarkVertex. destruct (H k) as [-> _]. reflexivity. Qed.

Lemma store_update_ordering_shape st k f :
  (forall x, v_type (f x) = v_type x /\ v_local_dimension (f x) = v_local_dimension x) ->
  same_shape (store_update st k f) st.
Proof.
  intros Hf j. unfold store_update. destruct (N.eqb_spec j k); [apply Hf|split; reflexivity].
Qed.

Lemma by_type_pose : by_type IsPoseVertex.
Proof. intros a b H. unfold IsPoseVertex. rewrite H. reflexivity. Qed.
Lemma by_type_landmark : by_type IsLandmarkVertex.
Proof. intros a b H. unfold IsLandmarkVertex. rewrite H. reflexivity. Qed.
Lemma by_type_all : by_type all_vertices.
Proof. intros a b H. reflexivity. Qed.

Lemma dims_total_shape P st1 st2 l :
  by_type P -> same_shape st1 st2 -> dims_total P st1 l = dims_total P st2 l.
Proof.
  intros HP H. induction l as [|x r IH]; [reflexivity|]. simpl.
  destruct (H x) as [Ht Hd]. rewrite (HP _ _ Ht), Hd, IH. reflexivity.
Qed.

Lemma dims_before_shape P st1 st2 l v :
  by_type P -> same_shape st1 st2 -> dims_before P st1 l v = dims_before P st2 l v.
Proof.
  intros HP H. induction l as [|x r IH]; [reflexivity|]. simpl.
  destruct (H x) as [Ht Hd]. rewrite (HP _ _ Ht), Hd, IH. reflexivity.
Qed.

Lemma dims_total_nonneg P st l :
  (forall v, In v l -> 0 <= v_local_dimension (st v)) -> 0 <= dims_total P st l.
Proof.
  induction l as [|x r IH]; intros H; simpl; [lia|].
  assert (0 <= v_local_dimension (st x)) by (apply H; left; reflexivity).
  assert (0 <= dims_total P st r) by (apply IH; intros; apply H; right; assumption).
  destruct (P (st x)); lia.
Qed.

Lemma dims_before_nonneg P st l v :
  (forall v, In v l -> 0 <= v_local_dimension (st v)) -> 0 <= dims_before P st l v.
Proof.
  induction l as [|x r IH]; intros H; simpl; [lia|].
  destruct (x =? v)%N; [lia|].
  assert (0 <= v_local_dimension (st x)) by (apply H; left; reflexivity).
  assert (0 <= dims_before P st r v) by (apply IH; intros; apply H; right; assumption).
  destruct (P (st x)); lia.
Qed.

(** A selected vertex of the list ends within the total. *)
Lemma dims_before_total P st l v :
  (forall v, In v l -> 0 <= v_local_dimension (st v)) ->
  In v l -> P (st v) = true ->
  dims_before P st l v + v_local_dimension (st v) <= dims_total P st l.
Proof.
  induction l as [|x r IH]; intros H Hin HP; [destruct Hin|]. simpl.
  assert (Hr : forall v, In v r -> 0 <= v_local_dimension (st v))
    by (intros; apply H; right; assumption).
  destruct (N.eqb_spec x v) as [->|Hne].
  - rewrite HP. pose proof (dims_total_nonneg P st r Hr). lia.
  - destruct Hin as [->|Hin]; [congruence|].
    specialize (IH Hr Hin HP).
    assert (0 <= v_local_dimension (st x)) by (apply H; left; reflexivity).
    destruct (P (st x)); lia.
Qed.

Lemma dims_total_le P st l :
  (forall v, In v l -> 0 <= v_local_dimension (st v)) ->
  dims_total P st l <= dims_total all_vertices st l.
Proof.
  induction l as [|x r IH]; intros H; simpl; [lia|].
  assert (0 <= v_local_dimension (st x)) by (apply H; left; reflexivity).
  assert (dims_total P st r <= dims_total all_vertices st r)
    by (apply IH; intros; apply H; right; assumption).
  destruct (P (st x)); lia.
Qed.

Lemma pose_not_landmark v : IsPoseVertex v = true -> IsLandmarkVertex v = false.
Proof.
  unfold IsPoseVertex, IsLandmarkVertex. intros H.
  apply orb_prop in H. destruct H as [H|H]; apply String.eqb_eq in H; rewrite H; reflexivity.
Qed.

Lemma dims_pose_landmark_le st l :
  (forall v, In v l -> 0 <= v_local_dimension (st v)) ->
  dims_total IsPoseVertex st l + dims_total IsLandmarkVertex st l
  <= dims_total all_vertices st l.
Proof.
  induction l as [|x r IH]; intros H; simpl; [lia|].
  assert (0 <= v_local_dimension (st x)) by (apply H; left; reflexivity).
  assert (dims_total IsPoseVertex st r + dims_total IsLandmarkVertex st r
          <= dims_total all_vertices st r)
    by (apply IH; intros; apply H; right; assumption).
  destruct (IsPoseVertex (st x)) eqn:E.
  - rewrite (pose_not_landmark _ E). lia.
  - destruct (IsLandmarkVertex (st x)); lia.
Qed.

Lemma store_update_same st k f : store_update st k f k = f (st k).
Proof. unfold store_update. rewrite N.eqb_refl. reflexivity. Qed.

Lemma store_update_other st k f j : j <> k -> store_update st k f j = st j.
Proof. intros H. unfold store_update. destruct (N.eqb_spec j k); congruence. Qed.

Lemma SetOrdering_visit_slam (q : Problem) (a : N) :
  problemType_ q = SLAM_PROBLEM -> visit_post q (SetOrdering_visit q a) a.
Proof.
  intros Hs. unfold SetOrdering_visit, AddOrderingSLAM. cbn. rewrite Hs. cbn.
  destruct (IsPoseVertex (vertex_store q a)) eqn:Ep;
    [pose proof (pose_not_landmark _ Ep) as El
    |destruct (IsLandmarkVertex (vertex_store q a)) eqn:El].
  all: constructor; unfold sel_dim; cbn;
    rewrite ?store_update_same, ?Ep, ?El; cbn; try lia; try congruence.
  all: try (apply store_update_ordering_shape; intros x; split; reflexivity).
  all: try (intros k Hk; apply store_update_other; assumption).
  all: try apply same_shape_refl.
Qed.

Lemma SetOrdering_walk_slam (l : list N) :
  forall q, problemType_ q = SLAM_PROBLEM -> NoDup l ->
            walk_post q (fold_left SetOrdering_visit l q) l.
Proof.
  induction l as [|a l IH]; intros q Hs Hnd.
  - cbn. constructor; cbn; try lia; try reflexivity; try tauto.
    apply same_shape_refl.
  - cbn [fold_left].
    inversion Hnd as [|? ? Hnotin Hnd']; subst.
    pose proof (SetOrdering_visit_slam q a Hs) as V.
    set (q1 := SetOrdering_visit q a) in *.
    assert (Hs1 : problemType_ q1 = SLAM_PROBLEM) by (rewrite (vp_type _ _ _ V); assumption).
    specialize (IH q1 Hs1 Hnd').
    set (q' := fold_left SetOrdering_visit l q1) in *.
    pose proof (vp_shape _ _ _ V) as Sh1.
    constructor.
    + rewrite (wp_type _ _ _ IH). apply (vp_type _ _ _ V).
    + eapply same_shape_trans; [apply (wp_shape _ _ _ IH)|assumption].
    + rewrite (wp_generic _ _ _ IH), (vp_generic _ _ _ V).
      rewrite (dims_total_shape _ _ _ l by_type_all Sh1). cbn. lia.
    + rewrite (wp_poses _ _ _ IH), (vp_poses _ _ _ V).
      rewrite (dims_total_shape _ _ _ l by_type_pose Sh1). unfold sel_dim. cbn. lia.
    + rewrite (wp_landmarks _ _ _ IH), (vp_landmarks _ _ _ V).
      rewrite (dims_total_shape _ _ _ l by_type_landmark Sh1). unfold sel_dim. cbn. lia.
    + intros k Hk. cbn in Hk.
      rewrite (wp_outside _ _ _ IH k) by tauto.
      apply (vp_other _ _ _ V). intros ->. tauto.
    + intros k Hk Hp. cbn [dims_before].
      destruct (N.eqb_spec a k) as [->|Hne].
      * rewrite (wp_outside _ _ _ IH k Hnotin), (vp_self _ _ _ V), Hp. lia.
      * destruct Hk as [->|Hk]; [congruence|].
        rewrite (wp_pose _ _ _ IH k Hk)
          by (rewrite (same_shape_pose _ _ k Sh1); assumption).
        rewrite (vp_poses _ _ _ V), (dims_before_shape _ _ _ l k by_type_pose Sh1).
        unfold sel_dim. lia.
    + intros k Hk Hp. cbn [dims_before].
      destruct (N.eqb_spec a k) as [->|Hne].
      * rewrite (wp_outside _ _ _ IH k Hnotin), (vp_self _ _ _ V), Hp.
        destruct (IsPoseVertex (vertex_store q k)) eqn:E;
          [rewrite (pose_not_landmark _ E) in Hp; discriminate|lia].
      * destruct Hk as [->|Hk]; [congruence|].
        rewrite (wp_landmark _ _ _ IH k Hk)
          by (rewrite (same_shape_landmark _ _ k Sh1); assumption).
        rewrite (vp_landmarks _ _ _ V), (dims_before_shape _ _ _ l k by_type_landmark Sh1).
        unfold sel_dim. lia.
    + intros k Hp Hl.
      rewrite (wp_neither _ _ _ IH k)
        by (rewrite ?(same_shape_pose _ _ k Sh1), ?(same_shape_landmark _ _ k Sh1); assumption).
      destruct (N.eq_dec k a) as [->|Hne].
      * rewrite (vp_self _ _ _ V), Hp, Hl. reflexivity.
      * rewrite (vp_other _ _ _ V k Hne). reflexivity.
    + intros k. rewrite (wp_idx _ _ _ IH k), (vp_idx _ _ _ V).
      rewrite (same_shape_landmark _ _ k Sh1). cbn [In].
      destruct (IsPoseVertex (vertex_store q a)) eqn:Ep.
      * pose proof (pose_not_landmark _ Ep) as El.
        split; [tauto|]. intros [H|[[->|H] Hk]]; try tauto. congruence.
      * destruct (IsLandmarkVertex (vertex_store q a)) eqn:El.
        -- rewrite key_insert_In. split; [intros [[->|H]|H]; tauto|].
           intros [H|[[->|H] Hk]]; tauto.
        -- split; [tauto|]. intros [H|[[->|H] Hk]]; try tauto. congruence.
    + intros Hsorted. apply (wp_sorted _ _ _ IH). rewrite (vp_idx _ _ _ V).
      destruct (IsPoseVertex (vertex_store q a)); [assumption|].
      destruct (IsLandmarkVertex (vertex_store q a)); [|assumption].
      apply key_insert_sorted. assumption.
Qed.

Lemma SetOrdering_shift_walk (d : Z) (l : list N) :
  forall q, NoDup l -> shift_post d q (fold_left (SetOrdering_shift d) l q) l.
Proof.
  induction l as [|a l IH]; intros q Hnd.
  - cbn. constructor; try reflexivity; try (intros k []); try apply same_shape_refl.
  - cbn [fold_left]. inversion Hnd as [|? ? Hnotin Hnd']; subst.
    specialize (IH (SetOrdering_shift d q a) Hnd').
    set (q' := fold_left (SetOrdering_shift d) l (SetOrdering_shift d q a)) in *.
    assert (Sh1 : same_shape (vertex_store (SetOrdering_shift d q a)) (vertex_store q)).
    { cbn. apply store_update_ordering_shape. intros x. split; reflexivity. }
    constructor.
    + rewrite (sp_type _ _ _ _ IH). reflexivity.
    + rewrite (sp_verticies _ _ _ _ IH). reflexivity.
    + rewrite (sp_generic _ _ _ _ IH). reflexivity.
    + rewrite (sp_poses _ _ _ _ IH). reflexivity.
    + rewrite (sp_landmarks _ _ _ _ IH). reflexivity.
    + eapply same_shape_trans; [apply (sp_shape _ _ _ _ IH)|assumption].
    + intros k [->|Hk].
      * rewrite (sp_out _ _ _ _ IH k Hnotin). cbn. rewrite store_update_same. reflexivity.
      * rewrite (sp_in _ _ _ _ IH k Hk). cbn.
        rewrite store_update_other by (intros ->; tauto). reflexivity.
    + intros k Hk. cbn in Hk. rewrite (sp_out _ _ _ _ IH k) by tauto.
      cbn. apply store_update_other. intros ->. tauto.
Qed.

Lemma SetOrdering_walk_verticies (l : list N) :
  forall q, verticies_ (fold_left SetOrdering_visit l q) = verticies_ q.
Proof.
  induction l as [|a l IH]; intros q; [reflexivity|]. cbn [fold_left]. rewrite IH.
  unfold SetOrdering_visit, AddOrderingSLAM. cbn.
  destruct (is_slam (problemType_ q)); [|reflexivity].
  destruct (IsPoseVertex (vertex_store q a)); [reflexivity|].
  destruct (IsLandmarkVertex (vertex_store q a)); reflexivity.
Qed.

(** In GENERIC mode the walk only counts. *)
Lemma SetOrdering_walk_generic (l : list N) :
  forall q, problemType_ q = GENERIC_PROBLEM ->
            let q' := fold_left SetOrdering_visit l q in
            problemType_ q' = GENERIC_PROBLEM
            /\ vertex_store q' = vertex_store q
            /\ ordering_generic_ q'
               = ordering_generic_ q + dims_total all_vertices (vertex_store q) l.
Proof.
  induction l as [|a l IH]; intros q Hg; cbn.
  - repeat split; try assumption. lia.
  - assert (E : SetOrdering_visit q a
                = set_ordering_generic_
                    (ordering_generic_ q + v_local_dimension (vertex_store q a)) q).
    { unfold SetOrdering_visit. cbn. rewrite Hg. reflexivity. }
    rewrite E.
    destruct (IH (set_ordering_generic_
                    (ordering_generic_ q + v_local_dimension (vertex_store q a)) q) Hg)
      as (H1 & H2 & H3).
    repeat split; [exact H1|exact H2|]. rewrite H3. cbn. lia.
Qed.

(** In either mode the walk counts every vertex in [ordering_generic_]. *)
Lemma SetOrdering_walk_count (l : list N) :
  forall q, let q' := fold_left SetOrdering_visit l q in
            same_shape (vertex_store q') (vertex_store q)
            /\ ordering_generic_ q'
               = ordering_generic_ q + dims_total all_vertices (vertex_store q) l.
Proof.
  induction l as [|a l IH]; intros q; cbn [fold_left dims_total].
  - split; [apply same_shape_refl|lia].
  - destruct (IH (SetOrdering_visit q a)) as [Sh Hg].
    assert (V : same_shape (vertex_store (SetOrdering_visit q a)) (vertex_store q)
                /\ ordering_generic_ (SetOrdering_visit q a)
                   = ordering_generic_ q + v_local_dimension (vertex_store q a)).
    { destruct (problemType_ q) eqn:Et.
      - pose proof (SetOrdering_visit_slam q a Et) as V.
        split; [apply (vp_shape _ _ _ V)|apply (vp_generic _ _ _ V)].
      - unfold SetOrdering_visit. cbn. rewrite Et. cbn.
        split; [apply same_shape_refl|reflexivity]. }
    destruct V as [Sh1 Hg1].
    split; [eapply same_shape_trans; eassumption|].
    rewrite Hg, Hg1, (dims_total_shape _ _ _ l by_type_all Sh1). cbn. lia.
Qed.

Lemma SetOrdering_generic_count (p : Problem) :
  verticies_ (SetOrdering p) = verticies_ p
  /\ ordering_generic_ (SetOrdering p)
     = dims_total all_vertices (vertex_store p) (verticies_ p).
Proof.
  unfold SetOrdering.
  set (p0 := set_ordering_landmarks_ 0 (set_ordering_generic_ 0 (set_ordering_poses_ 0 p))).
  destruct (SetOrdering_walk_count (verticies_ p0) p0) as [_ Hg].
  pose proof (SetOrdering_walk_verticies (verticies_ p0) p0) as Hv.
  set (p1 := fold_left SetOrdering_visit (verticies_ p0) p0) in *.
  destruct (is_slam (problemType_ p1)).
  - rewrite (fold_left_field verticies_), (fold_left_field ordering_generic_);
      [|intros q a; reflexivity|intros q a; reflexivity].
    split; [exact Hv|]. rewrite Hg. reflexivity.
  - split; [exact Hv|]. rewrite Hg. reflexivity.
Qed.

(** C3, as amended.  After [SetOrdering], [ordering_generic_] is the sum of
    the local dimensions of all vertices.  In SLAM mode every pose-like
    vertex gets the summed dimensions of the pose-like vertices with a
    smaller id, inside [0, ordering_poses_), and every landmark-like vertex
    gets [ordering_poses_] plus the summed dimensions of the landmark-like
    vertices with a smaller id, inside
    [ordering_poses_, ordering_poses_ + ordering_landmarks_), which lies
    within [0, ordering_generic_).  A vertex that is neither, and every
    vertex in GENERIC mode, keeps the ordering id it had. *)
Theorem SetOrdering_offsets (p : Problem) :
  let q := SetOrdering p in
  let st := vertex_store p in
  let vs := verticies_ p in
  verticies_ q = vs
  /\ ordering_generic_ q = dims_total all_vertices st vs
  /\ (problemType_ p = GENERIC_PROBLEM -> vertex_store q = st)
  /\ (problemType_ p = SLAM_PROBLEM -> ordering_consistent p ->
      ordering_poses_ q = dims_total IsPoseVertex st vs
      /\ ordering_landmarks_ q = dims_total IsLandmarkVertex st vs
      /\ ordering_poses_ q + ordering_landmarks_ q <= ordering_generic_ q
      /\ forall v, In v vs ->
           let id := v_ordering_id (vertex_store q v) in
           let dim := v_local_dimension (st v) in
           (IsPoseVertex (st v) = true ->
              id = dims_before IsPoseVertex st vs v
              /\ 0 <= id /\ id + dim <= ordering_poses_ q
              /\ id < ordering_generic_ q)
           /\ (IsLandmarkVertex (st v) = true ->
                 id = ordering_poses_ q + dims_before IsLandmarkVertex st vs v
                 /\ ordering_poses_ q <= id
                 /\ id + dim <= ordering_poses_ q + ordering_landmarks_ q
                 /\ 0 <= id /\ id < ordering_generic_ q)
           /\ (IsPoseVertex (st v) = false -> IsLandmarkVertex (st v) = false ->
                 id = v_ordering_id (st v))).
Proof.
  intros q st vs.
  destruct (SetOrdering_generic_count p) as [Hverts Hcount]. fold q st vs in Hverts, Hcount.
  split; [exact Hverts|]. split; [exact Hcount|].
  set (p0 := set_ordering_landmarks_ 0 (set_ordering_generic_ 0 (set_ordering_poses_ 0 p))).
  split.
  - intros Et. destruct (SetOrdering_walk_generic vs p0 Et) as (H1 & H2 & H3).
    assert (Eq : q = fold_left SetOrdering_visit vs p0).
    { subst q. unfold SetOrdering. fold p0. change (verticies_ p0) with vs.
      rewrite H1. reflexivity. }
    rewrite Eq, H2. reflexivity.
  - intros Et (Hvs & Hidx & Hlm & Hdim).
    assert (Hnn : forall v, In v vs -> 0 <= v_local_dimension (st v))
      by (intros v Hv; specialize (Hdim v Hv); subst st; lia).
    pose proof (SetOrdering_walk_slam vs p0 Et (keys_sorted_NoDup _ Hvs)) as W.
    set (p1 := fold_left SetOrdering_visit vs p0) in *.
    assert (Eq : q = fold_left (SetOrdering_shift (ordering_poses_ p1))
                               (idx_landmark_vertices_ p1) p1).
    { subst q. unfold SetOrdering. fold p0. change (verticies_ p0) with vs. fold p1.
      rewrite (wp_type _ _ _ W). cbn. rewrite Et. reflexivity. }
    pose proof (SetOrdering_shift_walk (ordering_poses_ p1) (idx_landmark_vertices_ p1) p1
                  (keys_sorted_NoDup _ (wp_sorted _ _ _ W Hidx))) as S.
    rewrite <- Eq in S.
    assert (Hop : ordering_poses_ q = dims_total IsPoseVertex st vs).
    { rewrite (sp_poses _ _ _ _ S), (wp_poses _ _ _ W). cbn. reflexivity. }
    assert (Hol : ordering_landmarks_ q = dims_total IsLandmarkVertex st vs).
    { rewrite (sp_landmarks _ _ _ _ S), (wp_landmarks _ _ _ W). cbn. reflexivity. }
    assert (Hle : ordering_poses_ q + ordering_landmarks_ q <= ordering_generic_ q).
    { rewrite Hop, Hol, Hcount. apply dims_pose_landmark_le. assumption. }
    repeat (split; [assumption|]).
    intros v Hv id dim.
    split; [|split].
    + intros Hp.
      assert (Hnot : ~ In v (idx_landmark_vertices_ p1)).
      { intros Hin. apply (wp_idx _ _ _ W) in Hin. cbn in Hin.
        pose proof (pose_not_landmark _ Hp) as Hl. fold st in Hin.
        destruct Hin as [Hin|[_ Hin]]; [|congruence].
        specialize (Hlm v Hin Hv). fold st in Hlm. congruence. }
      assert (Hid : id = dims_before IsPoseVertex st vs v).
      { subst id. rewrite (sp_out _ _ _ _ S v Hnot).
        rewrite (wp_pose _ _ _ W v Hv Hp). cbn. reflexivity. }
      pose proof (dims_before_nonneg IsPoseVertex st vs v Hnn).
      pose proof (dims_before_total IsPoseVertex st vs v Hnn Hv Hp).
      pose proof (dims_total_nonneg IsLandmarkVertex st vs Hnn).
      specialize (Hdim v Hv). fold st in Hdim. subst dim.
      repeat split; try lia.
    + intros Hl.
      assert (Hin : In v (idx_landmark_vertices_ p1)).
      { apply (wp_idx _ _ _ W). right. split; assumption. }
      assert (Hid : id = ordering_poses_ q + dims_before IsLandmarkVertex st vs v).
      { subst id. rewrite (sp_in _ _ _ _ S v Hin).
        rewrite (wp_landmark _ _ _ W v Hv Hl), (sp_poses _ _ _ _ S). cbn. fold st. lia. }
      pose proof (dims_before_nonneg IsLandmarkVertex st vs v Hnn).
      pose proof (dims_before_total IsLandmarkVertex st vs v Hnn Hv Hl).
      pose proof (dims_total_nonneg IsPoseVertex st vs Hnn).
      specialize (Hdim v Hv). fold st in Hdim. subst dim.
      repeat split; try lia.
    + intros Hp Hl.
      assert (Hnot : ~ In v (idx_landmark_vertices_ p1)).
      { intros Hin. apply (wp_idx _ _ _ W) in Hin. cbn in Hin. fold st in Hin.
        destruct Hin as [Hin|[_ Hin]]; [|congruence].
        specialize (Hlm v Hin Hv). fold st in Hlm. congruence. }
      subst id. rewrite (sp_out _ _ _ _ S v Hnot).
      apply (wp_neither _ _ _ W v Hp Hl).
Qed.

(** * The graph operations keep the maps consistent *)

Lemma graph_consistent_ordering (p : Problem) :
  graph_consistent p ->
  (forall v, In v (verticies_ p) -> 0 < v_local_dimension (vertex_store p v)) ->
  ordering_consistent p.
Proof.
  intros (Hv & Hi & Hl) Hd. repeat split; try assumption.
  intros k Hk _. apply (Hl k Hk).
Qed.

Lemma empty_problem_consistent (t : ProblemType) (st : VertexStore) :
  graph_consistent (empty_problem t st).
Proof. split; [reflexivity|]. split; [reflexivity|]. intros k []. Qed.

Lemma key_mem_In (k : N) (l : list N) : key_mem k l = true <-> In k l.
Proof.
  unfold key_mem. rewrite existsb_exists. split.
  - intros (x & Hx & E). apply N.eqb_eq in E. subst. assumption.
  - intros H. exists k. split; [assumption|apply N.eqb_refl].
Qed.

Lemma key_erase_In (k a : N) (l : list N) : In a (key_erase k l) <-> In a l /\ a <> k.
Proof.
  unfold key_erase. rewrite filter_In. split; intros [H1 H2]; split; try assumption.
  - intros ->. rewrite N.eqb_refl in H2. discriminate.
  - destruct (N.eqb_spec a k); [contradiction|reflexivity].
Qed.

Lemma key_erase_sorted (k : N) (l : list N) :
  keys_sorted l = true -> keys_sorted (key_erase k l) = true.
Proof.
  induction l as [|x r IH]; intros H; [reflexivity|].
  pose proof (keys_sorted_tail x r H) as Hr.
  unfold key_erase in *. cbn [filter].
  destruct (negb (x =? k)%N); [|apply IH; assumption].
  apply keys_sorted_cons; [|apply IH; assumption].
  intros y Hy. apply filter_In in Hy. destruct Hy as [Hy _].
  apply (keys_sorted_lt x r H y Hy).
Qed.

Lemma AddVertex_consistent (v : N) (p : Problem) :
  graph_consistent p -> graph_consistent (snd (AddVertex v p)).
Proof.
  intros (Hv & Hi & Hl). unfold AddVertex.
  destruct (key_mem v (verticies_ p)); [exact (conj Hv (conj Hi Hl))|].
  cbn [snd].
  assert (E : forall q, verticies_ q = key_insert v (verticies_ p) ->
                        idx_landmark_vertices_ q = idx_landmark_vertices_ p ->
                        vertex_store q = vertex_store p -> graph_consistent q).
  { intros q E1 E2 E3. unfold graph_consistent. rewrite E1, E2, E3.
    split; [apply key_insert_sorted; assumption|]. split; [assumption|].
    intros k Hk. destruct (Hl k Hk) as [H1 H2]. split; [|assumption].
    apply key_insert_In. right. assumption. }
  destruct (is_slam _ && IsPoseVertex _); apply E; reflexivity.
Qed.

Lemma RemoveEdges_frame (es : list Edge) (p : Problem) :
  let q := fold_left (fun q e => snd (RemoveEdge e q)) es p in
  verticies_ q = verticies_ p /\ idx_landmark_vertices_ q = idx_landmark_vertices_ p
  /\ idx_pose_vertices_ q = idx_pose_vertices_ p /\ vertex_store q = vertex_store p.
Proof.
  revert p. induction es as [|e es IH]; intros p; cbn [fold_left]; [repeat split|].
  destruct (IH (snd (RemoveEdge e p))) as (-> & -> & -> & ->).
  unfold RemoveEdge. destruct (edge_mem (e_id e) (edges_ p)); repeat split.
Qed.

Lemma RemoveVertex_consistent (v : N) (p : Problem) :
  graph_consistent p -> graph_consistent (snd (RemoveVertex v p)).
Proof.
  intros (Hv & Hi & Hl). unfold RemoveVertex.
  destruct (key_mem v (verticies_ p)); [|exact (conj Hv (conj Hi Hl))].
  cbn [snd].
  destruct (RemoveEdges_frame (GetConnectedEdges v p) p) as (E1 & E2 & E3 & E4).
  set (p1 := fold_left (fun q e => snd (RemoveEdge e q)) (GetConnectedEdges v p) p) in *.
  clearbody p1.
  destruct (IsPoseVertex (vertex_store p1 v)) eqn:Ep; unfold graph_consistent; cbn;
    rewrite ?E1, ?E2, ?E4.
  - split; [apply key_erase_sorted; assumption|]. split; [assumption|].
    intros k Hk. destruct (Hl k Hk) as [H1 H2].
    assert (Hne : k <> v).
    { intros ->. rewrite E4 in Ep. rewrite (pose_not_landmark _ Ep) in H2. discriminate. }
    split; [apply key_erase_In; split; assumption|].
    rewrite store_update_other by assumption. assumption.
  - split; [apply key_erase_sorted; assumption|].
    split; [apply key_erase_sorted; assumption|].
    intros k Hk. apply key_erase_In in Hk. destruct Hk as [Hk Hne].
    destruct (Hl k Hk) as [H1 H2].
    split; [apply key_erase_In; split; assumption|].
    rewrite store_update_other by assumption. assumption.
Qed.

Lemma SetOrdering_walk_generic_idx (l : list N) :
  forall q, problemType_ q = GENERIC_PROBLEM ->
            idx_landmark_vertices_ (fold_left SetOrdering_visit l q)
            = idx_landmark_vertices_ q.
Proof.
  induction l as [|a l IH]; intros q Hg; [reflexivity|]. cbn [fold_left].
  assert (E : SetOrdering_visit q a
              = set_ordering_generic_
                  (ordering_generic_ q + v_local_dimension (vertex_store q a)) q).
  { unfold SetOrdering_visit. cbn. rewrite Hg. reflexivity. }
  rewrite E, IH; [reflexivity|exact Hg].
Qed.

Lemma SetOrdering_shift_idx (d : Z) (l : list N) :
  forall q, idx_landmark_vertices_ (fold_left (SetOrdering_shift d) l q)
            = idx_landmark_vertices_ q.
Proof.
  induction l as [|a l IH]; intros q; [reflexivity|]. cbn [fold_left]. rewrite IH. reflexivity.
Qed.

Lemma SetOrdering_consistent (p : Problem) :
  graph_consistent p -> graph_consistent (SetOrdering p).
Proof.
  intros (Hv & Hi & Hl).
  set (p0 := set_ordering_landmarks_ 0 (set_ordering_generic_ 0 (set_ordering_poses_ 0 p))).
  destruct (problemType_ p) eqn:Et.
  - pose proof (SetOrdering_walk_slam (verticies_ p) p0 Et (keys_sorted_NoDup _ Hv)) as W.
    set (p1 := fold_left SetOrdering_visit (verticies_ p) p0) in *.
    assert (Eq : SetOrdering p = fold_left (SetOrdering_shift (ordering_poses_ p1))
                                           (idx_landmark_vertices_ p1) p1).
    { unfold SetOrdering. fold p0. change (verticies_ p0) with (verticies_ p). fold p1.
      rewrite (wp_type _ _ _ W). cbn. rewrite Et. reflexivity. }
    pose proof (SetOrdering_shift_walk (ordering_poses_ p1) (idx_landmark_vertices_ p1) p1
                  (keys_sorted_NoDup _ (wp_sorted _ _ _ W Hi))) as S.
    rewrite <- Eq in S.
    assert (Ev : verticies_ (SetOrdering p) = verticies_ p).
    { rewrite (sp_verticies _ _ _ _ S). exact (SetOrdering_walk_verticies (verticies_ p) p0). }
    assert (Ei : idx_landmark_vertices_ (SetOrdering p) = idx_landmark_vertices_ p1)
      by (rewrite Eq; apply SetOrdering_shift_idx).
    unfold graph_consistent. rewrite Ev, Ei.
    split; [assumption|]. split; [apply (wp_sorted _ _ _ W Hi)|].
    intros k Hk.
    assert (Hty : IsLandmarkVertex (vertex_store (SetOrdering p) k)
                  = IsLandmarkVertex (vertex_store p k)).
    { rewrite (same_shape_landmark _ _ k (sp_shape _ _ _ _ S)).
      apply (same_shape_landmark _ _ k (wp_shape _ _ _ W)). }
    rewrite Hty. apply (wp_idx _ _ _ W) in Hk. cbn in Hk.
    destruct Hk as [Hk|[Hk Hlm]]; [apply (Hl k Hk)|split; assumption].
  - destruct (SetOrdering_walk_generic (verticies_ p) p0 Et) as (H1 & H2 & _).
    assert (Eq : SetOrdering p = fold_left SetOrdering_visit (verticies_ p) p0).
    { unfold SetOrdering. fold p0. change (verticies_ p0) with (verticies_ p).
      rewrite H1. reflexivity. }
    unfold graph_consistent. rewrite Eq, SetOrdering_walk_verticies, H2.
    rewrite SetOrdering_walk_generic_idx by exact Et.
    split; [assumption|]. split; [assumption|]. exact Hl.
Qed.

(** A walk that applies the same method to each vertex of a list once. *)
Lemma fold_store_update (f : Vertex -> Vertex) (l : list N) :
  forall st, NoDup l ->
    (forall k, In k l -> fold_left (fun s v => store_update s v f) l st k = f (st k))
    /\ (forall k, ~ In k l -> fold_left (fun s v => store_update s v f) l st k = st k).
Proof.
  induction l as [|a l IH]; intros st Hnd.
  - split; [intros k []|reflexivity].
  - inversion Hnd as [|? ? Hnotin Hnd']; subst. cbn [fold_left].
    destruct (IH (store_update st a f) Hnd') as [Hin Hout].
    split.
    + intros k [->|Hk].
      * rewrite Hout by assumption. apply store_update_same.
      * rewrite Hin by assumption. rewrite store_update_other by (intros ->; tauto).
        reflexivity.
    + intros k Hk. cbn in Hk. rewrite Hout by tauto.
      apply store_update_other. intros ->. tauto.
Qed.

(** C5.  [RollbackStates] after [UpdateStates] gives every vertex of the
    problem the parameters it had before the update and restores
    [b_prior_] and [err_prior_]; the rollback changes nothing else: the
    other members of the problem, the other fields of the vertices and the
    vertices outside the problem are those the update left. *)
Theorem Rollback_undoes_Update (p : Problem) :
  keys_sorted (verticies_ p) = true ->
  prior_rows_kept p ->
  let u := UpdateStates p in
  let r := RollbackStates u in
  (forall v, In v (verticies_ p) ->
             v_parameters (vertex_store r v) = v_parameters (vertex_store p v))
  /\ b_prior_ r = b_prior_ p
  /\ err_prior_ r = err_prior_ p
  /\ r = set_err_prior_ (err_prior_ r)
           (set_b_prior_ (b_prior_ r) (set_vertex_store (vertex_store r) u))
  /\ (forall k, ~ In k (verticies_ p) -> vertex_store r k = vertex_store u k)
  /\ (forall k, vertex_store r k
                = mkVertex (v_type (vertex_store u k)) (v_local_dimension (vertex_store u k))
                           (v_fixed (vertex_store u k)) (v_ordering_id (vertex_store u k))
                           (v_parameters (vertex_store r k))
                           (v_parameters_backup (vertex_store u k))
                           (v_plus (vertex_store u k))).
Proof.
  intros Hs Hrows u r.
  pose proof (keys_sorted_NoDup _ Hs) as Hnd.
  set (upd := fun x : Vertex =>
                Plus (segment (delta_x_ p) (v_ordering_id (BackUpParameters x))
                              (v_local_dimension (BackUpParameters x)))
                     (BackUpParameters x)).
  set (st1 := fold_left (UpdateStates_vertex (delta_x_ p)) (verticies_ p) (vertex_store p)).
  destruct (fold_store_update upd (verticies_ p) (vertex_store p) Hnd) as [Uin Uout].
  fold st1 in Uin, Uout.
  assert (Ev : verticies_ u = verticies_ p /\ vertex_store u = st1).
  { subst u. unfold UpdateStates. fold st1. cbn.
    destruct (0 <? vsize (err_prior_ p)); cbn; split; reflexivity. }
  destruct Ev as [Ev Est].
  set (st2 := fold_left (fun s v => store_update s v RollBackParameters)
                        (verticies_ u) (vertex_store u)).
  destruct (fold_store_update RollBackParameters (verticies_ u) (vertex_store u))
    as [Rin Rout]; [rewrite Ev; assumption|].
  fold st2 in Rin, Rout.
  assert (Er : vertex_store r = st2).
  { subst r. unfold RollbackStates. fold st2. cbn.
    destruct (0 <? vsize (err_prior_ u)); cbn; reflexivity. }
  assert (Hprior : b_prior_ r = b_prior_ p /\ err_prior_ r = err_prior_ p).
  { subst r u. unfold RollbackStates, UpdateStates. fold st1. cbn.
    destruct (Z.ltb_spec 0 (vsize (err_prior_ p))) as [Hpos|Hnone]; cbn.
    - destruct (Z.ltb_spec 0 (rows (Jt_prior_inv_ p))) as [_|Hbad]; cbn.
      + split; reflexivity.
      + specialize (Hrows Hpos). lia.
    - destruct (Z.ltb_spec 0 (vsize (err_prior_ p))); [lia|]. cbn. split; reflexivity. }
  split; [|split; [|split; [|split; [|split]]]].
  - intros v Hv. rewrite Er, Rin by (rewrite Ev; assumption).
    rewrite Est, Uin by assumption. reflexivity.
  - apply Hprior.
  - apply Hprior.
  - subst r. unfold RollbackStates. fold st2.
    destruct (0 <? vsize (err_prior_ (set_vertex_store st2 u))); destruct u; reflexivity.
  - intros k Hk. rewrite Er. apply Rout. rewrite Ev. assumption.
  - intros k. rewrite Er.
    destruct (in_dec N.eq_dec k (verticies_ u)) as [Hin|Hout].
    + rewrite Rin by assumption. reflexivity.
    + rewrite Rout by assumption. destruct (vertex_store u k). reflexivity.
Qed.

(** * The prior residual has the rows of its whitening matrix *)

Lemma prior_rows_agree_kept (p : Problem) : prior_rows_agree p -> prior_rows_kept p.
Proof. unfold prior_rows_agree, prior_rows_kept. lia. Qed.

Lemma Marginalize_prior_rows_agree (eigensolver : MatXX -> VecX * MatXX)
      (H_marg : MatXX) (b_marg : VecX) (reserve_size marg_dim : Z) (p : Problem) :
  prior_rows_agree (Marginalize_prior eigensolver H_marg b_marg reserve_size marg_dim p).
Proof. reflexivity. Qed.

Lemma UpdateStates_rows_agree (p : Problem) :
  prior_rows_agree p ->
  prior_rows_agree (UpdateStates p)
  /\ prior_rows_agree (RollbackStates (UpdateStates p)).
Proof.
  unfold prior_rows_agree, RollbackStates, UpdateStates. cbn. intros H.
  destruct (Z.ltb_spec 0 (vsize (err_prior_ p))) as [Hpos|Hnone]; cbn.
  - destruct (Z.ltb_spec 0 (rows (Jt_prior_inv_ p))); cbn; [|lia]. split; [reflexivity|assumption].
  - destruct (Z.ltb_spec 0 (vsize (err_prior_ p))); [lia|]. cbn. split; assumption.
Qed.

(** * The factor graph store *)

(** ** The edge map and the index from vertices to edges *)

Lemma edge_mem_In (k : N) (l : list Edge) :
  edge_mem k l = true <-> exists x, In x l /\ e_id x = k.
Proof.
  unfold edge_mem. rewrite existsb_exists.
  split; intros (x & Hx & E); exists x; (split; [assumption|]); apply N.eqb_eq; assumption.
Qed.

Lemma edge_insert_incl (e x : Edge) (l : list Edge) :
  In x (edge_insert e l) -> x = e \/ In x l.
Proof.
  induction l as [|y r IH]; cbn [edge_insert In]; [intuition congruence|].
  destruct (e_id e <? e_id y)%N; [cbn [In]; intuition congruence|].
  destruct (e_id e =? e_id y)%N; cbn [In]; intuition congruence.
Qed.

Lemma edge_insert_keeps (e x : Edge) (l : list Edge) :
  In x l -> In x (edge_insert e l).
Proof.
  induction l as [|y r IH]; cbn [edge_insert In]; [tauto|].
  destruct (e_id e <? e_id y)%N; [cbn [In]; intuition|].
  destruct (e_id e =? e_id y)%N; cbn [In]; intuition.
Qed.

Lemma edge_insert_new (e : Edge) (l : list Edge) :
  edge_mem (e_id e) l = false -> In e (edge_insert e l).
Proof.
  induction l as [|y r IH]; cbn [edge_insert edge_mem existsb In]; [tauto|].
  intros H. apply orb_false_elim in H. destruct H as [Hy Hr].
  destruct (e_id e <? e_id y)%N; [left; reflexivity|].
  rewrite N.eqb_sym, Hy. right. apply IH. exact Hr.
Qed.

Lemma edge_erase_In (k : N) (x : Edge) (l : list Edge) :
  In x (edge_erase k l) <-> In x l /\ e_id x <> k.
Proof.
  unfold edge_erase. rewrite filter_In. split; intros [H1 H2]; split; try assumption.
  - intros E. rewrite E, N.eqb_refl in H2. discriminate.
  - destruct (N.eqb_spec (e_id x) k); [contradiction|reflexivity].
Qed.

Lemma edge_erase_mem (k : N) (l : list Edge) : edge_mem k (edge_erase k l) = false.
Proof.
  destruct (edge_mem k (edge_erase k l)) eqn:E; [|reflexivity].
  apply edge_mem_In in E. destruct E as (x & Hx & Ex).
  apply edge_erase_In in Hx. tauto.
Qed.

Lemma multimap_insert_In (k : N) (e : Edge) (x : N * Edge) (l : list (N * Edge)) :
  In x (multimap_insert k e l) <-> x = (k, e) \/ In x l.
Proof.
  induction l as [|y r IH]; cbn [multimap_insert In]; [intuition|].
  destruct (k <? fst y)%N; cbn [In]; [intuition|]. rewrite IH. intuition.
Qed.

(** The walk of [AddEdge] over the vertices of the edge. *)
Lemma AddEdge_walk (e : Edge) (vs : list N) :
  forall q,
    let q' := fold_left (fun q v => set_vertexToEdge_ (multimap_insert v e (vertexToEdge_ q)) q)
                        vs q in
    edges_ q' = edges_ q /\ verticies_ q' = verticies_ q
    /\ vertex_store q' = vertex_store q
    /\ forall x, In x (vertexToEdge_ q')
                 <-> In x (vertexToEdge_ q) \/ (snd x = e /\ In (fst x) vs).
Proof.
  induction vs as [|a vs IH]; intros q; cbn [fold_left].
  - split; [reflexivity|]. split; [reflexivity|]. split; [reflexivity|].
    intros x. cbn [In]. tauto.
  - destruct (IH (set_vertexToEdge_ (multimap_insert a e (vertexToEdge_ q)) q))
      as (E1 & E2 & E3 & E4).
    split; [exact E1|]. split; [exact E2|]. split; [exact E3|].
    intros [k y]. rewrite E4. cbn [vertexToEdge_ set_vertexToEdge_].
    rewrite multimap_insert_In. cbn [fst snd In].
    split.
    + intros [[E|H]|[H1 H2]]; [|left; assumption|right; split; [assumption|right; assumption]].
      inversion E; subst. right. split; [reflexivity|left; reflexivity].
    + intros [H|[H1 [H2|H2]]]; [left; right; assumption| |right; split; assumption].
      subst. left. left. reflexivity.
Qed.

Lemma GetConnectedEdges_In (v : N) (x : Edge) (p : Problem) :
  In x (GetConnectedEdges v p)
  <-> In (v, x) (vertexToEdge_ p) /\ edge_mem (e_id x) (edges_ p) = true.
Proof.
  unfold GetConnectedEdges. rewrite in_map_iff. split.
  - intros ([k y] & E & H). cbn [snd] in E. subst y.
    apply filter_In in H. destruct H as [H1 H2]. cbn [fst snd] in H2.
    apply andb_prop in H2. destruct H2 as [H2 H3]. apply N.eqb_eq in H2. subst k.
    split; assumption.
  - intros [H1 H2]. exists (v, x). split; [reflexivity|].
    apply filter_In. split; [assumption|]. cbn [fst snd]. rewrite N.eqb_refl, H2. reflexivity.
Qed.

(** [AddEdge] enters a new edge in the edge map and under each of its
    vertices in the index, so that [GetConnectedEdges] returns it for each
    of them; it does not look at the vertex map.  An edge whose id is
    already in the map is refused and nothing is changed, and so is the
    edge just added when it is added again. *)
Theorem AddEdge_connects (e : Edge) (p : Problem) :
  let r := AddEdge e p in
  (edge_mem (e_id e) (edges_ p) = true -> r = (false, p))
  /\ (edge_mem (e_id e) (edges_ p) = false ->
      fst r = true
      /\ In e (edges_ (snd r))
      /\ (forall x, In x (edges_ p) -> In x (edges_ (snd r)))
      /\ (forall v, In v (e_verticies e) -> In e (GetConnectedEdges v (snd r)))
      /\ verticies_ (snd r) = verticies_ p
      /\ AddEdge e (snd r) = (false, snd r)).
Proof.
  intros r. subst r. unfold AddEdge.
  destruct (edge_mem (e_id e) (edges_ p)) eqn:Em.
  - split; [reflexivity|discriminate].
  - split; [discriminate|]. intros _. cbn [fst snd].
    destruct (AddEdge_walk e (e_verticies e) (set_edges_ (edge_insert e (edges_ p)) p))
      as (E1 & E2 & E3 & E4).
    set (q := fold_left _ (e_verticies e) _) in *. cbn [edges_ set_edges_ verticies_] in E1, E2.
    assert (Hin : In e (edges_ q)) by (rewrite E1; apply edge_insert_new; exact Em).
    assert (Hmem : edge_mem (e_id e) (edges_ q) = true)
      by (apply edge_mem_In; exists e; split; [assumption|reflexivity]).
    split; [reflexivity|]. split; [exact Hin|].
    split; [intros x Hx; rewrite E1; apply edge_insert_keeps; exact Hx|].
    split; [|split; [exact E2|]].
    + intros v Hv. apply GetConnectedEdges_In. split; [|exact Hmem].
      apply E4. right. split; [reflexivity|exact Hv].
    + rewrite Hmem. reflexivity.
Qed.

(** [RemoveEdge] erases the entry with the id of the edge from the edge
    map and reports whether there was one.  It leaves the index from
    vertices to edges as it is; the entries of the erased id stay in it and
    are skipped by [GetConnectedEdges]. *)
Theorem RemoveEdge_hides (e : Edge) (p : Problem) :
  let r := RemoveEdge e p in
  fst r = edge_mem (e_id e) (edges_ p)
  /\ edge_mem (e_id e) (edges_ (snd r)) = false
  /\ vertexToEdge_ (snd r) = vertexToEdge_ p
  /\ (forall x, In x (edges_ (snd r)) <-> In x (edges_ p) /\ e_id x <> e_id e)
  /\ (forall v x, In x (GetConnectedEdges v (snd r))
                  <-> In x (GetConnectedEdges v p) /\ e_id x <> e_id e).
Proof.
  intros r. subst r. unfold RemoveEdge.
  destruct (edge_mem (e_id e) (edges_ p)) eqn:Em; cbn [fst snd].
  - split; [reflexivity|]. cbn [edges_ set_edges_ vertexToEdge_].
    split; [apply edge_erase_mem|]. split; [reflexivity|].
    split; [intros x; apply edge_erase_In|].
    intros v x. rewrite !GetConnectedEdges_In. cbn [edges_ set_edges_ vertexToEdge_].
    split.
    + intros [H1 H2]. apply edge_mem_In in H2. destruct H2 as (y & Hy & Ey).
      apply edge_erase_In in Hy. destruct Hy as [Hy Hne].
      split; [split; [assumption|]|congruence].
      apply edge_mem_In. exists y. split; assumption.
    + intros [[H1 H2] Hne]. split; [assumption|].
      apply edge_mem_In in H2. destruct H2 as (y & Hy & Ey).
      apply edge_mem_In. exists y. split; [|assumption].
      apply edge_erase_In. split; [assumption|congruence].
  - split; [reflexivity|]. split; [exact Em|]. split; [reflexivity|].
    split.
    + intros x. split; [|tauto]. intros Hx. split; [assumption|].
      intros E. assert (edge_mem (e_id e) (edges_ p) = true)
        by (apply edge_mem_In; exists x; split; assumption). congruence.
    + intros v x. split; [|tauto]. intros Hx. split; [assumption|].
      apply GetConnectedEdges_In in Hx. destruct Hx as [_ Hx]. congruence.
Qed.

(** ** An edge that is added again *)

Lemma index_count_insert (v id k : N) (e : Edge) (l : list (N * Edge)) :
  index_count v id (multimap_insert k e l)
  = ((if (k =? v)%N && (e_id e =? id)%N then 1 else 0) + index_count v id l)%nat.
Proof.
  unfold index_count. induction l as [|y r IH]; cbn [multimap_insert].
  - cbn [filter fst snd]. destruct ((k =? v)%N && (e_id e =? id)%N); reflexivity.
  - destruct (k <? fst y)%N.
    + cbn [filter fst snd]. destruct ((k =? v)%N && (e_id e =? id)%N); reflexivity.
    + cbn [filter]. destruct ((fst y =? v)%N && (e_id (snd y) =? id)%N); cbn [List.length];
        rewrite IH; lia.
Qed.

Lemma index_count_walk (v : N) (e : Edge) (vs : list N) :
  forall q,
    index_count v (e_id e)
      (vertexToEdge_
         (fold_left (fun q v => set_vertexToEdge_ (multimap_insert v e (vertexToEdge_ q)) q)
                    vs q))
    = (count_occ N.eq_dec vs v + index_count v (e_id e) (vertexToEdge_ q))%nat.
Proof.
  induction vs as [|a vs IH]; intros q; cbn [fold_left count_occ]; [reflexivity|].
  rewrite IH. cbn [vertexToEdge_ set_vertexToEdge_]. rewrite index_count_insert.
  rewrite N.eqb_refl, andb_true_r.
  destruct (N.eq_dec a v) as [->|Hne].
  - rewrite N.eqb_refl. lia.
  - destruct (N.eqb_spec a v); [contradiction|]. lia.
Qed.

Lemma GetConnectedEdges_count (v id : N) (p : Problem) :
  edge_mem id (edges_ p) = true ->
  List.length (filter (fun x => (e_id x =? id)%N) (GetConnectedEdges v p))
  = index_count v id (vertexToEdge_ p).
Proof.
  intros Hm. unfold GetConnectedEdges, index_count.
  induction (vertexToEdge_ p) as [|y r IH]; [reflexivity|].
  cbn [filter]. destruct (N.eqb_spec (fst y) v) as [Ev|Ev]; cbn [andb].
  - destruct (N.eqb_spec (e_id (snd y)) id) as [Ei|Ei].
    + rewrite Ei, Hm. cbn [map filter]. rewrite Ei, N.eqb_refl. cbn [List.length].
      rewrite IH. reflexivity.
    + destruct (edge_mem (e_id (snd y)) (edges_ p)); [|exact IH].
      cbn [map filter]. destruct (N.eqb_spec (e_id (snd y)) id); [contradiction|exact IH].
  - exact IH.
Qed.

(** An edge that is added, removed and added again is entered twice in the
    index, because [RemoveEdge] leaves its entries there: for each of its
    vertices [GetConnectedEdges] then returns it twice (and once more for
    every entry with its id that the index held before). *)
Theorem AddEdge_again_duplicates (e : Edge) (v : N) (p : Problem) :
  edge_mem (e_id e) (edges_ p) = false ->
  let q := snd (AddEdge e (snd (RemoveEdge e (snd (AddEdge e p))))) in
  List.length (filter (fun x => (e_id x =? e_id e)%N) (GetConnectedEdges v q))
  = (index_count v (e_id e) (vertexToEdge_ p) + 2 * count_occ N.eq_dec (e_verticies e) v)%nat.
Proof.
  intros Hm q.
  set (p1 := snd (AddEdge e p)).
  set (p2 := snd (RemoveEdge e p1)).
  assert (C1 : index_count v (e_id e) (vertexToEdge_ p1)
               = (count_occ N.eq_dec (e_verticies e) v
                  + index_count v (e_id e) (vertexToEdge_ p))%nat).
  { subst p1. unfold AddEdge. rewrite Hm. cbn [snd]. rewrite index_count_walk. reflexivity. }
  assert (Hm1 : edge_mem (e_id e) (edges_ p1) = true).
  { subst p1. unfold AddEdge. rewrite Hm. cbn [snd].
    destruct (AddEdge_walk e (e_verticies e) (set_edges_ (edge_insert e (edges_ p)) p))
      as (E1 & _). rewrite E1. cbn [edges_ set_edges_].
    apply edge_mem_In. exists e. split; [apply edge_insert_new; exact Hm|reflexivity]. }
  assert (Hm2 : edge_mem (e_id e) (edges_ p2) = false)
    by (subst p2; unfold RemoveEdge; rewrite Hm1; apply edge_erase_mem).
  assert (Ev2 : vertexToEdge_ p2 = vertexToEdge_ p1)
    by (subst p2; unfold RemoveEdge; rewrite Hm1; reflexivity).
  assert (C3 : index_count v (e_id e) (vertexToEdge_ q)
               = (count_occ N.eq_dec (e_verticies e) v
                  + index_count v (e_id e) (vertexToEdge_ p2))%nat).
  { subst q. fold p1. fold p2. unfold AddEdge. rewrite Hm2. cbn [snd].
    rewrite index_count_walk. reflexivity. }
  assert (Hq : edge_mem (e_id e) (edges_ q) = true).
  { subst q. fold p1. fold p2. unfold AddEdge. rewrite Hm2. cbn [snd].
    destruct (AddEdge_walk e (e_verticies e) (set_edges_ (edge_insert e (edges_ p2)) p2))
      as (E1 & _). rewrite E1. cbn [edges_ set_edges_].
    apply edge_mem_In. exists e. split; [apply edge_insert_new; exact Hm2|reflexivity]. }
  rewrite (GetConnectedEdges_count v (e_id e) q Hq), C3, Ev2, C1. lia.
Qed.

(** ** Vertices *)

Lemma key_erase_insert (v : N) (l : list N) :
  key_mem v l = false -> key_erase v (key_insert v l) = l.
Proof.
  unfold key_mem, key_erase. induction l as [|x r IH]; cbn [existsb key_insert filter].
  - intros _. rewrite N.eqb_refl. reflexivity.
  - intros H. apply orb_false_elim in H. destruct H as [Hx Hr].
    assert (Ex : (x =? v)%N = false) by (rewrite N.eqb_sym; exact Hx).
    destruct (v <? x)%N.
    + cbn [filter]. rewrite N.eqb_refl, Ex. cbn [negb].
      f_equal. clear IH. induction r as [|y r IHr]; [reflexivity|].
      cbn [existsb] in Hr. apply orb_false_elim in Hr. destruct Hr as [Hy Hr].
      cbn [filter]. rewrite N.eqb_sym, Hy. cbn [negb]. f_equal. apply IHr. exact Hr.
    + rewrite Hx. cbn [filter]. rewrite Ex. cbn [negb]. f_equal. apply IH. exact Hr.
Qed.

Lemma RemoveEdge_prior (e : Edge) (q : Problem) :
  H_prior_ (snd (RemoveEdge e q)) = H_prior_ q
  /\ problemType_ (snd (RemoveEdge e q)) = problemType_ q
  /\ vertexToEdge_ (snd (RemoveEdge e q)) = vertexToEdge_ q.
Proof. unfold RemoveEdge. destruct (edge_mem _ _); repeat split. Qed.

Lemma RemoveVertex_frame (v : N) (p : Problem) :
  let q := snd (RemoveVertex v p) in
  H_prior_ q = H_prior_ p /\ problemType_ q = problemType_ p
  /\ (forall k, v_type (vertex_store q k) = v_type (vertex_store p k)
                /\ v_local_dimension (vertex_store q k) = v_local_dimension (vertex_store p k))
  /\ (key_mem v (verticies_ p) = true ->
      verticies_ q = key_erase v (verticies_ p)
      /\ v_ordering_id (vertex_store q v) = -1
      /\ vertexToEdge_ q = filter (fun x => negb (fst x =? v)%N) (vertexToEdge_ p)
      /\ edges_ q = edges_ (fold_left (fun q e => snd (RemoveEdge e q))
                                      (GetConnectedEdges v p) p)).
Proof.
  intros q. subst q. unfold RemoveVertex.
  destruct (key_mem v (verticies_ p)) eqn:Em; cbn [snd].
  - destruct (RemoveEdges_frame (GetConnectedEdges v p) p) as (E1 & E2 & E3 & E4).
    assert (E5 : H_prior_ (fold_left (fun q e => snd (RemoveEdge e q)) (GetConnectedEdges v p) p)
                 = H_prior_ p)
      by (apply (fold_left_field H_prior_); intros; apply RemoveEdge_prior).
    assert (E6 : problemType_ (fold_left (fun q e => snd (RemoveEdge e q))
                                         (GetConnectedEdges v p) p) = problemType_ p)
      by (apply (fold_left_field problemType_); intros; apply RemoveEdge_prior).
    assert (E7 : vertexToEdge_ (fold_left (fun q e => snd (RemoveEdge e q))
                                          (GetConnectedEdges v p) p) = vertexToEdge_ p)
      by (apply (fold_left_field vertexToEdge_); intros; apply RemoveEdge_prior).
    set (p1 := fold_left (fun q e => snd (RemoveEdge e q)) (GetConnectedEdges v p) p) in *.
    clearbody p1.
    destruct (IsPoseVertex (vertex_store p1 v)); cbn; rewrite ?E1, ?E4, ?E5, ?E6, ?E7;
      (split; [reflexivity|]); (split; [reflexivity|]);
      (split; [intros k; unfold store_update; destruct (k =? v)%N; split; reflexivity|]);
      intros _; (split; [reflexivity|]); (split; [|split; reflexivity]);
      rewrite store_update_same; reflexivity.
  - split; [reflexivity|]. split; [reflexivity|].
    split; [intros k; split; reflexivity|discriminate].
Qed.

(** What [AddVertex] does with a vertex that is not in the vertex map. *)
Lemma AddVertex_new (v : N) (p : Problem) :
  key_mem v (verticies_ p) = false ->
  let d := if is_slam (problemType_ p) && IsPoseVertex (vertex_store p v)
           then v_local_dimension (vertex_store p v) else 0 in
  let q := snd (AddVertex v p) in
  fst (AddVertex v p) = true
  /\ verticies_ q = key_insert v (verticies_ p)
  /\ rows (H_prior_ q) = rows (H_prior_ p) + d
  /\ cols (H_prior_ q) = (if is_slam (problemType_ p) && IsPoseVertex (vertex_store p v)
                          then rows (H_prior_ p) + d else cols (H_prior_ p))
  /\ problemType_ q = problemType_ p /\ vertex_store q = vertex_store p
  /\ edges_ q = edges_ p.
Proof.
  intros Em d q. subst d q. unfold AddVertex. rewrite Em. cbn [fst snd].
  cbn [problemType_ set_verticies_ vertex_store].
  destruct (is_slam (problemType_ p) && IsPoseVertex (vertex_store p v)); cbn;
    repeat split; lia.
Qed.

Lemma AddVertex_prior (v : N) (p : Problem) :
  key_mem v (verticies_ p) = false ->
  let q := snd (AddVertex v p) in
  let n := rows (H_prior_ p) in
  (if is_slam (problemType_ p) && IsPoseVertex (vertex_store p v)
   then vsize (b_prior_ q) = n + v_local_dimension (vertex_store p v)
        /\ (forall i j, coef (H_prior_ q) i j
                        = if (i <? n) && (j <? n) then coef (H_prior_ p) i j else 0%R)
        /\ (forall k, vcoef (b_prior_ q) k = if k <? n then vcoef (b_prior_ p) k else 0%R)
   else H_prior_ q = H_prior_ p /\ b_prior_ q = b_prior_ p)
  /\ set_b_prior_ (b_prior_ p) (set_H_prior_ (H_prior_ p) (set_verticies_ (verticies_ p) q))
     = p.
Proof.
  intros Em q n. subst q n. unfold AddVertex. rewrite Em. cbn [snd].
  cbn [problemType_ set_verticies_ vertex_store].
  destruct (is_slam (problemType_ p) && IsPoseVertex (vertex_store p v)).
  - unfold ResizePoseHessiansWhenAddingPose.
    cbn [H_prior_ b_prior_ set_H_prior_ set_b_prior_ set_verticies_ vertex_store
         grow_square grow_vec coef vcoef vsize rows].
    split; [|destruct p; reflexivity].
    split; [reflexivity|]. split.
    + intros i j.
      replace (rows (H_prior_ p) + v_local_dimension (vertex_store p v)
               - v_local_dimension (vertex_store p v)) with (rows (H_prior_ p)) by lia.
      reflexivity.
    + intros k.
      replace (rows (H_prior_ p) + v_local_dimension (vertex_store p v)
               - v_local_dimension (vertex_store p v)) with (rows (H_prior_ p)) by lia.
      reflexivity.
  - split; [split; reflexivity|destruct p; reflexivity].
Qed.

(** [AddVertex] refuses a vertex whose id is in the vertex map and changes
    nothing then.  Otherwise it enters the id and changes nothing but the
    vertex map and the prior: in SLAM mode, for a pose-like vertex, the
    prior grows by the dimension of the vertex to a square matrix, with its
    old coefficients kept and the new ones zero; in every other case
    [H_prior_] and [b_prior_] are left as they are.  The vertex just added
    is refused when it is added again, so the prior grows once. *)
Theorem AddVertex_once (v : N) (p : Problem) :
  let r := AddVertex v p in
  let d := if is_slam (problemType_ p) && IsPoseVertex (vertex_store p v)
           then v_local_dimension (vertex_store p v) else 0 in
  let n := rows (H_prior_ p) in
  (key_mem v (verticies_ p) = true -> r = (false, p))
  /\ (key_mem v (verticies_ p) = false ->
      fst r = true
      /\ (forall k, In k (verticies_ (snd r)) <-> k = v \/ In k (verticies_ p))
      /\ (keys_sorted (verticies_ p) = true -> keys_sorted (verticies_ (snd r)) = true)
      /\ rows (H_prior_ (snd r)) = rows (H_prior_ p) + d
      /\ cols (H_prior_ (snd r)) = (if is_slam (problemType_ p)
                                       && IsPoseVertex (vertex_store p v)
                                    then rows (H_prior_ p) + d else cols (H_prior_ p))
      /\ edges_ (snd r) = edges_ p
      /\ AddVertex v (snd r) = (false, snd r)
      /\ (if is_slam (problemType_ p) && IsPoseVertex (vertex_store p v)
          then vsize (b_prior_ (snd r)) = n + d
               /\ (forall i j, coef (H_prior_ (snd r)) i j
                               = if (i <? n) && (j <? n) then coef (H_prior_ p) i j else 0%R)
               /\ (forall k, vcoef (b_prior_ (snd r)) k
                             = if k <? n then vcoef (b_prior_ p) k else 0%R)
          else H_prior_ (snd r) = H_prior_ p /\ b_prior_ (snd r) = b_prior_ p)
      /\ set_b_prior_ (b_prior_ p)
           (set_H_prior_ (H_prior_ p) (set_verticies_ (verticies_ p) (snd r))) = p).
Proof.
  intros r d n. subst r.
  destruct (key_mem v (verticies_ p)) eqn:Em.
  - split; [|discriminate]. intros _. unfold AddVertex. rewrite Em. reflexivity.
  - split; [discriminate|]. intros _.
    destruct (AddVertex_new v p Em) as (F & V & R & C & _ & _ & E). fold d in R, C.
    destruct (AddVertex_prior v p Em) as (P & Fr). fold n in P.
    split; [exact F|]. split; [intros k; rewrite V; apply key_insert_In|].
    split; [rewrite V; apply key_insert_sorted|]. split; [exact R|]. split; [exact C|].
    split; [exact E|]. split.
    + assert (Hm : key_mem v (verticies_ (snd (AddVertex v p))) = true)
        by (rewrite V; apply key_mem_In, key_insert_In; left; reflexivity).
      revert Hm. generalize (snd (AddVertex v p)). intros q Hm.
      unfold AddVertex. rewrite Hm. reflexivity.
    + split; [|exact Fr]. subst d.
      destruct (is_slam (problemType_ p) && IsPoseVertex (vertex_store p v)); exact P.
Qed.

(** Removing a vertex that was just added restores the vertex map but not
    the prior: [RemoveVertex] never shrinks [H_prior_], so in SLAM mode a
    pose-like vertex that is added, removed and added again has grown the
    prior twice. *)
Theorem AddVertex_RemoveVertex_prior (v : N) (p : Problem) :
  key_mem v (verticies_ p) = false ->
  let d := if is_slam (problemType_ p) && IsPoseVertex (vertex_store p v)
           then v_local_dimension (vertex_store p v) else 0 in
  let q := snd (RemoveVertex v (snd (AddVertex v p))) in
  verticies_ q = verticies_ p
  /\ v_ordering_id (vertex_store q v) = -1
  /\ rows (H_prior_ q) = rows (H_prior_ p) + d
  /\ rows (H_prior_ (snd (AddVertex v q))) = rows (H_prior_ p) + 2 * d.
Proof.
  intros Em d q. subst q.
  set (p1 := snd (AddVertex v p)). set (q := snd (RemoveVertex v p1)).
  destruct (AddVertex_new v p Em) as (_ & V1 & R1 & _ & T1 & S1 & _).
  fold d in R1. fold p1 in V1, R1, T1, S1.
  assert (M1 : key_mem v (verticies_ p1) = true)
    by (rewrite V1; apply key_mem_In, key_insert_In; left; reflexivity).
  destruct (RemoveVertex_frame v p1) as (R2 & T2 & S2 & H2). fold q in R2, T2, S2, H2.
  destruct (H2 M1) as (V2 & O2 & _ & _).
  assert (Vq : verticies_ q = verticies_ p)
    by (rewrite V2, V1; apply key_erase_insert; exact Em).
  split; [exact Vq|]. split; [exact O2|]. split; [rewrite R2; exact R1|].
  assert (Emq : key_mem v (verticies_ q) = false) by (rewrite Vq; exact Em).
  destruct (AddVertex_new v q Emq) as (_ & _ & R3 & _).
  assert (Ed : (is_slam (problemType_ q) && IsPoseVertex (vertex_store q v))
               = (is_slam (problemType_ p) && IsPoseVertex (vertex_store p v))).
  { rewrite T2, T1. unfold IsPoseVertex. destruct (S2 v) as [-> _]. rewrite S1. reflexivity. }
  rewrite Ed in R3. rewrite R3, R2, R1.
  destruct (S2 v) as [_ ->]. rewrite S1. fold d. lia.
Qed.

(** ** Edges of a removed vertex *)

Lemma empty_problem_index (t : ProblemType) (st : VertexStore) :
  edge_index_complete (empty_problem t st).
Proof. intros e v []. Qed.

Lemma AddVertex_index (v : N) (p : Problem) :
  edge_index_complete p -> edge_index_complete (snd (AddVertex v p)).
Proof.
  intros H. unfold AddVertex. destruct (key_mem v (verticies_ p)); [exact H|].
  cbn [snd]. cbn [problemType_ set_verticies_ vertex_store].
  destruct (is_slam _ && IsPoseVertex _); exact H.
Qed.

Lemma AddEdge_index (e : Edge) (p : Problem) :
  edge_index_complete p -> edge_index_complete (snd (AddEdge e p)).
Proof.
  intros H. unfold AddEdge. destruct (edge_mem (e_id e) (edges_ p)) eqn:Em; [exact H|].
  cbn [snd].
  destruct (AddEdge_walk e (e_verticies e) (set_edges_ (edge_insert e (edges_ p)) p))
    as (E1 & _ & _ & E4).
  intros x v Hx Hv. rewrite E1 in Hx. cbn [edges_ set_edges_] in Hx.
  apply edge_insert_incl in Hx. destruct Hx as [->|Hx].
  - exists e. split; [|reflexivity]. apply E4. right. split; [reflexivity|exact Hv].
  - destruct (H x v Hx Hv) as (e' & He' & Eid). exists e'. split; [|exact Eid].
    apply E4. left. exact He'.
Qed.

Lemma RemoveEdges_edges (es : list Edge) :
  forall p x, In x (edges_ (fold_left (fun q e => snd (RemoveEdge e q)) es p))
              <-> In x (edges_ p) /\ forall e, In e es -> e_id e <> e_id x.
Proof.
  induction es as [|a es IH]; intros p x; cbn [fold_left].
  - split; [intros H; split; [exact H|intros e []]|tauto].
  - rewrite IH.
    assert (E : In x (edges_ (snd (RemoveEdge a p))) <-> In x (edges_ p) /\ e_id x <> e_id a).
    { unfold RemoveEdge. destruct (edge_mem (e_id a) (edges_ p)) eqn:Em; cbn [snd].
      - apply edge_erase_In.
      - split; [|tauto]. intros Hx. split; [exact Hx|]. intros Eid.
        assert (edge_mem (e_id a) (edges_ p) = true)
          by (apply edge_mem_In; exists x; split; assumption).
        congruence. }
    rewrite E. cbn [In]. split.
    + intros [[H1 H2] H3]. split; [exact H1|]. intros e [<-|He]; [congruence|apply H3; exact He].
    + intros [H1 H2]. split; [split; [exact H1|]|].
      * intros Eid. apply (H2 a); [left; reflexivity|congruence].
      * intros e He. apply H2. right. exact He.
Qed.

Lemma index_erased (v : N) (g : N * Edge -> bool) (l : list (N * Edge)) :
  filter (fun x => (fst x =? v)%N && g x) (filter (fun x => negb (fst x =? v)%N) l) = [].
Proof.
  induction l as [|y l IH]; [reflexivity|].
  cbn [filter]. destruct (N.eqb_spec (fst y) v) as [Ey|Ey]; cbn [negb]; [exact IH|].
  cbn [filter]. destruct (N.eqb_spec (fst y) v); [contradiction|]. cbn [andb]. exact IH.
Qed.

(** [RemoveVertex] refuses a vertex that is not in the vertex map and
    changes nothing then.  Otherwise, in a problem whose index is complete,
    it removes the vertex and every edge that has it among its vertices,
    sets the ordering id of the vertex to -1, leaves no entry for it in the
    index, and the index of what remains is complete. *)
Theorem RemoveVertex_removes_incident_edges (v : N) (p : Problem) :
  edge_index_complete p ->
  let r := RemoveVertex v p in
  (key_mem v (verticies_ p) = false -> r = (false, p))
  /\ (key_mem v (verticies_ p) = true ->
      fst r = true
      /\ ~ In v (verticies_ (snd r))
      /\ (forall k, k <> v -> (In k (verticies_ (snd r)) <-> In k (verticies_ p)))
      /\ (forall e, In e (edges_ (snd r)) -> In e (edges_ p) /\ ~ In v (e_verticies e))
      /\ v_ordering_id (vertex_store (snd r) v) = -1
      /\ GetConnectedEdges v (snd r) = []
      /\ edge_index_complete (snd r)).
Proof.
  intros Hc r. subst r.
  destruct (key_mem v (verticies_ p)) eqn:Em.
  - split; [discriminate|]. intros _.
    destruct (RemoveVertex_frame v p) as (_ & _ & _ & H).
    destruct (H Em) as (V & O & I & Ee).
    assert (Hed : forall e, In e (edges_ (snd (RemoveVertex v p)))
                            <-> In e (edges_ p)
                                /\ forall x, In x (GetConnectedEdges v p) -> e_id x <> e_id e).
    { intros e. rewrite Ee. apply RemoveEdges_edges. }
    assert (Hinc : forall e, In e (edges_ (snd (RemoveVertex v p))) ->
                             In e (edges_ p) /\ ~ In v (e_verticies e)).
    { intros e He. apply Hed in He. destruct He as [He Hn]. split; [exact He|].
      intros Hv. destruct (Hc e v He Hv) as (e' & He' & Eid).
      apply (Hn e'); [|exact Eid].
      apply GetConnectedEdges_In. split; [exact He'|].
      apply edge_mem_In. exists e. split; [exact He|congruence]. }
    split; [unfold RemoveVertex; rewrite Em; reflexivity|].
    split; [rewrite V; intros Hin; apply key_erase_In in Hin; tauto|].
    split; [intros k Hk; rewrite V, key_erase_In; tauto|].
    split; [exact Hinc|]. split; [exact O|]. split.
    + unfold GetConnectedEdges. rewrite I.
      rewrite (index_erased v
                 (fun x => edge_mem (e_id (snd x)) (edges_ (snd (RemoveVertex v p))))).
      reflexivity.
    + intros e u He Hu. destruct (Hinc e He) as [Hp Hnv].
      destruct (Hc e u Hp Hu) as (e' & He' & Eid). exists e'. split; [|exact Eid].
      rewrite I. apply filter_In. split; [exact He'|]. cbn [fst].
      destruct (N.eqb_spec u v) as [->|]; [contradiction|reflexivity].
  - split; [|discriminate]. intros _. unfold RemoveVertex. rewrite Em. reflexivity.
Qed.

(** * The check of the ordering *)

Lemma keys_sorted_ext (l1 : list N) :
  forall l2, keys_sorted l1 = true -> keys_sorted l2 = true ->
             (forall k, In k l1 <-> In k l2) -> l1 = l2.
Proof.
  induction l1 as [|x r IH]; intros l2 H1 H2 Hext.
  - destruct l2 as [|y s]; [reflexivity|]. exfalso. apply (Hext y). left. reflexivity.
  - destruct l2 as [|y s]; [exfalso; apply (Hext x); left; reflexivity|].
    pose proof (keys_sorted_lt x r H1) as Lx. pose proof (keys_sorted_lt y s H2) as Ly.
    assert (E : x = y).
    { destruct (proj1 (Hext x) (or_introl eq_refl)) as [E|Hx]; [congruence|].
      destruct (proj2 (Hext y) (or_introl eq_refl)) as [E|Hy]; [congruence|].
      specialize (Lx y Hy). specialize (Ly x Hx). lia. }
    subst y. f_equal. apply IH.
    + eapply keys_sorted_tail; eassumption.
    + eapply keys_sorted_tail; eassumption.
    + intros k. split; intros Hk.
      * destruct (proj1 (Hext k) (or_intror Hk)) as [E|H]; [|exact H].
        specialize (Lx k Hk). lia.
      * destruct (proj2 (Hext k) (or_intror Hk)) as [E|H]; [|exact H].
        specialize (Ly k Hk). lia.
Qed.

Lemma filter_sorted (f : N -> bool) (l : list N) :
  keys_sorted l = true -> keys_sorted (filter f l) = true.
Proof.
  induction l as [|x r IH]; intros H; [reflexivity|].
  pose proof (keys_sorted_tail x r H) as Hr. cbn [filter].
  destruct (f x); [|apply IH; assumption].
  apply keys_sorted_cons; [|apply IH; assumption].
  intros y Hy. apply filter_In in Hy. destruct Hy as [Hy _].
  apply (keys_sorted_lt x r H y Hy).
Qed.

(** The offsets within the selected vertices alone. *)
Lemma dims_before_filter (P : Vertex -> bool) (st : VertexStore) (l : list N) (k : N) :
  P (st k) = true ->
  dims_before all_vertices st (filter (fun x => P (st x)) l) k = dims_before P st l k.
Proof.
  intros Hk. induction l as [|x r IH]; [reflexivity|].
  cbn [filter dims_before]. destruct (P (st x)) eqn:Ex.
  - cbn [dims_before all_vertices]. rewrite IH. reflexivity.
  - destruct (N.eqb_spec x k) as [->|Hne]; [congruence|]. rewrite IH. lia.
Qed.

Lemma dims_total_filter (P : Vertex -> bool) (st : VertexStore) (l : list N) :
  dims_total all_vertices st (filter (fun x => P (st x)) l) = dims_total P st l.
Proof.
  induction l as [|x r IH]; [reflexivity|].
  cbn [filter dims_total]. destruct (P (st x)) eqn:Ex.
  - cbn [dims_total all_vertices]. rewrite IH. reflexivity.
  - rewrite IH. lia.
Qed.

(** A walk of [CheckOrdering] over vertices whose ordering ids are the
    running sums of the dimensions. *)
Lemma CheckOrdering_walk (st : VertexStore) (l : list N) :
  forall s, NoDup l ->
    (forall k, In k l -> v_ordering_id (st k) = s + dims_before all_vertices st l k) ->
    fold_left (CheckOrdering_step st) l (true, s)
    = (true, s + dims_total all_vertices st l).
Proof.
  induction l as [|a l IH]; intros s Hnd Hid; cbn [fold_left dims_total].
  - f_equal. lia.
  - inversion Hnd as [|? ? Hnotin Hnd']; subst.
    unfold CheckOrdering_step at 2. cbn [fst snd andb all_vertices].
    assert (Ea : v_ordering_id (st a) = s).
    { rewrite (Hid a (or_introl eq_refl)). cbn [dims_before]. rewrite N.eqb_refl. lia. }
    rewrite Ea, Z.eqb_refl. rewrite IH; [f_equal; lia|exact Hnd'|].
    intros k Hk. rewrite (Hid k (or_intror Hk)). cbn [dims_before all_vertices].
    destruct (N.eqb_spec a k) as [->|Hne]; [contradiction|]. lia.
Qed.

(** The pose map after one visit and after the walk of [SetOrdering]. *)
Lemma SetOrdering_visit_pose_idx (q : Problem) (a : N) :
  problemType_ q = SLAM_PROBLEM ->
  idx_pose_vertices_ (SetOrdering_visit q a)
  = if IsPoseVertex (vertex_store q a) then key_insert a (idx_pose_vertices_ q)
    else idx_pose_vertices_ q.
Proof.
  intros Hs. unfold SetOrdering_visit, AddOrderingSLAM. cbn. rewrite Hs. cbn.
  destruct (IsPoseVertex (vertex_store q a)); [reflexivity|].
  destruct (IsLandmarkVertex (vertex_store q a)); reflexivity.
Qed.

Lemma SetOrdering_walk_pose_idx (l : list N) :
  forall q, problemType_ q = SLAM_PROBLEM ->
    let q' := fold_left SetOrdering_visit l q in
    (forall k, In k (idx_pose_vertices_ q')
               <-> In k (idx_pose_vertices_ q)
                   \/ (In k l /\ IsPoseVertex (vertex_store q k) = true))
    /\ (keys_sorted (idx_pose_vertices_ q) = true ->
        keys_sorted (idx_pose_vertices_ q') = true).
Proof.
  induction l as [|a l IH]; intros q Hs; cbn [fold_left].
  - split; [|tauto]. intros k. cbn [In]. tauto.
  - pose proof (SetOrdering_visit_slam q a Hs) as V.
    pose proof (SetOrdering_visit_pose_idx q a Hs) as E.
    set (q1 := SetOrdering_visit q a) in *.
    assert (Hs1 : problemType_ q1 = SLAM_PROBLEM) by (rewrite (vp_type _ _ _ V); assumption).
    destruct (IH q1 Hs1) as [Hin Hsorted].
    pose proof (vp_shape _ _ _ V) as Sh1.
    split.
    + intros k. rewrite Hin, E, (same_shape_pose _ _ k Sh1). cbn [In].
      destruct (IsPoseVertex (vertex_store q a)) eqn:Ep.
      * rewrite key_insert_In. split; [intros [[->|H]|H]; tauto|].
        intros [H|[[->|H] Hk]]; tauto.
      * split; [tauto|]. intros [H|[[->|H] Hk]]; try tauto. congruence.
    + intros H. apply Hsorted. rewrite E.
      destruct (IsPoseVertex (vertex_store q a)); [apply key_insert_sorted|]; assumption.
Qed.

(** What [SetOrdering] leaves in SLAM mode: the two maps hold the pose-like
    and the landmark-like vertices of the problem, with the running sums of
    the dimensions as ordering ids, the landmarks after the poses. *)
Lemma SetOrdering_slam_maps (p : Problem) :
  problemType_ p = SLAM_PROBLEM -> graph_consistent p -> pose_index_consistent p ->
  let q := SetOrdering p in
  let st := vertex_store p in
  let vs := verticies_ p in
  problemType_ q = SLAM_PROBLEM
  /\ verticies_ q = vs
  /\ same_shape (vertex_store q) st
  /\ idx_pose_vertices_ q = filter (fun k => IsPoseVertex (st k)) vs
  /\ idx_landmark_vertices_ q = filter (fun k => IsLandmarkVertex (st k)) vs
  /\ (forall k, In k vs -> IsPoseVertex (st k) = true ->
        v_ordering_id (vertex_store q k) = dims_before IsPoseVertex st vs k)
  /\ (forall k, In k vs -> IsLandmarkVertex (st k) = true ->
        v_ordering_id (vertex_store q k)
        = dims_total IsPoseVertex st vs + dims_before IsLandmarkVertex st vs k).
Proof.
  intros Et (Hv & Hi & Hl) (Hps & Hpl) q st vs.
  set (p0 := set_ordering_landmarks_ 0 (set_ordering_generic_ 0 (set_ordering_poses_ 0 p))).
  pose proof (SetOrdering_walk_slam (verticies_ p) p0 Et (keys_sorted_NoDup _ Hv)) as W.
  destruct (SetOrdering_walk_pose_idx (verticies_ p) p0 Et) as [Pin Psorted].
  set (p1 := fold_left SetOrdering_visit (verticies_ p) p0) in *.
  assert (Eq : SetOrdering p = fold_left (SetOrdering_shift (ordering_poses_ p1))
                                         (idx_landmark_vertices_ p1) p1).
  { unfold SetOrdering. fold p0. change (verticies_ p0) with (verticies_ p). fold p1.
    rewrite (wp_type _ _ _ W). cbn. rewrite Et. reflexivity. }
  pose proof (SetOrdering_shift_walk (ordering_poses_ p1) (idx_landmark_vertices_ p1) p1
                (keys_sorted_NoDup _ (wp_sorted _ _ _ W Hi))) as S.
  rewrite <- Eq in S. fold q in S, Eq.
  change (vertex_store p0) with st in *. change (idx_pose_vertices_ p0)
    with (idx_pose_vertices_ p) in *.
  change (idx_landmark_vertices_ p0) with (idx_landmark_vertices_ p) in *.
  assert (Elm : idx_landmark_vertices_ p1 = filter (fun k => IsLandmarkVertex (st k)) vs).
  { apply keys_sorted_ext.
    - apply (wp_sorted _ _ _ W Hi).
    - apply filter_sorted. exact Hv.
    - intros k. rewrite (wp_idx _ _ _ W k), filter_In. split.
      + intros [H|H]; [apply (Hl k H)|exact H].
      + intros H. right. exact H. }
  assert (Eps : idx_pose_vertices_ p1 = filter (fun k => IsPoseVertex (st k)) vs).
  { apply keys_sorted_ext.
    - apply Psorted. exact Hps.
    - apply filter_sorted. exact Hv.
    - intros k. rewrite (Pin k), filter_In. split.
      + intros [H|H]; [apply (Hpl k H)|exact H].
      + intros H. right. exact H. }
  split; [rewrite (sp_type _ _ _ _ S), (wp_type _ _ _ W); exact Et|].
  split; [rewrite (sp_verticies _ _ _ _ S); exact (SetOrdering_walk_verticies vs p0)|].
  split; [eapply same_shape_trans; [apply (sp_shape _ _ _ _ S)|apply (wp_shape _ _ _ W)]|].
  split; [rewrite Eq, (fold_left_field idx_pose_vertices_); [exact Eps|reflexivity]|].
  split; [rewrite Eq, SetOrdering_shift_idx; exact Elm|].
  split.
  - intros k Hk Hp.
    assert (Hout : ~ In k (idx_landmark_vertices_ p1)).
    { rewrite Elm, filter_In. rewrite (pose_not_landmark _ Hp). intros [_ H]. discriminate. }
    rewrite (sp_out _ _ _ _ S k Hout), (wp_pose _ _ _ W k Hk Hp).
    change (ordering_poses_ p0) with 0. change (vertex_store p0) with st. fold vs. lia.
  - intros k Hk Hlm.
    assert (Hin : In k (idx_landmark_vertices_ p1))
      by (rewrite Elm; apply filter_In; split; assumption).
    rewrite (sp_in _ _ _ _ S k Hin), (wp_landmark _ _ _ W k Hk Hlm), (wp_poses _ _ _ W).
    change (ordering_poses_ p0) with 0. change (ordering_landmarks_ p0) with 0.
    change (vertex_store p0) with st. fold vs. lia.
Qed.

(** The assertions of [CheckOrdering] hold after [SetOrdering]: in SLAM
    mode the ordering ids of the pose map, then those of the landmark map,
    are the running sums of the local dimensions (in GENERIC mode nothing
    is asserted). *)
Theorem CheckOrdering_after_SetOrdering (p : Problem) :
  graph_consistent p -> pose_index_consistent p ->
  CheckOrdering_asserts (SetOrdering p) = true.
Proof.
  intros Hg Hp. unfold CheckOrdering_asserts.
  destruct (problemType_ p) eqn:Et.
  - destruct (SetOrdering_slam_maps p Et Hg Hp) as (Tq & Vq & Sh & Ep & El & Ip & Il).
    set (q := SetOrdering p) in *. set (st := vertex_store p) in *.
    set (vs := verticies_ p) in *. rewrite Tq. cbn [is_slam].
    destruct Hg as (Hv & _).
    rewrite Ep, El.
    rewrite (CheckOrdering_walk (vertex_store q)).
    + rewrite (CheckOrdering_walk (vertex_store q)); [reflexivity| |].
      * apply keys_sorted_NoDup, filter_sorted. exact Hv.
      * intros k Hk. apply filter_In in Hk. destruct Hk as [Hk Hlm].
        rewrite (Il k Hk Hlm).
        rewrite (dims_total_shape _ _ _ _ by_type_all Sh).
        rewrite (dims_before_shape _ _ _ _ k by_type_all Sh).
        rewrite (dims_total_filter IsPoseVertex), (dims_before_filter IsLandmarkVertex) by exact Hlm.
        lia.
    + apply keys_sorted_NoDup, filter_sorted. exact Hv.
    + intros k Hk. apply filter_In in Hk. destruct Hk as [Hk Hps].
      rewrite (Ip k Hk Hps).
      rewrite (dims_before_shape _ _ _ _ k by_type_all Sh).
      rewrite (dims_before_filter IsPoseVertex) by exact Hps. lia.
  - set (p0 := set_ordering_landmarks_ 0 (set_ordering_generic_ 0 (set_ordering_poses_ 0 p))).
    destruct (SetOrdering_walk_generic (verticies_ p) p0 Et) as (H1 & _).
    assert (Eq : SetOrdering p = fold_left SetOrdering_visit (verticies_ p) p0).
    { unfold SetOrdering. fold p0. change (verticies_ p0) with (verticies_ p).
      rewrite H1. reflexivity. }
    rewrite Eq, H1. reflexivity.
Qed.

(** The pose map stays consistent. *)
Lemma empty_problem_pose_index (t : ProblemType) (st : VertexStore) :
  pose_index_consistent (empty_problem t st).
Proof. split; [reflexivity|]. intros k []. Qed.

Lemma AddVertex_pose_index (v : N) (p : Problem) :
  pose_index_consistent p -> pose_index_consistent (snd (AddVertex v p)).
Proof.
  intros (Hs & Hl). unfold AddVertex.
  destruct (key_mem v (verticies_ p)); [exact (conj Hs Hl)|].
  cbn [snd].
  assert (E : forall q, verticies_ q = key_insert v (verticies_ p) ->
                        idx_pose_vertices_ q = idx_pose_vertices_ p ->
                        vertex_store q = vertex_store p -> pose_index_consistent q).
  { intros q E1 E2 E3. unfold pose_index_consistent. rewrite E1, E2, E3.
    split; [assumption|].
    intros k Hk. destruct (Hl k Hk) as [H1 H2]. split; [|assumption].
    apply key_insert_In. right. assumption. }
  destruct (is_slam _ && IsPoseVertex _); apply E; reflexivity.
Qed.

Lemma RemoveVertex_pose_index (v : N) (p : Problem) :
  pose_index_consistent p -> pose_index_consistent (snd (RemoveVertex v p)).
Proof.
  intros (Hs & Hl). unfold RemoveVertex.
  destruct (key_mem v (verticies_ p)); [|exact (conj Hs Hl)].
  cbn [snd].
  destruct (RemoveEdges_frame (GetConnectedEdges v p) p) as (E1 & E2 & E3 & E4).
  set (p1 := fold_left (fun q e => snd (RemoveEdge e q)) (GetConnectedEdges v p) p) in *.
  clearbody p1.
  destruct (IsPoseVertex (vertex_store p1 v)) eqn:Ep; unfold pose_index_consistent; cbn;
    rewrite ?E1, ?E3, ?E4.
  - split; [apply key_erase_sorted; assumption|].
    intros k Hk. apply key_erase_In in Hk. destruct Hk as [Hk Hne].
    destruct (Hl k Hk) as [H1 H2].
    split; [apply key_erase_In; split; assumption|].
    rewrite store_update_other by assumption. assumption.
  - split; [assumption|].
    intros k Hk. destruct (Hl k Hk) as [H1 H2].
    assert (Hne : k <> v) by (intros ->; rewrite E4 in Ep; congruence).
    split; [apply key_erase_In; split; assumption|].
    rewrite store_update_other by assumption. assumption.
Qed.

Lemma SetOrdering_pose_index (p : Problem) :
  problemType_ p = SLAM_PROBLEM -> graph_consistent p -> pose_index_consistent p ->
  pose_index_consistent (SetOrdering p).
Proof.
  intros Et Hg Hp.
  destruct (SetOrdering_slam_maps p Et Hg Hp) as (_ & Vq & Sh & Ep & _).
  destruct Hg as (Hv & _).
  unfold pose_index_consistent. rewrite Ep, Vq.
  split; [apply filter_sorted; exact Hv|].
  intros k Hk. apply filter_In in Hk. destruct Hk as [Hk Hps].
  split; [exact Hk|]. rewrite (same_shape_pose _ _ k Sh). exact Hps.
Qed.

Local Open Scope R_scope.

(** * Finite sums *)

Lemma sum_upto_ext (n : nat) (f g : Z -> R) :
  (forall k, (0 <= k < Z.of_nat n)%Z -> f k = g k) -> sum_upto n f = sum_upto n g.
Proof.
  induction n as [|n IH]; intros H; [reflexivity|]. cbn [sum_upto].
  rewrite IH by (intros k Hk; apply H; lia). rewrite H by lia. reflexivity.
Qed.

Lemma sum_upto_plus (n : nat) (f g : Z -> R) :
  sum_upto n (fun k => f k + g k) = sum_upto n f + sum_upto n g.
Proof. induction n as [|n IH]; cbn [sum_upto]; [lra|]. rewrite IH. lra. Qed.

Lemma sum_upto_mult_r (n : nat) (f : Z -> R) (c : R) :
  sum_upto n f * c = sum_upto n (fun k => f k * c).
Proof. induction n as [|n IH]; cbn [sum_upto]; [lra|]. rewrite <- IH. lra. Qed.

Lemma sum_upto_zero (n : nat) : sum_upto n (fun _ => 0) = 0.
Proof. induction n as [|n IH]; cbn [sum_upto]; [reflexivity|]. rewrite IH. lra. Qed.

Lemma sum_upto_swap (n m : nat) (f : Z -> Z -> R) :
  sum_upto n (fun k => sum_upto m (fun l => f k l))
  = sum_upto m (fun l => sum_upto n (fun k => f k l)).
Proof.
  induction n as [|n IH]; cbn [sum_upto].
  - symmetry. apply sum_upto_zero.
  - rewrite IH, <- sum_upto_plus. reflexivity.
Qed.

Lemma sum_upto_nonneg (n : nat) (f : Z -> R) :
  (forall k, 0 <= f k) -> 0 <= sum_upto n f.
Proof.
  intros H. induction n as [|n IH]; cbn [sum_upto]; [lra|]. specialize (H (Z.of_nat n)). lra.
Qed.

(** * Symmetry of the blocks *)




(** * The assembler keeps the Hessian symmetric *)

(** For two positions [i < j] of an edge whose vertex at [j] is not fixed,
    the block is added once at (i, j) and its transpose once at (j, i). *)
Lemma hessian_block_step_mirror st e i JtW H j :
  v_fixed (st (nth j (e_verticies e) 0%N)) = false -> j <> i ->
  let v_i := st (nth i (e_verticies e) 0%N) in
  let v_j := st (nth j (e_verticies e) 0%N) in
  let hessian := mat_mul JtW (nth j (e_jacobians e st) (mat_zero 0 0)) in
  hessian_block_step st e i JtW H j
  = block_add
      (block_add H (v_ordering_id v_i) (v_ordering_id v_j)
                 (v_local_dimension v_i) (v_local_dimension v_j) hessian)
      (v_ordering_id v_j) (v_ordering_id v_i)
      (v_local_dimension v_j) (v_local_dimension v_i) (transpose hessian).
Proof.
  intros Hf Hne v_i v_j hessian. unfold hessian_block_step. rewrite Hf.
  destruct (Nat.eqb_spec j i); [contradiction|]. reflexivity.
Qed.






Lemma hessian_edges_dims st (es : list Edge) :
  forall Hb, rows (fst (fold_left (hessian_edge_step st) es Hb)) = rows (fst Hb)
             /\ cols (fst (fold_left (hessian_edge_step st) es Hb)) = cols (fst Hb).
Proof.
  assert (B : forall e i JtW l H,
             rows (fold_left (hessian_block_step st e i JtW) l H) = rows H
             /\ cols (fold_left (hessian_block_step st e i JtW) l H) = cols H).
  { intros e i JtW. induction l as [|j l IH]; intros H; [split; reflexivity|].
    cbn [fold_left]. destruct (IH (hessian_block_step st e i JtW H j)) as [-> ->].
    unfold hessian_block_step.
    destruct (v_fixed (st (nth j (e_verticies e) 0%N))); [split; reflexivity|].
    destruct (negb (Nat.eqb j i)); split; reflexivity. }
  assert (V : forall e l Hb,
             rows (fst (fold_left (hessian_vertex_step st e) l Hb)) = rows (fst Hb)
             /\ cols (fst (fold_left (hessian_vertex_step st e) l Hb)) = cols (fst Hb)).
  { intros e. induction l as [|i l IH]; intros Hb; [split; reflexivity|].
    cbn [fold_left]. destruct (IH (hessian_vertex_step st e Hb i)) as [-> ->].
    unfold hessian_vertex_step.
    destruct (v_fixed (st (nth i (e_verticies e) 0%N))); [split; reflexivity|].
    cbn [fst]. apply B. }
  induction es as [|e es IH]; intros Hb; [split; reflexivity|].
  cbn [fold_left]. destruct (IH (hessian_edge_step st Hb e)) as [-> ->]. apply V.
Qed.




(** [ResizePoseHessiansWhenAddingPose] keeps the prior symmetric: the rows
    and columns added for a new pose are zero. *)
Lemma grow_square_symmetric (H : MatXX) (dim : Z) :
  symmetric H -> symmetric (grow_square H dim).
Proof.
  intros [Hrc Hs]. split; [reflexivity|].
  intros i j Hi Hj. cbn in Hi, Hj |- *.
  replace (rows H + dim - dim)%Z with (rows H) by lia.
  destruct (Z.ltb_spec i (rows H)), (Z.ltb_spec j (rows H)); cbn; try reflexivity.
  apply Hs; lia.
Qed.

(** [AddVertex] keeps a symmetric prior symmetric, whether it grows the
    prior for a new pose or leaves it as it is. *)
Lemma AddVertex_prior_symmetric (v : N) (p : Problem) :
  symmetric (H_prior_ p) -> symmetric (H_prior_ (snd (AddVertex v p))).
Proof.
  intros Hs. unfold AddVertex.
  destruct (key_mem v (verticies_ p)); [exact Hs|].
  cbn [snd].
  destruct (is_slam _ && IsPoseVertex _); [|exact Hs].
  unfold ResizePoseHessiansWhenAddingPose. cbn.
  apply grow_square_symmetric. exact Hs.
Qed.

Lemma std_min_Rmin a b : std_min a b = Rmin a b.
Proof.
  unfold std_min, Rmin. destruct (Rlt_dec b a), (Rle_dec a b); try reflexivity; lra.
Qed.

Lemma std_max_Rmax a b : std_max a b = Rmax a b.
Proof.
  unfold std_max, Rmax. destruct (Rlt_dec a b), (Rle_dec a b); try reflexivity; lra.
Qed.

Lemma Rltb_true a b : Rltb a b = true <-> a < b.
Proof. unfold Rltb. destruct (Rlt_dec a b); split; intros; try assumption; try reflexivity; try discriminate; tauto. Qed.

Lemma isfinite_true x : isfinite x = true <-> Rabs x <= DBL_MAX.
Proof. unfold isfinite. destruct (Rle_dec (Rabs x) DBL_MAX); split; intros; try assumption; try reflexivity; try discriminate; tauto. Qed.

(** C4.  [IsGoodStepInLM] accepts the step iff [rho > 0] and the cost after
    the step is finite; it then multiplies lambda by
    [max(1/3, min(1 - (2 rho - 1)^3, 2/3))] and sets nu to 2, and on
    rejection it multiplies lambda by nu and doubles nu.  For an accepted
    step with [rho = 0.9] the multiplier is 0.488. *)
Theorem IsGoodStepInLM_rule (p : Problem) :
  LM_scale p <> 0 ->
  let rho := LM_rho p in
  let chi_after := tempChi_of p in
  let r := IsGoodStepInLM p in
  (fst r = true <-> rho > 0 /\ Rabs chi_after <= DBL_MAX)
  /\ (fst r = true ->
        currentLambda_ (snd r)
        = currentLambda_ p * Rmax (1 / 3) (Rmin (1 - (2 * rho - 1) ^ 3) (2 / 3))
        /\ ni_ (snd r) = 2)
  /\ (fst r = false ->
        currentLambda_ (snd r) = currentLambda_ p * ni_ p
        /\ ni_ (snd r) = ni_ p * 2)
  /\ (fst r = true -> rho = 0.9 -> currentLambda_ (snd r) = currentLambda_ p * 0.488).
Proof.
  intros _ rho chi_after r.
  assert (Hacc : fst r = true <-> rho > 0 /\ Rabs chi_after <= DBL_MAX).
  { subst r. unfold IsGoodStepInLM. fold rho chi_after.
    destruct (Rltb 0 rho && isfinite chi_after) eqn:E; cbn.
    - apply andb_prop in E. destruct E as [E1 E2].
      apply Rltb_true in E1. apply isfinite_true in E2. tauto.
    - split; [discriminate|]. intros [H1 H2].
      apply Rltb_true in H1. apply isfinite_true in H2. rewrite H1, H2 in E. discriminate. }
  assert (Hmul : fst r = true ->
                 currentLambda_ (snd r)
                 = currentLambda_ p * Rmax (1 / 3) (Rmin (1 - (2 * rho - 1) ^ 3) (2 / 3))
                 /\ ni_ (snd r) = 2).
  { subst r. unfold IsGoodStepInLM. fold rho chi_after.
    destruct (Rltb 0 rho && isfinite chi_after); cbn; [|discriminate].
    intros _. rewrite std_max_Rmax, std_min_Rmin. split; reflexivity. }
  split; [exact Hacc|]. split; [exact Hmul|]. split.
  - subst r. unfold IsGoodStepInLM. fold rho chi_after.
    destruct (Rltb 0 rho && isfinite chi_after); cbn; [discriminate|].
    intros _. split; reflexivity.
  - intros Ht Hrho. destruct (Hmul Ht) as [-> _]. rewrite Hrho.
    replace (1 - (2 * 0.9 - 1) ^ 3) with 0.488 by (clear; lra).
    unfold Rmin. destruct (Rle_dec 0.488 (2 / 3)); [|lra].
    unfold Rmax. destruct (Rle_dec (1 / 3) 0.488); [|lra]. reflexivity.
Qed.

Lemma lm_step_example_scale : LM_scale lm_step_example = 1.
Proof. unfold LM_scale. eval_sums. lra. Qed.

Lemma lm_step_example_rho : LM_rho lm_step_example = 0.9.
Proof.
  unfold LM_rho. rewrite lm_step_example_scale. unfold tempChi_of, sum_robust_chi2. cbn. lra.
Qed.

Lemma IsGoodStepInLM_rule_witness :
  LM_scale lm_step_example <> 0
  /\ fst (IsGoodStepInLM lm_step_example) = true
  /\ currentLambda_ (snd (IsGoodStepInLM lm_step_example)) = 0.488
  /\ ni_ (snd (IsGoodStepInLM lm_step_example)) = 2.
Proof.
  assert (Hs : LM_scale lm_step_example <> 0) by (rewrite lm_step_example_scale; lra).
  destruct (IsGoodStepInLM_rule lm_step_example Hs) as (Hacc & Hmul & _ & H09).
  assert (Ht : fst (IsGoodStepInLM lm_step_example) = true).
  { apply Hacc. rewrite lm_step_example_rho. split; [lra|].
    unfold tempChi_of, sum_robust_chi2. cbn.
    replace (0 * 0.5) with 0 by lra. rewrite Rabs_R0. unfold DBL_MAX. apply IZR_le. lia. }
  split; [exact Hs|]. split; [exact Ht|]. split.
  - rewrite (H09 Ht lm_step_example_rho). cbn. lra.
  - apply (Hmul Ht).
Defined.

(** * Norms *)

Lemma squaredNorm_nonneg (v : VecX) : 0 <= squaredNorm v.
Proof.
  unfold squaredNorm, dot, sumZ. apply sum_upto_nonneg. intros k.
  apply Rle_0_sqr.
Qed.

Lemma squaredNorm_scale (a : R) (v : VecX) :
  squaredNorm (vec_scale a v) = a * a * squaredNorm v.
Proof.
  unfold squaredNorm, dot, sumZ. cbn.
  rewrite Rmult_comm, sum_upto_mult_r. apply sum_upto_ext. intros k _. ring.
Qed.

Lemma squaredNorm_expand (a b : VecX) :
  vsize a = vsize b ->
  squaredNorm b = squaredNorm a + 2 * dot a (vec_sub b a) + squaredNorm (vec_sub b a).
Proof.
  intros Hs. unfold squaredNorm, dot, sumZ. cbn. rewrite Hs.
  set (n := Z.to_nat (vsize b)).
  rewrite (Rmult_comm 2), sum_upto_mult_r, <- !sum_upto_plus.
  apply sum_upto_ext. intros k _. ring.
Qed.

Lemma sum_upto_sq_zero (n : nat) (f : Z -> R) :
  sum_upto n (fun k => f k * f k) = 0 ->
  forall k, (0 <= k < Z.of_nat n)%Z -> f k = 0.
Proof.
  induction n as [|n IH]; intros H k Hk; [lia|]. cbn [sum_upto] in H.
  assert (H1 : 0 <= sum_upto n (fun k => f k * f k))
    by (apply sum_upto_nonneg; intros; apply Rle_0_sqr).
  assert (H2 : 0 <= f (Z.of_nat n) * f (Z.of_nat n)) by apply Rle_0_sqr.
  destruct (Z.eq_dec k (Z.of_nat n)) as [->|Hne].
  - assert (f (Z.of_nat n) * f (Z.of_nat n) = 0) by lra. nra.
  - apply IH; [lra|lia].
Qed.

(** The dot product with a vector whose squared norm is zero. *)
Lemma dot_null (a d : VecX) :
  vsize a = vsize d -> squaredNorm d = 0 -> dot a d = 0.
Proof.
  intros Hs Hd. unfold squaredNorm, dot, sumZ in *. rewrite Hs.
  rewrite <- (sum_upto_zero (Z.to_nat (vsize d))). apply sum_upto_ext. intros k Hk.
  rewrite (sum_upto_sq_zero _ _ Hd k Hk). ring.
Qed.

Lemma sqrt_gt_sq (x r : R) : 0 <= r -> sqrt x > r -> x > r * r.
Proof.
  intros Hr H. destruct (Rle_dec x (r * r)) as [Hle|]; [|lra].
  exfalso. destruct (Rle_dec 0 x) as [Hx|Hx].
  - pose proof (sqrt_le_1 x (r * r) Hx (Rle_0_sqr r) Hle) as H1.
    rewrite (sqrt_square r Hr) in H1. lra.
  - rewrite sqrt_neg_0 in H by lra. lra.
Qed.

(** * The interpolation parameter *)



Lemma sqrt_gt_one (x : R) : 1 < x -> sqrt x > 1.
Proof.
  intros H. pose proof (sqrt_lt_1_alt 1 x) as H1. rewrite sqrt_1 in H1. apply H1. lra.
Qed.



Section DogLegStep.
Variable ldlt_solve : MatXX -> VecX -> VecX.
Variable inverse : MatXX -> MatXX.

(** The fields the step leaves alone, and the steepest-descent direction. *)
Lemma SolveDogLegStep_frame (p : Problem) :
  let q := SolveDogLegStep ldlt_solve inverse p in
  currentRadius_ q = currentRadius_ p /\ b_ q = b_ p /\ h_sd_ q = b_ p
  /\ Hessian_ q = Hessian_ p /\ currentChi_ q = currentChi_ p
  /\ currentLambda_ q = currentLambda_ p.
Proof.
  unfold SolveDogLegStep.
  destruct (problemType_ _); cbn;
    destruct (Rle_dec _ _); cbn; try (repeat split; reflexivity);
    destruct (Rge_dec _ _); cbn; repeat split; reflexivity.
Qed.


(** The Gauss-Newton step and the steepest-descent length of the step. *)
Lemma SolveDogLegStep_gn (p : Problem) :
  let q := SolveDogLegStep ldlt_solve inverse p in
  h_gn_ q
  = match problemType_ p with
    | GENERIC_PROBLEM => ldlt_solve (Hessian_ p) (b_ p)
    | SLAM_PROBLEM =>
        SolveLinearWithSchur ldlt_solve inverse p (Hessian_ p) (b_ p)
                             (vec_zero (vsize (delta_x_ p)))
                             (ordering_poses_ p) (ordering_landmarks_ p)
                             (idx_landmark_vertices_ p) (currentLambda_ p)
    end
  /\ alpha_ q = squaredNorm (b_ p)
                / dot (mat_vec (transpose (Hessian_ p)) (b_ p)) (b_ p).
Proof.
  unfold SolveDogLegStep.
  destruct (problemType_ p) eqn:Et; cbn; rewrite ?Et; cbn;
    destruct (Rle_dec _ _); cbn; try (split; reflexivity);
    destruct (Rge_dec _ _); cbn; split; reflexivity.
Qed.

End DogLegStep.

Section SchurDamping.
Variable inverse : MatXX -> MatXX.

(** The matrix handed to the LDLT solver by the Schur path is the Schur
    complement with [currentLambda_] added to its diagonal. *)
Lemma Schur_system_diag (p : Problem) (Hessian : MatXX) (b : VecX)
      (reserve_size schur_size : Z) (schur_vertices : list N) (i : Z) :
  (0 <= i < reserve_size)%Z ->
  let Hss_inv := Schur_Hss_inv inverse p Hessian reserve_size schur_size schur_vertices in
  let Hrr_schur :=
    mat_sub (block Hessian 0 0 reserve_size reserve_size)
            (mat_mul (mat_mul (block Hessian 0 reserve_size reserve_size schur_size) Hss_inv)
                     (block Hessian reserve_size 0 schur_size reserve_size)) in
  coef (fst (Schur_system inverse p Hessian b reserve_size schur_size schur_vertices)) i i
  = coef Hrr_schur i i + currentLambda_ p.
Proof.
  intros Hi Hss_inv Hrr_schur. unfold Schur_system. cbn [fst].
  fold Hss_inv. fold Hrr_schur. cbn [coef diag_add].
  rewrite Z.eqb_refl. unfold in_range.
  destruct (Z.leb_spec 0 i); [|lia]. destruct (Z.ltb_spec i (0 + reserve_size)); [|lia].
  reflexivity.
Qed.

End SchurDamping.

(** C1 at the failing input.  With [H = (2)], [b = (2)] and
    [currentLambda_ = 2], the Gauss-Newton step of [SolveDogLegStep] in SLAM
    mode is 1/2, the solution of [(H + lambda) h = b], and does not solve
    [H h = b]; in GENERIC mode the same data give the undamped step 1. *)
Theorem SolveDogLegStep_slam_damped :
  let slam := SolveDogLegStep diag_solve diag_inverse (dogleg_damped_example SLAM_PROBLEM) in
  let generic :=
    SolveDogLegStep diag_solve diag_inverse (dogleg_damped_example GENERIC_PROBLEM) in
  vcoef (h_gn_ slam) 0 = 1 / 2
  /\ vcoef (mat_vec (Hessian_ slam) (h_gn_ slam)) 0 <> vcoef (b_ slam) 0
  /\ vcoef (h_gn_ generic) 0 = 1
  /\ vcoef (mat_vec (Hessian_ generic) (h_gn_ generic)) 0 = vcoef (b_ generic) 0.
Proof.
  intros slam generic.
  destruct (SolveDogLegStep_gn diag_solve diag_inverse (dogleg_damped_example SLAM_PROBLEM))
    as [Es _].
  destruct (SolveDogLegStep_gn diag_solve diag_inverse (dogleg_damped_example GENERIC_PROBLEM))
    as [Eg _].
  destruct (SolveDogLegStep_frame diag_solve diag_inverse (dogleg_damped_example SLAM_PROBLEM))
    as (_ & Ebs & _ & EHs & _).
  destruct (SolveDogLegStep_frame diag_solve diag_inverse (dogleg_damped_example GENERIC_PROBLEM))
    as (_ & Ebg & _ & EHg & _).
  fold slam in Es, Ebs, EHs. fold generic in Eg, Ebg, EHg.
  assert (Hs : vcoef (h_gn_ slam) 0 = 1 / 2).
  { rewrite Es. unfold SolveLinearWithSchur, Schur_system, Schur_Hss_inv. eval_sums. lra. }
  assert (Hg : vcoef (h_gn_ generic) 0 = 1).
  { rewrite Eg. eval_sums. lra. }
  clearbody slam generic.
  split; [exact Hs|]. split; [|split; [exact Hg|]].
  - rewrite EHs, Ebs. eval_sums. rewrite Hs. lra.
  - rewrite EHg, Ebg. eval_sums. rewrite Hg. lra.
Qed.

(** * What the steps of a try leave alone *)

Lemma UpdateStates_frame (p : Problem) :
  currentChi_ (UpdateStates p) = currentChi_ p
  /\ edges_ (UpdateStates p) = edges_ p
  /\ verticies_ (UpdateStates p) = verticies_ p
  /\ b_ (UpdateStates p) = b_ p
  /\ Hessian_ (UpdateStates p) = Hessian_ p
  /\ currentLambda_ (UpdateStates p) = currentLambda_ p
  /\ ni_ (UpdateStates p) = ni_ p
  /\ delta_x_ (UpdateStates p) = delta_x_ p.
Proof.
  unfold UpdateStates. cbn. destruct (0 <? vsize (err_prior_ p))%Z; cbn; repeat split; reflexivity.
Qed.

Lemma RollbackStates_frame (p : Problem) :
  currentChi_ (RollbackStates p) = currentChi_ p
  /\ edges_ (RollbackStates p) = edges_ p
  /\ verticies_ (RollbackStates p) = verticies_ p
  /\ b_ (RollbackStates p) = b_ p
  /\ Hessian_ (RollbackStates p) = Hessian_ p
  /\ currentLambda_ (RollbackStates p) = currentLambda_ p
  /\ ni_ (RollbackStates p) = ni_ p.
Proof.
  unfold RollbackStates. cbn. destruct (0 <? vsize (err_prior_ p))%Z; cbn; repeat split; reflexivity.
Qed.

Lemma MakeHessian_frame (p : Problem) :
  currentChi_ (MakeHessian p) = currentChi_ p
  /\ edges_ (MakeHessian p) = edges_ p
  /\ verticies_ (MakeHessian p) = verticies_ p
  /\ vertex_store (MakeHessian p) = vertex_store p
  /\ err_prior_ (MakeHessian p) = err_prior_ p
  /\ currentLambda_ (MakeHessian p) = currentLambda_ p
  /\ ni_ (MakeHessian p) = ni_ p.
Proof.
  unfold MakeHessian, MakeHessianSingle. cbn.
  destruct (0 <? rows (H_prior_ p))%Z; cbn; repeat split; reflexivity.
Qed.

Lemma IsGoodStepInLM_frame (p : Problem) :
  edges_ (snd (IsGoodStepInLM p)) = edges_ p
  /\ verticies_ (snd (IsGoodStepInLM p)) = verticies_ p
  /\ b_ (snd (IsGoodStepInLM p)) = b_ p
  /\ (fst (IsGoodStepInLM p) = false -> currentChi_ (snd (IsGoodStepInLM p)) = currentChi_ p).
Proof.
  unfold IsGoodStepInLM. destruct (Rltb 0 (LM_rho p) && isfinite (tempChi_of p)); cbn;
    repeat split; try reflexivity. discriminate.
Qed.




Section Drivers.
Variable ldlt_solve : MatXX -> VecX -> VecX.
Variable inverse : MatXX -> MatXX.

Lemma SolveLinearSystem_frame (p : Problem) :
  let q := SolveLinearSystem ldlt_solve inverse p in
  currentChi_ q = currentChi_ p /\ edges_ q = edges_ p /\ verticies_ q = verticies_ p
  /\ b_ q = b_ p /\ Hessian_ q = Hessian_ p /\ currentLambda_ q = currentLambda_ p
  /\ ni_ q = ni_ p /\ vertex_store q = vertex_store p /\ err_prior_ q = err_prior_ p.
Proof. unfold SolveLinearSystem. destruct (problemType_ p); cbn; repeat split; reflexivity. Qed.


(** * The inner loops *)

(** A rejected try leaves the cost and counts one more failure. *)
Lemma LM_try_cases (t : TryLoop) :
  let t' := LM_try ldlt_solve inverse t in
  (tr_success t' = true /\ tr_false_cnt t' = 0%Z)
  \/ (tr_success t' = false /\ tr_false_cnt t' = (tr_false_cnt t + 1)%Z
      /\ currentChi_ (tr_problem t') = currentChi_ (tr_problem t)).
Proof.
  unfold LM_try.
  set (p2 := UpdateStates (SolveLinearSystem ldlt_solve inverse (tr_problem t))).
  destruct (fst (IsGoodStepInLM p2)) eqn:E; cbn; [left; split; reflexivity|right].
  repeat split.
  destruct (RollbackStates_frame (snd (IsGoodStepInLM p2))) as (-> & _).
  destruct (IsGoodStepInLM_frame p2) as (_ & _ & _ & ->); [|assumption].
  subst p2. destruct (UpdateStates_frame (SolveLinearSystem ldlt_solve inverse (tr_problem t)))
    as (-> & _).
  apply SolveLinearSystem_frame.
Qed.

(** Ten rounds are enough for the inner loop to end by its own test. *)
Lemma LM_inner_exit (fuel : nat) :
  forall t, (0 <= tr_false_cnt t)%Z -> (10 - tr_false_cnt t <= Z.of_nat fuel)%Z ->
    let t' := LM_inner ldlt_solve inverse fuel t in
    (tr_success t' = true \/ (10 <= tr_false_cnt t')%Z)
    /\ (tr_success t' = false ->
        tr_success t = false
        /\ currentChi_ (tr_problem t') = currentChi_ (tr_problem t)
        /\ tr_false_cnt t' = Z.max 10 (tr_false_cnt t)).
Proof.
  induction fuel as [|f IH]; intros t H0 Hf; cbn [LM_inner].
  - split; [right; lia|]. intros Hs. split; [assumption|]. split; [reflexivity|lia].
  - destruct (tr_success t) eqn:Es; cbn [negb andb].
    + rewrite Es. split; [left; reflexivity|discriminate].
    + destruct (Z.ltb_spec (tr_false_cnt t) 10) as [Hlt|Hge].
      * destruct (LM_try_cases t) as [[Hs Hc]|(Hs & Hc & Hchi)].
        -- set (t1 := LM_try ldlt_solve inverse t) in *.
           assert (E : LM_inner ldlt_solve inverse f t1 = t1)
             by (destruct f; cbn [LM_inner]; [reflexivity|rewrite Hs; reflexivity]).
           rewrite E. split; [left; assumption|]. rewrite Hs. discriminate.
        -- set (t1 := LM_try ldlt_solve inverse t) in *.
           destruct (IH t1) as [Hexit Hrej]; [lia|lia|].
           split; [exact Hexit|]. intros Hfin.
           destruct (Hrej Hfin) as (_ & Hchi' & Hcnt).
           repeat split; [congruence|lia].
      * rewrite Es. split; [right; assumption|]. intros _. repeat split. lia.
Qed.



End Drivers.



Lemma SetOrdering_lambda (p : Problem) : currentLambda_ (SetOrdering p) = currentLambda_ p.
Proof.
  unfold SetOrdering.
  set (p0 := set_ordering_landmarks_ 0 (set_ordering_generic_ 0 (set_ordering_poses_ 0 p))).
  set (p1 := fold_left SetOrdering_visit (verticies_ p0) p0).
  assert (E1 : currentLambda_ p1 = currentLambda_ p).
  { subst p1. rewrite (fold_left_field currentLambda_); [reflexivity|].
    intros q a. unfold SetOrdering_visit, AddOrderingSLAM. cbn.
    destruct (is_slam (problemType_ q)); [|reflexivity].
    destruct (IsPoseVertex (vertex_store q a)); [reflexivity|].
    destruct (IsLandmarkVertex (vertex_store q a)); reflexivity. }
  destruct (is_slam (problemType_ p1)); [|assumption].
  rewrite (fold_left_field currentLambda_); [assumption|]. intros q a. reflexivity.
Qed.

Lemma ComputeRadiusInitDogLeg_lambda (q : Problem) :
  currentLambda_ (ComputeRadiusInitDogLeg q) = currentLambda_ q.
Proof. reflexivity. Qed.

(** The Dog-Leg driver starts with the damping it finds in the object. *)
Lemma SolveDogLeg_init_lambda (p : Problem) :
  currentLambda_ (lp_problem (SolveDogLeg_init p)) = currentLambda_ p.
Proof.
  unfold SolveDogLeg_init. cbn [lp_problem].
  rewrite ComputeRadiusInitDogLeg_lambda.
  destruct (MakeHessian_frame (SetOrdering p)) as (_ & _ & _ & _ & _ & -> & _).
  apply SetOrdering_lambda.
Qed.

Lemma list_length_zero {A : Type} (l : list A) : (List.length l =? 0)%nat = true <-> l = [].
Proof. destruct l; cbn; split; intros; try reflexivity; discriminate. Qed.

Section Outer.
Variable ldlt_solve : MatXX -> VecX -> VecX.
Variable inverse : MatXX -> MatXX.

Lemma LM_outer_exit (iterations : Z) (fuel : nat) :
  forall l, (iterations - lp_iter l <= Z.of_nat fuel)%Z ->
    let l' := LM_outer ldlt_solve inverse fuel iterations l in
    lp_stop l' = true \/ (iterations <= lp_iter l')%Z.
Proof.
  induction fuel as [|f IH]; intros l Hf; cbn [LM_outer].
  - right. lia.
  - destruct (lp_stop l) eqn:Es; cbn [negb andb]; [left; assumption|].
    destruct (Z.ltb_spec (lp_iter l) iterations); [|right; assumption].
    apply IH. unfold LM_outer_body. cbn [lp_iter]. lia.
Qed.

Lemma DogLeg_outer_exit (itertaions : Z) (fuel : nat) :
  forall l, (itertaions - lp_iter l <= Z.of_nat fuel)%Z ->
    let l' := DogLeg_outer ldlt_solve inverse fuel itertaions l in
    lp_stop l' = true \/ (itertaions <= lp_iter l')%Z.
Proof.
  induction fuel as [|f IH]; intros l Hf; cbn [DogLeg_outer].
  - right. lia.
  - destruct (Z.ltb_spec (lp_iter l) itertaions); cbn [andb]; [|right; assumption].
    destruct (lp_stop l) eqn:Es; cbn [negb]; [left; assumption|].
    apply IH. unfold DogLeg_outer_body. cbn [lp_iter]. lia.
Qed.

(** The value of [Solve]: false iff the problem has no edge or no vertex
    or the solver type is neither 0 nor 1, and then the problem as it is;
    in every other case true, with the problem left by the outer loop of
    the selected driver, which has ended by its own test (a stop or the
    iteration cap). *)
Lemma Solve_value_cases (type iterations : Z) (p : Problem) :
  let r := Solve ldlt_solve inverse type iterations p in
  (fst r = false <->
     edges_ p = [] \/ verticies_ p = [] \/ (type <> 0%Z /\ type <> 1%Z))
  /\ (fst r = false -> snd r = p)
  /\ (fst r = true ->
      exists l, snd r = lp_problem l
                /\ (lp_stop l = true \/ (iterations <= lp_iter l)%Z)
                /\ ((type = 0%Z /\ l = SolveLM_loop ldlt_solve inverse iterations p)
                    \/ (type = 1%Z
                        /\ l = SolveDogLeg_loop ldlt_solve inverse iterations p))).
Proof.
  intros r. subst r. unfold Solve, SolveLM, SolveDogLeg.
  destruct (Z.eqb_spec type 0) as [H0|H0]; [|destruct (Z.eqb_spec type 1) as [H1|H1]].
  - destruct ((List.length (edges_ p) =? 0)%nat || (List.length (verticies_ p) =? 0)%nat) eqn:E;
      cbn [fst snd].
    + apply orb_prop in E. rewrite !list_length_zero in E.
      split; [split; [tauto|reflexivity]|]. split; [reflexivity|discriminate].
    + apply orb_false_elim in E. destruct E as [E1 E2].
      split; [split; [discriminate|]|].
      * intros [He|[Hv|[Hn _]]]; [| |lia].
        -- apply list_length_zero in He. congruence.
        -- apply list_length_zero in Hv. congruence.
      * split; [discriminate|]. intros _.
        exists (SolveLM_loop ldlt_solve inverse iterations p).
        split; [reflexivity|]. split; [|left; split; [assumption|reflexivity]].
        apply LM_outer_exit. unfold SolveLM_init. cbn [lp_iter]. lia.
  - destruct ((List.length (edges_ p) =? 0)%nat || (List.length (verticies_ p) =? 0)%nat) eqn:E;
      cbn [fst snd].
    + apply orb_prop in E. rewrite !list_length_zero in E.
      split; [split; [tauto|reflexivity]|]. split; [reflexivity|discriminate].
    + apply orb_false_elim in E. destruct E as [E1 E2].
      split; [split; [discriminate|]|].
      * intros [He|[Hv|[_ Hn]]]; [| |lia].
        -- apply list_length_zero in He. congruence.
        -- apply list_length_zero in Hv. congruence.
      * split; [discriminate|]. intros _.
        exists (SolveDogLeg_loop ldlt_solve inverse iterations p).
        split; [reflexivity|]. split; [|right; split; [assumption|reflexivity]].
        apply DogLeg_outer_exit. unfold SolveDogLeg_init. cbn [lp_iter]. lia.
  - cbn [fst snd]. split; [split; [tauto|reflexivity]|]. split; [reflexivity|discriminate].
Qed.

(** * The damping a Levenberg-Marquardt run leaves behind *)

Lemma LM_try_damping (t : TryLoop) :
  0 < currentLambda_ (tr_problem t) -> 0 < ni_ (tr_problem t) ->
  let t' := LM_try ldlt_solve inverse t in
  0 < currentLambda_ (tr_problem t') /\ 0 < ni_ (tr_problem t').
Proof.
  intros Hl Hn. unfold LM_try.
  set (p2 := UpdateStates (SolveLinearSystem ldlt_solve inverse (tr_problem t))).
  assert (H2 : currentLambda_ p2 = currentLambda_ (tr_problem t)
               /\ ni_ p2 = ni_ (tr_problem t)).
  { subst p2.
    destruct (UpdateStates_frame (SolveLinearSystem ldlt_solve inverse (tr_problem t)))
      as (_ & _ & _ & _ & _ & -> & -> & _).
    destruct (SolveLinearSystem_frame ldlt_solve inverse (tr_problem t))
      as (_ & _ & _ & _ & _ & -> & -> & _).
    split; reflexivity. }
  destruct H2 as [El En]. clearbody p2.
  assert (H3 : 0 < currentLambda_ (snd (IsGoodStepInLM p2))
               /\ 0 < ni_ (snd (IsGoodStepInLM p2))).
  { unfold IsGoodStepInLM.
    destruct (Rltb 0 (LM_rho p2) && isfinite (tempChi_of p2)); cbn; rewrite ?El, ?En.
    - split; [|lra]. apply Rmult_lt_0_compat; [assumption|].
      rewrite std_max_Rmax. apply Rlt_le_trans with (1 / 3); [lra|apply Rmax_l].
    - split; [apply Rmult_lt_0_compat; assumption|lra]. }
  destruct H3 as [H3l H3n].
  destruct (fst (IsGoodStepInLM p2)); cbn [tr_problem].
  - destruct (MakeHessian_frame (snd (IsGoodStepInLM p2)))
      as (_ & _ & _ & _ & _ & -> & ->). split; assumption.
  - destruct (RollbackStates_frame (snd (IsGoodStepInLM p2)))
      as (_ & _ & _ & _ & _ & -> & ->). split; assumption.
Qed.

Lemma LM_inner_damping (fuel : nat) :
  forall t, 0 < currentLambda_ (tr_problem t) -> 0 < ni_ (tr_problem t) ->
    let t' := LM_inner ldlt_solve inverse fuel t in
    0 < currentLambda_ (tr_problem t') /\ 0 < ni_ (tr_problem t').
Proof.
  induction fuel as [|f IH]; intros t Hl Hn; cbn [LM_inner]; [split; assumption|].
  destruct (negb (tr_success t) && (tr_false_cnt t <? 10)%Z); [|split; assumption].
  destruct (LM_try_damping t Hl Hn). apply IH; assumption.
Qed.

Lemma LM_outer_damping (iterations : Z) (fuel : nat) :
  forall l, 0 < currentLambda_ (lp_problem l) -> 0 < ni_ (lp_problem l) ->
    let l' := LM_outer ldlt_solve inverse fuel iterations l in
    0 < currentLambda_ (lp_problem l') /\ 0 < ni_ (lp_problem l').
Proof.
  induction fuel as [|f IH]; intros l Hl Hn; cbn [LM_outer]; [split; assumption|].
  destruct (negb (lp_stop l) && (lp_iter l <? iterations)%Z); [|split; assumption].
  destruct (LM_inner_damping 10 (mkTry false 0 (lp_problem l)) Hl Hn).
  apply IH; unfold LM_outer_body; cbn [lp_problem]; assumption.
Qed.

Lemma ComputeLambdaInitLM_damping (q : Problem) :
  0 < max_abs_diag (Z.to_nat (cols (Hessian_ q))) (Hessian_ q) 0 ->
  0 < currentLambda_ (ComputeLambdaInitLM q) /\ 0 < ni_ (ComputeLambdaInitLM q).
Proof.
  intros H. unfold ComputeLambdaInitLM. cbn. split; [|lra].
  apply Rmult_lt_0_compat; [lra|]. rewrite std_min_Rmin.
  apply Rmin_glb_lt; [lra|assumption].
Qed.

(** A Levenberg-Marquardt run on a problem whose Hessian has a diagonal
    entry that is not zero leaves a positive [currentLambda_] in the
    object, and a Dog-Leg run on that object starts with it. *)
Lemma SolveLM_leaves_damping (iterations : Z) (p : Problem) :
  let H := Hessian_ (MakeHessian (SetOrdering p)) in
  0 < max_abs_diag (Z.to_nat (cols H)) H 0 ->
  let after := lp_problem (SolveLM_loop ldlt_solve inverse iterations p) in
  0 < currentLambda_ after
  /\ currentLambda_ (lp_problem (SolveDogLeg_init after)) = currentLambda_ after.
Proof.
  intros H Hd after. split; [|apply SolveDogLeg_init_lambda].
  subst after. unfold SolveLM_loop, SolveLM_init.
  destruct (ComputeLambdaInitLM_damping (MakeHessian (SetOrdering p)) Hd) as [Hl Hn].
  apply LM_outer_damping; cbn [lp_problem]; assumption.
Qed.

(** * The Dog-Leg driver *)




(** * The Levenberg-Marquardt driver *)

(** C2, as amended.  An outer iteration of [SolveLM] sets [stop] exactly
    when [last_chi - currentChi_ < 1e-5]; the loop runs no further
    iteration once [stop] is set or the iteration count has reached the
    maximum, and runs another one otherwise, whatever the norm of [b_].
    Ten rejected tries end the inner loop with the cost unchanged, so they
    stop the outer loop when [last_chi] is the cost the iteration started
    from, as in every outer iteration but the first. *)
Theorem LM_outer_stop_rule (iterations : Z) (l : DriverLoop) :
  lp_stop l = false ->
  let l' := LM_outer_body ldlt_solve inverse l in
  let t := LM_inner ldlt_solve inverse 10 (mkTry false 0 (lp_problem l)) in
  lp_iter l' = (lp_iter l + 1)%Z
  /\ lp_last_chi l' = currentChi_ (lp_problem l')
  /\ (lp_stop l' = true <-> lp_last_chi l - currentChi_ (lp_problem l') < 1e-5)
  /\ (forall fuel, lp_stop l' = true \/ (iterations <= lp_iter l')%Z ->
                   LM_outer ldlt_solve inverse fuel iterations l' = l')
  /\ (forall fuel, lp_stop l' = false -> (lp_iter l' < iterations)%Z ->
                   LM_outer ldlt_solve inverse (S fuel) iterations l'
                   = LM_outer ldlt_solve inverse fuel iterations
                              (LM_outer_body ldlt_solve inverse l'))
  /\ (tr_success t = false ->
      tr_false_cnt t = 10%Z
      /\ currentChi_ (lp_problem l') = currentChi_ (lp_problem l)
      /\ (lp_last_chi l = currentChi_ (lp_problem l) -> lp_stop l' = true)).
Proof.
  intros Hs l' t.
  assert (Hstop : lp_stop l' = true <-> lp_last_chi l - currentChi_ (lp_problem l') < 1e-5).
  { subst l'. unfold LM_outer_body. cbn [lp_stop lp_problem]. rewrite Hs.
    destruct (Rlt_dec _ _); split; intros; try assumption; try reflexivity;
      try discriminate; tauto. }
  split; [reflexivity|]. split; [reflexivity|]. split; [exact Hstop|].
  split; [|split].
  - intros fuel Hexit. destruct fuel; cbn [LM_outer]; [reflexivity|].
    destruct Hexit as [->|Hcap]; [reflexivity|].
    destruct (Z.ltb_spec (lp_iter l') iterations); [lia|].
    rewrite andb_false_r. reflexivity.
  - intros fuel Hns Hlt. cbn [LM_outer]. rewrite Hns.
    destruct (Z.ltb_spec (lp_iter l') iterations); [reflexivity|lia].
  - intros Hrej.
    destruct (LM_inner_exit ldlt_solve inverse 10 (mkTry false 0 (lp_problem l)))
      as [_ Hr]; [cbn [tr_false_cnt]; lia|cbn [tr_false_cnt]; lia|].
    fold t in Hr. destruct (Hr Hrej) as (_ & Hchi & Hcnt).
    cbn [tr_problem tr_false_cnt] in Hchi, Hcnt.
    split; [exact Hcnt|]. split; [exact Hchi|].
    intros Hlast. apply Hstop.
    change (currentChi_ (lp_problem l')) with (currentChi_ (tr_problem t)).
    rewrite Hchi, Hlast. lra.
Qed.

End Outer.

(** * A run of the Levenberg-Marquardt driver at a minimum *)

Lemma flat_state_init : flat_state (lp_problem (SolveLM_init lm_flat_example)).
Proof.
  unfold SolveLM_init. cbn [lp_problem].
  constructor; try reflexivity; flat_eval; try lra.
  match goal with |- context [Rabs ?x] => replace x with 1 by lra end.
  rewrite Rabs_R1. unfold std_min, std_max.
  repeat destruct (Rlt_dec _ _); lra.
Qed.

Lemma LM_rho_flat (p : Problem) :
  edges_ p = [unary_edge] -> vsize (err_prior_ p) = 0%Z -> currentChi_ p = 0 ->
  vcoef (v_parameters (vertex_store p 0%N)) 0 = 0 ->
  LM_rho p = 0 /\ fst (IsGoodStepInLM p) = false.
Proof.
  intros He Hp Hchi Hx.
  assert (Hrho : LM_rho p = 0).
  { unfold LM_rho, tempChi_of, sum_robust_chi2. rewrite He, Hp, Hchi. cbn. rewrite Hx.
    unfold Rdiv. ring. }
  split; [exact Hrho|].
  unfold IsGoodStepInLM. rewrite Hrho.
  assert (E : Rltb 0 0 = false) by (unfold Rltb; destruct (Rlt_dec 0 0); [lra|reflexivity]).
  rewrite E. reflexivity.
Qed.

Lemma LM_try_flat (t : TryLoop) :
  flat_state (tr_problem t) ->
  let t' := LM_try diag_solve diag_inverse t in
  tr_success t' = false /\ flat_state (tr_problem t').
Proof.
  intros F t'. subst t'. unfold LM_try.
  set (p := tr_problem t) in *. clearbody p.
  set (p1 := SolveLinearSystem diag_solve diag_inverse p).
  assert (E1 : p1 = set_delta_x_
                      (diag_solve (diag_add (Hessian_ p) (cols (Hessian_ p)) (currentLambda_ p))
                                  (b_ p)) p).
  { subst p1. unfold SolveLinearSystem. rewrite (fs_type _ F). reflexivity. }
  assert (Hd : vcoef (delta_x_ p1) 0 = 0).
  { rewrite E1. cbn. rewrite (fs_b _ F). unfold Rdiv. ring. }
  assert (F1 : verticies_ p1 = [0%N] /\ vsize (err_prior_ p1) = 0%Z
               /\ vertex_store p1 = vertex_store p)
    by (rewrite E1; cbn; repeat split; apply F).
  destruct F1 as (Hv1 & Hp1 & Hs1).
  set (p2 := UpdateStates p1).
  assert (E2 : p2 = set_vertex_store
                      (UpdateStates_vertex (delta_x_ p1) (vertex_store p) 0%N) p1).
  { subst p2. unfold UpdateStates. rewrite Hv1, Hs1. cbn [fold_left].
    cbn [err_prior_ set_vertex_store]. rewrite Hp1. reflexivity. }
  assert (Hx2 : vcoef (v_parameters (vertex_store p2 0%N)) 0 = 0).
  { rewrite E2. cbn. rewrite (fs_plus _ F), (fs_ordering _ F), (fs_dim _ F). cbn.
    rewrite (fs_x _ F), Hd. lra. }
  assert (Hb2 : v_parameters_backup (vertex_store p2 0%N) = v_parameters (vertex_store p 0%N)).
  { rewrite E2. reflexivity. }
  assert (Hsh2 : v_ordering_id (vertex_store p2 0%N) = 0%Z
                 /\ v_local_dimension (vertex_store p2 0%N) = 1%Z
                 /\ v_plus (vertex_store p2 0%N) = vec_add).
  { rewrite E2. cbn. repeat split; apply F. }
  destruct (LM_rho_flat p2) as [_ Hrej].
  { rewrite E2, E1. cbn. apply (fs_edges _ F). }
  { rewrite E2, E1. cbn. apply (fs_prior _ F). }
  { rewrite E2, E1. cbn. apply (fs_chi _ F). }
  { exact Hx2. }
  rewrite Hrej. cbn [tr_success tr_problem]. split; [reflexivity|].
  assert (E3 : snd (IsGoodStepInLM p2)
               = set_ni_ (ni_ p2 * 2) (set_currentLambda_ (currentLambda_ p2 * ni_ p2) p2)).
  { revert Hrej. unfold IsGoodStepInLM.
    destruct (Rltb 0 (LM_rho p2) && isfinite (tempChi_of p2)); [discriminate|reflexivity]. }
  rewrite E3.
  set (p3 := set_ni_ (ni_ p2 * 2) (set_currentLambda_ (currentLambda_ p2 * ni_ p2) p2)).
  assert (F3 : verticies_ p3 = [0%N] /\ vsize (err_prior_ p3) = 0%Z
               /\ vertex_store p3 = vertex_store p2).
  { subst p3. cbn. rewrite E2. cbn. repeat split; assumption. }
  destruct F3 as (Hv3 & Hp3 & Hs3).
  assert (E4 : RollbackStates p3
               = set_vertex_store (store_update (vertex_store p2) 0%N RollBackParameters) p3).
  { unfold RollbackStates. rewrite Hv3, Hs3. cbn [fold_left].
    cbn [err_prior_ set_vertex_store]. rewrite Hp3. reflexivity. }
  rewrite E4. destruct Hsh2 as (Ho & Hdim & Hplus).
  assert (Hl : currentLambda_ p2 = currentLambda_ p /\ ni_ p2 = ni_ p)
    by (rewrite E2, E1; split; reflexivity).
  destruct Hl as [Hl Hn].
  pose proof (fs_lambda _ F). pose proof (fs_ni _ F).
  constructor; subst p3; cbn; rewrite ?E2, ?E1; cbn; try (apply F).
  - apply Rmult_lt_0_compat; assumption.
  - lra.
Qed.

(** The ten tries of an outer iteration are all rejected. *)
Lemma LM_inner_flat (fuel : nat) :
  forall t, flat_state (tr_problem t) -> tr_success t = false ->
    let t' := LM_inner diag_solve diag_inverse fuel t in
    tr_success t' = false /\ flat_state (tr_problem t').
Proof.
  induction fuel as [|f IH]; intros t F Hs; cbn [LM_inner]; [split; assumption|].
  destruct (negb (tr_success t) && (tr_false_cnt t <? 10)%Z); [|split; assumption].
  destruct (LM_try_flat t F) as [Hs1 F1]. apply IH; assumption.
Qed.

Lemma norm_flat (p : Problem) : flat_state p -> norm (b_ p) = 0.
Proof.
  intros F. unfold norm, squaredNorm, dot, sumZ. rewrite (fs_bsize _ F).
  cbv [Z.to_nat Pos.to_nat Pos.iter_op Nat.add sum_upto]. cbn. rewrite (fs_b _ F).
  replace (0 + 0 * 0) with 0 by lra. apply sqrt_0.
Qed.

(** Counterexample to C2 as stated: on the flat example the first outer
    iteration of [SolveLM] ends with [|b| = 0 < 1e-5] after ten consecutive
    rejections and does not stop; with a maximum of 2 a second outer
    iteration is run. *)
Lemma LM_small_gradient_does_not_stop :
  let l0 := SolveLM_init lm_flat_example in
  let t := LM_inner diag_solve diag_inverse 10 (mkTry false 0 (lp_problem l0)) in
  let l1 := LM_outer_body diag_solve diag_inverse l0 in
  norm (b_ (lp_problem l1)) < 1e-5
  /\ tr_success t = false /\ tr_false_cnt t = 10%Z
  /\ lp_stop l1 = false /\ lp_iter l1 = 1%Z
  /\ SolveLM_loop diag_solve diag_inverse 2 lm_flat_example
     = LM_outer_body diag_solve diag_inverse l1
  /\ lp_iter (SolveLM_loop diag_solve diag_inverse 2 lm_flat_example) = 2%Z.
Proof.
  intros l0 t l1.
  destruct (LM_inner_flat 10 (mkTry false 0 (lp_problem l0)) flat_state_init eq_refl)
    as [Hs F].
  fold t in Hs, F.
  destruct (LM_inner_exit diag_solve diag_inverse 10 (mkTry false 0 (lp_problem l0)))
    as [_ Hr]; [cbn [tr_false_cnt]; lia|cbn [tr_false_cnt]; lia|].
  fold t in Hr. destruct (Hr Hs) as (_ & _ & Hcnt). cbn [tr_false_cnt] in Hcnt.
  assert (Hstop : lp_stop l1 = false).
  { subst l1. unfold LM_outer_body. cbn [lp_stop]. fold t. rewrite (fs_chi _ F).
    change (lp_last_chi l0) with 1e20. change (lp_stop l0) with false.
    destruct (Rlt_dec _ _); [lra|reflexivity]. }
  assert (Hiter : lp_iter l1 = 1%Z) by reflexivity.
  assert (Hloop : SolveLM_loop diag_solve diag_inverse 2 lm_flat_example
                  = LM_outer_body diag_solve diag_inverse l1).
  { unfold SolveLM_loop. change (Z.to_nat 2) with 2%nat. cbn [LM_outer]. fold l0.
    change (lp_stop l0) with false. change (lp_iter l0) with 0%Z. cbn [negb andb Z.ltb Z.compare].
    fold l1. rewrite Hstop, Hiter. reflexivity. }
  assert (Hnorm : norm (b_ (lp_problem l1)) < 1e-5).
  { change (lp_problem l1) with (tr_problem t). rewrite (norm_flat _ F). lra. }
  assert (Hten : tr_false_cnt t = 10%Z) by (rewrite Hcnt; reflexivity).
  assert (Htwo : lp_iter (SolveLM_loop diag_solve diag_inverse 2 lm_flat_example) = 2%Z).
  { rewrite Hloop. unfold LM_outer_body at 1. cbn [lp_iter]. rewrite Hiter. reflexivity. }
  repeat split; assumption.
Qed.

(** The row [k] of a diagonal matrix selects the term [k] of a sum. *)
Lemma sum_upto_diag (n : nat) (k : Z) (a : R) (f : Z -> R) :
  (0 <= k < Z.of_nat n)%Z ->
  sum_upto n (fun l => (if (k =? l)%Z then a else 0) * f l) = a * f k.
Proof.
  induction n as [|n IH]; intros Hk; [lia|]. cbn [sum_upto].
  destruct (Z.eqb_spec k (Z.of_nat n)) as [->|Hne].
  - rewrite (sum_upto_ext n _ (fun _ => 0)).
    + rewrite sum_upto_zero. lra.
    + intros l Hl. destruct (Z.eqb_spec (Z.of_nat n) l); [lia|lra].
  - rewrite IH by lia. lra.
Qed.

Lemma asDiagonal_mul (v : VecX) (M : MatXX) (k j : Z) :
  (0 <= k < vsize v)%Z ->
  coef (mat_mul (asDiagonal v) M) k j = vcoef v k * coef M k j.
Proof.
  intros Hk. cbn. unfold sumZ.
  apply (sum_upto_diag _ k (vcoef v k) (fun l => coef M l j)). lia.
Qed.

(** The entries of the thresholded [J^T J] with [J = sqrt(S) V^T], where [S]
    keeps the entries of [lam] above 1e-8. *)
Lemma select_JtJ_coef (lam : VecX) (V : MatXX) (i j : Z) :
  let J := mat_mul (asDiagonal (cwiseSqrt (select_gt lam 1e-8 lam))) (transpose V) in
  let kept := fun k => if Rgt_dec (vcoef lam k) 1e-8 then vcoef lam k else 0 in
  let JtJ := sumZ (vsize lam)
               (fun k => (sqrt (kept k) * coef V i k) * (sqrt (kept k) * coef V j k)) in
  coef (mat_select_abs_gt (mat_mul (transpose J) J) 1e-9) i j
  = if Rgt_dec (Rabs JtJ) 1e-9 then JtJ else 0.
Proof.
  intros J kept JtJ.
  assert (E : coef (mat_mul (transpose J) J) i j = JtJ).
  { subst JtJ. unfold mat_mul at 1. cbn [coef].
    change (cols (transpose J)) with (vsize lam).
    unfold sumZ. apply sum_upto_ext. intros k Hk.
    cbn [coef transpose]. subst J.
    rewrite !asDiagonal_mul by (cbn [vsize cwiseSqrt select_gt]; lia).
    reflexivity. }
  cbn [coef mat_select_abs_gt]. rewrite E. reflexivity.
Qed.

Section Marginalize.
Variable eigensolver : MatXX -> VecX * MatXX.

(** C9.  The end of [Marginalize]: the marginalised block is symmetrised
    as [(A + A^T) / 2] and inverted through its eigen decomposition with
    the eigenvalues not above 1e-8 replaced by zero; the Schur complement
    is decomposed again and its eigenvalues not above 1e-8 dropped;
    [Jt_prior_inv_] is [sqrt(Sigma)^-1 V^T] (zero rows for the dropped
    eigenvalues), [err_prior_] is [- Jt_prior_inv_ b_prior_], [H_prior_]
    is [J^T J] with [J = sqrt(Sigma) V^T], and its entries of magnitude
    below 1e-9 are zero. *)
Theorem Marginalize_prior_truncation (H_marg : MatXX) (b_marg : VecX)
        (reserve_size marg_dim : Z) (p : Problem) :
  let m2 := marg_dim in
  let n2 := (reserve_size - marg_dim)%Z in
  let Amm := mat_scale 0.5 (mat_add (block H_marg n2 n2 m2 m2)
                                    (transpose (block H_marg n2 n2 m2 m2))) in
  let lam := fst (eigensolver Amm) in
  let V := snd (eigensolver Amm) in
  let Amm_inv :=
    mat_mul (mat_mul V (asDiagonal
                          (mkVec (vsize lam)
                                 (fun k => if Rgt_dec (vcoef lam k) 1e-8
                                           then / vcoef lam k else 0))))
            (transpose V) in
  let Arm := block H_marg 0 n2 n2 m2 in
  let Hs := mat_sub (block H_marg 0 0 n2 n2)
                    (mat_mul (mat_mul Arm Amm_inv) (block H_marg n2 0 m2 n2)) in
  let lam2 := fst (eigensolver Hs) in
  let V2 := snd (eigensolver Hs) in
  let kept := fun k => if Rgt_dec (vcoef lam2 k) 1e-8 then vcoef lam2 k else 0 in
  let JtJ := fun i j =>
    sumZ (vsize lam2) (fun k => (sqrt (kept k) * coef V2 i k) * (sqrt (kept k) * coef V2 j k)) in
  let q := Marginalize_prior eigensolver H_marg b_marg reserve_size marg_dim p in
  (forall i j, coef Amm i j
               = 0.5 * (coef H_marg (n2 + i)%Z (n2 + j)%Z + coef H_marg (n2 + j)%Z (n2 + i)%Z))
  /\ (forall i j, coef Amm i j = coef Amm j i)
  /\ b_prior_ q = vec_sub (segment b_marg 0 n2)
                          (mat_vec (mat_mul Arm Amm_inv) (segment b_marg n2 m2))
  /\ (forall k j, (0 <= k < vsize lam2)%Z ->
        coef (Jt_prior_inv_ q) k j
        = (if Rgt_dec (vcoef lam2 k) 1e-8 then / sqrt (vcoef lam2 k) else 0) * coef V2 j k)
  /\ err_prior_ q = mat_vec (mat_neg (Jt_prior_inv_ q)) (b_prior_ q)
  /\ (forall i j, coef (H_prior_ q) i j
                  = if Rgt_dec (Rabs (JtJ i j)) 1e-9 then JtJ i j else 0)
  /\ (forall i j, Rabs (JtJ i j) < 1e-9 -> coef (H_prior_ q) i j = 0).
Proof.
  intros m2 n2 Amm lam V Amm_inv Arm Hs lam2 V2 kept JtJ q.
  assert (HJ : forall i j, coef (H_prior_ q) i j
                           = if Rgt_dec (Rabs (JtJ i j)) 1e-9 then JtJ i j else 0).
  { intros i j. exact (select_JtJ_coef lam2 V2 i j). }
  split; [intros i j; cbn; lra|]. split; [intros i j; cbn; lra|].
  split; [reflexivity|]. split; [|split; [reflexivity|split; [exact HJ|]]].
  - intros k j Hk.
    assert (E : coef (mat_mul (asDiagonal (cwiseSqrt (select_gt lam2 1e-8 (cwiseInverse lam2))))
                              (transpose V2)) k j
                = (if Rgt_dec (vcoef lam2 k) 1e-8 then / sqrt (vcoef lam2 k) else 0)
                  * coef V2 j k).
    { rewrite asDiagonal_mul by (cbn [vsize cwiseSqrt select_gt]; exact Hk).
      cbn [vcoef cwiseSqrt select_gt cwiseInverse coef transpose].
      destruct (Rgt_dec (vcoef lam2 k) 1e-8); [rewrite sqrt_inv|rewrite sqrt_0]; reflexivity. }
    exact E.
  - intros i j Hlt. rewrite HJ. destruct (Rgt_dec _ _); [lra|reflexivity].
Qed.

(** The prior Hessian left by [Marginalize] is symmetric. *)
Lemma Marginalize_prior_symmetric (H_marg : MatXX) (b_marg : VecX)
      (reserve_size marg_dim : Z) (p : Problem) :
  symmetric (H_prior_ (Marginalize_prior eigensolver H_marg b_marg reserve_size marg_dim p)).
Proof.
  unfold Marginalize_prior. cbn [H_prior_ set_H_prior_].
  match goal with
  | |- symmetric (mat_select_abs_gt
                    (mat_mul (transpose (mat_mul (asDiagonal (cwiseSqrt (select_gt ?l _ ?l)))
                                                 (transpose ?v))) _) _) =>
      generalize l, v
  end.
  intros lam V. split; [reflexivity|]. intros i j _ _.
  rewrite !select_JtJ_coef.
  assert (E : sumZ (vsize lam)
                (fun k => (sqrt (if Rgt_dec (vcoef lam k) 1e-8 then vcoef lam k else 0)
                           * coef V i k)
                          * (sqrt (if Rgt_dec (vcoef lam k) 1e-8 then vcoef lam k else 0)
                             * coef V j k))
              = sumZ (vsize lam)
                  (fun k => (sqrt (if Rgt_dec (vcoef lam k) 1e-8 then vcoef lam k else 0)
                             * coef V j k)
                            * (sqrt (if Rgt_dec (vcoef lam k) 1e-8 then vcoef lam k else 0)
                               * coef V i k))).
  { unfold sumZ. apply sum_upto_ext. intros k _. ring. }
  rewrite E. reflexivity.
Qed.

End Marginalize.

(** Counterexample to C3 as stated: a vertex that was removed and added
    again keeps the ordering id -1 through [SetOrdering], in GENERIC mode
    and, when it is neither pose-like nor landmark-like, in SLAM mode. *)
Lemma SetOrdering_unassigned_counterexample :
  let q := SetOrdering generic_readded_example in
  let s := SetOrdering slam_other_example in
  (In 0%N (verticies_ q)
   /\ ~ (0 <= v_ordering_id (vertex_store q 0%N) < ordering_generic_ q)%Z)
  /\ (In 0%N (verticies_ s)
      /\ ~ (0 <= v_ordering_id (vertex_store s 0%N) < ordering_generic_ s)%Z).
Proof.
  intros q s.
  assert (Hq : verticies_ q = [0%N] /\ v_ordering_id (vertex_store q 0%N) = (-1)%Z
               /\ ordering_generic_ q = 1%Z) by (repeat split; reflexivity).
  assert (Hs : verticies_ s = [0%N] /\ v_ordering_id (vertex_store s 0%N) = (-1)%Z
               /\ ordering_generic_ s = 1%Z) by (repeat split; reflexivity).
  destruct Hq as (Hq1 & Hq2 & Hq3). destruct Hs as (Hs1 & Hs2 & Hs3).
  rewrite Hq1, Hq2, Hq3, Hs1, Hs2, Hs3.
  repeat split; try (left; reflexivity); lia.
Qed.

Lemma slam_example_consistent : ordering_consistent slam_example.
Proof.
  repeat split; try reflexivity.
  - intros k [].
  - intros v Hv. cbn in Hv.
    destruct Hv as [<-|[<-|[<-|[<-|[]]]]]; cbn; lia.
Qed.

Lemma SetOrdering_offsets_witness :
  ordering_consistent slam_example
  /\ ordering_generic_ (SetOrdering slam_example) = 17%Z
  /\ ordering_poses_ (SetOrdering slam_example) = 15%Z
  /\ v_ordering_id (vertex_store (SetOrdering slam_example) 1%N) = 6%Z
  /\ v_ordering_id (vertex_store (SetOrdering slam_example) 3%N) = 16%Z.
Proof.
  pose proof (SetOrdering_offsets slam_example) as H.
  cbv zeta in H. destruct H as (_ & Hg & _ & Hs).
  destruct (Hs eq_refl slam_example_consistent) as (Hp & _ & _ & Hv).
  split; [exact slam_example_consistent|].
  split; [rewrite Hg; reflexivity|]. split; [rewrite Hp; reflexivity|]. split.
  - destruct (Hv 1%N) as ((-> & _) & _); [cbn; tauto|reflexivity|reflexivity].
  - destruct (Hv 3%N) as (_ & (-> & _) & _); [cbn; tauto|reflexivity|].
    rewrite Hp. reflexivity.
Defined.

Lemma Rollback_undoes_Update_witness :
  keys_sorted (verticies_ prior_example) = true
  /\ prior_rows_kept prior_example
  /\ v_parameters (vertex_store (RollbackStates (UpdateStates prior_example)) 0%N)
     = v_parameters (vertex_store prior_example 0%N)
  /\ b_prior_ (RollbackStates (UpdateStates prior_example)) = b_prior_ prior_example
  /\ err_prior_ (RollbackStates (UpdateStates prior_example)) = err_prior_ prior_example.
Proof.
  assert (Hs : keys_sorted (verticies_ prior_example) = true) by reflexivity.
  assert (Hr : prior_rows_kept prior_example) by (intros _; cbn; lia).
  pose proof (Rollback_undoes_Update prior_example Hs Hr) as H.
  cbv zeta in H. destruct H as (Hv & Hb & He & _).
  split; [exact Hs|]. split; [exact Hr|]. split; [|split; assumption].
  apply Hv. left. reflexivity.
Defined.

Lemma chain_example_edges :
  forall e, In e (edges_ chain_example) -> edge_symmetric (vertex_store chain_example) e.
Proof.
  intros e [<-|[]]. split.
  - split; [reflexivity|]. intros i j Hi Hj. cbn in Hi, Hj.
    replace i with 0%Z by lia. replace j with 0%Z by lia. reflexivity.
  - intros i Hi. cbn in Hi. destruct i as [|[|i]]; [reflexivity|reflexivity|lia].
Qed.



Lemma LM_outer_stop_rule_witness :
  lp_stop (SolveLM_init lm_flat_example) = false
  /\ lp_iter (LM_outer_body diag_solve diag_inverse (SolveLM_init lm_flat_example)) = 1%Z.
Proof.
  assert (H0 : lp_stop (SolveLM_init lm_flat_example) = false) by reflexivity.
  pose proof (LM_outer_stop_rule diag_solve diag_inverse 2 (SolveLM_init lm_flat_example) H0)
    as H.
  cbv zeta in H. destruct H as (Hi & _).
  split; [exact H0|]. rewrite Hi. reflexivity.
Defined.

(** * The prior grown by a dimension *)

(** [ExtendHessiansPriorSize] grows a square prior by [dim] rows and
    columns: the old coefficients are kept and every new coefficient of
    [H_prior_] and [b_prior_] is zero, whatever the storage added by
    [conservativeResize] held.  It is what
    [ResizePoseHessiansWhenAddingPose] does for a vertex of that
    dimension. *)
Theorem ExtendHessiansPriorSize_zero_fills (dim : Z) (fresh_H : Z -> Z -> R)
        (fresh_b : Z -> R) (p : Problem) :
  (0 <= dim)%Z ->
  rows (H_prior_ p) = cols (H_prior_ p) ->
  vsize (b_prior_ p) = rows (H_prior_ p) ->
  let q := ExtendHessiansPriorSize dim fresh_H fresh_b p in
  let n := rows (H_prior_ p) in
  rows (H_prior_ q) = (n + dim)%Z /\ cols (H_prior_ q) = (n + dim)%Z
  /\ vsize (b_prior_ q) = (n + dim)%Z
  /\ (forall i j, (0 <= i < n + dim)%Z -> (0 <= j < n + dim)%Z ->
        coef (H_prior_ q) i j
        = if (i <? n)%Z && (j <? n)%Z then coef (H_prior_ p) i j else 0)
  /\ (forall k, (0 <= k < n + dim)%Z ->
        vcoef (b_prior_ q) k = if (k <? n)%Z then vcoef (b_prior_ p) k else 0)
  /\ (forall v, v_local_dimension (vertex_store p v) = dim ->
        let q' := ResizePoseHessiansWhenAddingPose v p in
        rows (H_prior_ q') = rows (H_prior_ q) /\ cols (H_prior_ q') = cols (H_prior_ q)
        /\ vsize (b_prior_ q') = vsize (b_prior_ q)
        /\ (forall i j, (0 <= i < n + dim)%Z -> (0 <= j < n + dim)%Z ->
              coef (H_prior_ q') i j = coef (H_prior_ q) i j)
        /\ (forall k, (0 <= k < n + dim)%Z -> vcoef (b_prior_ q') k = vcoef (b_prior_ q) k)).
Proof.
  intros Hd Hsq Hb q n.
  assert (HH : forall i j, (0 <= i < n + dim)%Z -> (0 <= j < n + dim)%Z ->
             coef (H_prior_ q) i j
             = if (i <? n)%Z && (j <? n)%Z then coef (H_prior_ p) i j else 0).
  { intros i j Hi Hj. subst q n. unfold ExtendHessiansPriorSize. cbn.
    rewrite <- Hsq. range_cases. }
  assert (Hbq : forall k, (0 <= k < n + dim)%Z ->
             vcoef (b_prior_ q) k = if (k <? n)%Z then vcoef (b_prior_ p) k else 0).
  { intros k Hk. subst q n. unfold ExtendHessiansPriorSize. cbn.
    rewrite Hb. range_cases. }
  split; [reflexivity|]. split; [reflexivity|]. split; [reflexivity|].
  split; [exact HH|]. split; [exact Hbq|].
  intros v Hv q'.
  split; [subst q' n; cbn; rewrite Hv; reflexivity|].
  split; [subst q' n; cbn; rewrite Hv; reflexivity|].
  split; [subst q' n; cbn; rewrite Hv; reflexivity|].
  split.
  - intros i j Hi Hj. rewrite (HH i j Hi Hj). subst q' n. cbn. rewrite Hv.
    replace (rows (H_prior_ p) + dim - dim)%Z with (rows (H_prior_ p)) by lia. reflexivity.
  - intros k Hk. rewrite (Hbq k Hk). subst q' n. cbn. rewrite Hv.
    replace (rows (H_prior_ p) + dim - dim)%Z with (rows (H_prior_ p)) by lia. reflexivity.
Qed.

(** * The damping *)

(** ** The damping written into the Hessian *)


(** ** The initial damping *)

Lemma max_abs_diag_spec (n : nat) (H : MatXX) :
  let m := max_abs_diag n H 0 in
  0 <= m
  /\ (forall i, (0 <= i < Z.of_nat n)%Z -> Rabs (coef H i i) <= m)
  /\ (m = 0 \/ exists i, (0 <= i < Z.of_nat n)%Z /\ m = Rabs (coef H i i)).
Proof.
  induction n as [|n IH]; cbn [max_abs_diag].
  - split; [lra|]. split; [intros i Hi; lia|left; reflexivity].
  - destruct IH as (H0 & Hub & Hatt). set (m := max_abs_diag n H 0) in *.
    rewrite std_max_Rmax.
    pose proof (Rabs_pos (coef H (Z.of_nat n) (Z.of_nat n))) as Hp.
    pose proof (Rmax_l (Rabs (coef H (Z.of_nat n) (Z.of_nat n))) m) as Hl.
    pose proof (Rmax_r (Rabs (coef H (Z.of_nat n) (Z.of_nat n))) m) as Hr.
    split; [lra|]. split.
    + intros i Hi. destruct (Z.eq_dec i (Z.of_nat n)) as [->|Hne]; [exact Hl|].
      apply Rle_trans with m; [apply Hub; lia|exact Hr].
    + unfold Rmax. destruct (Rle_dec _ m) as [Hle|Hgt].
      * destruct Hatt as [Hz|(i & Hi & Ei)]; [left; exact Hz|].
        right. exists i. split; [lia|exact Ei].
      * right. exists (Z.of_nat n). split; [lia|reflexivity].
Qed.

Lemma ComputeLambdaInitLM_lambda (p : Problem) :
  currentLambda_ (ComputeLambdaInitLM p)
  = 1e-5 * Rmin 5e10 (max_abs_diag (Z.to_nat (cols (Hessian_ p))) (Hessian_ p) 0)
  /\ ni_ (ComputeLambdaInitLM p) = 2.
Proof. unfold ComputeLambdaInitLM. cbn. rewrite std_min_Rmin. split; reflexivity. Qed.

(** [ComputeLambdaInitLM] sets the cost to half the summed robust cost of
    the edges (plus the squared prior residual), [ni_] to 2, and the
    damping to 1e-5 times the largest magnitude on the diagonal of the
    Hessian, capped at 5e10: the damping lies in [0, 5e5], and it is zero
    exactly when the diagonal is zero. *)
Theorem ComputeLambdaInitLM_bounds (p : Problem) :
  let q := ComputeLambdaInitLM p in
  let m := max_abs_diag (Z.to_nat (cols (Hessian_ p))) (Hessian_ p) 0 in
  currentLambda_ q = 1e-5 * Rmin 5e10 m
  /\ 0 <= currentLambda_ q <= 5e5
  /\ (forall i, (0 <= i < cols (Hessian_ p))%Z -> Rabs (coef (Hessian_ p) i i) <= m)
  /\ (m = 0 \/ exists i, (0 <= i < cols (Hessian_ p))%Z /\ m = Rabs (coef (Hessian_ p) i i))
  /\ (currentLambda_ q = 0 <->
      forall i, (0 <= i < cols (Hessian_ p))%Z -> coef (Hessian_ p) i i = 0)
  /\ ni_ q = 2
  /\ currentChi_ q = tempChi_of p
  /\ stopThresholdLM_ q = 1e-10 * currentChi_ q
  /\ Hessian_ q = Hessian_ p /\ b_ q = b_ p.
Proof.
  intros q m.
  destruct (max_abs_diag_spec (Z.to_nat (cols (Hessian_ p))) (Hessian_ p)) as (H0 & Hub & Hatt).
  fold m in H0, Hub, Hatt.
  assert (El : currentLambda_ q = 1e-5 * Rmin 5e10 m)
    by (apply ComputeLambdaInitLM_lambda).
  assert (Hub' : forall i, (0 <= i < cols (Hessian_ p))%Z -> Rabs (coef (Hessian_ p) i i) <= m)
    by (intros i Hi; apply Hub; lia).
  assert (Hatt' : m = 0 \/ exists i, (0 <= i < cols (Hessian_ p))%Z
                                     /\ m = Rabs (coef (Hessian_ p) i i)).
  { destruct Hatt as [Hz|(i & Hi & Ei)]; [left; exact Hz|].
    right. exists i. split; [lia|exact Ei]. }
  split; [exact El|]. split.
  - rewrite El. unfold Rmin. destruct (Rle_dec 5e10 m); lra.
  - split; [exact Hub'|]. split; [exact Hatt'|]. split.
    + rewrite El. split.
      * intros Hz i Hi. specialize (Hub' i Hi).
        assert (Hm : m = 0) by (revert Hz; unfold Rmin; destruct (Rle_dec 5e10 m); lra).
        pose proof (Rabs_pos (coef (Hessian_ p) i i)).
        destruct (Req_dec_T (coef (Hessian_ p) i i) 0) as [E|E]; [exact E|].
        apply Rabs_pos_lt in E. lra.
      * intros Hz. destruct Hatt' as [Hm|(i & Hi & Ei)].
        -- rewrite Hm. unfold Rmin. destruct (Rle_dec 5e10 0); lra.
        -- rewrite Ei, (Hz i Hi), Rabs_R0. unfold Rmin. destruct (Rle_dec 5e10 0); lra.
    + repeat split.
Qed.

(** ** The damping along a run *)

Lemma IsGoodStepInLM_damping (p : Problem) :
  0 <= currentLambda_ p -> 2 <= ni_ p ->
  let q := snd (IsGoodStepInLM p) in
  0 <= currentLambda_ q /\ 2 <= ni_ q
  /\ (currentLambda_ p = 0 -> currentLambda_ q = 0).
Proof.
  intros Hl Hn q. subst q. unfold IsGoodStepInLM.
  destruct (Rltb 0 (LM_rho p) && isfinite (tempChi_of p)); cbn.
  - rewrite std_max_Rmax.
    match goal with |- context [Rmax ?a ?b] => pose proof (Rmax_l a b) as Hm end.
    split; [apply Rmult_le_pos; lra|]. split; [lra|]. intros ->. ring.
  - split; [apply Rmult_le_pos; lra|]. split; [lra|]. intros ->. ring.
Qed.

Section DampingRun.
Variable ldlt_solve : MatXX -> VecX -> VecX.
Variable inverse : MatXX -> MatXX.

Lemma LM_try_damping_nonneg (t : TryLoop) :
0 <= currentLambda_ (tr_problem t) -> 2 <= ni_ (tr_problem t) ->
let t' := LM_try ldlt_solve inverse t in
0 <= currentLambda_ (tr_problem t') /\ 2 <= ni_ (tr_problem t')
/\ (currentLambda_ (tr_problem t) = 0 -> currentLambda_ (tr_problem t') = 0).
Proof.
intros Hl Hn. unfold LM_try.
set (p2 := UpdateStates (SolveLinearSystem ldlt_solve inverse (tr_problem t))).
assert (H2 : currentLambda_ p2 = currentLambda_ (tr_problem t)
             /\ ni_ p2 = ni_ (tr_problem t)).
{ subst p2.
  destruct (UpdateStates_frame (SolveLinearSystem ldlt_solve inverse (tr_problem t)))
    as (_ & _ & _ & _ & _ & -> & -> & _).
  destruct (SolveLinearSystem_frame ldlt_solve inverse (tr_problem t))
    as (_ & _ & _ & _ & _ & -> & -> & _).
  split; reflexivity. }
destruct H2 as [El En]. clearbody p2.
destruct (IsGoodStepInLM_damping p2) as (H3l & H3n & H3z); [rewrite El; exact Hl|rewrite En; exact Hn|].
rewrite El in H3z.
destruct (fst (IsGoodStepInLM p2)); cbn [tr_problem].
- destruct (MakeHessian_frame (snd (IsGoodStepInLM p2)))
    as (_ & _ & _ & _ & _ & -> & ->). split; [assumption|split; assumption].
- destruct (RollbackStates_frame (snd (IsGoodStepInLM p2)))
    as (_ & _ & _ & _ & _ & -> & ->). split; [assumption|split; assumption].
Qed.

Lemma LM_inner_damping_nonneg (fuel : nat) :
forall t, 0 <= currentLambda_ (tr_problem t) -> 2 <= ni_ (tr_problem t) ->
  let t' := LM_inner ldlt_solve inverse fuel t in
  0 <= currentLambda_ (tr_problem t') /\ 2 <= ni_ (tr_problem t')
  /\ (currentLambda_ (tr_problem t) = 0 -> currentLambda_ (tr_problem t') = 0).
Proof.
induction fuel as [|f IH]; intros t Hl Hn; cbn [LM_inner]; [split; [assumption|split; [assumption|tauto]]|].
destruct (negb (tr_success t) && (tr_false_cnt t <? 10)%Z);
  [|split; [assumption|split; [assumption|tauto]]].
destruct (LM_try_damping_nonneg t Hl Hn) as (H1 & H2 & H3).
destruct (IH _ H1 H2) as (H4 & H5 & H6).
split; [exact H4|]. split; [exact H5|]. intros Hz. apply H6, H3, Hz.
Qed.

Lemma LM_outer_damping_nonneg (iterations : Z) (fuel : nat) :
forall l, 0 <= currentLambda_ (lp_problem l) -> 2 <= ni_ (lp_problem l) ->
  let l' := LM_outer ldlt_solve inverse fuel iterations l in
  0 <= currentLambda_ (lp_problem l') /\ 2 <= ni_ (lp_problem l')
  /\ (currentLambda_ (lp_problem l) = 0 -> currentLambda_ (lp_problem l') = 0).
Proof.
induction fuel as [|f IH]; intros l Hl Hn; cbn [LM_outer]; [split; [assumption|split; [assumption|tauto]]|].
destruct (negb (lp_stop l) && (lp_iter l <? iterations)%Z);
  [|split; [assumption|split; [assumption|tauto]]].
destruct (LM_inner_damping_nonneg 10 (mkTry false 0 (lp_problem l)) Hl Hn) as (H1 & H2 & H3).
destruct (IH (LM_outer_body ldlt_solve inverse l)) as (H4 & H5 & H6);
  [exact H1|exact H2|].
split; [exact H4|]. split; [exact H5|]. intros Hz. apply H6. apply H3. exact Hz.
Qed.

(** Throughout a run of [SolveLM] the damping is not negative and [ni_] is
  at least 2.  A damping that starts at zero (a Hessian whose diagonal is
  zero) stays zero through every accepted and every rejected step, since
  it is only ever multiplied. *)
Theorem SolveLM_damping_invariant (iterations : Z) (p : Problem) :
let l0 := SolveLM_init p in
let after := lp_problem (SolveLM_loop ldlt_solve inverse iterations p) in
0 <= currentLambda_ after
/\ 2 <= ni_ after
/\ (currentLambda_ (lp_problem l0) = 0 -> currentLambda_ after = 0).
Proof.
intros l0 after. subst after. unfold SolveLM_loop. fold l0.
assert (H0 : 0 <= currentLambda_ (lp_problem l0) /\ ni_ (lp_problem l0) = 2).
{ subst l0. unfold SolveLM_init. cbn [lp_problem].
  generalize (MakeHessian (SetOrdering p)). intros q.
  destruct (ComputeLambdaInitLM_lambda q) as [-> ->]. split; [|reflexivity].
  destruct (max_abs_diag_spec (Z.to_nat (cols (Hessian_ q))) (Hessian_ q)) as (Hm & _).
  unfold Rmin. destruct (Rle_dec 5e10 _); lra. }
destruct H0 as [Hl Hn].
apply LM_outer_damping_nonneg; [exact Hl|lra].
Qed.

End DampingRun.

(** ** The cost at an accepted and at a rejected step *)

(** [IsGoodStepInLM] replaces the cost by the cost after the step when it
    accepts and leaves it when it rejects.  The gain ratio is the decrease
    of the cost over [scale], so an accepted step has decreased the cost
    when [scale] is positive, and increased it when [scale] is negative. *)
Theorem IsGoodStepInLM_cost (p : Problem) :
  LM_scale p <> 0 ->
  let r := IsGoodStepInLM p in
  (fst r = true -> currentChi_ (snd r) = tempChi_of p)
  /\ (fst r = false -> currentChi_ (snd r) = currentChi_ p)
  /\ (fst r = true -> 0 < LM_scale p -> currentChi_ (snd r) < currentChi_ p)
  /\ (fst r = true -> LM_scale p < 0 -> currentChi_ p < currentChi_ (snd r))
  /\ (0 < LM_scale p -> currentChi_ (snd r) <= currentChi_ p).
Proof.
  intros Hs r.
  assert (Hrho : fst r = true -> 0 < (currentChi_ p - tempChi_of p) / LM_scale p).
  { subst r. unfold IsGoodStepInLM.
    destruct (Rltb 0 (LM_rho p) && isfinite (tempChi_of p)) eqn:E; cbn; [|discriminate].
    intros _. apply andb_prop in E. destruct E as [E _]. apply Rltb_true in E. exact E. }
  assert (Hacc : fst r = true -> currentChi_ (snd r) = tempChi_of p).
  { subst r. unfold IsGoodStepInLM.
    destruct (Rltb 0 (LM_rho p) && isfinite (tempChi_of p)); cbn; [reflexivity|discriminate]. }
  assert (Hrej : fst r = false -> currentChi_ (snd r) = currentChi_ p).
  { subst r. unfold IsGoodStepInLM.
    destruct (Rltb 0 (LM_rho p) && isfinite (tempChi_of p)); cbn; [discriminate|reflexivity]. }
  assert (Hdec : fst r = true -> 0 < LM_scale p -> currentChi_ (snd r) < currentChi_ p).
  { intros Ht Hp. rewrite (Hacc Ht). specialize (Hrho Ht).
    assert (0 < (currentChi_ p - tempChi_of p) / LM_scale p * LM_scale p)
      by (apply Rmult_lt_0_compat; assumption).
    unfold Rdiv in H. rewrite Rmult_assoc, Rinv_l in H by exact Hs. lra. }
  split; [exact Hacc|]. split; [exact Hrej|]. split; [exact Hdec|]. split.
  - intros Ht Hn. rewrite (Hacc Ht). specialize (Hrho Ht).
    assert (0 < (currentChi_ p - tempChi_of p) / LM_scale p * (- LM_scale p))
      by (apply Rmult_lt_0_compat; lra).
    replace ((currentChi_ p - tempChi_of p) / LM_scale p * - LM_scale p)
      with (- ((currentChi_ p - tempChi_of p) * (/ LM_scale p * LM_scale p)))
      in H by (unfold Rdiv; ring).
    rewrite Rinv_l in H by exact Hs. lra.
  - intros Hp. destruct (fst r) eqn:E.
    + apply Rlt_le. apply Hdec; [reflexivity|exact Hp].
    + rewrite (Hrej eq_refl). lra.
Qed.

(** * The trust region of the Dog-Leg driver *)

(** ** The step stays in the trust region *)

Lemma squaredNorm_add_scale (a d : VecX) (beta : R) :
  vsize d = vsize a ->
  squaredNorm (vec_add a (vec_scale beta d))
  = squaredNorm a + 2 * beta * dot a d + beta * beta * squaredNorm d.
Proof.
  intros Hs. unfold squaredNorm, dot, sumZ. cbn. rewrite Hs.
  rewrite (Rmult_comm (2 * beta)), (Rmult_comm (beta * beta)).
  rewrite !sum_upto_mult_r, <- !sum_upto_plus.
  apply sum_upto_ext. intros k _. ring.
Qed.

(** The value computed for beta is a root of
    [D beta^2 + 2 c beta = radius^2 - |a|^2]. *)
Lemma beta_formula_root (c D E : R) :
  0 < D -> 0 < E ->
  let s := sqrt (c * c + D * E) in
  let beta := if Rle_dec c 0 then (- c + s) / D else E / (c + s) in
  D * (beta * beta) + 2 * c * beta = E.
Proof.
  intros HD HE s beta.
  assert (Hrad : 0 <= c * c + D * E) by nra.
  assert (Hs0 : 0 <= s) by apply sqrt_pos.
  assert (Hss : s * s = c * c + D * E) by (apply sqrt_sqrt; assumption).
  subst beta. destruct (Rle_dec c 0) as [Hc|Hc].
  - field_simplify; [|lra]. replace (s ^ 2) with (s * s) by ring. rewrite Hss.
    field. lra.
  - assert (Hcs : 0 < c + s) by lra.
    assert (Hsc : s * s > c * c) by nra.
    assert (E1 : E / (c + s) = (s - c) / D).
    { apply (Rmult_eq_reg_r ((c + s) * D)); [|nra]. field_simplify; [|lra|lra]. nra. }
    rewrite E1. field_simplify; [|lra]. replace (s ^ 2) with (s * s) by ring. rewrite Hss.
    field. lra.
Qed.

Section TrustRegion.
Variable ldlt_solve : MatXX -> VecX -> VecX.
Variable inverse : MatXX -> MatXX.

(** The step chosen by [SolveDogLegStep]. *)
Lemma SolveDogLegStep_choice (p : Problem) :
let q := SolveDogLegStep ldlt_solve inverse p in
let radius := currentRadius_ p in
delta_x_ q = h_dl_ q
/\ (norm (h_gn_ q) <= radius -> h_dl_ q = h_gn_ q)
/\ (~ norm (h_gn_ q) <= radius -> alpha_ q * norm (h_sd_ q) >= radius ->
    h_dl_ q = vec_scale (radius / norm (h_sd_ q)) (h_sd_ q))
/\ (~ norm (h_gn_ q) <= radius -> ~ alpha_ q * norm (h_sd_ q) >= radius ->
    let a := vec_scale (alpha_ q) (h_sd_ q) in
    h_dl_ q = vec_add a (vec_scale (beta_ q) (vec_sub (h_gn_ q) a))
    /\ beta_ q = DogLeg_beta a (h_gn_ q) radius).
Proof.
unfold SolveDogLegStep.
destruct (problemType_ _); cbn;
  destruct (Rle_dec _ _) as [H1|H1]; cbn;
    try (split; [reflexivity|]; split; [reflexivity|];
         split; intros; contradiction);
  destruct (Rge_dec _ _) as [H2|H2]; cbn;
    (split; [reflexivity|]); (split; [intros; contradiction|]);
    split; intros; try contradiction; try reflexivity; split; reflexivity.
Qed.

(** The step of [SolveDogLegStep] does not leave the trust region: it is
  the Gauss-Newton step when that lies inside, and otherwise a step of
  length [currentRadius_] (along the steepest-descent direction, or on
  the dog-leg path when [alpha_] is not negative). *)
Theorem SolveDogLegStep_within_radius (p : Problem) :
let q := SolveDogLegStep ldlt_solve inverse p in
0 < currentRadius_ p ->
vsize (h_sd_ q) = vsize (h_gn_ q) ->
(norm (h_gn_ q) > currentRadius_ p -> alpha_ q * norm (h_sd_ q) < currentRadius_ p ->
 0 <= alpha_ q) ->
norm (delta_x_ q) <= currentRadius_ p
/\ (norm (h_gn_ q) <= currentRadius_ p -> delta_x_ q = h_gn_ q)
/\ (norm (h_gn_ q) > currentRadius_ p -> norm (delta_x_ q) = currentRadius_ p).
Proof.
intros q Hr Hsz Halpha.
destruct (SolveDogLegStep_choice p) as (Ed & C1 & C2 & C3). fold q in Ed, C1, C2, C3.
cbv zeta in C2, C3.
set (radius := currentRadius_ p) in *.
assert (Hout : norm (h_gn_ q) > radius -> norm (delta_x_ q) = radius).
{ intros Hgn. assert (N1 : ~ norm (h_gn_ q) <= radius) by lra.
  rewrite Ed.
  destruct (Rge_dec (alpha_ q * norm (h_sd_ q)) radius) as [H2|H2].
  - rewrite (C2 N1 H2).
    assert (Hn0 : 0 <= norm (h_sd_ q)) by apply sqrt_pos.
    assert (Hn : 0 < norm (h_sd_ q)).
    { destruct (Req_dec_T (norm (h_sd_ q)) 0) as [E|E]; [|lra].
      rewrite E, Rmult_0_r in H2. lra. }
    unfold norm at 1. rewrite squaredNorm_scale.
    assert (Hsq : norm (h_sd_ q) * norm (h_sd_ q) = squaredNorm (h_sd_ q))
      by (apply sqrt_sqrt, squaredNorm_nonneg).
    rewrite <- Hsq.
    replace (radius / norm (h_sd_ q) * (radius / norm (h_sd_ q))
             * (norm (h_sd_ q) * norm (h_sd_ q)))
      with (radius * radius) by (field; lra).
    apply sqrt_square. lra.
  - destruct (C3 N1 H2) as [Eh Eb]. rewrite Eh.
    assert (Hsd : alpha_ q * norm (h_sd_ q) < radius) by lra.
    specialize (Halpha Hgn Hsd).
    set (a := vec_scale (alpha_ q) (h_sd_ q)) in *. set (b := h_gn_ q) in *.
    assert (Hn : 0 <= norm (h_sd_ q)) by apply sqrt_pos.
    assert (HP : squaredNorm b > radius * radius) by (apply sqrt_gt_sq; [lra|exact Hgn]).
    assert (HA : squaredNorm a < radius * radius).
    { subst a. rewrite squaredNorm_scale.
      assert (Hsq : norm (h_sd_ q) * norm (h_sd_ q) = squaredNorm (h_sd_ q))
        by (apply sqrt_sqrt, squaredNorm_nonneg).
      rewrite <- Hsq.
      assert (Ht : 0 <= alpha_ q * norm (h_sd_ q)) by (apply Rmult_le_pos; assumption).
      replace (alpha_ q * alpha_ q * (norm (h_sd_ q) * norm (h_sd_ q)))
        with ((alpha_ q * norm (h_sd_ q)) * (alpha_ q * norm (h_sd_ q))) by ring.
      apply Rmult_le_0_lt_compat; assumption. }
    assert (Hsz' : vsize a = vsize b) by exact Hsz.
    assert (Hexp := squaredNorm_expand a b Hsz').
    assert (HD0 : 0 <= squaredNorm (vec_sub b a)) by apply squaredNorm_nonneg.
    assert (HD : 0 < squaredNorm (vec_sub b a)).
    { destruct (Req_dec_T (squaredNorm (vec_sub b a)) 0) as [Hz|]; [exfalso|lra].
      assert (dot a (vec_sub b a) = 0) by (apply dot_null; [exact Hsz'|exact Hz]). lra. }
    pose proof (beta_formula_root (dot a (vec_sub b a)) (squaredNorm (vec_sub b a))
                  (radius * radius - squaredNorm a) HD ltac:(lra)) as Hroot.
    cbv zeta in Hroot.
    assert (Ebeta : beta_ q
                    = if Rle_dec (dot a (vec_sub b a)) 0
                      then (- dot a (vec_sub b a)
                            + sqrt (dot a (vec_sub b a) * dot a (vec_sub b a)
                                    + squaredNorm (vec_sub b a)
                                      * (radius * radius - squaredNorm a)))
                           / squaredNorm (vec_sub b a)
                      else (radius * radius - squaredNorm a)
                           / (dot a (vec_sub b a)
                              + sqrt (dot a (vec_sub b a) * dot a (vec_sub b a)
                                      + squaredNorm (vec_sub b a)
                                        * (radius * radius - squaredNorm a)))).
    { rewrite Eb. unfold DogLeg_beta. destruct (Rle_dec _ 0); reflexivity. }
    rewrite <- Ebeta in Hroot.
    unfold norm. rewrite squaredNorm_add_scale by (symmetry; exact Hsz').
    replace (squaredNorm a + 2 * beta_ q * dot a (vec_sub b a)
             + beta_ q * beta_ q * squaredNorm (vec_sub b a))
      with (radius * radius) by lra.
    apply sqrt_square. lra. }
split; [|split; [|exact Hout]].
- destruct (Rle_dec (norm (h_gn_ q)) radius) as [H1|H1].
  + rewrite Ed, (C1 H1). exact H1.
  + rewrite Hout by lra. lra.
- intros H1. rewrite Ed. apply C1. exact H1.
Qed.

End TrustRegion.

(** ** The radius *)

(** [IsGoodStepInDogLeg] accepts the step iff the gain ratio is positive
    and the cost after the step is finite, and then takes that cost.  With
    a ratio above 0.75 (and a finite cost) the radius becomes the larger of
    itself and three times the length of the step, with a ratio below 0.25
    the larger of its half and 1e-7, and otherwise it is kept; a rejected
    step never enlarges a radius that is above the floor 1e-7. *)
Theorem IsGoodStepInDogLeg_rule (p : Problem) :
  DogLeg_scale p <> 0 ->
  let chi_after := tempChi_of p in
  let rho := (currentChi_ p - chi_after) / DogLeg_scale p in
  let r := IsGoodStepInDogLeg p in
  (fst r = true <-> rho > 0 /\ Rabs chi_after <= DBL_MAX)
  /\ (fst r = true -> currentChi_ (snd r) = chi_after)
  /\ (fst r = false -> currentChi_ (snd r) = currentChi_ p)
  /\ (rho > 0.75 -> Rabs chi_after <= DBL_MAX ->
      currentRadius_ (snd r) = Rmax (currentRadius_ p) (3 * norm (delta_x_ p)))
  /\ (rho < 0.25 -> currentRadius_ (snd r) = Rmax (currentRadius_ p * 0.5) 1e-7)
  /\ (0.25 <= rho <= 0.75 -> currentRadius_ (snd r) = currentRadius_ p)
  /\ (fst r = false -> currentRadius_ (snd r) <= Rmax (currentRadius_ p) 1e-7).
Proof.
  intros _ chi_after rho r.
  set (p1 := if Rltb 0.75 rho && isfinite chi_after
             then set_currentRadius_ (std_max (currentRadius_ p) (3 * norm (delta_x_ p))) p
             else if Rltb rho 0.25
                  then set_currentRadius_ (std_max (currentRadius_ p * 0.5) 1e-7) p
                  else p).
  assert (Er : r = if Rltb 0 rho && isfinite chi_after
                   then (true, set_currentChi_ chi_after p1) else (false, p1)) by reflexivity.
  assert (Echi : currentChi_ p1 = currentChi_ p).
  { subst p1. destruct (Rltb 0.75 rho && isfinite chi_after); [reflexivity|].
    destruct (Rltb rho 0.25); reflexivity. }
  assert (Erad : currentRadius_ (snd r) = currentRadius_ p1)
    by (rewrite Er; destruct (Rltb 0 rho && isfinite chi_after); reflexivity).
  assert (Hacc : fst r = true <-> rho > 0 /\ Rabs chi_after <= DBL_MAX).
  { rewrite Er. destruct (Rltb 0 rho && isfinite chi_after) eqn:E; cbn [fst].
    - apply andb_prop in E. destruct E as [E1 E2].
      apply Rltb_true in E1. apply isfinite_true in E2. tauto.
    - split; [discriminate|]. intros [H1 H2].
      apply Rltb_true in H1. apply isfinite_true in H2. rewrite H1, H2 in E. discriminate. }
  assert (R1 : rho > 0.75 -> Rabs chi_after <= DBL_MAX ->
               currentRadius_ p1 = Rmax (currentRadius_ p) (3 * norm (delta_x_ p))).
  { intros H1 H2. subst p1. apply Rltb_true in H1. apply isfinite_true in H2.
    rewrite H1, H2. cbn. apply std_max_Rmax. }
  assert (N75 : forall x, ~ 0.75 < x -> Rltb 0.75 x = false)
    by (intros x Hx; unfold Rltb; destruct (Rlt_dec 0.75 x); [contradiction|reflexivity]).
  assert (R2 : rho < 0.25 -> currentRadius_ p1 = Rmax (currentRadius_ p * 0.5) 1e-7).
  { intros H. subst p1. rewrite (N75 rho) by lra. cbn [andb].
    apply Rltb_true in H. rewrite H. cbn. apply std_max_Rmax. }
  assert (R3 : 0.25 <= rho <= 0.75 -> currentRadius_ p1 = currentRadius_ p).
  { intros H. subst p1. rewrite (N75 rho) by lra. cbn [andb].
    unfold Rltb. destruct (Rlt_dec rho 0.25); [lra|reflexivity]. }
  split; [exact Hacc|]. split.
  { rewrite Er. destruct (Rltb 0 rho && isfinite chi_after); cbn; [reflexivity|discriminate]. }
  split.
  { rewrite Er. destruct (Rltb 0 rho && isfinite chi_after); cbn; [discriminate|exact (fun _ => Echi)]. }
  split; [intros H1 H2; rewrite Erad; apply R1; assumption|].
  split; [intros H; rewrite Erad; apply R2; exact H|].
  split; [intros H; rewrite Erad; apply R3; exact H|].
  intros Hrej. rewrite Erad.
  assert (Hn : ~ (rho > 0 /\ Rabs chi_after <= DBL_MAX))
    by (intros H; apply Hacc in H; congruence).
  destruct (Rlt_dec rho 0.25) as [H25|H25].
  - rewrite (R2 H25). unfold Rmax.
    destruct (Rle_dec (currentRadius_ p * 0.5) 1e-7); destruct (Rle_dec (currentRadius_ p) 1e-7);
      lra.
  - destruct (Rle_dec rho 0.75) as [H75|H75].
    + rewrite R3 by lra. apply Rmax_l.
    + assert (Hinf : ~ Rabs chi_after <= DBL_MAX) by (intros H; apply Hn; split; [lra|exact H]).
      assert (E : currentRadius_ p1 = currentRadius_ p).
      { subst p1. unfold isfinite. destruct (Rle_dec (Rabs chi_after) DBL_MAX); [contradiction|].
        rewrite andb_false_r. unfold Rltb. destruct (Rlt_dec rho 0.25); [lra|reflexivity]. }
      rewrite E. apply Rmax_l.
Qed.

Lemma IsGoodStepInDogLeg_radius (p : Problem) :
  1e-7 <= currentRadius_ p -> 1e-7 <= currentRadius_ (snd (IsGoodStepInDogLeg p)).
Proof.
  intros H. unfold IsGoodStepInDogLeg.
  destruct (Rltb 0.75 _ && isfinite _); [|destruct (Rltb _ 0.25)];
    destruct (Rltb 0 _ && isfinite _); cbn; rewrite ?std_max_Rmax; try exact H.
  - apply Rle_trans with (currentRadius_ p); [exact H|apply Rmax_l].
  - apply Rle_trans with (currentRadius_ p); [exact H|apply Rmax_l].
  - apply Rmax_r.
  - apply Rmax_r.
Qed.

Lemma radius_frames (p : Problem) :
  currentRadius_ (UpdateStates p) = currentRadius_ p
  /\ currentRadius_ (RollbackStates p) = currentRadius_ p
  /\ currentRadius_ (MakeHessian p) = currentRadius_ p.
Proof.
  unfold UpdateStates, RollbackStates, MakeHessian, MakeHessianSingle. cbn.
  destruct (0 <? vsize (err_prior_ p))%Z; destruct (0 <? rows (H_prior_ p))%Z; cbn;
    repeat split; reflexivity.
Qed.

Section Radius.
Variable ldlt_solve : MatXX -> VecX -> VecX.
Variable inverse : MatXX -> MatXX.

Lemma DogLeg_try_radius (t : TryLoop) :
1e-7 <= currentRadius_ (tr_problem t) ->
1e-7 <= currentRadius_ (tr_problem (DogLeg_try ldlt_solve inverse t)).
Proof.
intros H. unfold DogLeg_try.
set (p1 := SolveDogLegStep ldlt_solve inverse (tr_problem t)).
assert (H1 : 1e-7 <= currentRadius_ (UpdateStates p1)).
{ destruct (radius_frames p1) as (-> & _). subst p1.
  destruct (SolveDogLegStep_frame ldlt_solve inverse (tr_problem t)) as (-> & _). exact H. }
apply IsGoodStepInDogLeg_radius in H1.
destruct (fst (IsGoodStepInDogLeg (UpdateStates p1))); cbn [tr_problem].
- destruct (radius_frames (snd (IsGoodStepInDogLeg (UpdateStates p1)))) as (_ & _ & ->).
  exact H1.
- destruct (radius_frames (snd (IsGoodStepInDogLeg (UpdateStates p1)))) as (_ & -> & _).
  exact H1.
Qed.

Lemma DogLeg_inner_radius (fuel : nat) :
forall t, 1e-7 <= currentRadius_ (tr_problem t) ->
          1e-7 <= currentRadius_ (tr_problem (DogLeg_inner ldlt_solve inverse fuel t)).
Proof.
induction fuel as [|f IH]; intros t H; cbn [DogLeg_inner]; [exact H|].
destruct (negb (tr_success t) && (tr_false_cnt t <? 10)%Z); [|exact H].
apply IH, DogLeg_try_radius, H.
Qed.

Lemma DogLeg_outer_radius (itertaions : Z) (fuel : nat) :
forall l, 1e-7 <= currentRadius_ (lp_problem l) ->
          1e-7 <= currentRadius_
                    (lp_problem (DogLeg_outer ldlt_solve inverse fuel itertaions l)).
Proof.
induction fuel as [|f IH]; intros l H; cbn [DogLeg_outer]; [exact H|].
destruct ((lp_iter l <? itertaions)%Z && negb (lp_stop l)); [|exact H].
apply IH. unfold DogLeg_outer_body. cbn [lp_problem].
apply DogLeg_inner_radius. exact H.
Qed.

(** A run of [SolveDogLeg] starts with the radius 1e4 and never lets it
  fall below 1e-7: every try keeps it, enlarges it, or halves it with
  that floor. *)
Theorem SolveDogLeg_radius_floor (itertaions : Z) (p : Problem) :
currentRadius_ (lp_problem (SolveDogLeg_init p)) = 1e4
/\ 1e-7 <= currentRadius_ (lp_problem (SolveDogLeg_loop ldlt_solve inverse itertaions p)).
Proof.
split; [reflexivity|]. unfold SolveDogLeg_loop. apply DogLeg_outer_radius.
unfold SolveDogLeg_init. cbn [lp_problem]. generalize (MakeHessian (SetOrdering p)).
intros q. unfold ComputeRadiusInitDogLeg. cbn. lra.
Qed.

End Radius.

(** * The preconditioned conjugate gradient solver *)

Lemma sum_upto_single (n : nat) (k : Z) (g : Z -> R) :
  (0 <= k < Z.of_nat n)%Z ->
  (forall l, (0 <= l < Z.of_nat n)%Z -> l <> k -> g l = 0) ->
  sum_upto n g = g k.
Proof.
  induction n as [|n IH]; intros Hk Hz; [lia|]. cbn [sum_upto].
  destruct (Z.eq_dec k (Z.of_nat n)) as [->|Hne].
  - rewrite (sum_upto_ext n g (fun _ => 0)) by (intros l Hl; apply Hz; lia).
    rewrite sum_upto_zero. lra.
  - rewrite IH by first [lia|intros l Hl Hlk; apply Hz; lia].
    rewrite (Hz (Z.of_nat n)) by lia. lra.
Qed.

Lemma mat_vec_add_scale (A : MatXX) (u v : VecX) (a : R) (i : Z) :
  vcoef (mat_vec A (vec_add u (vec_scale a v))) i
  = vcoef (mat_vec A u) i + a * vcoef (mat_vec A v) i.
Proof.
  cbn. unfold sumZ. rewrite (Rmult_comm a), sum_upto_mult_r, <- sum_upto_plus.
  apply sum_upto_ext. intros k _. ring.
Qed.

Lemma mat_vec_zero (A : MatXX) (n i : Z) : vcoef (mat_vec A (vec_zero n)) i = 0.
Proof.
  cbn. unfold sumZ.
  transitivity (sum_upto (Z.to_nat (cols A)) (fun _ => 0)); [|apply sum_upto_zero].
  apply sum_upto_ext. intros k _. ring.
Qed.

Lemma PCG_init_invariant (A : MatXX) (b : VecX) : PCG_invariant A b (PCG_init A b).
Proof.
  intros i. unfold PCG_init at 1 2. cbn [pcg_x pcg_r1].
  rewrite mat_vec_zero. cbn [vcoef vec_sub vec_scale].
  unfold PCG_init. cbn [pcg_alpha pcg_p]. lra.
Qed.

Lemma PCG_step_invariant (A M_inv : MatXX) (b : VecX) (s : PCGState) :
  PCG_invariant A b s -> PCG_invariant A b (PCG_step A M_inv s).
Proof.
  intros H i. unfold PCG_step. cbn [pcg_x pcg_r1].
  rewrite mat_vec_add_scale. cbn [vcoef vec_sub vec_scale].
  rewrite <- (H i). lra.
Qed.

Lemma PCG_loop_invariant (fuel : nat) (A M_inv : MatXX) (b : VecX) (threshold : R) (n : Z) :
  forall s, PCG_invariant A b s -> (0 <= pcg_i s)%Z ->
            (n - pcg_i s <= Z.of_nat fuel)%Z ->
    let s' := PCG_loop fuel A M_inv threshold n s in
    PCG_invariant A b s' /\ PCG_test threshold n s' = false
    /\ (pcg_i s <= pcg_i s')%Z /\ (pcg_i s' <= Z.max n (pcg_i s))%Z
    /\ (PCG_test threshold n s = false -> s' = s).
Proof.
  induction fuel as [|f IH]; intros s Hinv Hi Hf; cbn [PCG_loop].
  - split; [exact Hinv|]. split; [|split; [lia|split; [lia|reflexivity]]].
    unfold PCG_test. destruct (Z.ltb_spec (pcg_i s) n); [lia|]. apply andb_false_r.
  - destruct (PCG_test threshold n s) eqn:Et.
    + assert (Hlt : (pcg_i s < n)%Z).
      { unfold PCG_test in Et. apply andb_prop in Et. destruct Et as [_ Et].
        apply Z.ltb_lt in Et. exact Et. }
      destruct (IH (PCG_step A M_inv s)) as (H1 & H2 & H3 & H4 & _).
      * apply PCG_step_invariant. exact Hinv.
      * cbn [PCG_step pcg_i]. lia.
      * cbn [PCG_step pcg_i]. lia.
      * cbn [PCG_step pcg_i] in H3, H4.
        split; [exact H1|]. split; [exact H2|]. split; [lia|]. split; [lia|discriminate].
    + split; [exact Hinv|]. split; [exact Et|]. split; [lia|]. split; [lia|reflexivity].
Qed.

(** [PCGSolver] returns after at most [n] rounds of its loop, with the loop
    test false ([n] is [maxIter], or the size of [b] when [maxIter] is
    negative).  The vector [x] it returns starts at zero and only receives
    the steps made in the loop, while the residual [r1] already contains
    the first step [alpha0 p0] computed before the loop: throughout,
    [A x + r1 = b - alpha0 A p0], so the recurrence residual is not the
    residual [b - A x] of the returned vector. *)
Theorem PCGSolver_residual (A : MatXX) (b : VecX) (maxIter : Z) :
  let n := if (maxIter <? 0)%Z then vsize b else maxIter in
  let s0 := PCG_init A b in
  let s := PCG_run A b maxIter in
  PCGSolver A b maxIter = pcg_x s
  /\ PCG_test (1e-6 * norm b) n s = false
  /\ (0 <= pcg_i s <= Z.max n 0)%Z
  /\ pcg_p s0 = mat_vec (PCG_M_inv A) b
  /\ (forall i, vcoef (mat_vec A (pcg_x s)) i + vcoef (pcg_r1 s) i
                = vcoef b i - pcg_alpha s0 * vcoef (mat_vec A (pcg_p s0)) i)
  /\ (PCG_test (1e-6 * norm b) n s0 = false -> PCGSolver A b maxIter = vec_zero (vsize b)).
Proof.
  intros n s0 s.
  destruct (PCG_loop_invariant (Z.to_nat n) A (PCG_M_inv A) b (1e-6 * norm b) n s0)
    as (H1 & H2 & H3 & H4 & H5).
  - apply PCG_init_invariant.
  - cbn. lia.
  - cbn [s0 PCG_init pcg_i]. lia.
  - change (PCG_loop (Z.to_nat n) A (PCG_M_inv A) (1e-6 * norm b) n s0) with s in *.
    cbn [s0 PCG_init pcg_i] in H3, H4.
    split; [reflexivity|]. split; [exact H2|]. split; [lia|]. split; [reflexivity|].
    split; [exact H1|].
    intros Ht. unfold PCGSolver. fold s. rewrite (H5 Ht). reflexivity.
Qed.

(** On a diagonal system the first step is the whole solution
    ([alpha0 = 1], [p0 = D^-1 b], so the residual vanishes and the loop is
    not entered), and since that step is never added to [x], [PCGSolver]
    returns the zero vector although [D^-1 b] solves the system. *)
Theorem PCGSolver_diagonal_returns_zero (A : MatXX) (b : VecX) (maxIter : Z) :
  rows A = vsize b -> cols A = vsize b ->
  (forall i, (0 <= i < vsize b)%Z -> coef A i i <> 0) ->
  (forall i j, (0 <= i < vsize b)%Z -> (0 <= j < vsize b)%Z -> i <> j -> coef A i j = 0) ->
  dot b (mat_vec (PCG_M_inv A) b) <> 0 ->
  PCGSolver A b maxIter = vec_zero (vsize b)
  /\ (forall i, (0 <= i < vsize b)%Z ->
        vcoef (mat_vec (PCG_M_inv A) b) i = vcoef b i / coef A i i
        /\ vcoef (mat_vec A (mat_vec (PCG_M_inv A) b)) i = vcoef b i).
Proof.
  intros Hr Hc Hd Hoff Hdot.
  set (z := mat_vec (PCG_M_inv A) b) in *.
  assert (Hz : forall i, (0 <= i < vsize b)%Z -> vcoef z i = vcoef b i / coef A i i).
  { intros i Hi. subst z. unfold PCG_M_inv. cbn. unfold sumZ.
    rewrite Hr, Hc, Z.min_id.
    rewrite (sum_upto_single _ i)
      by first [lia|intros l Hl Hli; destruct (Z.eqb_spec i l) as [E|E]; [lia|ring]].
    rewrite Z.eqb_refl. unfold Rdiv. ring. }
  assert (Hw : forall i, (0 <= i < vsize b)%Z -> vcoef (mat_vec A z) i = vcoef b i).
  { intros i Hi. cbn [mat_vec vcoef]. unfold sumZ. rewrite Hc.
    rewrite (sum_upto_single _ i)
      by first [lia|intros l Hl Hli; rewrite (Hoff i l) by lia; ring].
    rewrite (Hz i Hi). field. apply Hd. exact Hi. }
  split; [|intros i Hi; split; [apply Hz|apply Hw]; exact Hi].
  unfold PCGSolver, PCG_run.
  set (n := if (maxIter <? 0)%Z then vsize b else maxIter).
  assert (Ez : vsize z = vsize b).
  { subst z. unfold PCG_M_inv. cbn. rewrite Hr, Hc. apply Z.min_id. }
  assert (Ealpha : pcg_alpha (PCG_init A b) = 1).
  { unfold PCG_init. cbn [pcg_alpha]. fold z.
    assert (E : dot z (mat_vec A z) = dot b z).
    { unfold dot, sumZ. rewrite Ez. apply sum_upto_ext. intros k Hk.
      rewrite Hw by lia. ring. }
    rewrite E. field. exact Hdot. }
  assert (Hr1 : norm (pcg_r1 (PCG_init A b)) = 0).
  { assert (E : pcg_r1 (PCG_init A b)
                = vec_sub b (vec_scale (pcg_alpha (PCG_init A b)) (mat_vec A z)))
      by reflexivity.
    rewrite E, Ealpha. unfold norm, squaredNorm, dot, sumZ. cbn [vsize vec_sub].
    rewrite (sum_upto_ext _ _ (fun _ => 0)).
    - rewrite sum_upto_zero. apply sqrt_0.
    - intros k Hk. cbn [vcoef vec_sub vec_scale]. rewrite Hw by lia. ring. }
  assert (Ht : PCG_test (1e-6 * norm (pcg_r0 (PCG_init A b))) n (PCG_init A b) = false).
  { unfold PCG_test. rewrite Hr1.
    assert (0 <= norm (pcg_r0 (PCG_init A b))) by apply sqrt_pos.
    destruct (Rgt_dec 0 _); [lra|reflexivity]. }
  destruct (Z.to_nat n); cbn [PCG_loop]; [reflexivity|]. rewrite Ht. reflexivity.
Qed.

(** * The marginaliser: moving a block to the end *)

Lemma move_index_cases (reserve_size idx dim i : Z) :
  (0 <= idx)%Z -> (0 <= dim)%Z -> (idx + dim <= reserve_size)%Z ->
  (0 <= i < reserve_size)%Z ->
  ((i < idx)%Z /\ move_index reserve_size idx dim i = i)
  \/ ((idx <= i < reserve_size - dim)%Z
      /\ move_index reserve_size idx dim i = (i + dim)%Z)
  \/ ((reserve_size - dim <= i)%Z
      /\ move_index reserve_size idx dim i = (idx + (i - (reserve_size - dim)))%Z).
Proof.
  intros H1 H2 H3 Hi. unfold move_index.
  destruct (Z.ltb_spec i idx); [left; split; [lia|reflexivity]|].
  destruct (Z.ltb_spec i (reserve_size - dim));
    [right; left; split; [lia|reflexivity]|right; right; split; [lia|reflexivity]].
Qed.

Lemma move_index_range (reserve_size idx dim i : Z) :
  (0 <= idx)%Z -> (0 <= dim)%Z -> (idx + dim <= reserve_size)%Z ->
  (0 <= i < reserve_size)%Z -> (0 <= move_index reserve_size idx dim i < reserve_size)%Z.
Proof.
  intros H1 H2 H3 Hi.
  destruct (move_index_cases reserve_size idx dim i H1 H2 H3 Hi)
    as [[Ci ->]|[[Ci ->]|[Ci ->]]]; lia.
Qed.

Lemma Marginalize_move_coef (reserve_size idx dim : Z) (Hb : MatXX * VecX) :
  (0 <= idx)%Z -> (0 <= dim)%Z -> (idx + dim <= reserve_size)%Z ->
  let r := Marginalize_move reserve_size idx dim Hb in
  let pi := move_index reserve_size idx dim in
  (forall i j, (0 <= i < reserve_size)%Z -> (0 <= j < reserve_size)%Z ->
     coef (fst r) i j = coef (fst Hb) (pi i) (pi j))
  /\ (forall i, (0 <= i < reserve_size)%Z -> vcoef (snd r) i = vcoef (snd Hb) (pi i)).
Proof.
  intros H1 H2 H3 r pi. split.
  - intros i j Hi Hj. subst r pi. unfold Marginalize_move. cbn.
    destruct (move_index_cases reserve_size idx dim i H1 H2 H3 Hi)
      as [[Ci ->]|[[Ci ->]|[Ci ->]]];
      destruct (move_index_cases reserve_size idx dim j H1 H2 H3 Hj)
        as [[Cj ->]|[[Cj ->]|[Cj ->]]];
      decide_ranges; f_equal; lia.
  - intros i Hi. subst r pi. unfold Marginalize_move. cbn.
    destruct (move_index_cases reserve_size idx dim i H1 H2 H3 Hi)
      as [[Ci ->]|[[Ci ->]|[Ci ->]]];
      decide_ranges; f_equal; lia.
Qed.

(** One round of the loop that moves the block of a marginalised vertex:
    the rows and columns [idx .. idx + dim) go to the end and those after
    them move up, the same way in [H_marg] and in [b_marg].  It is a
    renumbering of the indices below [reserve_size], one to one, so no
    coefficient is lost or repeated and a symmetric system stays
    symmetric. *)
Theorem Marginalize_move_permutes (reserve_size idx dim : Z) (Hb : MatXX * VecX) :
  (0 <= idx)%Z -> (0 <= dim)%Z -> (idx + dim <= reserve_size)%Z ->
  let r := Marginalize_move reserve_size idx dim Hb in
  let pi := move_index reserve_size idx dim in
  rows (fst r) = rows (fst Hb) /\ cols (fst r) = cols (fst Hb)
  /\ vsize (snd r) = vsize (snd Hb)
  /\ (forall i j, (0 <= i < reserve_size)%Z -> (0 <= j < reserve_size)%Z ->
        coef (fst r) i j = coef (fst Hb) (pi i) (pi j))
  /\ (forall i, (0 <= i < reserve_size)%Z -> vcoef (snd r) i = vcoef (snd Hb) (pi i))
  /\ (forall i, (0 <= i < reserve_size)%Z -> (0 <= pi i < reserve_size)%Z)
  /\ (forall i j, (0 <= i < reserve_size)%Z -> (0 <= j < reserve_size)%Z ->
        pi i = pi j -> i = j)
  /\ (forall k, (0 <= k < reserve_size)%Z ->
        exists i, (0 <= i < reserve_size)%Z /\ pi i = k)
  /\ ((forall i j, (0 <= i < reserve_size)%Z -> (0 <= j < reserve_size)%Z ->
         coef (fst Hb) i j = coef (fst Hb) j i) ->
      forall i j, (0 <= i < reserve_size)%Z -> (0 <= j < reserve_size)%Z ->
        coef (fst r) i j = coef (fst r) j i).
Proof.
  intros H1 H2 H3 r pi.
  destruct (Marginalize_move_coef reserve_size idx dim Hb H1 H2 H3) as [HH Hv].
  fold r pi in HH, Hv.
  assert (Hrange : forall i, (0 <= i < reserve_size)%Z -> (0 <= pi i < reserve_size)%Z)
    by (intros i Hi; apply move_index_range; assumption).
  split; [reflexivity|]. split; [reflexivity|]. split; [reflexivity|].
  split; [exact HH|]. split; [exact Hv|]. split; [exact Hrange|]. split; [|split].
  - intros i j Hi Hj. subst pi. cbv beta.
    destruct (move_index_cases reserve_size idx dim i H1 H2 H3 Hi)
      as [[Ci ->]|[[Ci ->]|[Ci ->]]];
      destruct (move_index_cases reserve_size idx dim j H1 H2 H3 Hj)
        as [[Cj ->]|[[Cj ->]|[Cj ->]]]; lia.
  - intros k Hk. subst pi. cbv beta.
    destruct (Z.ltb_spec k idx) as [Hlt|Hge].
    + exists k. split; [lia|].
      destruct (move_index_cases reserve_size idx dim k H1 H2 H3 Hk)
        as [[C ->]|[[C ->]|[C ->]]]; lia.
    + destruct (Z.ltb_spec k (idx + dim)) as [Hin|Hout].
      * assert (Hi : (0 <= reserve_size - dim + (k - idx) < reserve_size)%Z) by lia.
        exists (reserve_size - dim + (k - idx))%Z. split; [exact Hi|].
        destruct (move_index_cases reserve_size idx dim _ H1 H2 H3 Hi)
          as [[C ->]|[[C ->]|[C ->]]]; lia.
      * assert (Hi : (0 <= k - dim < reserve_size)%Z) by lia.
        exists (k - dim)%Z. split; [exact Hi|].
        destruct (move_index_cases reserve_size idx dim _ H1 H2 H3 Hi)
          as [[C ->]|[[C ->]|[C ->]]]; lia.
  - intros Hs i j Hi Hj. rewrite (HH i j Hi Hj), (HH j i Hj Hi).
    apply Hs; apply Hrange; assumption.
Qed.

Lemma Marginalize_move_fold (st : VertexStore) (reserve_size : Z) (l : list N) :
  (forall v, In v l ->
     (0 <= v_ordering_id (st v))%Z /\ (0 <= v_local_dimension (st v))%Z
     /\ (v_ordering_id (st v) + v_local_dimension (st v) <= reserve_size)%Z) ->
  forall Hb d,
    let r := fold_left
               (fun acc v =>
                  (Marginalize_move reserve_size (v_ordering_id (st v))
                                    (v_local_dimension (st v)) (fst acc),
                   (snd acc + v_local_dimension (st v))%Z))
               l (Hb, d) in
    let pi := move_all_index st reserve_size l in
    snd r = (d + fold_right (fun v a => (v_local_dimension (st v) + a)%Z) 0%Z l)%Z
    /\ (forall i, (0 <= i < reserve_size)%Z -> (0 <= pi i < reserve_size)%Z)
    /\ (forall i j, (0 <= i < reserve_size)%Z -> (0 <= j < reserve_size)%Z ->
          coef (fst (fst r)) i j = coef (fst Hb) (pi i) (pi j))
    /\ (forall i, (0 <= i < reserve_size)%Z ->
          vcoef (snd (fst r)) i = vcoef (snd Hb) (pi i)).
Proof.
  induction l as [|v l IH]; intros Hl Hb d; cbn [fold_left fold_right move_all_index].
  - cbn [fst snd]. split; [lia|]. split; [tauto|]. split; reflexivity.
  - destruct (Hl v (or_introl eq_refl)) as (V1 & V2 & V3).
    assert (Hl' : forall u, In u l ->
              (0 <= v_ordering_id (st u))%Z /\ (0 <= v_local_dimension (st u))%Z
              /\ (v_ordering_id (st u) + v_local_dimension (st u) <= reserve_size)%Z)
      by (intros u Hu; apply Hl; right; exact Hu).
    destruct (IH Hl' (Marginalize_move reserve_size (v_ordering_id (st v))
                                       (v_local_dimension (st v)) Hb)
                 (d + v_local_dimension (st v))%Z) as (E1 & E2 & E3 & E4).
    cbn [fst snd].
    destruct (Marginalize_move_coef reserve_size (v_ordering_id (st v))
                (v_local_dimension (st v)) Hb V1 V2 V3) as [M1 M2].
    split; [rewrite E1; lia|]. split; [|split].
    + intros i Hi. apply move_index_range; try assumption. apply E2. exact Hi.
    + intros i j Hi Hj. rewrite (E3 i j Hi Hj). apply M1; apply E2; assumption.
    + intros i Hi. rewrite (E4 i Hi). apply M2. apply E2. exact Hi.
Qed.

(** The loop over the marginalised vertices, from the last to the first:
    [marg_dim] is the sum of their dimensions, and the system is renumbered
    by the moves one after the other, each with the ordering id its vertex
    holds, so that every coefficient is kept and a symmetric system stays
    symmetric. *)
Theorem Marginalize_move_all_permutes (st : VertexStore) (reserve_size : Z)
        (margVertexs : list N) (Hb : MatXX * VecX) :
  (forall v, In v margVertexs ->
     (0 <= v_ordering_id (st v))%Z /\ (0 <= v_local_dimension (st v))%Z
     /\ (v_ordering_id (st v) + v_local_dimension (st v) <= reserve_size)%Z) ->
  let r := Marginalize_move_all st reserve_size margVertexs Hb in
  let pi := move_all_index st reserve_size (rev margVertexs) in
  snd r = fold_right (fun v a => (v_local_dimension (st v) + a)%Z) 0%Z (rev margVertexs)
  /\ (forall i, (0 <= i < reserve_size)%Z -> (0 <= pi i < reserve_size)%Z)
  /\ (forall i j, (0 <= i < reserve_size)%Z -> (0 <= j < reserve_size)%Z ->
        coef (fst (fst r)) i j = coef (fst Hb) (pi i) (pi j))
  /\ (forall i, (0 <= i < reserve_size)%Z -> vcoef (snd (fst r)) i = vcoef (snd Hb) (pi i))
  /\ ((forall i j, (0 <= i < reserve_size)%Z -> (0 <= j < reserve_size)%Z ->
         coef (fst Hb) i j = coef (fst Hb) j i) ->
      forall i j, (0 <= i < reserve_size)%Z -> (0 <= j < reserve_size)%Z ->
        coef (fst (fst r)) i j = coef (fst (fst r)) j i).
Proof.
  intros Hl r pi.
  assert (Hl' : forall v, In v (rev margVertexs) ->
             (0 <= v_ordering_id (st v))%Z /\ (0 <= v_local_dimension (st v))%Z
             /\ (v_ordering_id (st v) + v_local_dimension (st v) <= reserve_size)%Z)
    by (intros v Hv; apply Hl; apply in_rev; exact Hv).
  destruct (Marginalize_move_fold st reserve_size (rev margVertexs) Hl' Hb 0%Z)
    as (E1 & E2 & E3 & E4).
  change (fold_left _ (rev margVertexs) (Hb, 0%Z)) with r in E1, E3, E4.
  fold pi in E2, E3, E4.
  split; [rewrite E1; lia|]. split; [exact E2|]. split; [exact E3|]. split; [exact E4|].
  intros Hs i j Hi Hj. rewrite (E3 i j Hi Hj), (E3 j i Hj Hi).
  apply Hs; apply E2; assumption.
Qed.

(** * The accumulation of the assembler *)

(** ** What an edge adds does not depend on what was added before *)

Lemma fold_left_rel {S A : Type} (Q : S -> S -> Prop) (f : S -> A -> S) (l : list A) :
  (forall x x' a, Q x x' -> Q (f x a) (f x' a)) ->
  forall x x', Q x x' -> Q (fold_left f l x) (fold_left f l x').
Proof.
  intros Hf. induction l as [|a l IH]; intros x x' H; [exact H|].
  cbn [fold_left]. apply IH, Hf, H.
Qed.

Lemma hessian_block_step_shift st e i0 JtW j0 (DH : Z -> Z -> R) (H H' : MatXX) :
  (forall i j, coef H' i j = coef H i j + DH i j) ->
  forall i j, coef (hessian_block_step st e i0 JtW H' j0) i j
              = coef (hessian_block_step st e i0 JtW H j0) i j + DH i j.
Proof.
  intros Hs i j. unfold hessian_block_step.
  destruct (v_fixed (st (nth j0 (e_verticies e) 0%N))); [apply Hs|].
  destruct (negb (Nat.eqb j0 i0)); cbn; rewrite (Hs i j);
    repeat match goal with |- context [in_range ?a ?b ?c] => destruct (in_range a b c) end;
    cbn [andb]; ring.
Qed.

Lemma hessian_vertex_step_shift st e i0 DH Db (Hb Hb' : MatXX * VecX) :
  acc_shift DH Db Hb Hb' ->
  acc_shift DH Db (hessian_vertex_step st e Hb i0) (hessian_vertex_step st e Hb' i0).
Proof.
  intros [HH Hv]. unfold hessian_vertex_step.
  destruct (v_fixed (st (nth i0 (e_verticies e) 0%N))); [split; assumption|].
  split; cbn [fst snd].
  - apply (fold_left_rel (fun H H' => forall i j, coef H' i j = coef H i j + DH i j));
      [|exact HH].
    intros x x' a Hx. apply hessian_block_step_shift. exact Hx.
  - intros k. cbn. rewrite (Hv k). destruct (in_range _ _ k); ring.
Qed.

Lemma hessian_edge_step_shift st e DH Db (Hb Hb' : MatXX * VecX) :
  acc_shift DH Db Hb Hb' ->
  acc_shift DH Db (hessian_edge_step st Hb e) (hessian_edge_step st Hb' e).
Proof.
  unfold hessian_edge_step. apply fold_left_rel.
  intros x x' a Hx. apply hessian_vertex_step_shift. exact Hx.
Qed.

Lemma hessian_edge_step_adds st e (Hb : MatXX * VecX) :
  (forall i j, coef (fst (hessian_edge_step st Hb e)) i j
               = coef (fst Hb) i j + edge_H st e i j)
  /\ (forall k, vcoef (snd (hessian_edge_step st Hb e)) k
                = vcoef (snd Hb) k + edge_b st e k).
Proof.
  destruct (hessian_edge_step_shift st e (coef (fst Hb)) (vcoef (snd Hb))
              (mat_zero 0 0, vec_zero 0) Hb) as [H1 H2].
  - split; [intros i j|intros k]; cbn; ring.
  - split; [intros i j; rewrite H1|intros k; rewrite H2];
      unfold edge_H, edge_b; ring.
Qed.

Lemma sum_list_perm {A : Type} (f : A -> R) (l l' : list A) :
  Permutation l l' -> sum_list f l = sum_list f l'.
Proof.
  unfold sum_list. induction 1 as [|x l l' Hp IH|x y l|l l' l'' H1 IH1 H2 IH2];
    cbn [fold_right].
  - reflexivity.
  - rewrite IH. reflexivity.
  - lra.
  - rewrite IH1. exact IH2.
Qed.

Lemma sum_list_app {A : Type} (f : A -> R) (l l' : list A) :
  sum_list f (l ++ l') = sum_list f l + sum_list f l'.
Proof.
  unfold sum_list. induction l as [|a l IH]; cbn [fold_right app]; [lra|].
  rewrite IH. lra.
Qed.

Lemma hessian_edges_adds st (es : list Edge) :
  forall Hb,
    (forall i j, coef (fst (fold_left (hessian_edge_step st) es Hb)) i j
                 = coef (fst Hb) i j + sum_list (fun e => edge_H st e i j) es)
    /\ (forall k, vcoef (snd (fold_left (hessian_edge_step st) es Hb)) k
                  = vcoef (snd Hb) k + sum_list (fun e => edge_b st e k) es).
Proof.
  unfold sum_list. induction es as [|e es IH]; intros Hb; cbn [fold_left fold_right].
  - split; [intros i j|intros k]; lra.
  - destruct (IH (hessian_edge_step st Hb e)) as [H1 H2].
    destruct (hessian_edge_step_adds st e Hb) as [E1 E2].
    split; [intros i j; rewrite H1, E1|intros k; rewrite H2, E2]; lra.
Qed.

Lemma hessian_edges_bsize st (es : list Edge) :
  forall Hb, vsize (snd (fold_left (hessian_edge_step st) es Hb)) = vsize (snd Hb).
Proof.
  assert (V : forall e l Hb,
             vsize (snd (fold_left (hessian_vertex_step st e) l Hb)) = vsize (snd Hb)).
  { intros e. induction l as [|i l IH]; intros Hb; [reflexivity|].
    cbn [fold_left]. rewrite IH. unfold hessian_vertex_step.
    destruct (v_fixed (st (nth i (e_verticies e) 0%N))); reflexivity. }
  induction es as [|e es IH]; intros Hb; [reflexivity|].
  cbn [fold_left]. rewrite IH. apply V.
Qed.

(** The prior is added to the sums over the edges, whatever they are. *)
Lemma MakeHessian_add_prior_adds (p1 p1' : Problem) :
  H_prior_ p1' = H_prior_ p1 -> b_prior_ p1' = b_prior_ p1 ->
  vertex_store p1' = vertex_store p1 -> verticies_ p1' = verticies_ p1 ->
  ordering_poses_ p1' = ordering_poses_ p1 ->
  rows (Hessian_ p1') = rows (Hessian_ p1) -> cols (Hessian_ p1') = cols (Hessian_ p1) ->
  vsize (b_ p1') = vsize (b_ p1) ->
  (forall i j, coef (Hessian_ p1') i j = coef (Hessian_ p1) i j) ->
  (forall k, vcoef (b_ p1') k = vcoef (b_ p1) k) ->
  let q := MakeHessian_add_prior p1 in
  let q' := MakeHessian_add_prior p1' in
  rows (Hessian_ q') = rows (Hessian_ q) /\ cols (Hessian_ q') = cols (Hessian_ q)
  /\ vsize (b_ q') = vsize (b_ q)
  /\ (forall i j, coef (Hessian_ q') i j = coef (Hessian_ q) i j)
  /\ (forall k, vcoef (b_ q') k = vcoef (b_ q) k).
Proof.
  intros E1 E2 E3 E4 E5 Hr Hc Hv HH Hb q q'. subst q q'. unfold MakeHessian_add_prior.
  rewrite E1, E2, E3, E4, E5.
  destruct (0 <? rows (H_prior_ p1))%Z; cbn.
  - split; [exact Hr|]. split; [exact Hc|]. split; [exact Hv|]. split.
    + intros i j. rewrite HH. reflexivity.
    + intros k. rewrite Hb. reflexivity.
  - split; [exact Hr|]. split; [exact Hc|]. split; [exact Hv|]. split; assumption.
Qed.

Lemma MakeHessianSingle_add_prior (p : Problem) :
  let size := ordering_generic_ p in
  let Hb := fold_left (hessian_edge_step (vertex_store p)) (edges_ p)
                      (mat_zero size size, vec_zero size) in
  MakeHessianSingle p
  = set_delta_x_ (vec_zero size)
      (MakeHessian_add_prior (set_b_ (snd Hb) (set_Hessian_ (fst Hb) p))).
Proof. reflexivity. Qed.

(** ** The order of the edges *)

(** The Hessian and the right-hand side assembled by [MakeHessianSingle] do
    not depend on the order in which the edges are visited: each edge adds
    its blocks to what is there, so a problem that holds the same edges in
    another order assembles the same coefficients. *)
Theorem MakeHessianSingle_edge_order (p : Problem) (es' : list Edge) :
  Permutation (edges_ p) es' ->
  let q := MakeHessianSingle p in
  let q' := MakeHessianSingle (set_edges_ es' p) in
  rows (Hessian_ q') = rows (Hessian_ q) /\ cols (Hessian_ q') = cols (Hessian_ q)
  /\ vsize (b_ q') = vsize (b_ q)
  /\ (forall i j, coef (Hessian_ q') i j = coef (Hessian_ q) i j)
  /\ (forall k, vcoef (b_ q') k = vcoef (b_ q) k)
  /\ delta_x_ q' = delta_x_ q.
Proof.
  intros Hp q q'. subst q q'. rewrite !MakeHessianSingle_add_prior.
  cbn [edges_ set_edges_ vertex_store ordering_generic_].
  set (size := ordering_generic_ p). set (st := vertex_store p).
  set (z := (mat_zero size size, vec_zero size)).
  destruct (hessian_edges_dims st (edges_ p) z) as [R1 C1].
  destruct (hessian_edges_dims st es' z) as [R2 C2].
  pose proof (hessian_edges_bsize st (edges_ p) z) as V1.
  pose proof (hessian_edges_bsize st es' z) as V2.
  destruct (hessian_edges_adds st (edges_ p) z) as [A1 B1].
  destruct (hessian_edges_adds st es' z) as [A2 B2].
  set (Hb := fold_left (hessian_edge_step st) (edges_ p) z) in *.
  set (Hb' := fold_left (hessian_edge_step st) es' z) in *.
  destruct (MakeHessian_add_prior_adds (set_b_ (snd Hb) (set_Hessian_ (fst Hb) p))
              (set_b_ (snd Hb') (set_Hessian_ (fst Hb') (set_edges_ es' p))))
    as (F1 & F2 & F3 & F4 & F5); try reflexivity.
  - cbn. congruence.
  - cbn. congruence.
  - cbn. congruence.
  - intros i j. cbn. rewrite A1, A2.
    rewrite (sum_list_perm (fun e => edge_H st e i j) _ _ Hp). reflexivity.
  - intros k. cbn. rewrite B1, B2.
    rewrite (sum_list_perm (fun e => edge_b st e k) _ _ Hp). reflexivity.
  - cbn [Hessian_ b_ delta_x_ set_delta_x_].
    split; [exact F1|]. split; [exact F2|]. split; [exact F3|].
    split; [exact F4|]. split; [exact F5|reflexivity].
Qed.

(** * The workers of the assembler *)

(** ** The positions a worker visits *)

Lemma sum_upto_pick (n : nat) (i : Z) (f g : Z -> R) :
  (0 <= i < Z.of_nat n)%Z ->
  (forall m, (0 <= m < Z.of_nat n)%Z -> g m = if (m =? i)%Z then f i else 0) ->
  sum_upto n g = f i.
Proof.
  intros Hi Hg. rewrite (sum_upto_single n i g).
  - rewrite Hg by lia. rewrite Z.eqb_refl. reflexivity.
  - exact Hi.
  - intros l Hl Hne. rewrite Hg by lia. destruct (Z.eqb_spec l i); [contradiction|reflexivity].
Qed.

Lemma stride_sum_filter (fuel : nat) (thd_num n : Z) (f : Z -> R) :
  (1 <= thd_num)%Z ->
  forall i, (0 <= i)%Z -> (n - i <= Z.of_nat fuel)%Z ->
    stride_sum fuel thd_num n i f
    = sum_upto (Z.to_nat n)
               (fun m => if (i <=? m)%Z && ((m - i) mod thd_num =? 0)%Z then f m else 0).
Proof.
  intros Ht. induction fuel as [|fuel IH]; intros i Hi Hf; cbn [stride_sum].
  - rewrite (sum_upto_ext _ _ (fun _ => 0)); [symmetry; apply sum_upto_zero|].
    intros m Hm. destruct (Z.leb_spec i m); [lia|reflexivity].
  - destruct (Z.ltb_spec i n) as [Hlt|Hge].
    + rewrite IH by lia.
      rewrite <- (sum_upto_pick (Z.to_nat n) i f (fun m => if (m =? i)%Z then f i else 0))
        at 1 by (try lia; intros; reflexivity).
      rewrite <- sum_upto_plus. apply sum_upto_ext. intros m Hm.
      destruct (Z.eqb_spec m i) as [->|Hne].
      * rewrite Z.leb_refl, Z.sub_diag, Zmod_0_l. cbn.
        destruct (Z.leb_spec (i + thd_num) i); [lia|]. cbn. lra.
      * destruct (Z.leb_spec (i + thd_num) m) as [H1|H1];
          destruct (Z.leb_spec i m) as [H2|H2]; cbn [andb]; try lia; try lra.
        -- replace (m - (i + thd_num))%Z with (m - i + (-1) * thd_num)%Z by lia.
           rewrite Z_mod_plus_full. lra.
        -- destruct (Z.eqb_spec ((m - i) mod thd_num) 0) as [E|E]; [|lra].
           exfalso. apply Z.mod_divide in E; [|lia]. destruct E as [c Ec].
           assert (c >= 1)%Z by nia. nia.
    + rewrite (sum_upto_ext _ _ (fun _ => 0)); [symmetry; apply sum_upto_zero|].
      intros m Hm. destruct (Z.leb_spec i m); [lia|reflexivity].
Qed.

Lemma share_test (thd_id thd_num m : Z) :
  (0 <= thd_id < thd_num)%Z -> (0 <= m)%Z ->
  ((thd_id <=? m)%Z && ((m - thd_id) mod thd_num =? 0)%Z) = (m mod thd_num =? thd_id)%Z.
Proof.
  intros Hk Hm.
  destruct (Z.eqb_spec (m mod thd_num) thd_id) as [E|E].
  - assert (H1 : (thd_id <= m)%Z) by (rewrite <- E; apply Z.mod_le; lia).
    destruct (Z.leb_spec thd_id m); [|lia]. cbn [andb].
    apply Z.eqb_eq. rewrite Zminus_mod, E, (Z.mod_small thd_id) by lia.
    rewrite Z.sub_diag. apply Zmod_0_l.
  - destruct (Z.leb_spec thd_id m); [|reflexivity]. cbn [andb].
    apply Z.eqb_neq. intros H0. apply E.
    replace m with ((m - thd_id) + thd_id)%Z at 1 by lia.
    rewrite Zplus_mod, H0, Z.add_0_l, Z.mod_mod by lia. apply Z.mod_small. lia.
Qed.

(** The shares of the workers [0 .. thd_num) add up to the whole sum. *)
Lemma shares_total (thd_num : Z) (n : nat) (f : Z -> R) :
  (1 <= thd_num)%Z ->
  sum_upto (Z.to_nat thd_num)
           (fun k => sum_upto n (fun m => if (m mod thd_num =? k)%Z then f m else 0))
  = sum_upto n f.
Proof.
  intros Ht. rewrite sum_upto_swap. apply sum_upto_ext. intros m Hm.
  apply (sum_upto_pick _ (m mod thd_num) (fun _ => f m)).
  - pose proof (Z.mod_pos_bound m thd_num). lia.
  - intros k Hk. rewrite (Z.eqb_sym k). reflexivity.
Qed.

Lemma sum_upto_nth {A : Type} (f : A -> R) (d : A) (l : list A) :
  sum_upto (List.length l) (fun m => f (nth (Z.to_nat m) l d)) = sum_list f l.
Proof.
  induction l as [|x l IH] using rev_ind; [reflexivity|].
  rewrite length_app, Nat.add_comm, sum_list_app. cbn [List.length Nat.add sum_upto].
  rewrite Nat2Z.id, app_nth2, Nat.sub_diag by lia. cbn [nth].
  rewrite (sum_upto_ext _ _ (fun m => f (nth (Z.to_nat m) l d))).
  - rewrite IH. unfold sum_list. cbn [fold_right]. lra.
  - intros m Hm. rewrite app_nth1 by lia. reflexivity.
Qed.

(** ** A worker *)

Lemma edge_find_nth (es : list Edge) (d : Edge) :
  NoDup (map e_id es) ->
  forall m, (m < List.length es)%nat -> edge_find (e_id (nth m es d)) es = Some (nth m es d).
Proof.
  unfold edge_find. induction es as [|y es IH]; intros Hnd m Hm; [cbn in Hm; lia|].
  inversion Hnd as [|? ? Hnotin Hnd']; subst. cbn [find].
  destruct m as [|m]; cbn [nth].
  - rewrite N.eqb_refl. reflexivity.
  - cbn [List.length] in Hm.
    destruct (N.eqb_spec (e_id y) (e_id (nth m es d))) as [E|E].
    + exfalso. apply Hnotin. rewrite E. apply in_map. apply nth_In. lia.
    + apply IH; [exact Hnd'|lia].
Qed.

Lemma nth_error_firstn_lt {A : Type} (l : list A) :
  forall n m, (m < n)%nat -> nth_error (firstn n l) m = nth_error l m.
Proof.
  induction l as [|x l IH]; intros n m H; [destruct n; reflexivity|].
  destruct n as [|n]; [lia|]. destruct m as [|m]; [reflexivity|].
  cbn [firstn nth_error]. apply IH. lia.
Qed.

Lemma ids_current_resolve (p : Problem) (w : Workers) :
  ids_current p w -> ids_resolve p w (edges_ p).
Proof.
  intros [Hnd Hids]. split; [reflexivity|]. split; [exact Hids|].
  intros e He. destruct (In_nth _ _ e He) as (m & Hm & <-).
  apply edge_find_nth; assumption.
Qed.

Lemma thdCalcHessian_body_edge (p : Problem) (w : Workers) (L : list Edge) (d : Edge)
      (m : Z) :
  ids_resolve p w L -> (0 <= m < Z.of_nat (List.length (edges_ p)))%Z ->
  thdCalcHessian_body p w m
  = Some (mkWorkers (edges_idx_ w)
            (fst (hessian_edge_step (vertex_store p) (multi_H_ w, multi_b_ w)
                                    (nth (Z.to_nat m) L d)))
            (snd (hessian_edge_step (vertex_store p) (multi_H_ w, multi_b_ w)
                                    (nth (Z.to_nat m) L d)))).
Proof.
  intros (Hlen & Hids & Hfind) Hm. unfold thdCalcHessian_body.
  assert (Hlt : (Z.to_nat m < List.length L)%nat) by lia.
  assert (E : nth_error (edges_idx_ w) (Z.to_nat m) = Some (e_id (nth (Z.to_nat m) L d))).
  { rewrite <- (nth_error_firstn_lt (edges_idx_ w) (List.length (edges_ p))) by lia.
    rewrite Hids. rewrite nth_error_map.
    rewrite (nth_error_nth' L d Hlt). reflexivity. }
  rewrite E, (Hfind (nth (Z.to_nat m) L d)) by (apply nth_In; exact Hlt). reflexivity.
Qed.

Lemma thdCalcHessian_loop_sum (p : Problem) (L : list Edge) (d : Edge) (thd_num : Z)
      (fuel : nat) :
  (1 <= thd_num)%Z ->
  forall i w, ids_resolve p w L -> (0 <= i)%Z ->
    let st := vertex_store p in
    let n := Z.of_nat (List.length (edges_ p)) in
    exists w',
      thdCalcHessian_loop fuel thd_num n p i (Some w) = Some w'
      /\ workers_added w w'
           (fun a b => stride_sum fuel thd_num n i
                         (fun m => edge_H st (nth (Z.to_nat m) L d) a b))
           (fun k => stride_sum fuel thd_num n i
                       (fun m => edge_b st (nth (Z.to_nat m) L d) k)).
Proof.
  intros Ht. induction fuel as [|fuel IH]; intros i w Hids Hi st n;
    cbn [thdCalcHessian_loop stride_sum].
  - exists w. split; [reflexivity|]. unfold workers_added.
    split; [reflexivity|]. split; [reflexivity|]. split; [reflexivity|].
    split; [reflexivity|]. split; intros; lra.
  - destruct (Z.ltb_spec i n) as [Hlt|Hge].
    + rewrite (thdCalcHessian_body_edge p w L d i Hids) by (subst n; lia).
      set (e := nth (Z.to_nat i) L d).
      set (w1 := mkWorkers (edges_idx_ w)
                   (fst (hessian_edge_step (vertex_store p) (multi_H_ w, multi_b_ w) e))
                   (snd (hessian_edge_step (vertex_store p) (multi_H_ w, multi_b_ w) e))).
      assert (Hids1 : ids_resolve p w1 L) by exact Hids.
      destruct (IH (i + thd_num)%Z w1 Hids1 ltac:(lia)) as (w' & Er & Hadd).
      exists w'. split; [exact Er|].
      destruct Hadd as (A1 & A2 & A3 & A4 & A5 & A6).
      destruct (hessian_edge_step_adds (vertex_store p) e (multi_H_ w, multi_b_ w)) as [E1 E2].
      destruct (hessian_edges_dims (vertex_store p) [e] (multi_H_ w, multi_b_ w)) as [D1 D2].
      pose proof (hessian_edges_bsize (vertex_store p) [e] (multi_H_ w, multi_b_ w)) as D3.
      cbn [fold_left fst snd] in D1, D2, D3, E1, E2.
      unfold workers_added. cbn [edges_idx_ multi_H_ multi_b_ w1] in A1, A2, A3, A4, A5, A6.
      split; [exact A1|]. split; [congruence|]. split; [congruence|]. split; [congruence|].
      split.
      * intros a b. rewrite A5, E1. subst e st n. lra.
      * intros k. rewrite A6, E2. subst e st n. lra.
    + exists w. split; [reflexivity|]. unfold workers_added.
      split; [reflexivity|]. split; [reflexivity|]. split; [reflexivity|].
      split; [reflexivity|]. split; intros; lra.
Qed.

Lemma thdCalcHessian_adds (p : Problem) (w : Workers) (L : list Edge) (d : Edge)
      (thd_id thd_num : Z) :
  ids_resolve p w L -> (0 <= thd_id < thd_num)%Z ->
  let st := vertex_store p in
  let n := List.length (edges_ p) in
  exists w',
    thdCalcHessian thd_id thd_num p w = Some w'
    /\ workers_added w w'
         (fun i j => share thd_id thd_num n
                       (fun m => edge_H st (nth (Z.to_nat m) L d) i j))
         (fun k => share thd_id thd_num n
                     (fun m => edge_b st (nth (Z.to_nat m) L d) k)).
Proof.
  intros Hids Hk st n. unfold thdCalcHessian.
  destruct (thdCalcHessian_loop_sum p L d thd_num
              (Z.to_nat (Z.of_nat (List.length (edges_ p))))
              ltac:(lia) thd_id w Hids ltac:(lia)) as (w' & Er & A1 & A2 & A3 & A4 & A5 & A6).
  exists w'. split; [exact Er|].
  assert (Conv : forall f,
             stride_sum (Z.to_nat (Z.of_nat (List.length (edges_ p)))) thd_num
                        (Z.of_nat (List.length (edges_ p))) thd_id f
             = share thd_id thd_num n f).
  { intros f. rewrite stride_sum_filter by lia. rewrite Nat2Z.id. fold n.
    apply sum_upto_ext. intros m Hm. rewrite share_test by lia. reflexivity. }
  unfold workers_added.
  split; [exact A1|]. split; [exact A2|]. split; [exact A3|]. split; [exact A4|]. split.
  - intros i j. rewrite A5, Conv. reflexivity.
  - intros k. rewrite A6, Conv. reflexivity.
Qed.


(** A worker that reads an id that is not the id of an edge of the problem
    has no result: the edge map yields a null pointer for it and the
    worker calls through it. *)
Theorem thdCalcHessian_stale_id (p : Problem) (w : Workers) (thd_id thd_num : Z) (id : N) :
  (0 <= thd_id)%Z -> (1 <= thd_num)%Z ->
  (thd_id < Z.of_nat (List.length (edges_ p)))%Z ->
  nth_error (edges_idx_ w) (Z.to_nat thd_id) = Some id ->
  edge_mem id (edges_ p) = false ->
  thdCalcHessian thd_id thd_num p w = None.
Proof.
  intros H0 Ht Hlt Hnth Hmem. unfold thdCalcHessian.
  assert (Hfind : edge_find id (edges_ p) = None).
  { unfold edge_find. destruct (find _ (edges_ p)) as [e|] eqn:E; [|reflexivity].
    apply find_some in E. destruct E as [Hin He].
    assert (edge_mem id (edges_ p) = true).
    { unfold edge_mem. apply existsb_exists. exists e. split; assumption. }
    congruence. }
  assert (Hnone : forall fuel i, thdCalcHessian_loop fuel thd_num
                    (Z.of_nat (List.length (edges_ p))) p i None = None).
  { induction fuel as [|fuel IH]; intros i; cbn [thdCalcHessian_loop]; [reflexivity|].
    destruct (i <? _)%Z; [apply IH|reflexivity]. }
  destruct (Z.to_nat (Z.of_nat (List.length (edges_ p)))) as [|fuel] eqn:Ef; [lia|].
  cbn [thdCalcHessian_loop].
  destruct (Z.ltb_spec thd_id (Z.of_nat (List.length (edges_ p)))); [|lia].
  unfold thdCalcHessian_body. rewrite Hnth, Hfind. apply Hnone.
Qed.

(** ** The workers one after the other *)

Lemma sum_upto_shift (k : nat) (G : Z -> R) :
  sum_upto (S k) G = G 0%Z + sum_upto k (fun j => G (j + 1)%Z).
Proof.
  induction k as [|k IH]; [cbn; lra|].
  change (sum_upto (S (S k)) G) with (sum_upto (S k) G + G (Z.of_nat (S k))).
  rewrite IH. cbn [sum_upto].
  replace (Z.of_nat k + 1)%Z with (Z.of_nat (S k)) by lia. lra.
Qed.

Lemma run_workers_adds (p : Problem) (L : list Edge) (d : Edge) (thd_num : Z) (k : nat) :
  forall thd_id w, ids_resolve p w L -> (0 <= thd_id)%Z -> (thd_id + Z.of_nat k <= thd_num)%Z ->
    let st := vertex_store p in
    let n := List.length (edges_ p) in
    exists w',
      run_workers k thd_id thd_num p (Some w) = Some w'
      /\ workers_added w w'
           (fun i j => sum_upto k (fun t => share (thd_id + t) thd_num n
                         (fun m => edge_H st (nth (Z.to_nat m) L d) i j)))
           (fun c => sum_upto k (fun t => share (thd_id + t) thd_num n
                       (fun m => edge_b st (nth (Z.to_nat m) L d) c))).
Proof.
  induction k as [|k IH]; intros thd_id w Hids H0 Hk st n; cbn [run_workers].
  - exists w. split; [reflexivity|]. unfold workers_added.
    split; [reflexivity|]. split; [reflexivity|]. split; [reflexivity|].
    split; [reflexivity|]. split; intros; cbn [sum_upto]; lra.
  - destruct (thdCalcHessian_adds p w L d thd_id thd_num Hids ltac:(lia))
      as (w1 & E1 & A1 & A2 & A3 & A4 & A5 & A6).
    rewrite E1.
    assert (Hids1 : ids_resolve p w1 L).
    { destruct Hids as (I1 & I2 & I3). split; [exact I1|]. split; [rewrite A1; exact I2|exact I3]. }
    destruct (IH (thd_id + 1)%Z w1 Hids1 ltac:(lia) ltac:(lia))
      as (w' & E2 & B1 & B2 & B3 & B4 & B5 & B6).
    exists w'. split; [exact E2|]. unfold workers_added.
    split; [congruence|]. split; [congruence|]. split; [congruence|]. split; [congruence|].
    split.
    + intros i j. rewrite sum_upto_shift, Z.add_0_r.
      rewrite (sum_upto_ext k
                 (fun t => share (thd_id + (t + 1)) thd_num n
                             (fun m => edge_H st (nth (Z.to_nat m) L d) i j))
                 (fun t => share (thd_id + 1 + t) thd_num n
                             (fun m => edge_H st (nth (Z.to_nat m) L d) i j))).
      * rewrite B5, A5. subst st n. lra.
      * intros t _. f_equal. lia.
    + intros c. rewrite sum_upto_shift, Z.add_0_r.
      rewrite (sum_upto_ext k
                 (fun t => share (thd_id + (t + 1)) thd_num n
                             (fun m => edge_b st (nth (Z.to_nat m) L d) c))
                 (fun t => share (thd_id + 1 + t) thd_num n
                             (fun m => edge_b st (nth (Z.to_nat m) L d) c))).
      * rewrite B6, A6. subst st n. lra.
      * intros t _. f_equal. lia.
Qed.

(** What [MakeHessianMulti] assembles when the ids its workers read are the
    ids of the edges [visited]: the sums of what those edges add, and the
    prior. *)
Lemma MakeHessianMulti_visited (p : Problem) (w : Workers) (L : list Edge) :
  ids_resolve p (mkWorkers (edges_idx_ w ++ map e_id (edges_ p)) (multi_H_ w) (multi_b_ w)) L ->
  let size := ordering_generic_ p in
  let Hb := fold_left (hessian_edge_step (vertex_store p)) L
                      (mat_zero size size, vec_zero size) in
  let q0 := set_delta_x_ (vec_zero size)
              (MakeHessian_add_prior (set_b_ (snd Hb) (set_Hessian_ (fst Hb) p))) in
  exists q w',
    MakeHessianMulti p w = Some (q, w')
    /\ edges_idx_ w' = edges_idx_ w ++ map e_id (edges_ p)
    /\ rows (Hessian_ q) = rows (Hessian_ q0) /\ cols (Hessian_ q) = cols (Hessian_ q0)
    /\ vsize (b_ q) = vsize (b_ q0)
    /\ (forall i j, coef (Hessian_ q) i j = coef (Hessian_ q0) i j)
    /\ (forall k, vcoef (b_ q) k = vcoef (b_ q0) k)
    /\ delta_x_ q = delta_x_ q0.
Proof.
  intros Hids size Hb q0. unfold MakeHessianMulti. fold size.
  set (w1 := mkWorkers (edges_idx_ w ++ map e_id (edges_ p))
                       (mat_zero size size) (vec_zero size)).
  assert (Hids1 : ids_resolve p w1 L) by exact Hids.
  destruct (run_workers_adds p L (mkEdge 0 [] (mat_zero 0 0) (fun _ => vec_zero 0)
                                         (fun _ => []) (fun _ => (0, mat_zero 0 0))
                                         (fun _ => 0))
              4 (Z.to_nat 4) 0%Z w1 Hids1 ltac:(lia) ltac:(lia))
    as (w2 & E & A1 & A2 & A3 & A4 & A5 & A6).
  rewrite E.
  set (d := mkEdge 0 [] (mat_zero 0 0) (fun _ => vec_zero 0) (fun _ => [])
                   (fun _ => (0, mat_zero 0 0)) (fun _ => 0)) in *.
  destruct Hids as (Hlen & _ & _).
  assert (Tot : forall f, sum_upto (Z.to_nat 4)
                  (fun t => share (0 + t) 4 (List.length (edges_ p))
                              (fun m => f (nth (Z.to_nat m) L d)))
                = sum_list f L).
  { intros f. rewrite <- (sum_upto_nth f d L), Hlen.
    rewrite <- (shares_total 4 (List.length (edges_ p))
                  (fun m => f (nth (Z.to_nat m) L d))) by lia.
    apply sum_upto_ext. intros t _. unfold share. rewrite Z.add_0_l. reflexivity. }
  destruct (hessian_edges_dims (vertex_store p) L (mat_zero size size, vec_zero size))
    as [R1 C1].
  pose proof (hessian_edges_bsize (vertex_store p) L (mat_zero size size, vec_zero size))
    as V1.
  destruct (hessian_edges_adds (vertex_store p) L (mat_zero size size, vec_zero size))
    as [S1 S2].
  fold Hb in R1, C1, V1, S1, S2.
  destruct (MakeHessian_add_prior_adds (set_b_ (snd Hb) (set_Hessian_ (fst Hb) p))
              (set_b_ (multi_b_ w2) (set_Hessian_ (multi_H_ w2) p)))
    as (F1 & F2 & F3 & F4 & F5); try reflexivity.
  - cbn. rewrite A2, R1. reflexivity.
  - cbn. rewrite A3, C1. reflexivity.
  - cbn. rewrite A4, V1. reflexivity.
  - intros i j. cbn [Hessian_ set_b_ set_Hessian_].
    rewrite A5, S1, (Tot (fun e => edge_H (vertex_store p) e i j)). reflexivity.
  - intros k. cbn [b_ set_b_ set_Hessian_].
    rewrite A6, S2, (Tot (fun e => edge_b (vertex_store p) e k)). reflexivity.
  - eexists. exists w2. split; [reflexivity|].
    split; [exact A1|]. cbn [Hessian_ b_ delta_x_ set_delta_x_].
    split; [exact F1|]. split; [exact F2|]. split; [exact F3|].
    split; [exact F4|]. split; [exact F5|reflexivity].
Qed.

(** With its workers run one after the other, [MakeHessianMulti] assembles
    the Hessian and the right-hand side of [MakeHessianSingle] when the
    first [edges_.size()] entries of [edges_idx_] are the ids of the edges
    of the problem (as on the first call, when [edges_idx_] is empty, and
    on later calls while the edges are the same).  It appends the ids to
    [edges_idx_] and never clears it. *)
Theorem MakeHessianMulti_assembles (p : Problem) (w : Workers) :
  NoDup (map e_id (edges_ p)) ->
  firstn (List.length (edges_ p)) (edges_idx_ w ++ map e_id (edges_ p))
  = map e_id (edges_ p) ->
  let q0 := MakeHessianSingle p in
  exists q w',
    MakeHessianMulti p w = Some (q, w')
    /\ edges_idx_ w' = edges_idx_ w ++ map e_id (edges_ p)
    /\ rows (Hessian_ q) = rows (Hessian_ q0) /\ cols (Hessian_ q) = cols (Hessian_ q0)
    /\ vsize (b_ q) = vsize (b_ q0)
    /\ (forall i j, coef (Hessian_ q) i j = coef (Hessian_ q0) i j)
    /\ (forall k, vcoef (b_ q) k = vcoef (b_ q0) k)
    /\ delta_x_ q = delta_x_ q0.
Proof.
  intros Hnd Hfirst q0. subst q0. rewrite MakeHessianSingle_add_prior.
  apply (MakeHessianMulti_visited p w (edges_ p)).
  apply ids_current_resolve. split; [exact Hnd|exact Hfirst].
Qed.

Lemma MakeHessian_add_prior_shift (p1 p1' : Problem) (DH : Z -> Z -> R) (Db : Z -> R) :
  H_prior_ p1' = H_prior_ p1 -> b_prior_ p1' = b_prior_ p1 ->
  vertex_store p1' = vertex_store p1 -> verticies_ p1' = verticies_ p1 ->
  ordering_poses_ p1' = ordering_poses_ p1 ->
  (forall i j, coef (Hessian_ p1') i j = coef (Hessian_ p1) i j + DH i j) ->
  (forall k, vcoef (b_ p1') k = vcoef (b_ p1) k + Db k) ->
  let q := MakeHessian_add_prior p1 in
  let q' := MakeHessian_add_prior p1' in
  (forall i j, coef (Hessian_ q') i j = coef (Hessian_ q) i j + DH i j)
  /\ (forall k, vcoef (b_ q') k = vcoef (b_ q) k + Db k).
Proof.
  intros E1 E2 E3 E4 E5 HH Hb q q'. subst q q'. unfold MakeHessian_add_prior.
  rewrite E1, E2, E3, E4, E5.
  destruct (0 <? rows (H_prior_ p1))%Z; cbn.
  - split.
    + intros i j. rewrite HH.
      match goal with |- context [if ?c then _ else _] => destruct c end; lra.
    + intros k. rewrite Hb.
      match goal with |- context [if ?c then _ else _] => destruct c end; lra.
  - split; assumption.
Qed.

Lemma edge_find_In (es : list Edge) (e : Edge) :
  NoDup (map e_id es) -> In e es -> edge_find (e_id e) es = Some e.
Proof.
  intros Hnd He. destruct (In_nth _ _ e He) as (m & Hm & <-).
  apply edge_find_nth; assumption.
Qed.

(** [edges_idx_] is never cleared.  After an assembly of a problem with the
    edges [edges_ p], and the insertion of one more edge [e_new], the next
    assembly reads the old ids and, for the last position, the id of the
    edge that now comes first in the edge map: what [e_new] adds is left
    out unless it comes first, and that first edge is counted in its
    place. *)
Theorem MakeHessianMulti_stale_ids (p : Problem) (w : Workers) (e_new : Edge)
        (es' : list Edge) :
  edges_idx_ w = map e_id (edges_ p) ->
  Permutation es' (edges_ p ++ [e_new]) ->
  NoDup (map e_id es') ->
  let st := vertex_store p in
  let p' := set_edges_ es' p in
  let q0 := MakeHessianSingle p' in
  exists q w',
    MakeHessianMulti p' w = Some (q, w')
    /\ edges_idx_ w' = map e_id (edges_ p) ++ map e_id es'
    /\ (forall i j,
          coef (Hessian_ q) i j
          = coef (Hessian_ q0) i j - edge_H st e_new i j + edge_H st (hd e_new es') i j)
    /\ (forall k,
          vcoef (b_ q) k
          = vcoef (b_ q0) k - edge_b st e_new k + edge_b st (hd e_new es') k).
Proof.
  intros Hidx Hperm Hnd st p' q0.
  assert (Hlen : List.length es' = S (List.length (edges_ p))).
  { rewrite (Permutation_length Hperm), length_app. cbn. lia. }
  destruct es' as [|e0 r]; [cbn in Hlen; lia|].
  change (hd e_new (e0 :: r)) with e0.
  set (es' := e0 :: r) in *.
  set (L := edges_ p ++ [e0]).
  assert (Hres : ids_resolve p'
                   (mkWorkers (edges_idx_ w ++ map e_id (edges_ p')) (multi_H_ w) (multi_b_ w))
                   L).
  { unfold ids_resolve. cbn [edges_ p' set_edges_ edges_idx_].
    split; [unfold L; rewrite length_app, Hlen; cbn; lia|]. split.
    - rewrite Hidx, Hlen. unfold L. rewrite map_app.
      rewrite <- (length_map e_id (edges_ p)).
      replace (S (List.length (map e_id (edges_ p))))
        with (List.length (map e_id (edges_ p)) + 1)%nat by lia.
      rewrite firstn_app_2. reflexivity.
    - intros e He. apply edge_find_In; [exact Hnd|].
      unfold L in He. apply in_app_or in He. destruct He as [He|[He|[]]].
      + apply (Permutation_in e (Permutation_sym Hperm)). apply in_or_app. left. exact He.
      + subst e. left. reflexivity. }
  destruct (MakeHessianMulti_visited p' w L Hres)
    as (q & w' & E & I1 & _ & _ & _ & F4 & F5 & _).
  exists q, w'. split; [exact E|]. split; [rewrite I1, Hidx; reflexivity|].
  subst q0. rewrite MakeHessianSingle_add_prior.
  change (ordering_generic_ p') with (ordering_generic_ p) in *.
  change (vertex_store p') with st in *. change (edges_ p') with es' in *.
  set (size := ordering_generic_ p) in *.
  set (z := (mat_zero size size, vec_zero size)) in *.
  destruct (hessian_edges_adds st L z) as [A1 B1].
  destruct (hessian_edges_adds st es' z) as [A2 B2].
  set (HbL := fold_left (hessian_edge_step st) L z) in *.
  set (Hb' := fold_left (hessian_edge_step st) es' z) in *.
  cbn [Hessian_ b_ set_delta_x_] in F4, F5 |- *.
  destruct (MakeHessian_add_prior_shift
              (set_b_ (snd Hb') (set_Hessian_ (fst Hb') p'))
              (set_b_ (snd HbL) (set_Hessian_ (fst HbL) p'))
              (fun i j => - edge_H st e_new i j + edge_H st e0 i j)
              (fun k => - edge_b st e_new k + edge_b st e0 k))
    as [G1 G2]; try reflexivity.
  - intros i j. cbn [Hessian_ set_b_ set_Hessian_]. rewrite A1, A2.
    rewrite (sum_list_perm (fun e => edge_H st e i j) _ _ Hperm).
    unfold L. rewrite !sum_list_app. unfold sum_list. cbn [fold_right z fst coef mat_zero].
    lra.
  - intros k. cbn [b_ set_b_ set_Hessian_]. rewrite B1, B2.
    rewrite (sum_list_perm (fun e => edge_b st e k) _ _ Hperm).
    unfold L. rewrite !sum_list_app. unfold sum_list. cbn [fold_right z snd vcoef vec_zero].
    lra.
  - split.
    + intros i j. rewrite F4, G1. lra.
    + intros k. rewrite F5, G2. lra.
Qed.

(** * The Schur-complement solver *)

Lemma sum_upto_app (n m : nat) (f : Z -> R) :
  sum_upto (n + m) f = sum_upto n f + sum_upto m (fun k => f (Z.of_nat n + k)%Z).
Proof.
  induction m as [|m IH].
  - rewrite Nat.add_0_r. cbn [sum_upto]. lra.
  - rewrite Nat.add_succ_r. cbn [sum_upto]. rewrite IH.
    replace (Z.of_nat (n + m)) with (Z.of_nat n + Z.of_nat m)%Z by lia. lra.
Qed.

Lemma sum_upto_minus (n : nat) (f g : Z -> R) :
  sum_upto n (fun k => f k - g k) = sum_upto n f - sum_upto n g.
Proof. induction n as [|n IH]; cbn [sum_upto]; [lra|]. rewrite IH. lra. Qed.

Lemma sum_upto_mult_l (n : nat) (f : Z -> R) (c : R) :
  c * sum_upto n f = sum_upto n (fun k => c * f k).
Proof. induction n as [|n IH]; cbn [sum_upto]; [lra|]. rewrite <- IH. lra. Qed.

(** [(A B) x = A (B x)], row by row. *)
Lemma sum_upto_assoc (a b : nat) (A : Z -> R) (B : Z -> Z -> R) (x : Z -> R) :
  sum_upto a (fun j => sum_upto b (fun k => A k * B k j) * x j)
  = sum_upto b (fun k => A k * sum_upto a (fun j => B k j * x j)).
Proof.
  rewrite (sum_upto_ext a _ (fun j => sum_upto b (fun k => A k * B k j * x j)))
    by (intros j _; apply sum_upto_mult_r).
  rewrite sum_upto_swap. apply sum_upto_ext. intros k _.
  rewrite sum_upto_mult_l. apply sum_upto_ext. intros j _. ring.
Qed.

Section Schur.
Variable ldlt_solve : MatXX -> VecX -> VecX.
Variable inverse : MatXX -> MatXX.

Lemma Schur_Hss_inv_dims (p : Problem) (Hessian : MatXX) (reserve_size schur_size : Z)
    (schur_vertices : list N) :
rows (Schur_Hss_inv inverse p Hessian reserve_size schur_size schur_vertices) = schur_size
/\ cols (Schur_Hss_inv inverse p Hessian reserve_size schur_size schur_vertices) = schur_size.
Proof.
unfold Schur_Hss_inv.
assert (G : forall l M, rows (fold_left
               (fun M sv =>
                  block_set M (v_ordering_id (vertex_store p sv) - reserve_size)
                    (v_ordering_id (vertex_store p sv) - reserve_size)
                    (v_local_dimension (vertex_store p sv))
                    (v_local_dimension (vertex_store p sv))
                    (inverse (block (block Hessian reserve_size reserve_size
                                           schur_size schur_size)
                                    (v_ordering_id (vertex_store p sv) - reserve_size)
                                    (v_ordering_id (vertex_store p sv) - reserve_size)
                                    (v_local_dimension (vertex_store p sv))
                                    (v_local_dimension (vertex_store p sv)))))
               l M) = rows M
            /\ cols (fold_left
               (fun M sv =>
                  block_set M (v_ordering_id (vertex_store p sv) - reserve_size)
                    (v_ordering_id (vertex_store p sv) - reserve_size)
                    (v_local_dimension (vertex_store p sv))
                    (v_local_dimension (vertex_store p sv))
                    (inverse (block (block Hessian reserve_size reserve_size
                                           schur_size schur_size)
                                    (v_ordering_id (vertex_store p sv) - reserve_size)
                                    (v_ordering_id (vertex_store p sv) - reserve_size)
                                    (v_local_dimension (vertex_store p sv))
                                    (v_local_dimension (vertex_store p sv)))))
               l M) = cols M).
{ induction l as [|sv l IH]; intros M; [split; reflexivity|].
  cbn [fold_left]. destruct (IH (block_set M
                    (v_ordering_id (vertex_store p sv) - reserve_size)
                    (v_ordering_id (vertex_store p sv) - reserve_size)
                    (v_local_dimension (vertex_store p sv))
                    (v_local_dimension (vertex_store p sv))
                    (inverse (block (block Hessian reserve_size reserve_size
                                           schur_size schur_size)
                                    (v_ordering_id (vertex_store p sv) - reserve_size)
                                    (v_ordering_id (vertex_store p sv) - reserve_size)
                                    (v_local_dimension (vertex_store p sv))
                                    (v_local_dimension (vertex_store p sv))))))
    as [-> ->]. split; reflexivity. }
apply (G schur_vertices (mat_zero schur_size schur_size)).
Qed.

(** The coefficients of the step of [SolveLinearWithSchur]. *)
Lemma SolveLinearWithSchur_coef (p : Problem) (Hessian : MatXX) (b delta_x : VecX)
    (n m : Z) (sv : list N) (lambda : R) :
(0 <= n)%Z -> (0 <= m)%Z -> vsize delta_x = (n + m)%Z -> vsize b = (n + m)%Z ->
let Hss_inv := Schur_Hss_inv inverse p Hessian n m sv in
let sys := Schur_system inverse p Hessian b n m sv in
let x := ldlt_solve (fst sys) (snd sys) in
let d := SolveLinearWithSchur ldlt_solve inverse p Hessian b delta_x n m sv lambda in
vsize d = (n + m)%Z
/\ (forall j, (0 <= j < n)%Z -> vcoef d j = vcoef x j)
/\ (forall k, (0 <= k < m)%Z ->
      vcoef d (n + k)
      = sum_upto (Z.to_nat m)
          (fun l => coef Hss_inv k l
                    * (vcoef b (n + l)
                       - sum_upto (Z.to_nat n)
                           (fun j => coef Hessian (n + l) j * vcoef x j)))).
Proof.
intros Hn Hm Hd Hb Hss_inv sys x d.
destruct (Schur_Hss_inv_dims p Hessian n m sv) as [Hr Hc]. fold Hss_inv in Hr, Hc.
split; [exact Hd|]. split.
- intros j Hj. subst d. unfold SolveLinearWithSchur, tail_set, head_set, segment_set.
  cbn [vcoef vsize]. rewrite Hd.
  replace (n + m - m)%Z with n by lia.
  unfold in_range.
  destruct (Z.leb_spec n j); [lia|]. cbn [andb].
  destruct (Z.leb_spec 0 j); [|lia]. destruct (Z.ltb_spec j (0 + n)); [|lia]. cbn [andb].
  rewrite Z.sub_0_r. reflexivity.
- intros k Hk. subst d. unfold SolveLinearWithSchur, tail_set, head_set, segment_set.
  cbn [vcoef vsize]. rewrite Hd.
  replace (n + m - m)%Z with n by lia.
  unfold in_range.
  destruct (Z.leb_spec n (n + k)); [|lia]. destruct (Z.ltb_spec (n + k) (n + m)); [|lia].
  cbn [andb]. replace (n + k - n)%Z with k by lia.
  fold Hss_inv. fold sys. fold x.
  unfold mat_vec, vec_sub, tail, segment, block, sumZ. cbn [vcoef vsize coef rows cols].
  rewrite Hc, Hb. replace (n + m - m)%Z with n by lia.
  reflexivity.
Qed.

(** With a factorisation that solves the reduced system, the step of
  [SolveLinearWithSchur] solves the pose rows of the system damped by
  [currentLambda_]; with block inverses that invert the landmark block,
  it solves the landmark rows of the system, which are not damped. *)
Theorem SolveLinearWithSchur_solves (p : Problem) (Hessian : MatXX) (b delta_x : VecX)
      (n m : Z) (sv : list N) (lambda : R) :
(0 <= n)%Z -> (0 <= m)%Z -> vsize delta_x = (n + m)%Z -> vsize b = (n + m)%Z ->
let Hss := block Hessian n n m m in
let Hss_inv := Schur_Hss_inv inverse p Hessian n m sv in
let sys := Schur_system inverse p Hessian b n m sv in
let d := SolveLinearWithSchur ldlt_solve inverse p Hessian b delta_x n m sv lambda in
(forall i, (0 <= i < n)%Z ->
   vcoef (mat_vec (fst sys) (ldlt_solve (fst sys) (snd sys))) i = vcoef (snd sys) i) ->
(forall i, (0 <= i < n)%Z ->
   sumZ (n + m) (fun j => coef Hessian i j * vcoef d j) + currentLambda_ p * vcoef d i
   = vcoef b i)
/\ ((forall i l, (0 <= i < m)%Z -> (0 <= l < m)%Z ->
       coef (mat_mul Hss Hss_inv) i l = if (i =? l)%Z then 1 else 0) ->
    forall i, (n <= i < n + m)%Z ->
      sumZ (n + m) (fun j => coef Hessian i j * vcoef d j) = vcoef b i).
Proof.
intros Hn Hm Hd Hb Hss Hss_inv sys d Hsolve.
destruct (SolveLinearWithSchur_coef p Hessian b delta_x n m sv lambda Hn Hm Hd Hb)
  as (_ & Hx & Hl).
fold Hss_inv in Hl. fold sys in Hx, Hl. fold d in Hx, Hl.
destruct (Schur_Hss_inv_dims p Hessian n m sv) as [Hr Hc]. fold Hss_inv in Hr, Hc.
set (x := ldlt_solve (fst sys) (snd sys)) in *.
set (v := fun l => vcoef b (n + l)
                   - sum_upto (Z.to_nat n) (fun j => coef Hessian (n + l) j * vcoef x j))
  in *.
assert (Split : forall i,
           sumZ (n + m) (fun j => coef Hessian i j * vcoef d j)
           = sum_upto (Z.to_nat n) (fun j => coef Hessian i j * vcoef x j)
             + sum_upto (Z.to_nat m)
                 (fun k => coef Hessian i (n + k)
                           * sum_upto (Z.to_nat m) (fun l => coef Hss_inv k l * v l))).
{ intros i. unfold sumZ. rewrite Z2Nat.inj_add by lia. rewrite sum_upto_app.
  rewrite Z2Nat.id by lia. f_equal.
  - apply sum_upto_ext. intros j Hj. rewrite Hx by lia. reflexivity.
  - apply sum_upto_ext. intros k Hk. rewrite Hl by lia. reflexivity. }
split.
- intros i Hi. rewrite Split, (Hx i Hi).
  specialize (Hsolve i Hi). fold x in Hsolve.
  unfold sys, Schur_system in Hsolve. cbn [fst snd] in Hsolve. fold Hss_inv in Hsolve.
  unfold mat_vec, diag_add, mat_sub, mat_mul, vec_sub, head, tail, segment, block, sumZ
    in Hsolve.
  cbn [vcoef vsize coef rows cols] in Hsolve. rewrite Hc, Hb in Hsolve.
  replace (n + m - m)%Z with n in Hsolve by lia.
  cbn [Z.add] in Hsolve.
  set (T := fun l => sum_upto (Z.to_nat m)
                       (fun k => coef Hessian i (n + k) * coef Hss_inv k l)) in *.
  rewrite (sum_upto_ext (Z.to_nat n) _
             (fun k => (coef Hessian i k * vcoef x k
                        - sum_upto (Z.to_nat m)
                            (fun l => T l * coef Hessian (n + l) k) * vcoef x k)
                       + (if (i =? k)%Z then currentLambda_ p * vcoef x k else 0)))
    in Hsolve.
  2:{ intros k Hk. unfold in_range.
      destruct (Z.leb_spec 0 i); [|lia]. destruct (Z.ltb_spec i (0 + n)); [|lia].
      unfold T. destruct (i =? k)%Z; cbn [andb]; ring. }
  rewrite sum_upto_plus, sum_upto_minus in Hsolve.
  rewrite (sum_upto_single (Z.to_nat n) i
             (fun k => if (i =? k)%Z then currentLambda_ p * vcoef x k else 0))
    in Hsolve
    by first [lia | intros l _ Hne; destruct (Z.eqb_spec i l); [congruence|reflexivity]].
  rewrite Z.eqb_refl in Hsolve.
  rewrite sum_upto_assoc in Hsolve.
  rewrite (sum_upto_ext (Z.to_nat m)
             (fun k => coef Hessian i (n + k)
                       * sum_upto (Z.to_nat m) (fun l => coef Hss_inv k l * v l))
             (fun k => sum_upto (Z.to_nat m)
                         (fun l => coef Hessian i (n + k) * coef Hss_inv k l * v l))).
  2:{ intros k _. rewrite sum_upto_mult_l. apply sum_upto_ext. intros l _. ring. }
  rewrite sum_upto_swap.
  rewrite (sum_upto_ext (Z.to_nat m)
             (fun l => sum_upto (Z.to_nat m)
                         (fun k => coef Hessian i (n + k) * coef Hss_inv k l * v l))
             (fun l => T l * vcoef b (n + l)
                       - T l * sum_upto (Z.to_nat n)
                                 (fun j => coef Hessian (n + l) j * vcoef x j))).
  2:{ intros l _. rewrite <- sum_upto_mult_r. unfold T, v. ring. }
  rewrite sum_upto_minus. unfold T in Hsolve |- *. cbv beta in Hsolve |- *. lra.
- intros Hinv i Hi. rewrite Split.
  rewrite (sum_upto_ext (Z.to_nat m)
             (fun k => coef Hessian i (n + k)
                       * sum_upto (Z.to_nat m) (fun l => coef Hss_inv k l * v l))
             (fun k => sum_upto (Z.to_nat m)
                         (fun l => coef Hessian i (n + k) * coef Hss_inv k l * v l))).
  2:{ intros k _. rewrite sum_upto_mult_l. apply sum_upto_ext. intros l _. ring. }
  rewrite sum_upto_swap.
  rewrite (sum_upto_ext (Z.to_nat m)
             (fun l => sum_upto (Z.to_nat m)
                         (fun k => coef Hessian i (n + k) * coef Hss_inv k l * v l))
             (fun l => if (l =? i - n)%Z then v l else 0)).
  2:{ intros l Hl'. rewrite <- sum_upto_mult_r.
      specialize (Hinv (i - n)%Z l ltac:(lia) ltac:(lia)).
      unfold mat_mul, Hss, block, sumZ in Hinv. cbn [coef rows cols] in Hinv.
      replace (n + (i - n))%Z with i in Hinv by lia.
      rewrite Hinv. rewrite (Z.eqb_sym l). destruct (i - n =? l)%Z; ring. }
  rewrite (sum_upto_single (Z.to_nat m) (i - n)%Z
             (fun l => if (l =? i - n)%Z then v l else 0))
    by first [lia | intros l _ Hne; destruct (Z.eqb_spec l (i - n)); [congruence|reflexivity]].
  rewrite Z.eqb_refl. unfold v. replace (n + (i - n))%Z with i by lia. lra.
Qed.

End Schur.

(** * The blocks of the assembled Hessian *)

Lemma sum_list_cons {A : Type} (f : A -> R) (x : A) (l : list A) :
  sum_list f (x :: l) = f x + sum_list f l.
Proof. reflexivity. Qed.

Lemma sum_list_zero {A : Type} (l : list A) : sum_list (fun _ => 0) l = 0.
Proof. unfold sum_list. induction l as [|x l IH]; cbn [fold_right]; lra. Qed.

Lemma sum_list_ext {A : Type} (f g : A -> R) (l : list A) :
  (forall x, In x l -> f x = g x) -> sum_list f l = sum_list g l.
Proof.
  unfold sum_list. induction l as [|x l IH]; intros H; cbn [fold_right]; [reflexivity|].
  rewrite (H x) by (left; reflexivity). rewrite IH by (intros y Hy; apply H; right; exact Hy).
  reflexivity.
Qed.

Lemma sum_list_plus {A : Type} (f g : A -> R) (l : list A) :
  sum_list (fun x => f x + g x) l = sum_list f l + sum_list g l.
Proof. unfold sum_list. induction l as [|x l IH]; cbn [fold_right]; [lra|]. rewrite IH. lra. Qed.






(** * The assembled Hessian is positive semi-definite *)

(** ** Sums over lists and over ranges *)



Lemma sum_list_swap {A B : Type} (f : A -> B -> R) (l : list A) (l' : list B) :
  sum_list (fun x => sum_list (fun y => f x y) l') l
  = sum_list (fun y => sum_list (fun x => f x y) l) l'.
Proof.
  induction l as [|x l IH].
  - unfold sum_list at 1 3. cbn [fold_right]. symmetry. apply sum_list_zero.
  - rewrite sum_list_cons, IH, <- sum_list_plus. apply sum_list_ext. intros y _.
    rewrite sum_list_cons. reflexivity.
Qed.






(** ** The quadratic form of a block *)


(** ** The data model of the edges *)












(** ** The prior *)




(** ** The assembled Hessian *)



(** * The assembled Hessian, block by block *)



(** * The Dog-Leg step on an assembled system *)


Section DogLegAssembled.
Variable ldlt_solve : MatXX -> VecX -> VecX.
Variable inverse : MatXX -> MatXX.



End DogLegAssembled.

(** * The run and the values it computes *)



(** ** The assertions of the assembler *)


Lemma same_ids_refl st : same_ids st st.
Proof. intros k. split; reflexivity. Qed.







(** ** The assembler *)








(** ** The steps of a driver keep the graph *)

Lemma same_graph_refl p : same_graph p p.
Proof. split; [reflexivity|apply same_ids_refl]. Qed.














Section RunDrivers.
Variable ldlt_solve : MatXX -> VecX -> VecX.
Variable inverse : MatXX -> MatXX.



(** ** The Levenberg-Marquardt driver *)






(** ** The Dog-Leg driver *)

(** [SolveDogLegStep] as it runs, when the assertion holds in the third
    case. *)
Lemma Run_SolveDogLegStep_assert (p : Problem) :
  let q := SolveDogLegStep ldlt_solve inverse p in
  (norm (h_gn_ q) > currentRadius_ p -> alpha_ q * norm (h_sd_ q) < currentRadius_ p ->
   DogLeg_beta_assert (beta_ q)) ->
  Run.SolveDogLegStep ldlt_solve inverse p = Some q.
Proof.
  unfold Run.SolveDogLegStep, SolveDogLegStep, DogLeg_beta_assert.
  destruct (problemType_ _); cbn;
    destruct (Rle_dec _ _) as [H1|H1]; cbn; try (intros; reflexivity);
    destruct (Rge_dec _ _) as [H2|H2]; cbn; try (intros; reflexivity);
    intros H; destruct H as [Hb0 Hb1]; try lra;
    rewrite (proj2 (Rltb_true _ _) Hb0), (proj2 (Rltb_true _ _) Hb1); reflexivity.
Qed.

(** When the assertion fails in the third case the run ends. *)
Lemma Run_SolveDogLegStep_abort (p : Problem) :
  let q := SolveDogLegStep ldlt_solve inverse p in
  norm (h_gn_ q) > currentRadius_ p -> alpha_ q * norm (h_sd_ q) < currentRadius_ p ->
  ~ DogLeg_beta_assert (beta_ q) ->
  Run.SolveDogLegStep ldlt_solve inverse p = None.
Proof.
  unfold Run.SolveDogLegStep, SolveDogLegStep, DogLeg_beta_assert.
  destruct (problemType_ _); cbn;
    destruct (Rle_dec _ _) as [H1|H1]; cbn; try (intros; lra);
    destruct (Rge_dec _ _) as [H2|H2]; cbn; try (intros; lra);
    intros _ _ H;
    match goal with
    | |- context [Rltb 0 ?b && Rltb ?b 1] =>
        destruct (Rltb 0 b) eqn:E0; [|reflexivity];
        destruct (Rltb b 1) eqn:E1; [|reflexivity];
        exfalso; apply H; split; [apply Rltb_true in E0|apply Rltb_true in E1]; lra
    end.
Qed.

End RunDrivers.

Section RunDogLeg.
Variable ldlt_solve : MatXX -> VecX -> VecX.
Variable inverse : MatXX -> MatXX.

(** [A.ldlt().solve(b)] returns a vector of the size of [b]. *)
Hypothesis solve_size : forall A b, rows A = vsize b -> vsize (ldlt_solve A b) = vsize b.







End RunDogLeg.

(** * What a call of [Solve] returns *)

Section SolveRun.
Variable ldlt_solve : MatXX -> VecX -> VecX.
Variable inverse : MatXX -> MatXX.




(** [SolveDogLegStep] as it runs either computes the value of the step or
    is ended, and it is ended exactly when the step is in the third case
    ([|h_gn| > radius] and [alpha |h_sd| < radius]) and the computed
    [beta_] is not in the asserted interval (0, 1). *)
Theorem SolveDogLegStep_run (p : Problem) :
  let q := SolveDogLegStep ldlt_solve inverse p in
  (Run.SolveDogLegStep ldlt_solve inverse p = Some q
   \/ Run.SolveDogLegStep ldlt_solve inverse p = None)
  /\ (Run.SolveDogLegStep ldlt_solve inverse p = None
      <-> norm (h_gn_ q) > currentRadius_ p
          /\ alpha_ q * norm (h_sd_ q) < currentRadius_ p
          /\ ~ DogLeg_beta_assert (beta_ q)).
Proof.
  intros q.
  assert (Hsome : (norm (h_gn_ q) > currentRadius_ p ->
                   alpha_ q * norm (h_sd_ q) < currentRadius_ p ->
                   DogLeg_beta_assert (beta_ q)) ->
                  Run.SolveDogLegStep ldlt_solve inverse p = Some q)
    by apply Run_SolveDogLegStep_assert.
  assert (Hnone : norm (h_gn_ q) > currentRadius_ p ->
                  alpha_ q * norm (h_sd_ q) < currentRadius_ p ->
                  ~ DogLeg_beta_assert (beta_ q) ->
                  Run.SolveDogLegStep ldlt_solve inverse p = None)
    by apply Run_SolveDogLegStep_abort.
  clearbody q.
  destruct (Rle_dec (norm (h_gn_ q)) (currentRadius_ p)) as [H1|H1].
  { rewrite Hsome by (intros; lra). split; [left; reflexivity|].
    split; [discriminate|]. intros (Hgn & _). lra. }
  destruct (Rge_dec (alpha_ q * norm (h_sd_ q)) (currentRadius_ p)) as [H2|H2].
  { rewrite Hsome by (intros; lra). split; [left; reflexivity|].
    split; [discriminate|]. intros (_ & Hsd & _). lra. }
  destruct (Rlt_dec 0 (beta_ q)) as [B0|B0]; [destruct (Rlt_dec (beta_ q) 1) as [B1|B1]|].
  - rewrite Hsome by (intros; split; lra). split; [left; reflexivity|].
    split; [discriminate|]. intros (_ & _ & Hn). exfalso. apply Hn. split; lra.
  - assert (Hn : ~ DogLeg_beta_assert (beta_ q)) by (intros [_ Hb]; lra).
    rewrite Hnone by (lra || exact Hn). split; [right; reflexivity|].
    split; [intros _|reflexivity]. split; [lra|]. split; [lra|exact Hn].
  - assert (Hn : ~ DogLeg_beta_assert (beta_ q)) by (intros [Hb _]; lra).
    rewrite Hnone by (lra || exact Hn). split; [right; reflexivity|].
    split; [intros _|reflexivity]. split; [lra|]. split; [lra|exact Hn].
Qed.

End SolveRun.

(** * The properties at example inputs *)

Lemma AddEdge_again_duplicates_witness :
  edge_mem (e_id binary_edge) (edges_ chain_vertices) = false
  /\ List.length
       (filter (fun x => (e_id x =? e_id binary_edge)%N)
               (GetConnectedEdges 0
                  (snd (AddEdge binary_edge
                          (snd (RemoveEdge binary_edge
                                  (snd (AddEdge binary_edge chain_vertices))))))))
     = 2%nat.
Proof.
  split; [reflexivity|].
  pose proof (AddEdge_again_duplicates binary_edge 0%N chain_vertices eq_refl) as H.
  cbv zeta in H. rewrite H. reflexivity.
Defined.

Lemma AddVertex_RemoveVertex_prior_witness :
  key_mem 0 (verticies_ (empty_problem SLAM_PROBLEM slam_store)) = false
  /\ rows (H_prior_ (snd (AddVertex 0
                            (snd (RemoveVertex 0
                                    (snd (AddVertex 0
                                            (empty_problem SLAM_PROBLEM slam_store))))))))
     = 12%Z.
Proof.
  split; [reflexivity|].
  pose proof (AddVertex_RemoveVertex_prior 0%N (empty_problem SLAM_PROBLEM slam_store)
                eq_refl) as H.
  cbv zeta in H. destruct H as (_ & _ & _ & H). rewrite H. reflexivity.
Defined.

Lemma chain_graph_index :
  edge_index_complete (snd (AddEdge binary_edge chain_vertices)).
Proof.
  apply AddEdge_index. unfold chain_vertices.
  apply AddVertex_index, AddVertex_index, empty_problem_index.
Qed.

Lemma RemoveVertex_removes_incident_edges_witness :
  edge_index_complete (snd (AddEdge binary_edge chain_vertices))
  /\ GetConnectedEdges 0 (snd (RemoveVertex 0 (snd (AddEdge binary_edge chain_vertices))))
     = []
  /\ forall e,
       In e (edges_ (snd (RemoveVertex 0 (snd (AddEdge binary_edge chain_vertices))))) ->
       ~ In 0%N (e_verticies e).
Proof.
  split; [exact chain_graph_index|].
  pose proof (RemoveVertex_removes_incident_edges
                0%N (snd (AddEdge binary_edge chain_vertices)) chain_graph_index) as H.
  cbv zeta in H. destruct H as [_ H].
  destruct (H eq_refl) as (_ & _ & _ & He & _ & Hg & _).
  split; [exact Hg|]. intros e Hin. apply (He e Hin).
Defined.

Lemma slam_example_graph : graph_consistent slam_example.
Proof.
  unfold slam_example.
  apply AddVertex_consistent, AddVertex_consistent, AddVertex_consistent,
    AddVertex_consistent, empty_problem_consistent.
Qed.

Lemma slam_example_pose_index : pose_index_consistent slam_example.
Proof.
  unfold slam_example.
  apply AddVertex_pose_index, AddVertex_pose_index, AddVertex_pose_index,
    AddVertex_pose_index, empty_problem_pose_index.
Qed.

Lemma CheckOrdering_after_SetOrdering_witness :
  graph_consistent slam_example /\ pose_index_consistent slam_example
  /\ CheckOrdering_asserts (SetOrdering slam_example) = true.
Proof.
  split; [exact slam_example_graph|]. split; [exact slam_example_pose_index|].
  exact (CheckOrdering_after_SetOrdering slam_example slam_example_graph
           slam_example_pose_index).
Defined.

Lemma ExtendHessiansPriorSize_zero_fills_witness :
  (0 <= 6)%Z
  /\ rows (H_prior_ prior_example) = cols (H_prior_ prior_example)
  /\ vsize (b_prior_ prior_example) = rows (H_prior_ prior_example)
  /\ rows (H_prior_ (ExtendHessiansPriorSize 6 (fun _ _ => 1) (fun _ => 1) prior_example))
     = 7%Z
  /\ coef (H_prior_ (ExtendHessiansPriorSize 6 (fun _ _ => 1) (fun _ => 1) prior_example))
          3 3 = 0.
Proof.
  assert (H0 : (0 <= 6)%Z) by lia.
  pose proof (ExtendHessiansPriorSize_zero_fills 6 (fun _ _ => 1) (fun _ => 1) prior_example
                H0 eq_refl eq_refl) as H.
  cbv zeta in H. destruct H as (Hr & _ & _ & Hc & _).
  split; [exact H0|]. split; [reflexivity|]. split; [reflexivity|].
  split; [rewrite Hr; reflexivity|].
  rewrite (Hc 3%Z 3%Z) by (change (rows (H_prior_ prior_example)) with 1%Z; lia).
  reflexivity.
Defined.

Lemma IsGoodStepInLM_cost_witness :
  LM_scale lm_step_example <> 0
  /\ currentChi_ (snd (IsGoodStepInLM lm_step_example)) <= currentChi_ lm_step_example.
Proof.
  assert (Hs : LM_scale lm_step_example <> 0) by (rewrite lm_step_example_scale; lra).
  pose proof (IsGoodStepInLM_cost lm_step_example Hs) as H.
  cbv zeta in H. destruct H as (_ & _ & _ & _ & H).
  split; [exact Hs|]. apply H. rewrite lm_step_example_scale. lra.
Defined.

Lemma dogleg_interior_example_step :
  let q := SolveDogLegStep diag_solve diag_inverse dogleg_interior_example in
  vsize (h_sd_ q) = vsize (h_gn_ q) /\ 0 <= alpha_ q.
Proof.
  intros q.
  destruct (SolveDogLegStep_gn diag_solve diag_inverse dogleg_interior_example)
    as [Egn Ealpha].
  destruct (SolveDogLegStep_frame diag_solve diag_inverse dogleg_interior_example)
    as (_ & _ & Esd & _).
  fold q in Egn, Ealpha, Esd.
  split; [rewrite Esd, Egn; reflexivity|].
  rewrite Ealpha. eval_sums. lra.
Qed.

Lemma SolveDogLegStep_within_radius_witness :
  let q := SolveDogLegStep diag_solve diag_inverse dogleg_interior_example in
  0 < currentRadius_ dogleg_interior_example
  /\ vsize (h_sd_ q) = vsize (h_gn_ q)
  /\ 0 <= alpha_ q
  /\ norm (delta_x_ q) <= currentRadius_ dogleg_interior_example.
Proof.
  intros q. destruct dogleg_interior_example_step as [Hsz Ha]. fold q in Hsz, Ha.
  assert (Hr : 0 < currentRadius_ dogleg_interior_example) by (cbn; lra).
  split; [exact Hr|]. split; [exact Hsz|]. split; [exact Ha|].
  apply (SolveDogLegStep_within_radius diag_solve diag_inverse dogleg_interior_example
           Hr Hsz (fun _ _ => Ha)).
Defined.

Lemma lm_step_example_dogleg_scale : DogLeg_scale lm_step_example = 0.9.
Proof. reflexivity. Qed.

Lemma IsGoodStepInDogLeg_rule_witness :
  DogLeg_scale lm_step_example <> 0
  /\ fst (IsGoodStepInDogLeg lm_step_example) = true
  /\ currentChi_ (snd (IsGoodStepInDogLeg lm_step_example)) = tempChi_of lm_step_example.
Proof.
  assert (Hs : DogLeg_scale lm_step_example <> 0)
    by (rewrite lm_step_example_dogleg_scale; lra).
  pose proof (IsGoodStepInDogLeg_rule lm_step_example Hs) as H.
  cbv zeta in H. destruct H as (Hacc & Hchi & _).
  assert (Ht : fst (IsGoodStepInDogLeg lm_step_example) = true).
  { apply Hacc. rewrite lm_step_example_dogleg_scale.
    unfold tempChi_of, sum_robust_chi2. cbn.
    replace (0 * 0.5) with 0 by lra. rewrite Rabs_R0. split; [lra|].
    unfold DBL_MAX. apply IZR_le. lia. }
  split; [exact Hs|]. split; [exact Ht|]. exact (Hchi Ht).
Defined.

Lemma PCGSolver_diagonal_returns_zero_witness :
  rows (diag2 2 4) = vsize (vec2 2 4) /\ cols (diag2 2 4) = vsize (vec2 2 4)
  /\ (forall i, (0 <= i < vsize (vec2 2 4))%Z -> coef (diag2 2 4) i i <> 0)
  /\ (forall i j, (0 <= i < vsize (vec2 2 4))%Z -> (0 <= j < vsize (vec2 2 4))%Z ->
        i <> j -> coef (diag2 2 4) i j = 0)
  /\ dot (vec2 2 4) (mat_vec (PCG_M_inv (diag2 2 4)) (vec2 2 4)) <> 0
  /\ PCGSolver (diag2 2 4) (vec2 2 4) (-1) = vec_zero 2.
Proof.
  assert (Hd : forall i, (0 <= i < vsize (vec2 2 4))%Z -> coef (diag2 2 4) i i <> 0).
  { intros i Hi. cbn in Hi. cbn. rewrite Z.eqb_refl. destruct (i =? 0)%Z; lra. }
  assert (Ho : forall i j, (0 <= i < vsize (vec2 2 4))%Z -> (0 <= j < vsize (vec2 2 4))%Z ->
                 i <> j -> coef (diag2 2 4) i j = 0).
  { intros i j _ _ Hij. cbn. destruct (Z.eqb_spec i j); [contradiction|reflexivity]. }
  assert (Hb : dot (vec2 2 4) (mat_vec (PCG_M_inv (diag2 2 4)) (vec2 2 4)) <> 0).
  { unfold PCG_M_inv, diagonal, cwiseInverse, asDiagonal, mat_vec. eval_sums. lra. }
  split; [reflexivity|]. split; [reflexivity|]. split; [exact Hd|]. split; [exact Ho|].
  split; [exact Hb|].
  apply (PCGSolver_diagonal_returns_zero (diag2 2 4) (vec2 2 4) (-1) eq_refl eq_refl Hd Ho Hb).
Defined.

Lemma Marginalize_move_permutes_witness :
  (0 <= 0)%Z /\ (0 <= 1)%Z /\ (0 + 1 <= 3)%Z
  /\ vcoef (snd (Marginalize_move 3 0 1 numbered_system)) 2 = 0
  /\ coef (fst (Marginalize_move 3 0 1 numbered_system)) 0 2 = 3.
Proof.
  assert (H0 : (0 <= 0)%Z) by lia. assert (H1 : (0 <= 1)%Z) by lia.
  assert (H2 : (0 + 1 <= 3)%Z) by lia.
  pose proof (Marginalize_move_permutes 3 0 1 numbered_system H0 H1 H2) as H.
  cbv zeta in H. destruct H as (_ & _ & _ & Hc & Hv & _).
  split; [exact H0|]. split; [exact H1|]. split; [exact H2|]. split.
  - rewrite (Hv 2%Z) by lia. reflexivity.
  - rewrite (Hc 0%Z 2%Z) by lia. reflexivity.
Defined.

Lemma Marginalize_move_all_permutes_witness :
  (forall v, In v [0%N; 1%N] ->
     (0 <= v_ordering_id (marg_store v))%Z /\ (0 <= v_local_dimension (marg_store v))%Z
     /\ (v_ordering_id (marg_store v) + v_local_dimension (marg_store v) <= 4)%Z)
  /\ snd (Marginalize_move_all marg_store 4 [0%N; 1%N] numbered_system4) = 2%Z
  /\ map (move_all_index marg_store 4 (rev [0%N; 1%N])) [0; 1; 2; 3]%Z = [1; 3; 2; 0]%Z
  /\ coef (fst (fst (Marginalize_move_all marg_store 4 [0%N; 1%N] numbered_system4))) 0 1 = 7
  /\ coef (fst (fst (Marginalize_move_all marg_store 4 [0%N; 1%N] numbered_system4))) 1 2 = 14
  /\ coef (fst (fst (Marginalize_move_all marg_store 4 [0%N; 1%N] numbered_system4))) 3 3 = 0
  /\ vcoef (snd (fst (Marginalize_move_all marg_store 4 [0%N; 1%N] numbered_system4))) 1 = 3.
Proof.
  assert (Hv : forall v, In v [0%N; 1%N] ->
     (0 <= v_ordering_id (marg_store v))%Z /\ (0 <= v_local_dimension (marg_store v))%Z
     /\ (v_ordering_id (marg_store v) + v_local_dimension (marg_store v) <= 4)%Z).
  { intros v [<-|[<-|[]]]; cbn; lia. }
  pose proof (Marginalize_move_all_permutes marg_store 4 [0%N; 1%N] numbered_system4 Hv)
    as H.
  cbv zeta in H. destruct H as (Hd & _ & Hc & Hb & _).
  split; [exact Hv|]. split; [rewrite Hd; reflexivity|]. split; [reflexivity|].
  split; [rewrite (Hc 0%Z 1%Z) by lia; reflexivity|].
  split; [rewrite (Hc 1%Z 2%Z) by lia; reflexivity|].
  split; [rewrite (Hc 3%Z 3%Z) by lia; reflexivity|].
  rewrite (Hb 1%Z) by lia. reflexivity.
Defined.

Lemma MakeHessianSingle_edge_order_witness :
  Permutation (edges_ (set_edges_ [binary_edge; second_edge] chain_example))
              [second_edge; binary_edge]
  /\ forall i j,
       coef (Hessian_ (MakeHessianSingle
                         (set_edges_ [second_edge; binary_edge]
                            (set_edges_ [binary_edge; second_edge] chain_example)))) i j
       = coef (Hessian_ (MakeHessianSingle
                           (set_edges_ [binary_edge; second_edge] chain_example))) i j.
Proof.
  assert (Hp : Permutation (edges_ (set_edges_ [binary_edge; second_edge] chain_example))
                           [second_edge; binary_edge]) by apply perm_swap.
  pose proof (MakeHessianSingle_edge_order
                (set_edges_ [binary_edge; second_edge] chain_example)
                [second_edge; binary_edge] Hp) as H.
  cbv zeta in H. destruct H as (_ & _ & _ & H & _).
  split; [exact Hp|exact H].
Defined.



Lemma thdCalcHessian_stale_id_witness :
  (0 <= 0)%Z /\ (1 <= 4)%Z
  /\ (0 < Z.of_nat (List.length (edges_ chain_example)))%Z
  /\ nth_error (edges_idx_ stale_workers) (Z.to_nat 0) = Some 7%N
  /\ edge_mem 7 (edges_ chain_example) = false
  /\ thdCalcHessian 0 4 chain_example stale_workers = None.
Proof.
  assert (H0 : (0 <= 0)%Z) by lia. assert (H1 : (1 <= 4)%Z) by lia.
  assert (H2 : (0 < Z.of_nat (List.length (edges_ chain_example)))%Z) by (cbn; lia).
  split; [exact H0|]. split; [exact H1|]. split; [exact H2|].
  split; [reflexivity|]. split; [reflexivity|].
  exact (thdCalcHessian_stale_id chain_example stale_workers 0 4 7%N H0 H1 H2
           eq_refl eq_refl).
Defined.

Lemma chain_example_ids : NoDup (map e_id (edges_ chain_example)).
Proof. cbn. constructor; [intros []|constructor]. Qed.

Lemma MakeHessianMulti_assembles_witness :
  NoDup (map e_id (edges_ chain_example))
  /\ firstn (List.length (edges_ chain_example))
            (edges_idx_ fresh_workers ++ map e_id (edges_ chain_example))
     = map e_id (edges_ chain_example)
  /\ exists q w',
       MakeHessianMulti chain_example fresh_workers = Some (q, w')
       /\ edges_idx_ w' = [0%N]
       /\ forall i j, coef (Hessian_ q) i j
                      = coef (Hessian_ (MakeHessianSingle chain_example)) i j.
Proof.
  pose proof (MakeHessianMulti_assembles chain_example fresh_workers
                chain_example_ids eq_refl) as H.
  cbv zeta in H. destruct H as (q & w' & E & Hi & _ & _ & _ & Hc & _).
  split; [exact chain_example_ids|]. split; [reflexivity|].
  exists q, w'. split; [exact E|]. split; [exact Hi|exact Hc].
Defined.

Lemma chain_two_edges_ids : NoDup (map e_id [binary_edge; second_edge]).
Proof.
  cbn. constructor; [intros [H|[]]; discriminate|]. constructor; [intros []|constructor].
Qed.

Lemma MakeHessianMulti_stale_ids_witness :
  edges_idx_ chain_workers = map e_id (edges_ chain_example)
  /\ Permutation [binary_edge; second_edge] (edges_ chain_example ++ [second_edge])
  /\ NoDup (map e_id [binary_edge; second_edge])
  /\ exists q w',
       MakeHessianMulti (set_edges_ [binary_edge; second_edge] chain_example) chain_workers
       = Some (q, w')
       /\ edges_idx_ w' = [0%N; 0%N; 1%N]
       /\ forall i j,
            coef (Hessian_ q) i j
            = coef (Hessian_ (MakeHessianSingle
                                (set_edges_ [binary_edge; second_edge] chain_example))) i j
              - edge_H (vertex_store chain_example) second_edge i j
              + edge_H (vertex_store chain_example) binary_edge i j.
Proof.
  assert (Hp : Permutation [binary_edge; second_edge]
                           (edges_ chain_example ++ [second_edge]))
    by apply Permutation_refl.
  pose proof (MakeHessianMulti_stale_ids chain_example chain_workers second_edge
                [binary_edge; second_edge] eq_refl Hp chain_two_edges_ids) as H.
  cbv zeta in H. destruct H as (q & w' & E & Hi & Hc & _).
  split; [reflexivity|]. split; [exact Hp|]. split; [exact chain_two_edges_ids|].
  exists q, w'. split; [exact E|]. split; [exact Hi|exact Hc].
Defined.

Lemma schur_example_system :
  coef (fst (Schur_system diag_inverse schur_problem schur_H (vec2 4 3) 1 1 [1%N])) 0 0
  = 5 / 2
  /\ rows (fst (Schur_system diag_inverse schur_problem schur_H (vec2 4 3) 1 1 [1%N])) = 1%Z
  /\ cols (fst (Schur_system diag_inverse schur_problem schur_H (vec2 4 3) 1 1 [1%N])) = 1%Z.
Proof.
  split; [|split; reflexivity].
  unfold Schur_system, Schur_Hss_inv. cbn [fst fold_left].
  unfold diag_add, mat_sub, mat_mul, block_set, block, diag_inverse. eval_sums. lra.
Qed.

Lemma SolveLinearWithSchur_solves_witness :
  (0 <= 1)%Z /\ vsize (vec_zero 2) = (1 + 1)%Z /\ vsize (vec2 4 3) = (1 + 1)%Z
  /\ (forall i, (0 <= i < 1)%Z ->
        vcoef (mat_vec (fst (Schur_system diag_inverse schur_problem schur_H (vec2 4 3)
                                          1 1 [1%N]))
                       (diag_solve
                          (fst (Schur_system diag_inverse schur_problem schur_H (vec2 4 3)
                                             1 1 [1%N]))
                          (snd (Schur_system diag_inverse schur_problem schur_H (vec2 4 3)
                                             1 1 [1%N])))) i
        = vcoef (snd (Schur_system diag_inverse schur_problem schur_H (vec2 4 3)
                                   1 1 [1%N])) i)
  /\ sumZ (1 + 1)
          (fun j => coef schur_H 0 j
                    * vcoef (SolveLinearWithSchur diag_solve diag_inverse schur_problem
                               schur_H (vec2 4 3) (vec_zero 2) 1 1 [1%N] 0) j)
     + currentLambda_ schur_problem
       * vcoef (SolveLinearWithSchur diag_solve diag_inverse schur_problem
                  schur_H (vec2 4 3) (vec_zero 2) 1 1 [1%N] 0) 0
     = vcoef (vec2 4 3) 0.
Proof.
  assert (H1 : (0 <= 1)%Z) by lia.
  assert (Hs : forall i, (0 <= i < 1)%Z ->
        vcoef (mat_vec (fst (Schur_system diag_inverse schur_problem schur_H (vec2 4 3)
                                          1 1 [1%N]))
                       (diag_solve
                          (fst (Schur_system diag_inverse schur_problem schur_H (vec2 4 3)
                                             1 1 [1%N]))
                          (snd (Schur_system diag_inverse schur_problem schur_H (vec2 4 3)
                                             1 1 [1%N])))) i
        = vcoef (snd (Schur_system diag_inverse schur_problem schur_H (vec2 4 3)
                                   1 1 [1%N])) i).
  { intros i Hi. replace i with 0%Z by lia.
    destruct schur_example_system as (E & Er & Ec).
    set (sys := Schur_system diag_inverse schur_problem schur_H (vec2 4 3) 1 1 [1%N]) in *.
    unfold mat_vec, diag_solve, sumZ. cbn [vcoef]. rewrite Ec.
    change (Z.to_nat 1) with 1%nat.
    cbn [sum_upto Z.of_nat]. rewrite E. field. }
  split; [exact H1|]. split; [reflexivity|]. split; [reflexivity|]. split; [exact Hs|].
  pose proof (SolveLinearWithSchur_solves diag_solve diag_inverse schur_problem schur_H
                (vec2 4 3) (vec_zero 2) 1 1 [1%N] 0 H1 H1 eq_refl eq_refl) as H.
  cbv zeta in H. destruct (H Hs) as [Hp _]. apply Hp. lia.
Defined.

Lemma prior_example_symmetric : symmetric (H_prior_ prior_example).
Proof.
  split; [reflexivity|]. intros i j Hi Hj. cbn in Hi, Hj.
  replace i with 0%Z by lia. replace j with 0%Z by lia. reflexivity.
Qed.

Lemma AddVertex_prior_symmetric_witness :
  symmetric (H_prior_ prior_example)
  /\ symmetric (H_prior_ (snd (AddVertex 1 prior_example)))
  /\ rows (H_prior_ (snd (AddVertex 1 prior_example))) = 17%Z.
Proof.
  split; [exact prior_example_symmetric|]. split; [|reflexivity].
  exact (AddVertex_prior_symmetric 1%N prior_example prior_example_symmetric).
Defined.

(** * The assembled chain *)



(** * A Dog-Leg step in the third case *)






(** * Runs of [Solve] *)








